(** * Unstructured grids: VTU and PolyMesh codecs

    A shallow embedding of the import and export routines of
    [io_vtu.py] and [io_polymesh.py], and the properties of the
    face deduplication, polyhedron decoding and PolyMesh
    serialisation that follow from the code. *)

From Stdlib Require Import Ascii.
From stdpp Require Import base option list sorting strings pretty gmap fin_maps.

Open Scope Z_scope.

(** ** The fragment of Python the codecs rely on *)

Module Py.

(** Exceptions raised by the modelled code.  A [ValueError] carries
    the message text the source builds. *)
Inductive exn : Type :=
| IndexError
| ValueError (msg : string).

Inductive result (A : Type) : Type :=
| Ok (a : A)
| Raise (e : exn).
Global Arguments Ok {A} a.
Global Arguments Raise {A} e.

(** Code that mutates the module-level collections and may raise: the
    store is threaded through and survives an exception, as the
    mutations made before a [raise] do in Python. *)
Definition M (S A : Type) : Type := S → S * result A.

Definition ret {S A} (a : A) : M S A := λ s, (s, Ok a).
Definition raise {S A} (e : exn) : M S A := λ s, (s, Raise e).
Definition bind {S A B} (m : M S A) (k : A → M S B) : M S B :=
  λ s, match m s with
       | (s', Ok a) => k a s'
       | (s', Raise e) => (s', Raise e)
       end.
Definition get {S} : M S S := λ s, (s, Ok s).
Definition modify {S} (f : S → S) : M S unit := λ s, (f s, Ok tt).
Definition lift {S A} (r : result A) : M S A := λ s, (s, r).

(** [for x in xs: body x] *)
Fixpoint for_ {S A} (xs : list A) (body : A → M S unit) : M S unit :=
  match xs with
  | [] => ret tt
  | x :: xs' => bind (body x) (λ _, for_ xs' body)
  end.

(** The position an index [i] denotes in a sequence of length [n]: a
    negative index counts from the end, anything out of range raises
    [IndexError]. *)
Definition position (n : nat) (i : Z) : result nat :=
  let j := if decide (i < 0) then i + Z.of_nat n else i in
  if decide (0 ≤ j < Z.of_nat n) then Ok (Z.to_nat j) else Raise IndexError.

(** [l[i]] *)
Definition getitem {A} (l : list A) (i : Z) : result A :=
  match position (length l) i with
  | Raise e => Raise e
  | Ok k =>
      match l !! k with
      | Some x => Ok x
      | None => Raise IndexError
      end
  end.

(** [l[i].field = ...] or [l[i].field.append(...)]: the element at
    index [i] is changed in place by [f]. *)
Definition setitem_with {A} (f : A → A) (l : list A) (i : Z) : result (list A) :=
  match position (length l) i with
  | Raise e => Raise e
  | Ok k => Ok (alter f k l)
  end.

(** The line feed character, as a string. *)
Definition nl : string := String "010"%char "".

(** The bound of a slice [l[a:b]], clamped as Python clamps it. *)
Definition clamp (n : nat) (i : Z) : nat :=
  if decide (i < 0) then Z.to_nat (Z.max 0 (i + Z.of_nat n))
  else Z.to_nat (Z.min i (Z.of_nat n)).

(** [l[a:b]] *)
Definition slice {A} (l : list A) (a b : Z) : list A :=
  let lo := clamp (length l) a in
  let hi := clamp (length l) b in
  take (hi - lo)%nat (drop lo l).

(** [range(n)] *)
Definition range (n : Z) : list Z := Z.of_nat <$> seq 0 (Z.to_nat n).

(** [str(i)] for an integer. *)
Definition str (i : Z) : string := pretty i.

(** [" ".join(map(str, l))] and friends. *)
Fixpoint join (sep : string) (l : list string) : string :=
  match l with
  | [] => ""
  | [s] => s
  | s :: l' => s +:+ sep +:+ join sep l'
  end.

(** [str(l)] for a list of integers: ["[1, 2, 3]"]. *)
Definition str_list (l : list Z) : string :=
  "[" +:+ join ", " (str <$> l) +:+ "]".

(** [max(l)]; an empty sequence raises [ValueError]. *)
Definition max (l : list Z) : result Z :=
  match l with
  | [] => Raise (ValueError "max() arg is an empty sequence")
  | x :: l' => Ok (foldl Z.max x l')
  end.

End Py.

Global Instance M_ret {S} : MRet (Py.M S) := @Py.ret S.
Global Instance M_bind {S} : MBind (Py.M S) := λ A B k m, Py.bind m k.


(** ** io_vtu.py: VTK Unstructured Grid import and export *)

Module io_vtu.

(** Modelled from the spec: class [UGFace] of the module [ug] that
    [io_vtu.py] imports.  A face keeps its vertex references in
    creation order (the winding), an owner cell and an optional
    neighbour cell; cells are referred to by their position in
    [ug.ugcells] and vertices by their absolute index. *)
Module UGFace.
Record t : Type := mk {
  ugverts : list Z;
  owner : option nat;
  neighbour : option nat;
}.
(** [ugf.is_boundary_face()]: no neighbour. *)
Definition is_boundary_face (f : t) : bool :=
  match neighbour f with None => true | Some _ => false end.
End UGFace.

(** Modelled from the spec: class [UGCell] of [ug.py]: the faces of
    the cell (positions in [ug.ugfaces]), the vertices derived from
    them, and the deletion flag. *)
Module UGCell.
Record t : Type := mk {
  ugfaces : list nat;
  ugverts : list Z;
  deleted : bool;
}.
End UGCell.

(** The module-level collections [ug.ugfaces] and [ug.ugcells]. *)
Record ug : Type := mk_ug {
  ugfaces : list UGFace.t;
  ugcells : list UGCell.t;
}.

Definition ug_empty : ug := {| ugfaces := []; ugcells := [] |}.

(** Modelled from the spec: the constructor [ug.UGCell()] registers
    the new, empty cell in [ug.ugcells] (the export routines walk
    that list and nothing in [io_vtu.py] appends to it) and the cell
    is known by its position there. *)
Definition UGCell_new : Py.M ug nat := λ st,
  ({| ugfaces := ugfaces st;
      ugcells := ugcells st ++ [UGCell.mk [] [] false] |},
   Py.Ok (length (ugcells st))).

(** Modelled from the spec: the constructor [ug.UGFace(verts)]
    registers a face with the given vertex order, no owner and no
    neighbour in [ug.ugfaces]. *)
Definition UGFace_new (verts : list Z) : Py.M ug nat := λ st,
  ({| ugfaces := ugfaces st ++ [UGFace.mk verts None None];
      ugcells := ugcells st |},
   Py.Ok (length (ugfaces st))).

(** [ugf.owner = c] *)
Definition set_owner (ugf c : nat) : Py.M ug unit :=
  Py.modify (λ st,
    {| ugfaces := alter (λ f, UGFace.mk (UGFace.ugverts f) (Some c)
                                        (UGFace.neighbour f)) ugf (ugfaces st);
       ugcells := ugcells st |}).

(** [ugf.neighbour = c] *)
Definition set_neighbour (ugf c : nat) : Py.M ug unit :=
  Py.modify (λ st,
    {| ugfaces := alter (λ f, UGFace.mk (UGFace.ugverts f) (UGFace.owner f)
                                        (Some c)) ugf (ugfaces st);
       ugcells := ugcells st |}).

(** Vertices of [vs] not yet in [acc] are appended to it, in order. *)
Definition add_verts (acc vs : list Z) : list Z :=
  foldl (λ a v, if decide (v ∈ a) then a else a ++ [v]) acc vs.

(** Modelled from the spec: [c.add_face_and_verts(ugf)] appends the
    face to the cell's face collection and adds the face's vertices
    to the cell's vertex collection, without repeats. *)
Definition add_face_and_verts (c ugf : nat) : Py.M ug unit :=
  Py.modify (λ st,
    let vs := default [] (UGFace.ugverts <$> ugfaces st !! ugf) in
    {| ugfaces := ugfaces st;
       ugcells := alter (λ x, UGCell.mk (UGCell.ugfaces x ++ [ugf])
                                        (add_verts (UGCell.ugverts x) vs)
                                        (UGCell.deleted x)) c (ugcells st) |}).

(** [get_vert_string]: the face map key, the sorted vertex indices
    each followed by a comma. *)
Definition get_vert_string (vilist : list Z) : string :=
  let sortlist := merge_sort Z.le vilist in
  foldl (λ string i, string +:+ Py.str i +:+ ",") "" sortlist.

(** [[vilist[v] for v in fisverts]] *)
Fixpoint index_all (vilist : list Z) (fisverts : list Z) : Py.result (list Z) :=
  match fisverts with
  | [] => Py.Ok []
  | v :: vs =>
      match Py.getitem vilist v with
      | Py.Raise e => Py.Raise e
      | Py.Ok x =>
          match index_all vilist vs with
          | Py.Raise e => Py.Raise e
          | Py.Ok xs => Py.Ok (x :: xs)
          end
      end
  end.

(** The vertex indices of one face: those of the template itself for
    a polyhedron, the cell's vertices at the template's positions
    otherwise. *)
Definition real_vilist (is_polyhedron : bool) (vilist fisverts : list Z)
  : Py.result (list Z) :=
  if is_polyhedron then Py.Ok fisverts else index_all vilist fisverts.

(** The body of the loop of [add_cell_faces], for one template. *)
Definition add_cell_face (c : nat) (fisverts vilist : list Z)
    (facemap : gmap string nat) (is_polyhedron : bool)
  : Py.M ug (gmap string nat) :=
  real ← Py.lift (real_vilist is_polyhedron vilist fisverts);
  let string := get_vert_string real in
  '(ugf, facemap') ←
    match facemap !! string with
    | Some ugf =>
        set_neighbour ugf c;;
        mret (ugf, facemap)
    | None =>
        ugf ← UGFace_new real;
        set_owner ugf c;;
        mret (ugf, <[string := ugf]> facemap)
    end;
  add_face_and_verts c ugf;;
  mret facemap'.

(** [add_cell_faces(c, fis, vilist, facemap, is_polyhedron)] *)
Fixpoint add_cell_faces (c : nat) (fis : list (list Z)) (vilist : list Z)
    (facemap : gmap string nat) (is_polyhedron : bool)
  : Py.M ug (gmap string nat) :=
  match fis with
  | [] => mret facemap
  | fisverts :: fis' =>
      facemap' ← add_cell_face c fisverts vilist facemap is_polyhedron;
      add_cell_faces c fis' vilist facemap' is_polyhedron
  end.

(** The local variables of the loop of [get_polyhedron_fis]. *)
Record decoder : Type := mk_decoder {
  status : bool;
  numVerts : Z;
  vertlist : list Z;
  fis : list (list Z);
}.

(** Before the first number is read [numVerts] and [vertlist] are
    unbound; [status] makes the first iteration bind them. *)
Definition decoder_init : decoder := mk_decoder true 0 [] [].

(** One iteration of the loop, for the number [n]. *)
Definition decode_step (d : decoder) (n : Z) : decoder :=
  let d1 :=
    if status d then mk_decoder false n [] (fis d)
    else mk_decoder (status d) (numVerts d) (vertlist d ++ [n]) (fis d) in
  if decide (Z.of_nat (length (vertlist d1)) = numVerts d1)
  then mk_decoder true (numVerts d1) (vertlist d1) (fis d1 ++ [vertlist d1])
  else d1.

(** The face records decoded from the numbers after the face count. *)
Definition decode_faces (numbers : list Z) : list (list Z) :=
  fis (foldl decode_step decoder_init numbers).

(** [get_polyhedron_fis(polyfacelist)] *)
Definition get_polyhedron_fis (polyfacelist : list Z) : Py.result (list (list Z)) :=
  match Py.getitem polyfacelist 0 with
  | Py.Raise e => Py.Raise e
  | Py.Ok nFaces =>
      let fis := decode_faces (tail polyfacelist) in
      if decide (nFaces ≠ Z.of_nat (length fis))
      then Py.Raise (Py.ValueError
             ("Polyhedron faces list is broken: " +:+ Py.str_list polyfacelist))
      else Py.Ok fis
  end.

(** The face templates of the fixed archetypes. *)
Definition fis_tetra : list (list Z) :=
  [[0;2;1]; [0;1;3]; [1;2;3]; [0;3;2]].
Definition fis_hexahedron : list (list Z) :=
  [[0;3;2;1]; [0;1;5;4]; [1;2;6;5]; [2;3;7;6]; [3;0;4;7]; [7;4;5;6]].
Definition fis_wedge : list (list Z) :=
  [[0;1;2]; [0;3;4;1]; [1;4;5;2]; [2;5;3;0]; [3;5;4]].
Definition fis_pyramid : list (list Z) :=
  [[0;3;2;1]; [0;4;3]; [3;4;2]; [2;4;1]; [1;4;0]].
Definition fis_pentagonal_prism : list (list Z) :=
  [[0;1;2;3;4]; [0;5;6;1]; [1;6;7;2]; [2;7;8;3]; [3;8;9;4]; [4;9;5;0];
   [9;8;7;6;5]].
Definition fis_hexagonal_prism : list (list Z) :=
  [[0;1;2;3;4;5]; [0;6;7;1]; [1;7;8;2]; [2;8;9;3]; [3;9;10;4]; [4;10;11;5];
   [5;11;6;0]; [11;10;9;8;7;6]].

(** The templates of a fixed archetype, [None] for any other type. *)
Definition archetype_fis (vtk_cell_type : Z) : option (list (list Z)) :=
  match vtk_cell_type with
  | 10 => Some fis_tetra
  | 12 => Some fis_hexahedron
  | 13 => Some fis_wedge
  | 14 => Some fis_pyramid
  | 15 => Some fis_pentagonal_prism
  | 16 => Some fis_hexagonal_prism
  | _ => None
  end.

(** [vtu_add_cell(vtk_cell_type, vilist, facemap, polyfacelist)]: the
    cell is created first, then the branch for its type runs. *)
Definition vtu_add_cell (vtk_cell_type : Z) (vilist : list Z)
    (facemap : gmap string nat) (polyfacelist : list Z)
  : Py.M ug (gmap string nat) :=
  c ← UGCell_new;
  match archetype_fis vtk_cell_type with
  | Some fis => add_cell_faces c fis vilist facemap false
  | None =>
      if decide (vtk_cell_type = 42) then
        fis ← Py.lift (get_polyhedron_fis polyfacelist);
        add_cell_faces c fis vilist facemap true
      else
        Py.raise (Py.ValueError
          ("Unsupported VTK cell type " +:+ Py.str vtk_cell_type))
  end.

(** The local variables of the loop of [vtu_datalists_to_ugdata]. *)
Record locals : Type := mk_locals {
  conn_index : Z;
  offset_index : Z;
  facemap : gmap string nat;
}.

Definition locals_init : locals := mk_locals 0 0 ∅.

Section datalists.
Context (connectivities offsets celltypes cellfaces cellfaceoffsets : list Z).

(** What one iteration reads from the data lists before it calls
    [vtu_add_cell]: the end of the connectivity slice, the vertex
    list, the polyhedron face list and the next [offset_index]. *)
Definition cell_inputs (ci : Z) (l : locals)
  : Py.result (Z * Z * list Z * list Z * Z) :=
  match Py.getitem celltypes ci with
  | Py.Raise e => Py.Raise e
  | Py.Ok vtk_cell_type =>
    match Py.getitem offsets ci with
    | Py.Raise e => Py.Raise e
    | Py.Ok conn_end =>
      let vilist := Py.slice connectivities (conn_index l) conn_end in
      if decide (vtk_cell_type = 42) then
        match Py.getitem cellfaceoffsets ci with
        | Py.Raise e => Py.Raise e
        | Py.Ok o =>
            let faceoffset := o + 1 in
            let polyfacelist := Py.slice cellfaces (offset_index l) faceoffset in
            Py.Ok (vtk_cell_type, conn_end, vilist, polyfacelist, o)
        end
      else Py.Ok (vtk_cell_type, conn_end, vilist, [], offset_index l)
    end
  end.

(** One iteration of the loop over the cells. *)
Definition cell_step (ci : Z) (l : locals) : Py.M ug locals :=
  '(vtk_cell_type, conn_end, vilist, polyfacelist, offset_index') ←
    Py.lift (cell_inputs ci l);
  facemap' ← vtu_add_cell vtk_cell_type vilist (facemap l) polyfacelist;
  mret (mk_locals (conn_index l + (conn_end - conn_index l))
                  offset_index' facemap').

(** The loop over the cell indices [cis]. *)
Fixpoint cell_loop (cis : list Z) (l : locals) : Py.M ug locals :=
  match cis with
  | [] => mret l
  | ci :: cis' => l' ← cell_step ci l; cell_loop cis' l'
  end.

(** [vtu_datalists_to_ugdata(...)] *)
Definition vtu_datalists_to_ugdata : Py.M ug unit :=
  cell_loop (Py.range (Z.of_nat (length celltypes))) locals_init;;
  mret tt.
End datalists.

(** One iteration of the loop of [generate_types_offsets_text]. *)
Definition types_offsets_step (acc : list Z * list Z * Z * Z) (c : UGCell.t)
  : list Z * list Z * Z * Z :=
  let '(typeslist, offsetlist, nVert, nCells) := acc in
  if UGCell.deleted c then (typeslist, offsetlist, nVert, nCells)
  else
    let nVert' := nVert + Z.of_nat (length (UGCell.ugverts c)) in
    (typeslist ++ [42], offsetlist ++ [nVert'], nVert', nCells + 1).

(** The lists and counters of [generate_types_offsets_text] after
    its loop over [ug.ugcells]. *)
Definition types_offsets_lists (cells : list UGCell.t) : list Z * list Z * Z * Z :=
  foldl types_offsets_step ([], [], 0, 0) cells.

(** [generate_types_offsets_text()] *)
Definition generate_types_offsets_text : Py.M ug (string * string * Z * Z) :=
  st ← Py.get;
  let '(typeslist, offsetlist, nVert, nCells) := types_offsets_lists (ugcells st) in
  let celltypes := Py.join " " (Py.str <$> typeslist) +:+ Py.nl in
  let offsets := Py.join " " (Py.str <$> offsetlist) +:+ Py.nl in
  offsets_max ← Py.lift (Py.getitem offsetlist (-1));
  mret (celltypes, offsets, offsets_max, nCells).

Section write_vtu.
(** The parts of the export that read the host's mesh and the
    export indices of the vertices (coordinates formatted as
    floating point text, vertex numbers) or only assemble text are
    taken as given; they do not touch [ug.ugcells]. *)
Context (generate_points_text : Py.result (string * string * string * Z)).
Context (generate_connectivities_text : Py.result string).
Context (generate_cellfaces_text : Py.result (string * Z * string)).
Context (generate_vtu_text :
  string → string → string → Z → string → string → string → Z → Z →
  string → Z → string → string).

(** [write_vtu]: the text written to the file. *)
Definition write_vtu : Py.M ug string :=
  '(points, points_min, points_max, nPoints) ← Py.lift generate_points_text;
  connectivities ← Py.lift generate_connectivities_text;
  '(celltypes, offsets, offsets_max, nCells) ← generate_types_offsets_text;
  '(cellfaces, cellfaces_max, cellfaceoffsets) ← Py.lift generate_cellfaces_text;
  mret (generate_vtu_text points points_min points_max nPoints
          connectivities celltypes offsets offsets_max nCells
          cellfaces cellfaces_max cellfaceoffsets).
End write_vtu.

End io_vtu.


(** ** io_polymesh.py: OpenFOAM PolyMesh import and export *)

Module io_polymesh.

(** Modelled from the spec: class [UGCell] of [ug.py] as
    [io_polymesh.py] uses it, [UGCell(i)] with a list [faces] of face
    indices and the export index [celli]. *)
Module UGCell.
Record t : Type := mk {
  faces : list Z;
  celli : Z;
}.
Definition new (i : Z) : t := mk [] (-1).
Definition append_face (i : Z) (c : t) : t := mk (faces c ++ [i]) (celli c).
Definition set_celli (n : Z) (c : t) : t := mk (faces c) n.
End UGCell.

(** Modelled from the spec: class [UGFace] of [ug.py] as
    [io_polymesh.py] uses it, [UGFace(i, verts)].  A face without a
    neighbour has [neighbouri = -1] (the export tests for it); the
    patch index [mati] is absent until a boundary is assigned. *)
Module UGFace.
Record t : Type := mk {
  facei : Z;
  verts : list Z;
  owneri : Z;
  neighbouri : Z;
  mati : option Z;
  deleted : bool;
}.
Definition new (i : Z) (verts : list Z) : t := mk i verts (-1) (-1) None false.
Definition set_owneri (o : Z) (f : t) : t :=
  mk (facei f) (verts f) o (neighbouri f) (mati f) (deleted f).
Definition set_neighbouri (n : Z) (f : t) : t :=
  mk (facei f) (verts f) (owneri f) n (mati f) (deleted f).
Definition set_facei (i : Z) (f : t) : t :=
  mk i (verts f) (owneri f) (neighbouri f) (mati f) (deleted f).
End UGFace.

(** Modelled from the spec: class [UGBoundary] of [ug.py]. *)
Module UGBoundary.
Record t : Type := mk {
  patchname : string;
  typename : string;
  inGroups : string;
  nFaces : Z;
  startFace : Z;
  deleted : bool;
}.
End UGBoundary.

(** The module-level collections. *)
Record ug : Type := mk_ug {
  ugcells : list UGCell.t;
  ugfaces : list UGFace.t;
  ugboundaries : list UGBoundary.t;
}.

Definition ug_empty : ug := mk_ug [] [] [].

Definition with_cells (f : list UGCell.t → list UGCell.t) (st : ug) : ug :=
  mk_ug (f (ugcells st)) (ugfaces st) (ugboundaries st).
Definition with_faces (f : list UGFace.t → list UGFace.t) (st : ug) : ug :=
  mk_ug (ugcells st) (f (ugfaces st)) (ugboundaries st).

(** [ugcells[ci].<field> = ...]: the cell at Python index [ci] is
    changed in place. *)
Definition update_cell (ci : Z) (f : UGCell.t → UGCell.t) : Py.M ug unit := λ st,
  match Py.setitem_with f (ugcells st) ci with
  | Py.Raise e => (st, Py.Raise e)
  | Py.Ok cells => (with_cells (λ _, cells) st, Py.Ok tt)
  end.

(** The face object stored at position [k] of [ugfaces] is changed in
    place. *)
Definition update_face (k : nat) (f : UGFace.t → UGFace.t) : Py.M ug unit :=
  Py.modify (with_faces (alter f k)).

(** *** Import *)

(** The edges of one face: [(verts[j-1], verts[j])] for every [j]. *)
Fixpoint face_edges (verts : list Z) (js : list Z) : Py.result (list (Z * Z)) :=
  match js with
  | [] => Py.Ok []
  | j :: js' =>
      match Py.getitem verts (j - 1), Py.getitem verts j with
      | Py.Ok a, Py.Ok b =>
          match face_edges verts js' with
          | Py.Ok es => Py.Ok ((a, b) :: es)
          | Py.Raise e => Py.Raise e
          end
      | Py.Raise e, _ => Py.Raise e
      | _, Py.Raise e => Py.Raise e
      end
  end.

Section get_faces.
(** [gen_edges] is the scene property [generate_internal_edges];
    [owner], [neighbour] and [face_verts] are the lists read from
    the three text blocks. *)
Context (gen_edges : bool).
Context (owner neighbour : list Z) (face_verts : list (list Z)).

(** One iteration of the loop over the faces. *)
Definition face_step (i : Z) (acc : list (Z * Z) * list (list Z))
  : Py.M ug (list (Z * Z) * list (list Z)) :=
  let '(edges, faces) := acc in
  fv ← Py.lift (Py.getitem face_verts i);
  st ← Py.get;
  let k := length (ugfaces st) in
  Py.modify (with_faces (λ l, l ++ [UGFace.new i fv]));;
  o ← Py.lift (Py.getitem owner i);
  update_face k (UGFace.set_owneri o);;
  update_cell o (UGCell.append_face i);;
  if decide (i < Z.of_nat (length neighbour)) then
    n ← Py.lift (Py.getitem neighbour i);
    update_face k (UGFace.set_neighbouri n);;
    update_cell n (UGCell.append_face i);;
    if gen_edges then
      es ← Py.lift (face_edges fv (Py.range (Z.of_nat (length fv))));
      mret (edges ++ es, faces)
    else mret (edges, faces)
  else
    mret (edges, faces ++ [fv]).

Fixpoint face_loop (indices : list Z) (acc : list (Z * Z) * list (list Z))
  : Py.M ug (list (Z * Z) * list (list Z)) :=
  match indices with
  | [] => mret acc
  | i :: indices' => acc' ← face_step i acc; face_loop indices' acc'
  end.

(** [polymesh_get_faces], after the three blocks are read. *)
Definition polymesh_get_faces : Py.M ug (list (Z * Z) * list (list Z)) :=
  m ← Py.lift (Py.max owner);
  Py.for_ (Py.range (m + 1))
    (λ i, Py.modify (with_cells (λ l, l ++ [UGCell.new i])));;
  face_loop (Py.range (Z.of_nat (length face_verts))) ([], []).
End get_faces.

(** The first loop of [apply_materials_to_boundaries] over a patch:
    the faces of the range of the patch number [mati] get that patch
    index. *)
Fixpoint assign_mati (indices : list Z) (mati : Z) : Py.M ug unit :=
  match indices with
  | [] => mret tt
  | i :: indices' =>
      st ← Py.get;
      faces ← Py.lift (Py.setitem_with
                 (λ f, UGFace.mk (UGFace.facei f) (UGFace.verts f) (UGFace.owneri f)
                                 (UGFace.neighbouri f) (Some mati) (UGFace.deleted f))
                 (ugfaces st) i);
      Py.modify (with_faces (λ _, faces));;
      assign_mati indices' mati
  end.

(** [range(a, b)] *)
Definition range2 (a b : Z) : list Z := (λ i, a + i) <$> Py.range (b - a).

(** The second loop over a patch: [ob.data.polygons[facecount]
    .material_index = mati; facecount += 1], once for every index.
    The polygons of the host mesh [ob] are the list of their material
    indices; the result is that list and [facecount]. *)
Fixpoint assign_polygons (indices : list Z) (polygons : list Z) (facecount mati : Z)
  : Py.result (list Z * Z) :=
  match indices with
  | [] => Py.Ok (polygons, facecount)
  | _ :: indices' =>
      match Py.setitem_with (λ _, mati) polygons facecount with
      | Py.Raise e => Py.Raise e
      | Py.Ok polygons' => assign_polygons indices' polygons' (facecount + 1) mati
      end
  end.

Fixpoint apply_materials_loop (bs : list UGBoundary.t) (mati facecount : Z)
    (polygons : list Z) : Py.M ug (list Z) :=
  match bs with
  | [] => mret polygons
  | b :: bs' =>
      assign_mati (range2 (UGBoundary.startFace b)
                          (UGBoundary.startFace b + UGBoundary.nFaces b)) mati;;
      r ← Py.lift (assign_polygons (Py.range (UGBoundary.nFaces b))
                     polygons facecount mati);
      apply_materials_loop bs' (mati + 1) r.2 r.1
  end.

(** [apply_materials_to_boundaries(ob)], for the polygons of [ob];
    it returns their material indices.  (The materials themselves,
    which the host creates one per patch, are left out.) *)
Definition apply_materials_to_boundaries (polygons : list Z) : Py.M ug (list Z) :=
  st ← Py.get;
  apply_materials_loop (ugboundaries st) 0 0 polygons.

(** *** Export *)

(** [of_file_header(class_name, object_name)] *)
Definition of_file_header (class_name object_name : string) : string :=
  "FoamFile" +:+ Py.nl +:+ "{" +:+ Py.nl
  +:+ "    version     2.0;" +:+ Py.nl
  +:+ "    format      ascii;" +:+ Py.nl
  +:+ "    class       " +:+ class_name +:+ ";" +:+ Py.nl
  +:+ "    object      " +:+ object_name +:+ ";" +:+ Py.nl +:+ "}" +:+ Py.nl.

(** [gen_line(verts)] *)
Definition gen_line (verts : list Z) : Py.result string :=
  let line := Py.str (Z.of_nat (length verts)) +:+ "(" in
  let line := foldl (λ line v, line +:+ Py.str v +:+ " ") line
                    (take (length verts - 1) verts) in
  match Py.getitem verts (-1) with
  | Py.Raise e => Py.Raise e
  | Py.Ok v => Py.Ok (line +:+ Py.str v +:+ ")" +:+ Py.nl)
  end.

(** The local variables of the loop of [face_pass]. *)
Record pass : Type := mk_pass {
  text : string;
  next_facei : Z;
  next_celli : Z;
}.

(** The cell at index [ci] gets the next export index when it has
    none yet. *)
Definition number_cell (ci : Z) (p : pass) : Py.M ug pass :=
  st ← Py.get;
  c ← Py.lift (Py.getitem (ugcells st) ci);
  if decide (UGCell.celli c = -1) then
    update_cell ci (UGCell.set_celli (next_celli p));;
    mret (mk_pass (text p) (next_facei p) (next_celli p + 1))
  else mret p.

(** One iteration of the loop of [face_pass], for the face at
    position [k] of [ugfaces]. *)
Definition face_pass_step (internal : bool) (k : nat) (p : pass) : Py.M ug pass :=
  st ← Py.get;
  match ugfaces st !! k with
  | None => mret p
  | Some f =>
      if UGFace.deleted f then mret p
      else if internal && bool_decide (UGFace.neighbouri f = -1) then mret p
      else if negb internal && bool_decide (UGFace.neighbouri f ≠ -1) then mret p
      else
        update_face k (UGFace.set_facei (next_facei p));;
        line ← Py.lift (gen_line (UGFace.verts f));
        let p := mk_pass (text p +:+ line) (next_facei p) (next_celli p) in
        p ← (if internal then
               p ← number_cell (UGFace.owneri f) p;
               number_cell (UGFace.neighbouri f) p
             else mret p);
        mret (mk_pass (text p) (next_facei p + 1) (next_celli p))
  end.

Fixpoint face_pass_loop (internal : bool) (ks : list nat) (p : pass) : Py.M ug pass :=
  match ks with
  | [] => mret p
  | k :: ks' => p' ← face_pass_step internal k p; face_pass_loop internal ks' p'
  end.

(** [face_pass(internal, i)] *)
Definition face_pass (internal : bool) (i : Z) : Py.M ug (string * Z) :=
  (if internal then
     Py.modify (with_cells (fmap (UGCell.set_celli (-1))))
   else mret tt);;
  st ← Py.get;
  p ← face_pass_loop internal (seq 0 (length (ugfaces st))) (mk_pass "" i 0);
  mret (text p, next_facei p).

(** [update_text_faces()]: the text of the faces block. *)
Definition update_text_faces : Py.M ug string :=
  '(text_internal, i) ← face_pass true 0;
  '(text_boundary, i) ← face_pass false i;
  mret (of_file_header "faceList" "faces" +:+ Py.nl
        +:+ Py.str i +:+ Py.nl +:+ "(" +:+ Py.nl
        +:+ text_internal +:+ text_boundary +:+ ")" +:+ Py.nl).

(** An integer list block: the count line and the entries. *)
Record labelList : Type := mk_labelList {
  count_line : Z;
  entries : list Z;
}.

Definition labelList_text (object_name : string) (b : labelList) : string :=
  of_file_header "labelList" object_name +:+ Py.nl
  +:+ Py.str (count_line b) +:+ Py.nl +:+ "(" +:+ Py.nl
  +:+ foldl (λ t x, t +:+ Py.str x +:+ Py.nl) "" (entries b)
  +:+ ")" +:+ Py.nl.

(** The two lists of faces [update_text_owner_neighbour] walks. *)
Definition internal_faces (st : ug) : list UGFace.t :=
  filter (λ f, UGFace.deleted f = false) (ugfaces st).
Definition neighbour_faces (st : ug) : list UGFace.t :=
  filter (λ f, UGFace.neighbouri f ≠ -1 ∧ UGFace.deleted f = false) (ugfaces st).

(** The count lines and entries [update_text_owner_neighbour] emits. *)
Definition owner_block (st : ug) : labelList :=
  let ninternal := Z.of_nat (length (internal_faces st)) in
  let nneighbour := Z.of_nat (length (neighbour_faces st)) in
  mk_labelList (ninternal + nneighbour) (UGFace.owneri <$> internal_faces st).
Definition neighbour_block (st : ug) : labelList :=
  let nneighbour := Z.of_nat (length (neighbour_faces st)) in
  mk_labelList nneighbour (UGFace.neighbouri <$> neighbour_faces st).

(** [update_text_owner_neighbour()]: the texts of the owner and the
    neighbour block. *)
Definition update_text_owner_neighbour (st : ug) : string * string :=
  (labelList_text "owner" (owner_block st),
   labelList_text "neighbour" (neighbour_block st)).

(** One entry of the boundary block. *)
Record patch_entry : Type := mk_patch_entry {
  e_patchname : string;
  e_typename : string;
  e_inGroups : string;
  e_nFaces : Z;
  e_startFace : Z;
}.

Definition patch_entry_text (e : patch_entry) : string :=
  "    " +:+ e_patchname e +:+ Py.nl +:+ "    {" +:+ Py.nl
  +:+ "        type            " +:+ e_typename e +:+ ";" +:+ Py.nl
  +:+ (if decide (e_inGroups e ≠ "")
       then "        inGroups        " +:+ e_inGroups e +:+ ";" +:+ Py.nl
       else "")
  +:+ "        nFaces          " +:+ Py.str (e_nFaces e) +:+ ";" +:+ Py.nl
  +:+ "        startFace       " +:+ Py.str (e_startFace e) +:+ ";" +:+ Py.nl
  +:+ "    }" +:+ Py.nl.

(** The loop of [update_text_boundary]: [i] is the patch number of
    the first patch of [bs]. *)
Fixpoint boundary_entries (faces : list UGFace.t) (bs : list UGBoundary.t) (i : Z)
  : Py.result (list patch_entry) :=
  match bs with
  | [] => Py.Ok []
  | b :: bs' =>
      if UGBoundary.deleted b then boundary_entries faces bs' (i + 1)
      else
        let bfaces := filter (λ x, UGFace.mati x = Some i) faces in
        match Py.getitem bfaces 0 with
        | Py.Raise e => Py.Raise e
        | Py.Ok first =>
            match boundary_entries faces bs' (i + 1) with
            | Py.Raise e => Py.Raise e
            | Py.Ok es =>
                Py.Ok (mk_patch_entry (UGBoundary.patchname b) (UGBoundary.typename b)
                         (UGBoundary.inGroups b)
                         (Z.of_nat (length bfaces)) (UGFace.facei first) :: es)
            end
        end
  end.

(** [update_text_boundary()]: the text of the boundary block. *)
Definition update_text_boundary (st : ug) : Py.result string :=
  match boundary_entries (ugfaces st) (ugboundaries st) 0 with
  | Py.Raise e => Py.Raise e
  | Py.Ok es =>
      let btext := foldl (λ t e, t +:+ patch_entry_text e) "" es in
      let nboundaries := Z.of_nat (length es) in
      Py.Ok (of_file_header "polyBoundaryMesh" "boundary" +:+ Py.nl
             +:+ Py.str nboundaries +:+ Py.nl +:+ "(" +:+ Py.nl
             +:+ btext +:+ ")" +:+ Py.nl)
  end.

(** The export pass over the topology, as [UG_OT_ExportPolyMesh.execute]
    runs it after the points: faces, owner and neighbour, boundary. *)
Definition export_pass : Py.M ug (string * string * string * string) :=
  text_faces ← update_text_faces;
  st ← Py.get;
  let '(text_owner, text_neighbour) := update_text_owner_neighbour st in
  text_boundary ← Py.lift (update_text_boundary st);
  mret (text_faces, text_owner, text_neighbour, text_boundary).

End io_polymesh.


(** ** io_vtu.py: the connectivity and faces blocks of the export *)

Module io_vtu_export.
Import io_vtu.

Section export.
(** [ugv.ei], the export index [generate_points_text] gave the
    vertex; vertices are referred to by their absolute index. *)
Context (ei : Z → Z).

(** The numbers of one line of the connectivity block. *)
Definition connectivity_row (c : UGCell.t) : list Z := ei <$> UGCell.ugverts c.

(** [generate_connectivities_text()] *)
Definition generate_connectivities_text (st : ug) : string :=
  foldl (λ connectivities c,
           if UGCell.deleted c then connectivities
           else
             let text := foldl (λ text e, text +:+ Py.str e +:+ " ") ""
                               (connectivity_row c) in
             connectivities +:+ text +:+ Py.nl)
        "" (ugcells st).

(** The numbers [generate_cellfaces_text] writes for one face: the
    number of vertices and their export indices. *)
Definition face_numbers (f : UGFace.t) : list Z :=
  Z.of_nat (length (UGFace.ugverts f)) :: (ei <$> UGFace.ugverts f).

(** The faces a cell refers to, as records of the store. *)
Definition cell_faces (st : ug) (c : UGCell.t) : list UGFace.t :=
  omap (λ ugf, ugfaces st !! ugf) (UGCell.ugfaces c).

(** [faceslist] for one cell: the number of faces, then the numbers
    of each face. *)
Definition faceslist (st : ug) (c : UGCell.t) : list Z :=
  Z.of_nat (length (UGCell.ugfaces c)) :: concat (face_numbers <$> cell_faces st c).

(** One iteration of the loop of [generate_cellfaces_text]; the
    offsets are also kept as numbers. *)
Definition cellfaces_step (st : ug) (acc : string * Z * string * list Z)
    (c : UGCell.t) : string * Z * string * list Z :=
  let '(cellfaces, offset, cellfaceoffsets, offsets) := acc in
  let faceslist := faceslist st c in
  if UGCell.deleted c then acc
  else
    (cellfaces +:+ Py.join " " (Py.str <$> faceslist) +:+ Py.nl,
     offset + Z.of_nat (length faceslist),
     cellfaceoffsets +:+ Py.str (offset + Z.of_nat (length faceslist)) +:+ " ",
     offsets ++ [offset + Z.of_nat (length faceslist)]).

(** [generate_cellfaces_text()]: the faces text, the last offset and
    the faceoffsets text. *)
Definition generate_cellfaces_text (st : ug) : string * Z * string :=
  let '(cellfaces, offset, cellfaceoffsets, _) :=
    foldl (cellfaces_step st) ("", 0, "", []) (ugcells st) in
  (cellfaces, offset, cellfaceoffsets +:+ Py.nl).

(** The numbers of the faces block, line by line, and the numbers of
    the faceoffsets block. *)
Definition cellfaces_rows (st : ug) : list (list Z) :=
  faceslist st <$> filter (λ c, UGCell.deleted c = false) (ugcells st).
Definition cellfaceoffsets_list (st : ug) : list Z :=
  (foldl (cellfaces_step st) ("", 0, "", []) (ugcells st)).2.

(** The numbers of the connectivity block, line by line, and of the
    offsets block. *)
Definition connectivity_rows (st : ug) : list (list Z) :=
  connectivity_row <$> filter (λ c, UGCell.deleted c = false) (ugcells st).
Definition offsets_list (st : ug) : list Z :=
  (types_offsets_lists (ugcells st)).1.1.2.
End export.

End io_vtu_export.


(** ** io_polymesh.py: the readers of the integer text blocks *)

Module io_polymesh_text.

(** A text is a string of code points below 256; a character is
    classified by its code point. *)
Definition one_of (codes : list nat) (c : ascii) : bool :=
  existsb (Nat.eqb (nat_of_ascii c)) codes.

(** The line boundaries of [str.splitlines()]: LF, VT, FF, CR, FS,
    GS, RS and NEL. *)
Definition is_linebreak : ascii → bool :=
  one_of [10; 11; 12; 13; 28; 29; 30; 133]%nat.

(** [\s] of [re] and the separators of [str.split()]. *)
Definition is_space : ascii → bool :=
  one_of [9; 10; 11; 12; 13; 28; 29; 30; 31; 32; 133; 160]%nat.

(** [\d] of [re]. *)
Definition is_digit : ascii → bool :=
  one_of [48; 49; 50; 51; 52; 53; 54; 55; 56; 57]%nat.

(** [text.splitlines()]: [cur] is the line read so far.  A CR that is
    followed by LF is one boundary, and no empty line is reported
    after the last boundary. *)
Fixpoint splitlines_go (cur s : string) : list string :=
  match s with
  | EmptyString => if String.eqb cur "" then [] else [cur]
  | String c s' =>
      if is_linebreak c then
        cur ::
        (if Ascii.eqb c "013" then
           match s' with
           | String c' s'' =>
               if Ascii.eqb c' "010" then splitlines_go "" s''
               else splitlines_go "" s'
           | EmptyString => splitlines_go "" s'
           end
         else splitlines_go "" s')
      else splitlines_go (cur +:+ String c "") s'
  end.

Definition splitlines (text : string) : list string := splitlines_go "" text.

(** [text.split()]: the runs of characters that are not white space. *)
Fixpoint split_go (cur s : string) : list string :=
  match s with
  | EmptyString => if String.eqb cur "" then [] else [cur]
  | String c s' =>
      if is_space c then
        if String.eqb cur "" then split_go "" s' else cur :: split_go "" s'
      else split_go (cur +:+ String c "") s'
  end.

Definition split (text : string) : list string := split_go "" text.

(** The longest prefix of characters of a class, and the rest: what a
    greedy [[...]*] matches at the start. *)
Fixpoint span (p : ascii → bool) (s : string) : string * string :=
  match s with
  | EmptyString => ("", "")
  | String c s' =>
      if p c then let '(a, b) := span p s' in (String c a, b) else ("", s)
  end.

(** [int(s)] for a string of decimal digits. *)
Fixpoint int_from (acc : Z) (s : string) : Z :=
  match s with
  | EmptyString => acc
  | String c s' => int_from (10 * acc + (Z.of_nat (nat_of_ascii c) - 48)) s'
  end.

Definition int (s : string) : Z := int_from 0 s.

(** [re.search(r'^\(', line, re.M)] and [re.search(r'^\)', line, re.M)]
    on a line of [splitlines()], which holds no line feed: the line
    starts with the character. *)
Definition starts_with (c : ascii) (line : string) : bool :=
  match line with
  | String c' _ => Ascii.eqb c' c
  | EmptyString => false
  end.

(** The flag [inside] after the two tests for the parentheses. *)
Definition inside_after (inside : bool) (line : string) : bool :=
  let inside := if starts_with "(" line then true else inside in
  if starts_with ")" line then false else inside.

(** One iteration of the loop of [polymesh_get_intlist];
    [re.search(r'^(\d+)', line, re.M)] matches when the line starts
    with a digit, and its group is the longest prefix of digits. *)
Definition intlist_step (acc : bool * list Z) (line : string) : bool * list Z :=
  let '(inside, iList) := acc in
  let inside := inside_after inside line in
  let digits := (span is_digit line).1 in
  if inside && negb (String.eqb digits "") then (inside, iList ++ [int digits])
  else (inside, iList).

(** [polymesh_get_intlist(text)] *)
Definition polymesh_get_intlist (text : string) : list Z :=
  (foldl intlist_step (false, []) (splitlines text)).2.

(** [re.search(r'^\d+\(([\d\s]+)\)', line, re.M)]: the group, when the
    line starts with digits, a parenthesis, digits and white space
    and a closing parenthesis. *)
Definition list_group (line : string) : option string :=
  let '(digits, rest) := span is_digit line in
  if String.eqb digits "" then None
  else
    match rest with
    | String c rest' =>
        if Ascii.eqb c "(" then
          let '(group, rest'') := span (λ c, is_digit c || is_space c) rest' in
          if String.eqb group "" then None
          else
            match rest'' with
            | String c' _ => if Ascii.eqb c' ")" then Some group else None
            | EmptyString => None
            end
        else None
    | EmptyString => None
    end.

(** One iteration of the loop of [polymesh_get_list_intlist]. *)
Definition list_intlist_step (acc : bool * list (list Z)) (line : string)
  : bool * list (list Z) :=
  let '(inside, iList) := acc in
  let inside := inside_after inside line in
  match list_group line with
  | Some group =>
      if inside then (inside, iList ++ [int <$> split group]) else (inside, iList)
  | None => (inside, iList)
  end.

(** [polymesh_get_list_intlist(text)] *)
Definition polymesh_get_list_intlist (text : string) : list (list Z) :=
  (foldl list_intlist_step (false, []) (splitlines text)).2.

(** [polymesh_get_faces(text_owner, text_neighbour, text_faces)]:
    the three blocks are read, then the cells and faces are made. *)
Definition polymesh_get_faces_from_text (gen_edges : bool)
    (text_owner text_neighbour text_faces : string)
  : Py.M io_polymesh.ug (list (Z * Z) * list (list Z)) :=
  io_polymesh.polymesh_get_faces gen_edges
    (polymesh_get_intlist text_owner)
    (polymesh_get_intlist text_neighbour)
    (polymesh_get_list_intlist text_faces).

End io_polymesh_text.


(** ** io_vtu.py: the points of the import *)

Module io_vtu_points.

(** How [create_points] ends: the debug line after the loop reads
    the loop variable, which is unbound when the loop never ran. *)
Inductive outcome : Type :=
| Returned
| Raised (e : Py.exn)
| RaisedUnboundLocalError.

Section create_points.
(** The coordinates are floating point numbers that are only moved
    from the list into the vertices. *)
Context {A : Type}.

(** [range(0, n, 3)] *)
Definition range3 (n : nat) : list Z :=
  (λ k, 3 * Z.of_nat k) <$> seq 0 ((n + 2) / 3)%nat.

(** One iteration of the loop: the three entries are read, then
    [ug.UGVertex()] and [bm.verts.new([x, y, z])] make the vertex.
    Modelled from the spec: the vertices made so far, with their
    coordinates, are the store. *)
Definition point_step (points : list A) (i : Z) : Py.M (list (A * A * A)) unit :=
  x ← Py.lift (Py.getitem points i);
  y ← Py.lift (Py.getitem points (i + 1));
  z ← Py.lift (Py.getitem points (i + 2));
  Py.modify (λ vs, vs ++ [(x, y, z)]).

(** [create_points(bm, points)] *)
Definition create_points (points : list A)
  : list (A * A * A) → list (A * A * A) * outcome := λ vs,
  match Py.for_ (range3 (length points)) (point_step points) vs with
  | (vs', Py.Raise e) => (vs', Raised e)
  | (vs', Py.Ok _) =>
      match points with
      | [] => (vs', RaisedUnboundLocalError)
      | _ :: _ => (vs', Returned)
      end
  end.
End create_points.

End io_vtu_points.


(** ** io_polymesh.py: multi-line inGroups entries *)

Module io_polymesh_fix.
Import io_polymesh_text.

(** [p] is removed from the start of [s], when it is there. *)
Fixpoint strip_prefix (p s : string) : option string :=
  match p, s with
  | EmptyString, _ => Some s
  | String c p', String c' s' => if Ascii.eqb c c' then strip_prefix p' s' else None
  | String _ _, EmptyString => None
  end.

Fixpoint all_space (s : string) : bool :=
  match s with
  | EmptyString => true
  | String c s' => is_space c && all_space s'
  end.

(** [re.search(r'^\s*inGroups\s*$', line, re.M)] on a line of
    [splitlines()], which holds no line feed: white space, the word,
    white space. *)
Definition is_ingroups_line (line : string) : bool :=
  match strip_prefix "inGroups" (span is_space line).2 with
  | Some rest => all_space rest
  | None => false
  end.

(** [re.search(r'\;', line, re.M)] *)
Fixpoint has_semicolon (line : string) : bool :=
  match line with
  | EmptyString => false
  | String c line' => Ascii.eqb c ";" || has_semicolon line'
  end.

(** The local variables of [polymesh_boundary_ingroup_fix]; [res] is
    read only while [inside] is set, that is, after it was assigned. *)
Record fix_state : Type := mk_fix {
  inside : bool;
  res : string;
  result : string;
}.

(** One iteration of the loop over the lines. *)
Definition fix_step (st : fix_state) (line : string) : fix_state :=
  if is_ingroups_line line then
    mk_fix true "        inGroups        " (result st)
  else if inside st then
    let res := res st +:+ line +:+ " " in
    if has_semicolon line then mk_fix false res (result st +:+ res +:+ Py.nl)
    else mk_fix true res (result st)
  else mk_fix (inside st) (res st) (result st +:+ line +:+ Py.nl).

(** [polymesh_boundary_ingroup_fix()]: the new text of the boundary
    block, from the text read. *)
Definition polymesh_boundary_ingroup_fix (text : string) : string :=
  result (foldl fix_step (mk_fix false "" "") (splitlines text)).

End io_polymesh_fix.


(** ** io_polymesh.py: the reader of the boundary text *)

Module io_polymesh_boundary.
Import io_polymesh io_polymesh_text.

(** [\w] of [re] on code points below 256: the digits, the letters
    and the underscore of ASCII, and the letters and numbers of
    Latin-1. *)
Definition is_word (c : ascii) : bool :=
  existsb (λ r, (r.1 <=? nat_of_ascii c)%nat && (nat_of_ascii c <=? r.2)%nat)
    [(48, 57); (65, 90); (95, 95); (97, 122); (170, 170); (178, 179);
     (181, 181); (185, 186); (188, 190); (192, 214); (216, 246);
     (248, 255)]%nat.

(** [[\w\%\:\-]] and [[\w\s\(\)]] *)
Definition is_name_char (c : ascii) : bool := is_word c || one_of [37; 58; 45]%nat c.
Definition is_group_char (c : ascii) : bool :=
  is_word c || is_space c || one_of [40; 41]%nat c.

Fixpoint all_of (p : ascii → bool) (s : string) : bool :=
  match s with
  | EmptyString => true
  | String c s' => p c && all_of p s'
  end.

Fixpoint last_of (s : string) : string :=
  match s with
  | EmptyString => ""
  | String c EmptyString => s
  | String _ s' => last_of s'
  end.

(** [re.search(r'^\s+([\w\%\:\-]+)$', line, re.M)] on a line of
    [splitlines()]: white space, then characters of the class up to
    the end of the line, which are the group. *)
Definition name_group (line : string) : option string :=
  let '(space, rest) := span is_space line in
  if String.eqb space "" then None
  else if String.eqb rest "" then None
  else if all_of is_name_char rest then Some rest
  else None.

(** [re.search(r'^\s+key\s+(\w+)\;$', line, re.M)] and the same with
    [\d+]: white space, the key, white space, the group, a semicolon
    and the end of the line. *)
Definition field_group (key : string) (p : ascii → bool) (line : string)
  : option string :=
  let '(space, rest) := span is_space line in
  if String.eqb space "" then None
  else
    match io_polymesh_fix.strip_prefix key rest with
    | None => None
    | Some rest =>
        let '(space, rest) := span is_space rest in
        if String.eqb space "" then None
        else
          let '(group, rest) := span p rest in
          if String.eqb group "" then None
          else if String.eqb rest ";" then Some group
          else None
    end.

(** [re.search(r'^\s+inGroups\s+([\w\s\(\)]+)\;\s*$', line, re.M)]:
    the characters of the class after the key end at a semicolon,
    after which only white space follows.  The group is what is left
    of them after the leading white space; when they are all white
    space the last one is the group. *)
Definition ingroups_group (line : string) : option string :=
  let '(space, rest) := span is_space line in
  if String.eqb space "" then None
  else
    match io_polymesh_fix.strip_prefix "inGroups" rest with
    | None => None
    | Some rest =>
        let '(body, rest) := span is_group_char rest in
        match rest with
        | String c rest' =>
            if Ascii.eqb c ";" && io_polymesh_fix.all_space rest' then
              let '(space, group) := span is_space body in
              if String.eqb group "" then
                match space with
                | String _ (String _ _) => Some (last_of space)
                | _ => None
                end
              else if String.eqb space "" then None
              else Some group
            else None
        | EmptyString => None
        end
    end.

(** How the function ends: a field that is read before any patch
    name finds the local [patch] unbound. *)
Inductive outcome : Type :=
| Returned
| RaisedUnboundLocalError.

(** The local variables of the loop and [ugboundaries]; [patch], once
    it is assigned, is the patch appended last. *)
Record reader : Type := mk_reader {
  inside : bool;
  patch_assigned : bool;
  boundaries : list UGBoundary.t;
}.

Definition set_typename (v : string) (b : UGBoundary.t) : UGBoundary.t :=
  UGBoundary.mk (UGBoundary.patchname b) v (UGBoundary.inGroups b)
    (UGBoundary.nFaces b) (UGBoundary.startFace b) (UGBoundary.deleted b).
Definition set_inGroups (v : string) (b : UGBoundary.t) : UGBoundary.t :=
  UGBoundary.mk (UGBoundary.patchname b) (UGBoundary.typename b) v
    (UGBoundary.nFaces b) (UGBoundary.startFace b) (UGBoundary.deleted b).
Definition set_nFaces (v : Z) (b : UGBoundary.t) : UGBoundary.t :=
  UGBoundary.mk (UGBoundary.patchname b) (UGBoundary.typename b)
    (UGBoundary.inGroups b) v (UGBoundary.startFace b) (UGBoundary.deleted b).
Definition set_startFace (v : Z) (b : UGBoundary.t) : UGBoundary.t :=
  UGBoundary.mk (UGBoundary.patchname b) (UGBoundary.typename b)
    (UGBoundary.inGroups b) (UGBoundary.nFaces b) v (UGBoundary.deleted b).

Section reader.
(** Modelled from the spec: [UGBoundary(patchname)] of [ug.py]
    makes a patch of that name; [fresh] holds what it gives to the
    other attributes. *)
Context (fresh : UGBoundary.t).

Definition UGBoundary_new (patchname : string) : UGBoundary.t :=
  UGBoundary.mk patchname (UGBoundary.typename fresh) (UGBoundary.inGroups fresh)
    (UGBoundary.nFaces fresh) (UGBoundary.startFace fresh)
    (UGBoundary.deleted fresh).

(** [patch.<attribute> = ...], then [continue]. *)
Definition set_patch (f : UGBoundary.t → UGBoundary.t) (st : reader)
  : option reader :=
  if patch_assigned st then
    Some (mk_reader true true
            (alter f (length (boundaries st) - 1)%nat (boundaries st)))
  else None.

(** One iteration of the loop over the lines; [None] when it
    raises. *)
Definition boundary_step (st : reader) (line : string) : option reader :=
  let inside := inside_after (inside st) line in
  if negb inside then Some (mk_reader false (patch_assigned st) (boundaries st))
  else
    match name_group line with
    | Some patchname =>
        Some (mk_reader true true (boundaries st ++ [UGBoundary_new patchname]))
    | None =>
    match field_group "type" is_word line with
    | Some typename => set_patch (set_typename typename) st
    | None =>
    match ingroups_group line with
    | Some inGroups => set_patch (set_inGroups inGroups) st
    | None =>
    match field_group "nFaces" is_digit line with
    | Some nFaces => set_patch (set_nFaces (int nFaces)) st
    | None =>
    match field_group "startFace" is_digit line with
    | Some startFace => set_patch (set_startFace (int startFace)) st
    | None => Some (mk_reader true (patch_assigned st) (boundaries st))
    end end end end end.

Fixpoint boundary_loop (lines : list string) (st : reader)
  : list UGBoundary.t * outcome :=
  match lines with
  | [] => (boundaries st, Returned)
  | line :: lines' =>
      match boundary_step st line with
      | Some st' => boundary_loop lines' st'
      | None => (boundaries st, RaisedUnboundLocalError)
      end
  end.

(** [polymesh_get_boundary(text)], from the patches [ugboundaries]
    holds before the call to the ones it holds after it. *)
Definition polymesh_get_boundary (text : string) (ugboundaries : list UGBoundary.t)
  : list UGBoundary.t * outcome :=
  boundary_loop (splitlines text) (mk_reader false false ugboundaries).
End reader.

End io_polymesh_boundary.


(** ** io_vtu.py: the VTU text *)

Module io_vtu_text.
Import io_polymesh_text.

(** The literals of the template are written with an apostrophe where
    the source has a double quote; the template has no apostrophe of
    its own. *)
Fixpoint dq (s : string) : string :=
  match s with
  | EmptyString => EmptyString
  | String c s' => String (if Ascii.eqb c "'" then "034"%char else c) (dq s')
  end.

(** *** Export *)

(** [generate_vtu_text(...)]; [points_min] and [points_max] are the
    texts [str()] gives for the two floating point numbers. *)
Definition generate_vtu_text (points points_min points_max : string) (nPoints : Z)
    (connectivities celltypes offsets : string) (offsets_max nCells : Z)
    (cellfaces : string) (cellfaces_max : Z) (cellfaceoffsets : string) : string :=
  let text :=
    dq "<VTKFile type='UnstructuredGrid' version='1.0' byte_order='LittleEndian' header_type='UInt64'>"
    +:+ Py.nl +:+ "  <UnstructuredGrid>"
    +:+ Py.nl +:+ dq "    <Piece NumberOfPoints='" in
  let text := text +:+ (Py.str nPoints +:+ dq "' NumberOfCells='"
    +:+ Py.str nCells +:+ dq "'>"
    +:+ Py.nl +:+ "      <PointData>"
    +:+ Py.nl +:+ "      </PointData>"
    +:+ Py.nl +:+ "      <CellData>"
    +:+ Py.nl +:+ "      </CellData>"
    +:+ Py.nl +:+ "      <Points>"
    +:+ Py.nl +:+ dq "        <DataArray type='Float32' Name='Points' NumberOfComponents='3' format='ascii' RangeMin='") in
  let text := text +:+ (points_min +:+ dq "' RangeMax='"
    +:+ points_max +:+ dq "'>" +:+ Py.nl) in
  let text := text +:+ points in
  let text := text +:+ ("       </DataArray>"
    +:+ Py.nl +:+ "      </Points>"
    +:+ Py.nl +:+ "      <Cells>"
    +:+ Py.nl +:+ dq "        <DataArray type='Int64' Name='connectivity' format='ascii' RangeMin='0' RangeMax='") in
  let text := text +:+ (Py.str (nPoints - 1) +:+ dq "'>" +:+ Py.nl) in
  let text := text +:+ connectivities in
  let text := text +:+ ("        </DataArray>"
    +:+ Py.nl +:+ dq "        <DataArray type='Int64' Name='offsets' format='ascii' RangeMin='0' RangeMax='") in
  let text := text +:+ (Py.str offsets_max +:+ dq "'>" +:+ Py.nl) in
  let text := text +:+ offsets in
  let text := text +:+ ("        </DataArray>"
    +:+ Py.nl +:+ dq "        <DataArray type='UInt8' Name='types' format='ascii' RangeMin='0' RangeMax='") in
  let text := text +:+ (dq "42'>" +:+ Py.nl) in
  let text := text +:+ celltypes in
  let text := text +:+ ("        </DataArray>"
    +:+ Py.nl +:+ dq "        <DataArray type='Int64' Name='faces' format='ascii' RangeMin='0' RangeMax='") in
  let text := text +:+ (Py.str nPoints +:+ dq "'>" +:+ Py.nl) in
  let text := text +:+ cellfaces in
  let text := text +:+ ("        </DataArray>"
    +:+ Py.nl +:+ dq "        <DataArray type='Int64' Name='faceoffsets' format='ascii' RangeMin='0' RangeMax='") in
  let text := text +:+ (Py.str cellfaces_max +:+ dq "'>" +:+ Py.nl) in
  let text := text +:+ cellfaceoffsets in
  let text := text +:+ ("        </DataArray>"
    +:+ Py.nl +:+ "      </Cells>"
    +:+ Py.nl +:+ "    </Piece>"
    +:+ Py.nl +:+ "  </UnstructuredGrid>"
    +:+ Py.nl +:+ "</VTKFile>" +:+ Py.nl) in
  text.

(** *** Import *)

(** What follows the first occurrence of [pat] in [s]. *)
Fixpoint find_after (pat s : string) : option string :=
  match io_polymesh_fix.strip_prefix pat s with
  | Some rest => Some rest
  | None =>
      match s with
      | String _ s' => find_after pat s'
      | EmptyString => None
      end
  end.

(** The lazy group [(.*?)] and the double quote after it, at the
    start of [s]: the characters before the first double quote, when
    there is one.  (A line of [splitlines()] holds no line feed, the
    one character [.] does not match.) *)
Fixpoint until_quote (s : string) : option string :=
  match s with
  | EmptyString => None
  | String c s' =>
      if Ascii.eqb c "034" then Some "" else String c <$> until_quote s'
  end.

(** The group of [pat], the lazy group and a double quote searched
    in a line: the first occurrence of [pat] decides, as a later one
    is followed by no double quote either. *)
Definition quoted_after (pat line : string) : option string :=
  find_after pat line ≫= until_quote.

(** The group of [.*], [pat], the lazy group and a double quote
    matched at the start of [s]: the greedy [.*] stops at the last
    occurrence of [pat] that is followed by a double quote; [best]
    is the group of the last one seen so far. *)
Fixpoint last_quoted_after (pat : string) (best : option string) (s : string)
  : option string :=
  match s with
  | EmptyString => best
  | String _ s' =>
      last_quoted_after pat
        (match io_polymesh_fix.strip_prefix pat s ≫= until_quote with
         | Some g => Some g
         | None => best
         end) s'
  end.

(** [rec1.search(line)] of [get_data_array_block]: the text
    [<DataArray ], anything, [Name=], a double quote, the lazy group
    and a double quote.  The group. *)
Definition name_group (line : string) : option string :=
  find_after "<DataArray " line ≫= last_quoted_after (dq "Name='") None.

(** [rec2.search(line)], for [\<\/DataArray\>]. *)
Definition closes (line : string) : bool :=
  match find_after "</DataArray>" line with
  | Some _ => true
  | None => false
  end.

(** [validate_vtu(text)]: the error message, [None] when the function
    returns nothing. *)
Fixpoint validate_loop (lines : list string) (match_ : bool) : option string :=
  match lines with
  | [] =>
      if match_ then None
      else Some "Error: File does not seem to be in VTU format"
  | line :: lines' =>
      let regex1 := quoted_after (dq "VTKFile type='") line in
      let regex2 := quoted_after (dq " format='") line in
      let check2 (match_ : bool) :=
        match regex2 with
        | Some value =>
            if String.eqb value "ascii" then validate_loop lines' match_
            else Some ("VTK file format is not 'ascii' but " +:+ value)
        | None => validate_loop lines' match_
        end in
      match regex1 with
      | Some value =>
          if String.eqb value "UnstructuredGrid" then check2 true
          else Some ("VTK file type is not 'UnstructuredGrid' but " +:+ value)
      | None => check2 match_
      end
  end.

Definition validate_vtu (text : string) : option string :=
  if String.eqb text "" then Some "Error: No file was selected"
  else validate_loop (splitlines text) false.

(** One iteration of the loop of [get_data_array_block]. *)
Definition block_step (name : string) (acc : bool * string) (line : string)
  : bool * string :=
  let '(inside, datablock) := acc in
  match name_group line with
  | Some g =>
      if String.eqb g name then (true, datablock) else (false, datablock)
  | None =>
      let inside := if closes line then false else inside in
      (inside, if inside then datablock +:+ line else datablock)
  end.

(** The text [get_data_array_block] hands to [get_list_from_text]. *)
Definition datablock (name text : string) : string :=
  (foldl (block_step name) (false, "") (splitlines text)).2.

Section eval.
(** [eval(command)] is outside the model: [eval] gives the value of
    a command, [None] when it raises. *)
Context (eval : string → option Z).

(** [get_list_from_text(text, vartype)]; a piece of [text.split()]
    is not empty and [strip()] leaves it as it is. *)
Fixpoint eval_values (vartype : string) (values : list string) : option (list Z) :=
  match values with
  | [] => Some []
  | value :: values' =>
      match eval (vartype +:+ "(" +:+ value +:+ ")") with
      | None => None
      | Some v =>
          match eval_values vartype values' with
          | None => None
          | Some valuelist => Some (v :: valuelist)
          end
      end
  end.

Definition get_list_from_text (text vartype : string) : option (list Z) :=
  eval_values vartype (split text).

(** [get_data_array_block(name, vartype, text)] *)
Definition get_data_array_block (name vartype text : string) : option (list Z) :=
  get_list_from_text (datablock name text) vartype.
End eval.

End io_vtu_text.


(** * Properties *)

(** ** Indexing *)

Section indexing.

Lemma position_Ok (n : nat) (i : Z) :
  0 ≤ i < Z.of_nat n → Py.position n i = Py.Ok (Z.to_nat i).
Proof.
  intros Hi. unfold Py.position.
  rewrite (decide_False (P := i < 0)) by lia. by rewrite decide_True by lia.
Qed.

Lemma getitem_lookup {A} (l : list A) (i : nat) (x : A) :
  l !! i = Some x → Py.getitem l (Z.of_nat i) = Py.Ok x.
Proof.
  intros Hl. pose proof (lookup_lt_Some _ _ _ Hl) as Hlt.
  unfold Py.getitem, Py.position.
  rewrite (decide_False (P := Z.of_nat i < 0)) by lia.
  rewrite decide_True by lia.
  by rewrite Nat2Z.id, Hl.
Qed.

Lemma getitem_Ok_lookup {A} (l : list A) (i : nat) (x : A) :
  Py.getitem l (Z.of_nat i) = Py.Ok x → l !! i = Some x.
Proof.
  unfold Py.getitem, Py.position.
  rewrite (decide_False (P := Z.of_nat i < 0)) by lia. case_decide; [|done].
  rewrite Nat2Z.id. destruct (l !! i); [by intros [= ->] | done].
Qed.

Lemma setitem_with_Ok {A} (g : A → A) (l : list A) (i : Z) :
  0 ≤ i < Z.of_nat (length l) →
  Py.setitem_with g l i = Py.Ok (alter g (Z.to_nat i) l).
Proof. intros Hi. unfold Py.setitem_with. by rewrite position_Ok. Qed.

Lemma range_of_nat (n : nat) : Py.range (Z.of_nat n) = Z.of_nat <$> seq 0 n.
Proof. unfold Py.range. by rewrite Nat2Z.id. Qed.

End indexing.

(** ** The face map key *)

Section vert_string.
Import io_vtu.

(** No comma occurs in the string. *)
Fixpoint comma_free (s : string) : Prop :=
  match s with
  | EmptyString => True
  | String c s' => c ≠ ","%char ∧ comma_free s'
  end.

Lemma append_nil (t : string) : "" +:+ t = t.
Proof. reflexivity. Qed.

Lemma append_cons c (s t : string) : String c s +:+ t = String c (s +:+ t).
Proof. reflexivity. Qed.

Lemma append_nil_r (s : string) : s +:+ "" = s.
Proof. induction s as [|c s IH]; [done|]. by rewrite append_cons, IH. Qed.

Lemma string_app_assoc (a b c : string) : (a +:+ b) +:+ c = a +:+ (b +:+ c).
Proof.
  induction a as [|x a IH]; [by rewrite !append_nil|].
  by rewrite !append_cons, IH.
Qed.

Lemma pretty_N_char_comma d : pretty_N_char d ≠ ","%char.
Proof. unfold pretty_N_char. by repeat case_match. Qed.

Lemma pretty_N_go_comma_free x s : comma_free s → comma_free (pretty_N_go x s).
Proof.
  revert s. induction (N.lt_wf_0 x) as [x _ IH]; intros s Hs.
  assert (x = 0 ∨ 0 < x)%N as [->|Hpos] by lia.
  - by rewrite pretty_N_go_0.
  - rewrite pretty_N_go_step by done. apply IH.
    + by apply N.div_lt.
    + split; [apply pretty_N_char_comma | done].
Qed.

Lemma pretty_N_comma_free (x : N) : comma_free (pretty x).
Proof.
  unfold pretty, pretty_N. case_decide; [by compute|].
  by apply pretty_N_go_comma_free.
Qed.

Lemma str_comma_free i : comma_free (Py.str i).
Proof.
  unfold Py.str, pretty, pretty_Z. destruct i as [|p|p].
  - by compute.
  - apply pretty_N_comma_free.
  - split; [done | apply pretty_N_comma_free].
Qed.

(** A comma-free prefix before a comma is determined by the whole. *)
Lemma comma_free_prefix_inj s1 s2 t1 t2 :
  comma_free s1 → comma_free s2 →
  s1 +:+ String "," t1 = s2 +:+ String "," t2 → s1 = s2 ∧ t1 = t2.
Proof.
  revert s2. induction s1 as [|c s1 IH]; intros [|d s2];
    rewrite ?append_nil, ?append_cons; simpl.
  - intros _ _ [= ->]. done.
  - intros _ [Hd _] [= <- _]. done.
  - intros [Hc _] _ [= -> _]. done.
  - intros [_ H1] [_ H2] [= -> Heq]. destruct (IH _ H1 H2 Heq) as [-> ->]. done.
Qed.

(** The key of a list that is already in order. *)
Definition vert_string_of (sortlist : list Z) : string :=
  foldl (λ string i, string +:+ Py.str i +:+ ",") "" sortlist.

Lemma foldl_vert_string acc l :
  foldl (λ string i, string +:+ Py.str i +:+ ",") acc l
  = acc +:+ vert_string_of l.
Proof.
  unfold vert_string_of. revert acc.
  induction l as [|x l IH] using rev_ind; intros acc.
  - simpl. by rewrite append_nil_r.
  - rewrite !foldl_app. simpl. rewrite IH.
    rewrite <- !string_app_assoc. done.
Qed.

Lemma vert_string_of_cons x l :
  vert_string_of (x :: l) = Py.str x +:+ String "," (vert_string_of l).
Proof.
  unfold vert_string_of at 1. simpl. rewrite foldl_vert_string.
  rewrite append_nil, string_app_assoc. reflexivity.
Qed.

Lemma vert_string_of_inj l1 l2 :
  vert_string_of l1 = vert_string_of l2 → l1 = l2.
Proof.
  revert l2. induction l1 as [|x l1 IH]; intros [|y l2].
  - done.
  - rewrite vert_string_of_cons. unfold vert_string_of at 1. simpl.
    destruct (Py.str y); rewrite ?append_nil, ?append_cons; discriminate.
  - rewrite vert_string_of_cons. unfold vert_string_of at 2. simpl.
    destruct (Py.str x); rewrite ?append_nil, ?append_cons; discriminate.
  - rewrite !vert_string_of_cons. intros Heq.
    apply comma_free_prefix_inj in Heq as [Hs Ht]; [|apply str_comma_free..].
    apply (inj pretty) in Hs. f_equal; auto.
Qed.

Lemma get_vert_string_sorted vilist :
  get_vert_string vilist = vert_string_of (merge_sort Z.le vilist).
Proof. done. Qed.

Lemma merge_sort_perm (l1 l2 : list Z) :
  l1 ≡ₚ l2 → merge_sort Z.le l1 = merge_sort Z.le l2.
Proof.
  intros Hp. apply (Sorted_unique Z.le).
  - apply (Sorted_merge_sort Z.le).
  - apply (Sorted_merge_sort Z.le).
  - by rewrite !merge_sort_Permutation.
Qed.

Lemma get_vert_string_perm (l1 l2 : list Z) :
  l1 ≡ₚ l2 → get_vert_string l1 = get_vert_string l2.
Proof. intros Hp. rewrite !get_vert_string_sorted. f_equal. by apply merge_sort_perm. Qed.

Lemma get_vert_string_eq_iff (l1 l2 : list Z) :
  get_vert_string l1 = get_vert_string l2 ↔ l1 ≡ₚ l2.
Proof.
  split; [|apply get_vert_string_perm].
  rewrite !get_vert_string_sorted. intros Heq%vert_string_of_inj.
  rewrite <- (merge_sort_Permutation Z.le l1), <- (merge_sort_Permutation Z.le l2).
  by rewrite Heq.
Qed.

(** C9.  Two vertex index lists that are permutations of each other
    (such as the two windings of a shared face) get the same key, and
    two lists whose sorted index sequences differ get different keys. *)
Theorem get_vert_string_canonical (l1 l2 : list Z) :
  (l1 ≡ₚ l2 → get_vert_string l1 = get_vert_string l2) ∧
  (merge_sort Z.le l1 ≠ merge_sort Z.le l2 →
   get_vert_string l1 ≠ get_vert_string l2).
Proof.
  split; [apply get_vert_string_perm|].
  intros Hne Heq. apply Hne.
  rewrite !get_vert_string_sorted in Heq. by apply vert_string_of_inj.
Qed.

(** The two windings [4,7,6,5] and [5,6,7,4] of one quadrilateral
    collide; the faces [1,2,3] and [1,2,4] do not. *)
Lemma get_vert_string_canonical_witness :
  get_vert_string [4; 7; 6; 5] = get_vert_string [5; 6; 7; 4] ∧
  get_vert_string [1; 2; 3] ≠ get_vert_string [1; 2; 4].
Proof.
  split.
  - apply (get_vert_string_canonical [4; 7; 6; 5] [5; 6; 7; 4]).
    symmetry. apply (reverse_Permutation [4; 7; 6; 5]).
  - apply (get_vert_string_canonical [1; 2; 3] [1; 2; 4]).
    vm_compute. discriminate.
Defined.

End vert_string.


(** ** The face deduplication engine *)

Module dedup.
Import io_vtu.

(** What one iteration of [add_cell_faces] does to the store and the
    face map, for the vertex indices [real] of the face. *)
Definition attach (c ugf : nat) (st : ug) : ug := (add_face_and_verts c ugf st).1.

Definition relink (c : nat) (f : UGFace.t) : UGFace.t :=
  UGFace.mk (UGFace.ugverts f) (UGFace.owner f) (Some c).

Definition link_face (c : nat) (real : list Z) (st : ug) (fm : gmap string nat)
  : ug * gmap string nat :=
  match fm !! get_vert_string real with
  | Some ugf =>
      (attach c ugf (mk_ug (alter (relink c) ugf (ugfaces st)) (ugcells st)), fm)
  | None =>
      let ugf := length (ugfaces st) in
      (attach c ugf (mk_ug (ugfaces st ++ [UGFace.mk real (Some c) None]) (ugcells st)),
       <[get_vert_string real := ugf]> fm)
  end.

Lemma alter_app_last {A} (g : A → A) (l : list A) (x : A) :
  alter g (length l) (l ++ [x]) = l ++ [g x].
Proof.
  induction l as [|y l IH]; [done|].
  change (y :: alter g (length l) (l ++ [x]) = y :: (l ++ [g x])).
  by rewrite IH.
Qed.

Lemma lookup_app_last {A} (l : list A) (x : A) : (l ++ [x]) !! length l = Some x.
Proof. induction l as [|y l IH]; [done|]. exact IH. Qed.

Lemma add_cell_face_run c t vilist fm b st real :
  real_vilist b vilist t = Py.Ok real →
  add_cell_face c t vilist fm b st
  = ((link_face c real st fm).1, Py.Ok (link_face c real st fm).2).
Proof.
  intros Hr. unfold add_cell_face, link_face, attach.
  unfold mbind, M_bind, Py.bind, Py.lift, mret, M_ret, Py.ret. rewrite Hr.
  destruct (fm !! get_vert_string real) as [ugf|]; simpl; [done|].
  by rewrite alter_app_last.
Qed.

Lemma attach_ugfaces c ugf st : ugfaces (attach c ugf st) = ugfaces st.
Proof. done. Qed.

Lemma attach_ugcells c ugf st :
  ugcells (attach c ugf st)
  = alter (λ x, UGCell.mk (UGCell.ugfaces x ++ [ugf])
                  (add_verts (UGCell.ugverts x)
                     (default [] (UGFace.ugverts <$> ugfaces st !! ugf)))
                  (UGCell.deleted x)) c (ugcells st).
Proof. done. Qed.

(** The face records after one iteration. *)
Lemma link_face_ugfaces c real st fm :
  ugfaces (link_face c real st fm).1
  = match fm !! get_vert_string real with
    | Some ugf => alter (relink c) ugf (ugfaces st)
    | None => ugfaces st ++ [UGFace.mk real (Some c) None]
    end.
Proof. unfold link_face. by destruct (fm !! _). Qed.

Lemma link_face_facemap c real st fm :
  (link_face c real st fm).2
  = match fm !! get_vert_string real with
    | Some ugf => fm
    | None => <[get_vert_string real := length (ugfaces st)]> fm
    end.
Proof. unfold link_face. by destruct (fm !! _). Qed.

(** Every key of the face map names a stored face with that key, and
    every stored face is found under its key. *)
Definition facemap_inv (faces : list UGFace.t) (fm : gmap string nat) : Prop :=
  (∀ k ugf, fm !! k = Some ugf →
     ∃ f, faces !! ugf = Some f ∧ get_vert_string (UGFace.ugverts f) = k) ∧
  (∀ ugf f, faces !! ugf = Some f →
     fm !! get_vert_string (UGFace.ugverts f) = Some ugf).

Lemma facemap_inv_empty : facemap_inv [] ∅.
Proof.
  split.
  - intros k ugf Hl. by rewrite lookup_empty in Hl.
  - intros ugf f Hl. by rewrite lookup_nil in Hl.
Qed.

(** How the faces known before a cell is processed look after it:
    same vertices, same owner, and the neighbour either as it was or
    the cell [c]. *)
Definition faces_kept (c : nat) (faces faces' : list UGFace.t) : Prop :=
  ∀ ugf f, faces !! ugf = Some f →
    ∃ f', faces' !! ugf = Some f' ∧
          UGFace.ugverts f' = UGFace.ugverts f ∧
          UGFace.owner f' = UGFace.owner f ∧
          (UGFace.neighbour f' = UGFace.neighbour f ∨ UGFace.neighbour f' = Some c).

Lemma faces_kept_refl c faces : faces_kept c faces faces.
Proof. intros ugf f Hf. exists f. auto. Qed.

Lemma faces_kept_trans c l1 l2 l3 :
  faces_kept c l1 l2 → faces_kept c l2 l3 → faces_kept c l1 l3.
Proof.
  intros H12 H23 ugf f Hf.
  destruct (H12 _ _ Hf) as (f2 & Hf2 & Hv2 & Ho2 & Hn2).
  destruct (H23 _ _ Hf2) as (f3 & Hf3 & Hv3 & Ho3 & Hn3).
  exists f3. split_and!; [done|congruence|congruence|].
  destruct Hn2, Hn3; [left|right|right|right]; congruence.
Qed.

Lemma link_face_kept c real st fm :
  faces_kept c (ugfaces st) (ugfaces (link_face c real st fm).1).
Proof.
  rewrite link_face_ugfaces. intros ugf f Hf.
  destruct (fm !! _) as [ugf'|].
  - destruct (decide (ugf' = ugf)) as [->|Hne].
    + exists (relink c f). split; [|by auto].
      by rewrite list_lookup_alter_eq, Hf.
    + exists f. split; [|by auto]. by rewrite list_lookup_alter_ne.
  - exists f. split; [|by auto]. by apply lookup_app_l_Some.
Qed.

Lemma link_face_inv c real st fm :
  facemap_inv (ugfaces st) fm →
  facemap_inv (ugfaces (link_face c real st fm).1) (link_face c real st fm).2.
Proof.
  intros [Hfm Hst]. rewrite link_face_ugfaces, link_face_facemap.
  destruct (fm !! get_vert_string real) as [ugf'|] eqn:Hk.
  - split.
    + intros k ugf Hl. destruct (Hfm _ _ Hl) as (f & Hf & Hkey).
      destruct (decide (ugf' = ugf)) as [->|Hne].
      * exists (relink c f). by rewrite list_lookup_alter_eq, Hf.
      * exists f. by rewrite list_lookup_alter_ne.
    + intros ugf f. destruct (decide (ugf' = ugf)) as [->|Hne].
      * rewrite list_lookup_alter_eq.
        destruct (ugfaces st !! ugf) as [f0|] eqn:Hf0; [|done].
        simpl. intros [= <-]. simpl. by apply Hst.
      * rewrite list_lookup_alter_ne by done. apply Hst.
  - split.
    + intros k ugf. rewrite lookup_insert_Some.
      intros [[<- <-]|[Hne Hl]].
      * eexists. split; [apply lookup_app_last | done].
      * destruct (Hfm _ _ Hl) as (f & Hf & Hkey).
        exists f. split; [|done]. by apply lookup_app_l_Some.
    + intros ugf f. rewrite lookup_app_Some.
      intros [Hf|[Hge Hf]].
      * assert (get_vert_string (UGFace.ugverts f) ≠ get_vert_string real).
        { intros Heq. apply Hst in Hf. congruence. }
        rewrite lookup_insert_ne by done. by apply Hst.
      * apply list_lookup_singleton_Some in Hf as [Hi <-]. simpl.
        rewrite lookup_insert_eq. f_equal. lia.
Qed.

Lemma link_face_subseteq c real st fm :
  fm ⊆ (link_face c real st fm).2.
Proof.
  rewrite link_face_facemap. destruct (fm !! _) eqn:Hk; [done|].
  by apply insert_subseteq.
Qed.

(** The face the iteration resolves to: it is in the map afterwards,
    owned by [c] when the key was new and with [c] as its neighbour
    when the key was known. *)
Lemma link_face_resolved c real st fm :
  (∀ k ugf, fm !! k = Some ugf → ugf < length (ugfaces st))%nat →
  ∃ ugf f, (link_face c real st fm).2 !! get_vert_string real = Some ugf ∧
           ugfaces (link_face c real st fm).1 !! ugf = Some f ∧
           (fm !! get_vert_string real = None →
              UGFace.owner f = Some c ∧ UGFace.ugverts f = real) ∧
           (∀ ugf0, fm !! get_vert_string real = Some ugf0 →
              ugf = ugf0 ∧ UGFace.neighbour f = Some c).
Proof.
  intros Hdom. rewrite link_face_ugfaces, link_face_facemap.
  destruct (fm !! get_vert_string real) as [ugf|] eqn:Hk.
  - destruct (lookup_lt_is_Some_2 (ugfaces st) ugf) as [f Hf]; [by eapply Hdom|].
    exists ugf, (relink c f). split_and!; [done| |done|].
    + by rewrite list_lookup_alter_eq, Hf.
    + by intros ? [= <-].
  - eexists _, _. split_and!.
    + by rewrite lookup_insert_eq.
    + apply lookup_app_last.
    + done.
    + done.
Qed.

(** *** All templates of one cell *)

Fixpoint link_faces (c : nat) (reals : list (list Z)) (st : ug)
    (fm : gmap string nat) : ug * gmap string nat :=
  match reals with
  | [] => (st, fm)
  | real :: reals' =>
      link_faces c reals' (link_face c real st fm).1 (link_face c real st fm).2
  end.

Lemma add_cell_faces_run c fis vilist b reals :
  Forall2 (λ t real, real_vilist b vilist t = Py.Ok real) fis reals →
  ∀ fm st,
    add_cell_faces c fis vilist fm b st
    = ((link_faces c reals st fm).1, Py.Ok (link_faces c reals st fm).2).
Proof.
  induction 1 as [|t real fis reals Hr _ IH]; intros fm st; [done|].
  simpl. unfold mbind, M_bind, Py.bind.
  rewrite (add_cell_face_run _ _ _ _ _ _ _ Hr). apply IH.
Qed.

(** A run of [add_cell_faces] that returns has resolved every template. *)
Lemma add_cell_faces_inv_Ok c fis vilist b :
  ∀ fm st st' fm',
    add_cell_faces c fis vilist fm b st = (st', Py.Ok fm') →
    ∃ reals, Forall2 (λ t real, real_vilist b vilist t = Py.Ok real) fis reals ∧
             st' = (link_faces c reals st fm).1 ∧
             fm' = (link_faces c reals st fm).2.
Proof.
  induction fis as [|t fis IH]; intros fm st st' fm'.
  - intros [= <- <-]. exists []. by split; [constructor|].
  - simpl. unfold mbind, M_bind, Py.bind.
    destruct (real_vilist b vilist t) as [real|e] eqn:Hr.
    + rewrite (add_cell_face_run _ _ _ _ _ _ _ Hr). intros Hrun.
      destruct (IH _ _ _ _ Hrun) as (reals & Hall & -> & ->).
      exists (real :: reals). by split; [constructor|].
    + unfold add_cell_face, mbind, M_bind, Py.bind, Py.lift. by rewrite Hr.
Qed.

Lemma link_faces_kept c reals :
  ∀ st fm, faces_kept c (ugfaces st) (ugfaces (link_faces c reals st fm).1).
Proof.
  induction reals as [|real reals IH]; intros st fm; [apply faces_kept_refl|].
  eapply faces_kept_trans; [apply link_face_kept | apply IH].
Qed.

Lemma link_faces_subseteq c reals :
  ∀ st fm, fm ⊆ (link_faces c reals st fm).2.
Proof.
  induction reals as [|real reals IH]; intros st fm; [done|].
  etrans; [apply link_face_subseteq | apply IH].
Qed.

Lemma link_faces_inv c reals :
  ∀ st fm, facemap_inv (ugfaces st) fm →
    facemap_inv (ugfaces (link_faces c reals st fm).1) (link_faces c reals st fm).2.
Proof.
  induction reals as [|real reals IH]; intros st fm Hinv; [done|].
  apply IH. by apply link_face_inv.
Qed.

(** A face whose key is already in the map when the cell [c] is
    processed, and to which one of the cell's templates resolves:
    afterwards it is the same record with the same owner, and its
    neighbour is [c], whatever it was before. *)
Lemma link_faces_known c reals :
  ∀ st fm real ugf f,
    real ∈ reals →
    fm !! get_vert_string real = Some ugf →
    ugfaces st !! ugf = Some f →
    ∃ f', ugfaces (link_faces c reals st fm).1 !! ugf = Some f' ∧
          (link_faces c reals st fm).2 !! get_vert_string real = Some ugf ∧
          UGFace.ugverts f' = UGFace.ugverts f ∧
          UGFace.owner f' = UGFace.owner f ∧
          UGFace.neighbour f' = Some c.
Proof.
  induction reals as [|r0 reals IH]; intros st fm real ugf f Hin Hk Hf.
  - by apply elem_of_nil in Hin.
  - apply elem_of_cons in Hin as [<-|Hin].
    + simpl.
      assert (ugfaces (link_face c real st fm).1 !! ugf = Some (relink c f)) as Hf1.
      { rewrite link_face_ugfaces, Hk. by rewrite list_lookup_alter_eq, Hf. }
      destruct (link_faces_kept c reals (link_face c real st fm).1
                  (link_face c real st fm).2 _ _ Hf1) as (f' & Hf' & Hv & Ho & Hn).
      exists f'. split_and!; [done| |done|done|].
      * eapply lookup_weaken; [|apply link_faces_subseteq].
        eapply lookup_weaken; [exact Hk | apply link_face_subseteq].
      * by destruct Hn.
    + simpl.
      destruct (link_face_kept c r0 st fm _ _ Hf) as (f1 & Hf1 & Hv1 & Ho1 & _).
      assert ((link_face c r0 st fm).2 !! get_vert_string real = Some ugf) as Hk1.
      { eapply lookup_weaken; [exact Hk | apply link_face_subseteq]. }
      destruct (IH _ _ _ _ _ Hin Hk1 Hf1) as (f' & Hf' & Hk' & Hv & Ho & Hn).
      exists f'. split_and!; [done|done|congruence|congruence|done].
Qed.

(** A face whose key is not in the map when the cell [c] is
    processed, and to which one of the cell's templates resolves: a
    record for it exists afterwards, owned by [c]. *)
Lemma link_faces_new c reals :
  ∀ st fm real,
    real ∈ reals →
    fm !! get_vert_string real = None →
    ∃ ugf f', (link_faces c reals st fm).2 !! get_vert_string real = Some ugf ∧
              ugfaces (link_faces c reals st fm).1 !! ugf = Some f' ∧
              UGFace.owner f' = Some c.
Proof.
  induction reals as [|r0 reals IH]; intros st fm real Hin Hk.
  - by apply elem_of_nil in Hin.
  - simpl.
    destruct ((link_face c r0 st fm).2 !! get_vert_string real) as [ugf|] eqn:Hk1.
    + (* the head template has this key: the record is created here *)
      assert (ugfaces (link_face c r0 st fm).1 !! ugf
              = Some (UGFace.mk r0 (Some c) None)) as Hf1.
      { revert Hk1. rewrite link_face_ugfaces, link_face_facemap.
        destruct (fm !! get_vert_string r0) eqn:Hk0; [congruence|].
        rewrite lookup_insert_Some. intros [[_ <-]|[_ ?]]; [|congruence].
        apply lookup_app_last. }
      destruct (link_faces_kept c reals (link_face c r0 st fm).1
                  (link_face c r0 st fm).2 _ _ Hf1) as (f' & Hf' & Hv & Ho & Hn).
      exists ugf, f'. split_and!; [|done|done].
      eapply lookup_weaken; [exact Hk1 | apply link_faces_subseteq].
    + apply elem_of_cons in Hin as [->|Hin]; [|by apply IH].
      exfalso. revert Hk1. rewrite link_face_facemap, Hk.
      by rewrite lookup_insert_eq.
Qed.

End dedup.


(** ** Cells and the loop over the cells *)

Module vtu_import.
Import io_vtu dedup.

(** The faces a cell lists are never removed from it. *)
Definition cells_kept (cells cells' : list UGCell.t) : Prop :=
  ∀ k x, cells !! k = Some x →
    ∃ x', cells' !! k = Some x' ∧ UGCell.ugfaces x ⊆ UGCell.ugfaces x'.

Lemma cells_kept_refl cells : cells_kept cells cells.
Proof. intros k x Hx. by exists x. Qed.

Lemma cells_kept_trans l1 l2 l3 :
  cells_kept l1 l2 → cells_kept l2 l3 → cells_kept l1 l3.
Proof.
  intros H12 H23 k x Hx.
  destruct (H12 _ _ Hx) as (x2 & Hx2 & Hs2).
  destruct (H23 _ _ Hx2) as (x3 & Hx3 & Hs3).
  exists x3. split; [done|]. by etrans.
Qed.

Lemma cells_kept_app cells x : cells_kept cells (cells ++ [x]).
Proof. intros k y Hy. exists y. split; [by apply lookup_app_l_Some | done]. Qed.

(** One iteration appends the resolved face to the cell [c]. *)
Lemma link_face_ugcells c real st fm :
  ∃ ugf, (link_face c real st fm).2 !! get_vert_string real = Some ugf ∧
         cells_kept (ugcells st) (ugcells (link_face c real st fm).1) ∧
         ∀ x, ugcells st !! c = Some x →
           ∃ x', ugcells (link_face c real st fm).1 !! c = Some x' ∧
                 ugf ∈ UGCell.ugfaces x'.
Proof.
  assert (∀ ugf st0,
    cells_kept (ugcells st0) (ugcells (attach c ugf st0)) ∧
    ∀ x, ugcells st0 !! c = Some x →
      ∃ x', ugcells (attach c ugf st0) !! c = Some x' ∧ ugf ∈ UGCell.ugfaces x')
    as Hattach.
  { intros ugf st0. rewrite attach_ugcells. split.
    - intros k x Hx. destruct (decide (c = k)) as [->|Hne].
      + eexists. split; [by rewrite list_lookup_alter_eq, Hx|]. simpl. set_solver.
      + exists x. by rewrite list_lookup_alter_ne.
    - intros x Hx. eexists. split; [by rewrite list_lookup_alter_eq, Hx|].
      simpl. set_solver. }
  unfold link_face.
  destruct (fm !! get_vert_string real) as [ugf|] eqn:Hk.
  - exists ugf. split; [done|]. apply (Hattach ugf (mk_ug _ (ugcells st))).
  - exists (length (ugfaces st)). split; [simpl; by rewrite lookup_insert_eq|].
    apply (Hattach _ (mk_ug _ (ugcells st))).
Qed.

Lemma link_faces_cells_kept c reals :
  ∀ st fm, cells_kept (ugcells st) (ugcells (link_faces c reals st fm).1).
Proof.
  induction reals as [|real reals IH]; intros st fm; [apply cells_kept_refl|].
  simpl. eapply cells_kept_trans; [|apply IH].
  by destruct (link_face_ugcells c real st fm) as (? & _ & ? & _).
Qed.

(** After the cell [c] is processed it lists the face of each of its
    templates. *)
Lemma link_faces_attached c reals :
  ∀ st fm real x,
    real ∈ reals → ugcells st !! c = Some x →
    ∃ ugf x', (link_faces c reals st fm).2 !! get_vert_string real = Some ugf ∧
              ugcells (link_faces c reals st fm).1 !! c = Some x' ∧
              ugf ∈ UGCell.ugfaces x'.
Proof.
  induction reals as [|r0 reals IH]; intros st fm real x Hin Hx.
  - by apply elem_of_nil in Hin.
  - simpl. destruct (link_face_ugcells c r0 st fm) as (ugf & Hk & Hkept & Hc).
    destruct (Hc _ Hx) as (x1 & Hx1 & Hin1).
    apply elem_of_cons in Hin as [->|Hin].
    + destruct (link_faces_cells_kept c reals (link_face c r0 st fm).1
                  (link_face c r0 st fm).2 _ _ Hx1) as (x' & Hx' & Hsub).
      exists ugf, x'. split_and!; [|done|by apply Hsub].
      eapply lookup_weaken; [exact Hk | apply link_faces_subseteq].
    + by eapply IH.
Qed.

Lemma link_faces_ugcells_length c reals :
  ∀ st fm, length (ugcells (link_faces c reals st fm).1) = length (ugcells st).
Proof.
  induction reals as [|real reals IH]; intros st fm; [done|].
  simpl. rewrite IH. unfold link_face.
  destruct (fm !! _); simpl; by rewrite length_alter.
Qed.

(** The templates of a cell and the faces they resolve to. *)
Definition resolved (b : bool) (vilist : list Z) (fis reals : list (list Z)) : Prop :=
  Forall2 (λ t real, real_vilist b vilist t = Py.Ok real) fis reals.

Lemma resolved_exists b vilist fis :
  Forall (λ t, ∃ real, real_vilist b vilist t = Py.Ok real) fis →
  ∃ reals, resolved b vilist fis reals.
Proof.
  induction 1 as [|t fis [real Hr] _ [reals IH]].
  - exists []. constructor.
  - exists (real :: reals). by constructor.
Qed.

Lemma resolved_elem_of b vilist fis reals t real :
  resolved b vilist fis reals →
  t ∈ fis → real_vilist b vilist t = Py.Ok real → real ∈ reals.
Proof.
  induction 1 as [|t0 r0 fis reals Hr0 _ IH]; intros Hin Hr.
  - by apply elem_of_nil in Hin.
  - apply elem_of_cons in Hin as [->|Hin].
    + rewrite Hr in Hr0. injection Hr0 as ->. by left.
    + right. by apply IH.
Qed.

(** The store with the cell [vtu_add_cell] creates first. *)
Definition with_new_cell (st : ug) : ug :=
  mk_ug (ugfaces st) (ugcells st ++ [UGCell.mk [] [] false]).

Lemma vtu_add_cell_archetype t fis vilist fm pfl st :
  archetype_fis t = Some fis →
  vtu_add_cell t vilist fm pfl st
  = add_cell_faces (length (ugcells st)) fis vilist fm false (with_new_cell st).
Proof.
  intros Ht. unfold vtu_add_cell, mbind, M_bind, Py.bind, UGCell_new.
  by rewrite Ht.
Qed.

Lemma vtu_add_cell_polyhedron vilist fm pfl st :
  vtu_add_cell 42 vilist fm pfl st
  = match get_polyhedron_fis pfl with
    | Py.Ok fis =>
        add_cell_faces (length (ugcells st)) fis vilist fm true (with_new_cell st)
    | Py.Raise e => (with_new_cell st, Py.Raise e)
    end.
Proof.
  unfold vtu_add_cell, mbind, M_bind, Py.bind, UGCell_new, Py.lift. simpl.
  by destruct (get_polyhedron_fis pfl).
Qed.

Definition unsupported (t : Z) : Prop := t ∉ [10; 12; 13; 14; 15; 16; 42].

Lemma vtu_add_cell_unsupported t vilist fm pfl st :
  unsupported t →
  vtu_add_cell t vilist fm pfl st
  = (with_new_cell st,
     Py.Raise (Py.ValueError ("Unsupported VTK cell type " +:+ Py.str t))).
Proof.
  intros Ht. unfold vtu_add_cell, mbind, M_bind, Py.bind, UGCell_new.
  assert (archetype_fis t = None ∧ t ≠ 42) as [-> Hne].
  { unfold unsupported in Ht. rewrite !not_elem_of_cons in Ht.
    destruct Ht as (?&?&?&?&?&?&?&_). split; [|done].
    unfold archetype_fis. by repeat case_match. }
  by rewrite decide_False.
Qed.

Section loop.
Context (connectivities offsets celltypes cellfaces cellfaceoffsets : list Z).

Local Abbreviation cell_inputs :=
  (cell_inputs connectivities offsets celltypes cellfaces cellfaceoffsets).
Local Abbreviation cell_step :=
  (cell_step connectivities offsets celltypes cellfaces cellfaceoffsets).
Local Abbreviation cell_loop :=
  (cell_loop connectivities offsets celltypes cellfaces cellfaceoffsets).

Lemma cell_step_run ci l st t conn_end vilist pfl o :
  cell_inputs ci l = Py.Ok (t, conn_end, vilist, pfl, o) →
  cell_step ci l st
  = match vtu_add_cell t vilist (facemap l) pfl st with
    | (st', Py.Ok fm') =>
        (st', Py.Ok (mk_locals (conn_index l + (conn_end - conn_index l)) o fm'))
    | (st', Py.Raise e) => (st', Py.Raise e)
    end.
Proof.
  intros Hin. unfold io_vtu.cell_step, mbind, M_bind, Py.bind, Py.lift.
  rewrite Hin. by destruct (vtu_add_cell _ _ _ _ _) as [? [|]].
Qed.

Lemma cell_step_ok ci l st t conn_end vilist pfl o st' fm' :
  cell_inputs ci l = Py.Ok (t, conn_end, vilist, pfl, o) →
  vtu_add_cell t vilist (facemap l) pfl st = (st', Py.Ok fm') →
  cell_step ci l st
  = (st', Py.Ok (mk_locals (conn_index l + (conn_end - conn_index l)) o fm')).
Proof. intros Hin Hadd. by rewrite (cell_step_run _ _ _ _ _ _ _ _ Hin), Hadd. Qed.

Lemma cell_step_raise ci l st t conn_end vilist pfl o st' e :
  cell_inputs ci l = Py.Ok (t, conn_end, vilist, pfl, o) →
  vtu_add_cell t vilist (facemap l) pfl st = (st', Py.Raise e) →
  cell_step ci l st = (st', Py.Raise e).
Proof. intros Hin Hadd. by rewrite (cell_step_run _ _ _ _ _ _ _ _ Hin), Hadd. Qed.

Lemma cell_loop_cons_ok ci cis l st st' l' :
  cell_step ci l st = (st', Py.Ok l') →
  cell_loop (ci :: cis) l st = cell_loop cis l' st'.
Proof. intros Hs. simpl. unfold mbind, M_bind, Py.bind. by rewrite Hs. Qed.

Lemma vtu_datalists_to_ugdata_ok st st' l' :
  cell_loop (Py.range (Z.of_nat (length celltypes))) locals_init st
  = (st', Py.Ok l') →
  vtu_datalists_to_ugdata connectivities offsets celltypes cellfaces
    cellfaceoffsets st = (st', Py.Ok tt).
Proof.
  intros Hl. unfold vtu_datalists_to_ugdata, mbind, M_bind, Py.bind.
  by rewrite Hl.
Qed.

Lemma vtu_datalists_to_ugdata_raise st st' e :
  cell_loop (Py.range (Z.of_nat (length celltypes))) locals_init st
  = (st', Py.Raise e) →
  vtu_datalists_to_ugdata connectivities offsets celltypes cellfaces
    cellfaceoffsets st = (st', Py.Raise e).
Proof.
  intros Hl. unfold vtu_datalists_to_ugdata, mbind, M_bind, Py.bind.
  by rewrite Hl.
Qed.

Lemma cell_loop_app cis1 cis2 l st :
  cell_loop (cis1 ++ cis2) l st
  = match cell_loop cis1 l st with
    | (st', Py.Ok l') => cell_loop cis2 l' st'
    | (st', Py.Raise e) => (st', Py.Raise e)
    end.
Proof.
  revert l st. induction cis1 as [|ci cis1 IH]; intros l st; [done|].
  simpl. unfold mbind, M_bind, Py.bind.
  destruct (cell_step ci l st) as [st1 [l1|e]]; [apply IH | done].
Qed.

(** An exception in one iteration ends the loop. *)
Lemma cell_loop_raise ci cis l st st' e :
  cell_step ci l st = (st', Py.Raise e) →
  cell_loop (ci :: cis) l st = (st', Py.Raise e).
Proof. intros Hs. simpl. unfold mbind, M_bind, Py.bind. by rewrite Hs. Qed.

Lemma range_split (n : nat) (ci : nat) :
  (ci < n)%nat →
  Py.range (Z.of_nat n)
  = Py.range (Z.of_nat ci) ++ Z.of_nat ci :: (Z.of_nat <$> seq (S ci) (n - S ci)).
Proof.
  intros Hlt. unfold Py.range. rewrite !Nat2Z.id.
  replace n with (ci + S (n - S ci))%nat at 1 by lia.
  rewrite seq_app, fmap_app. simpl. done.
Qed.
End loop.

End vtu_import.


(** ** Shared faces *)

Section shared_faces.
Import io_vtu dedup vtu_import.

(** A template that does not resolve raises [IndexError]. *)
Lemma real_vilist_raises (b : bool) (vilist t : list Z) (e : Py.exn) :
  real_vilist b vilist t = Py.Raise e → e = Py.IndexError.
Proof.
  unfold real_vilist. destruct b; [done|].
  induction t as [|v t IH]; [done|]. simpl.
  unfold Py.getitem at 1.
  destruct (Py.position (length vilist) v) as [k|e'] eqn:Hpos.
  - destruct (vilist !! k) as [x|].
    + destruct (index_all vilist t) as [xs|e'']; [done|].
      intros [= <-]. by apply IH.
    + by intros [= <-].
  - revert Hpos. unfold Py.position. repeat case_decide; congruence.
Qed.

(** The templates that resolve are processed one after the other. *)
Lemma add_cell_faces_app c pre post vilist b reals :
  resolved b vilist pre reals →
  ∀ fm st,
    add_cell_faces c (pre ++ post) vilist fm b st
    = add_cell_faces c post vilist (link_faces c reals st fm).2 b
        (link_faces c reals st fm).1.
Proof.
  induction 1 as [|t real pre reals Hr _ IH]; intros fm st; [done|].
  simpl. unfold mbind, M_bind, Py.bind.
  rewrite (add_cell_face_run _ _ _ _ _ _ _ Hr). apply IH.
Qed.

(** However a run of [add_cell_faces] ends, it ends with the face map
    or with [IndexError], and the faces known before are kept. *)
Lemma add_cell_faces_outcome c fis vilist b :
  ∀ fm st,
    ∃ st' r,
      add_cell_faces c fis vilist fm b st = (st', r) ∧
      (r = Py.Raise Py.IndexError ∨ ∃ fm', r = Py.Ok fm' ∧ fm ⊆ fm') ∧
      faces_kept c (ugfaces st) (ugfaces st').
Proof.
  induction fis as [|t fis IH]; intros fm st.
  - exists st, (Py.Ok fm). split_and!; [done|right; by exists fm|apply faces_kept_refl].
  - simpl. unfold mbind, M_bind, Py.bind.
    destruct (real_vilist b vilist t) as [real|e] eqn:Hr.
    + rewrite (add_cell_face_run _ _ _ _ _ _ _ Hr).
      destruct (IH (link_face c real st fm).2 (link_face c real st fm).1)
        as (st' & r & Hrun & Hout & Hkept).
      exists st', r. split_and!; [done| |].
      * destruct Hout as [->|(fm' & -> & Hsub)]; [by left|right].
        exists fm'. split; [done|]. etrans; [apply link_face_subseteq | done].
      * eapply faces_kept_trans; [apply link_face_kept | done].
    + exists st, (Py.Raise e). split_and!.
      * unfold add_cell_face, mbind, M_bind, Py.bind, Py.lift. by rewrite Hr.
      * left. by rewrite (real_vilist_raises _ _ _ _ Hr).
      * apply faces_kept_refl.
Qed.

(** C1 (as the code has it).  When the key of a face is already in
    the face map and the mapped face already has a neighbour,
    processing a further cell with a template that resolves to the
    same key raises no error for it: the face keeps its vertices and
    its owner, and its neighbour is overwritten with the cell being
    processed.  [add_cell_faces] returns the face map when the later
    templates of the cell resolve as well; the one exception it can
    raise is [IndexError], for a template that refers to a vertex the
    cell does not have, and the face is then left relinked. *)
Theorem add_cell_faces_relinks_neighbour
    (c : nat) (pre : list (list Z)) (t : list Z) (post : list (list Z))
    (vilist : list Z) (is_polyhedron : bool)
    (fm : gmap string nat) (st : ug) (real : list Z)
    (ugf : nat) (f : UGFace.t) (c1 c2 : nat) :
  Forall (λ t, ∃ real, real_vilist is_polyhedron vilist t = Py.Ok real) pre →
  real_vilist is_polyhedron vilist t = Py.Ok real →
  fm !! get_vert_string real = Some ugf →
  ugfaces st !! ugf = Some f →
  UGFace.owner f = Some c1 →
  UGFace.neighbour f = Some c2 →
  ∃ st' r f',
    add_cell_faces c (pre ++ t :: post) vilist fm is_polyhedron st = (st', r) ∧
    (r = Py.Raise Py.IndexError
     ∨ ∃ fm', r = Py.Ok fm' ∧ fm' !! get_vert_string real = Some ugf) ∧
    (Forall (λ t, ∃ real, real_vilist is_polyhedron vilist t = Py.Ok real) post →
     ∃ fm', r = Py.Ok fm') ∧
    ugfaces st' !! ugf = Some f' ∧
    UGFace.ugverts f' = UGFace.ugverts f ∧
    UGFace.owner f' = Some c1 ∧
    UGFace.neighbour f' = Some c.
Proof.
  intros Hpre Hr Hk Hf Ho _.
  destruct (resolved_exists _ _ _ Hpre) as [reals Hres].
  assert (resolved is_polyhedron vilist (pre ++ [t]) (reals ++ [real])) as Hres'.
  { apply Forall2_app; [done | by constructor]. }
  destruct (link_faces_known c (reals ++ [real]) st fm real ugf f) as
    (f1 & Hf1 & Hk1 & Hv1 & Ho1 & Hn1); [set_solver|done|done|].
  destruct (add_cell_faces_outcome c post vilist is_polyhedron
              (link_faces c (reals ++ [real]) st fm).2
              (link_faces c (reals ++ [real]) st fm).1)
    as (st' & r & Hrun & Hout & Hkept).
  destruct (Hkept _ _ Hf1) as (f' & Hf' & Hv' & Ho' & Hn').
  exists st', r, f'. split_and!.
  - replace (pre ++ t :: post) with ((pre ++ [t]) ++ post)
      by (by rewrite <- app_assoc).
    by rewrite (add_cell_faces_app _ _ _ _ _ _ Hres').
  - destruct Hout as [->|(fm' & -> & Hsub)]; [by left|right].
    exists fm'. split; [done|]. by eapply lookup_weaken.
  - intros Hpost. destruct (resolved_exists _ _ _ Hpost) as [reals' Hres''].
    rewrite (add_cell_faces_run _ _ _ _ _ Hres'') in Hrun.
    injection Hrun as _ <-. by eexists.
  - done.
  - congruence.
  - congruence.
  - destruct Hn'; congruence.
Qed.

(** A face of vertices 0, 1, 2 owned by cell 0 with neighbour 1, and
    as the cell 2 a hexahedron that is given four vertices only: its
    first template resolves to the face, the second one refers to a
    vertex that is not there. *)
Lemma add_cell_faces_relinks_neighbour_witness :
  ∃ st' r f',
    add_cell_faces 2 ([] ++ [0; 3; 2; 1] :: [[0; 1; 5; 4]; [1; 2; 6; 5]; [2; 3; 7; 6];
                                            [3; 0; 4; 7]; [7; 4; 5; 6]])
      [0; 1; 2; 0] {[ "0,0,1,2," := 0%nat ]} false
      (mk_ug [UGFace.mk [0; 0; 2; 1] (Some 0%nat) (Some 1%nat)]
             [UGCell.mk [0%nat] [0; 2; 1] false; UGCell.mk [0%nat] [0; 2; 1] false;
              UGCell.mk [] [] false])
    = (st', r) ∧
    (r = Py.Raise Py.IndexError
     ∨ ∃ fm', r = Py.Ok fm' ∧ fm' !! get_vert_string [0; 0; 2; 1] = Some 0%nat) ∧
    (Forall (λ t, ∃ real, real_vilist false [0; 1; 2; 0] t = Py.Ok real)
            [[0; 1; 5; 4]; [1; 2; 6; 5]; [2; 3; 7; 6]; [3; 0; 4; 7]; [7; 4; 5; 6]] →
     ∃ fm', r = Py.Ok fm') ∧
    ugfaces st' !! 0%nat = Some f' ∧
    UGFace.ugverts f' = [0; 0; 2; 1] ∧
    UGFace.owner f' = Some 0%nat ∧
    UGFace.neighbour f' = Some 2%nat.
Proof.
  apply (add_cell_faces_relinks_neighbour 2 [] [0; 3; 2; 1]
           [[0; 1; 5; 4]; [1; 2; 6; 5]; [2; 3; 7; 6]; [3; 0; 4; 7]; [7; 4; 5; 6]]
           [0; 1; 2; 0] false {[ "0,0,1,2," := 0%nat ]} _ [0; 0; 2; 1] 0
           (UGFace.mk [0; 0; 2; 1] (Some 0%nat) (Some 1%nat)) 0 1).
  - constructor.
  - reflexivity.
  - reflexivity.
  - reflexivity.
  - reflexivity.
  - reflexivity.
Defined.

(** Three tetrahedra on the vertices 0, 1, 2 and one further vertex
    each: after two cells the face of vertices 0, 1, 2 has owner 0 and
    neighbour 1; the import of all three returns normally and leaves
    that face with neighbour 2. *)
Lemma third_cell_relinks_shared_face :
  ugfaces (vtu_datalists_to_ugdata [0; 1; 2; 3; 0; 2; 1; 4] [4; 8] [10; 10]
             [] [] ug_empty).1 !! 0%nat
  = Some (UGFace.mk [0; 2; 1] (Some 0%nat) (Some 1%nat)) ∧
  (vtu_datalists_to_ugdata [0; 1; 2; 3; 0; 2; 1; 4; 0; 1; 2; 5] [4; 8; 12]
     [10; 10; 10] [] [] ug_empty).2 = Py.Ok tt ∧
  ugfaces (vtu_datalists_to_ugdata [0; 1; 2; 3; 0; 2; 1; 4; 0; 1; 2; 5] [4; 8; 12]
             [10; 10; 10] [] [] ug_empty).1 !! 0%nat
  = Some (UGFace.mk [0; 2; 1] (Some 0%nat) (Some 2%nat)).
Proof. split_and!; vm_compute; reflexivity. Qed.

Lemma hexahedron_resolved (v : list Z) :
  length v = 8%nat → ∃ reals, resolved false v fis_hexahedron reals.
Proof.
  intros Hlen.
  destruct v as [|a0 [|a1 [|a2 [|a3 [|a4 [|a5 [|a6 [|a7 [|]]]]]]]]]; try done.
  eexists. repeat constructor.
Qed.

Lemma two_hexahedra_inputs (v1 v2 : list Z) (fm : gmap string nat) :
  length v1 = 8%nat → length v2 = 8%nat →
  cell_inputs (v1 ++ v2) [8; 16] [12; 12] [] [] 0 locals_init
  = Py.Ok (12, 8, v1, [], 0) ∧
  cell_inputs (v1 ++ v2) [8; 16] [12; 12] [] [] 1 (mk_locals (0 + (8 - 0)) 0 fm)
  = Py.Ok (12, 16, v2, [], 0).
Proof.
  intros H1 H2.
  destruct v1 as [|a0 [|a1 [|a2 [|a3 [|a4 [|a5 [|a6 [|a7 [|]]]]]]]]]; try done.
  destruct v2 as [|b0 [|b1 [|b2 [|b3 [|b4 [|b5 [|b6 [|b7 [|]]]]]]]]]; try done.
Qed.

(** In the words of the spec: the absolute vertex indices of a face
    of a cell are the entries of the cell's vertex list at the
    positions that the face template names. *)
Definition face_vertices (vilist t : list Z) : list Z :=
  (λ i, nth (Z.to_nat i) vilist 0) <$> t.

Definition face_vertex_set (vilist t : list Z) : gset Z :=
  list_to_set (face_vertices vilist t).

(** The code resolves a template whose positions are within the
    vertex list to these vertex indices. *)
Lemma index_all_face_vertices (vilist t : list Z) :
  Forall (λ i, 0 ≤ i < Z.of_nat (length vilist)) t →
  index_all vilist t = Py.Ok (face_vertices vilist t).
Proof.
  induction 1 as [|i t Hi _ IH]; [done|].
  destruct (lookup_lt_is_Some_2 vilist (Z.to_nat i)) as [x Hx]; [lia|].
  cbn [index_all]. rewrite <- (Z2Nat.id i) at 1 by lia.
  rewrite (getitem_lookup _ _ _ Hx), IH.
  unfold face_vertices. rewrite fmap_cons, nth_lookup, Hx. done.
Qed.

Lemma index_all_length (vilist t real : list Z) :
  index_all vilist t = Py.Ok real → length real = length t.
Proof.
  revert real. induction t as [|i t IH]; intros real; simpl.
  - by intros [= <-].
  - destruct (Py.getitem vilist i); [|done].
    destruct (index_all vilist t) as [xs|]; [|done].
    intros [= <-]. simpl. f_equal. by apply IH.
Qed.

Lemma resolved_lengths (vilist : list Z) (fis reals : list (list Z)) :
  resolved false vilist fis reals →
  Forall2 (λ t real, length real = length t) fis reals.
Proof.
  intros H. eapply Forall2_impl; [exact H|]. simpl.
  intros t real. apply index_all_length.
Qed.

Lemma hexahedron_quads : Forall (λ t : list Z, length t = 4%nat) fis_hexahedron.
Proof. repeat constructor. Qed.

Lemma hexahedron_template (t : list Z) :
  t ∈ fis_hexahedron → length t = 4%nat ∧ Forall (λ i, 0 ≤ i < 8) t.
Proof.
  unfold fis_hexahedron. intros Ht.
  repeat (apply elem_of_cons in Ht as [->|Ht]; [split; [done | repeat constructor; lia]|]).
  by apply elem_of_nil in Ht.
Qed.

(** Faces of [n] vertices are added to faces of [n] vertices. *)
Lemma link_face_lengths (n c : nat) (real : list Z) (st : ug) (fm : gmap string nat) :
  length real = n →
  Forall (λ f, length (UGFace.ugverts f) = n) (ugfaces st) →
  Forall (λ f, length (UGFace.ugverts f) = n) (ugfaces (link_face c real st fm).1).
Proof.
  intros Hreal Hst. rewrite link_face_ugfaces.
  destruct (fm !! get_vert_string real) as [ugf|].
  - apply Forall_alter; [done|]. by intros f _ Hf.
  - apply Forall_app_2; [done|]. by apply Forall_singleton.
Qed.

Lemma link_faces_lengths (n c : nat) (reals : list (list Z)) :
  Forall (λ real, length real = n) reals →
  ∀ st fm,
    Forall (λ f, length (UGFace.ugverts f) = n) (ugfaces st) →
    Forall (λ f, length (UGFace.ugverts f) = n) (ugfaces (link_faces c reals st fm).1).
Proof.
  induction 1 as [|real reals Hreal _ IH]; intros st fm Hst; [done|].
  simpl. apply IH. by apply link_face_lengths.
Qed.

Lemma resolved_same_length (ts rs : list (list Z)) (n : nat) :
  Forall2 (λ t r, length r = length t) ts rs →
  Forall (λ t : list Z, length t = n) ts →
  Forall (λ r : list Z, length r = n) rs.
Proof.
  induction 1 as [|t r ts rs Hr _ IH]; intros Hts; [done|].
  apply Forall_cons in Hts as [Ht Hts]. constructor; [congruence | by apply IH].
Qed.

(** A list with as many elements as entries has no entry twice. *)
Lemma size_list_to_set_le (l : list Z) : (size (list_to_set l : gset Z) ≤ length l)%nat.
Proof.
  induction l as [|x l IH]; [by rewrite list_to_set_nil, size_empty|].
  rewrite list_to_set_cons, size_union_alt, size_singleton. simpl.
  assert (list_to_set l ∖ {[x]} ⊆ (list_to_set l : gset Z)) as Hsub
    by (intros y [Hy _]%elem_of_difference; exact Hy).
  pose proof (subseteq_size _ _ Hsub). lia.
Qed.

Lemma size_list_to_set_NoDup (l : list Z) :
  size (list_to_set l : gset Z) = length l → NoDup l.
Proof.
  induction l as [|x l IH]; intros Hsize; [constructor|].
  pose proof (size_list_to_set_le l) as Hle.
  rewrite list_to_set_cons in Hsize. simpl in Hsize.
  destruct (decide (x ∈ l)) as [Hin|Hout].
  - exfalso.
    assert (({[x]} ∪ list_to_set l : gset Z) = list_to_set l) as Heq.
    { apply set_eq. intros y.
      rewrite elem_of_union, elem_of_singleton, elem_of_list_to_set.
      split; [by intros [->|?] | by right]. }
    rewrite Heq in Hsize. lia.
  - rewrite size_union in Hsize by set_solver. rewrite size_singleton in Hsize.
    constructor; [done|]. apply IH. lia.
Qed.

(** Two lists of [n] entries over the same set of [n] elements are
    permutations of one another. *)
Lemma same_set_Permutation (n : nat) (l k : list Z) :
  length l = n → length k = n →
  (list_to_set l : gset Z) = list_to_set k →
  size (list_to_set l : gset Z) = n →
  l ≡ₚ k.
Proof.
  intros Hl Hk Hset Hsize.
  apply NoDup_Permutation.
  - apply size_list_to_set_NoDup. lia.
  - apply size_list_to_set_NoDup. rewrite <- Hset. lia.
  - intros x. rewrite <- !(elem_of_list_to_set (C := gset Z)). by rewrite Hset.
Qed.

(** Two hexahedra of which one template each resolves, in the code,
    to the same vertices. *)
Lemma hexahedra_share_resolved_face (v1 v2 t1 t2 r1 r2 : list Z) :
  length v1 = 8%nat → length v2 = 8%nat →
  t1 ∈ fis_hexahedron → t2 ∈ fis_hexahedron →
  real_vilist false v1 t1 = Py.Ok r1 →
  real_vilist false v2 t2 = Py.Ok r2 →
  r1 ≡ₚ r2 →
  ∃ st ugf f c0 c1,
    vtu_datalists_to_ugdata (v1 ++ v2) [8; 16] [12; 12] [] [] ug_empty
    = (st, Py.Ok tt) ∧
    ugfaces st !! ugf = Some f ∧
    UGFace.ugverts f ≡ₚ r1 ∧
    UGFace.owner f = Some 0%nat ∧
    UGFace.neighbour f = Some 1%nat ∧
    (∀ ugf' f', ugfaces st !! ugf' = Some f' →
                UGFace.ugverts f' ≡ₚ r1 → ugf' = ugf) ∧
    ugcells st = [c0; c1] ∧
    ugf ∈ UGCell.ugfaces c0 ∧ ugf ∈ UGCell.ugfaces c1 ∧
    Forall (λ f, length (UGFace.ugverts f) = 4%nat) (ugfaces st).
Proof.
  intros Hl1 Hl2 Ht1 Ht2 Hr1 Hr2 Hperm.
  destruct (hexahedron_resolved v1 Hl1) as [reals1 Hres1].
  destruct (hexahedron_resolved v2 Hl2) as [reals2 Hres2].
  pose proof (resolved_elem_of _ _ _ _ _ _ Hres1 Ht1 Hr1) as Hin1.
  pose proof (resolved_elem_of _ _ _ _ _ _ Hres2 Ht2 Hr2) as Hin2.
  pose proof (get_vert_string_perm _ _ Hperm) as Hkey.
  (* the first cell *)
  set (st0 := with_new_cell ug_empty).
  set (st1 := (link_faces 0 reals1 st0 ∅).1).
  set (fm1 := (link_faces 0 reals1 st0 ∅).2).
  assert (facemap_inv (ugfaces st1) fm1) as Hinv1.
  { apply link_faces_inv, facemap_inv_empty. }
  destruct (link_faces_new 0 reals1 st0 ∅ r1 Hin1 (lookup_empty _))
    as (ugf & f1 & Hk1 & Hf1 & Ho1).
  destruct (link_faces_attached 0 reals1 st0 ∅ r1 _ Hin1 eq_refl)
    as (ugf0 & x0 & Hk0 & Hx0 & Hin0).
  fold fm1 in Hk1, Hk0. fold st1 in Hf1, Hx0.
  assert (ugf0 = ugf) as -> by congruence.
  assert (length (ugcells st1) = 1%nat) as Hlen1.
  { unfold st1. by rewrite link_faces_ugcells_length. }
  (* the second cell *)
  set (st2 := (link_faces 1 reals2 (with_new_cell st1) fm1).1).
  set (fm2 := (link_faces 1 reals2 (with_new_cell st1) fm1).2).
  assert (facemap_inv (ugfaces st2) fm2) as [Hinv2a Hinv2b].
  { by apply link_faces_inv. }
  rewrite Hkey in Hk1.
  destruct (link_faces_known 1 reals2 (with_new_cell st1) fm1 r2 ugf f1 Hin2 Hk1 Hf1)
    as (f2 & Hf2 & Hk2 & Hv2 & Ho2 & Hn2).
  assert (ugcells (with_new_cell st1) !! 1%nat = Some (UGCell.mk [] [] false)) as Hnew.
  { simpl. rewrite <- Hlen1. apply lookup_app_last. }
  destruct (link_faces_attached 1 reals2 (with_new_cell st1) fm1 r2 _ Hin2 Hnew)
    as (ugf1 & x1 & Hk1' & Hx1 & Hin1').
  fold fm2 in Hk2, Hk1'. fold st2 in Hf2, Hx1.
  assert (ugf1 = ugf) as -> by congruence.
  destruct (link_faces_cells_kept 1 reals2 (with_new_cell st1) fm1 0%nat x0)
    as (x0' & Hx0' & Hsub0).
  { simpl. by apply lookup_app_l_Some. }
  fold st2 in Hx0'.
  assert (ugcells st2 = [x0'; x1]) as Hcells.
  { assert (length (ugcells st2) = 2%nat) as Hlen2.
    { unfold st2. rewrite link_faces_ugcells_length. simpl.
      rewrite length_app, Hlen1. done. }
    destruct (ugcells st2) as [|y0 [|y1 [|]]]; simplify_eq/=. done. }
  exists st2, ugf, f2, x0', x1. split_and!.
  - destruct (two_hexahedra_inputs v1 v2 fm1 Hl1 Hl2) as [Hi0 Hi1].
    assert (vtu_add_cell 12 v1 ∅ [] ug_empty = (st1, Py.Ok fm1)) as Hrun1.
    { rewrite (vtu_add_cell_archetype 12 fis_hexahedron) by done.
      apply (add_cell_faces_run _ _ _ _ _ Hres1). }
    assert (vtu_add_cell 12 v2 fm1 [] st1 = (st2, Py.Ok fm2)) as Hrun2.
    { rewrite (vtu_add_cell_archetype 12 fis_hexahedron) by done.
      rewrite Hlen1. apply (add_cell_faces_run _ _ _ _ _ Hres2). }
    eapply vtu_datalists_to_ugdata_ok.
    change (Py.range (Z.of_nat (length [12; 12]))) with [0; 1].
    erewrite cell_loop_cons_ok; [|by eapply cell_step_ok; [exact Hi0|exact Hrun1]].
    erewrite cell_loop_cons_ok; [|by eapply cell_step_ok; [exact Hi1|exact Hrun2]].
    reflexivity.
  - done.
  - destruct (Hinv2a _ _ Hk2) as (f2' & Hf2' & Hkey2).
    assert (f2' = f2) as -> by congruence.
    apply get_vert_string_eq_iff. congruence.
  - congruence.
  - done.
  - intros ugf' f' Hf' Hp'.
    apply Hinv2b in Hf'. rewrite (get_vert_string_perm _ _ Hp') in Hf'. congruence.
  - done.
  - by apply Hsub0.
  - done.
  - pose proof (resolved_lengths _ _ _ Hres1) as Hlen1'.
    pose proof (resolved_lengths _ _ _ Hres2) as Hlen2'.
    apply link_faces_lengths.
    + exact (resolved_same_length _ _ _ Hlen2' hexahedron_quads).
    + change (ugfaces (with_new_cell st1)) with (ugfaces st1).
      apply link_faces_lengths; [|constructor].
      exact (resolved_same_length _ _ _ Hlen1' hexahedron_quads).
Qed.

(** C2.  Two hexahedra (type 12) whose vertex lists give one face
    template each the same set of four absolute vertex indices: the
    import returns, and the store then holds exactly one face record
    over that set of vertices.  Its owner is the cell processed
    first, its neighbour the cell processed second, and both cells
    list it. *)
Theorem two_hexahedra_share_one_face (v1 v2 t1 t2 : list Z) :
  length v1 = 8%nat → length v2 = 8%nat →
  t1 ∈ fis_hexahedron → t2 ∈ fis_hexahedron →
  face_vertex_set v1 t1 = face_vertex_set v2 t2 →
  size (face_vertex_set v1 t1) = 4%nat →
  ∃ st ugf f c0 c1,
    vtu_datalists_to_ugdata (v1 ++ v2) [8; 16] [12; 12] [] [] ug_empty
    = (st, Py.Ok tt) ∧
    ugfaces st !! ugf = Some f ∧
    list_to_set (UGFace.ugverts f) = face_vertex_set v1 t1 ∧
    UGFace.owner f = Some 0%nat ∧
    UGFace.neighbour f = Some 1%nat ∧
    (∀ ugf' f', ugfaces st !! ugf' = Some f' →
                list_to_set (UGFace.ugverts f') = face_vertex_set v1 t1 →
                ugf' = ugf) ∧
    ugcells st = [c0; c1] ∧
    ugf ∈ UGCell.ugfaces c0 ∧ ugf ∈ UGCell.ugfaces c1.
Proof.
  intros Hl1 Hl2 Ht1 Ht2 Hset Hsize.
  destruct (hexahedron_template _ Ht1) as [Hq1 Hin1].
  destruct (hexahedron_template _ Ht2) as [Hq2 Hin2].
  assert (length (face_vertices v1 t1) = 4%nat) as Hlen1.
  { unfold face_vertices. by rewrite length_fmap. }
  assert (length (face_vertices v2 t2) = 4%nat) as Hlen2.
  { unfold face_vertices. by rewrite length_fmap. }
  assert (face_vertices v1 t1 ≡ₚ face_vertices v2 t2) as Hperm.
  { by apply (same_set_Permutation 4). }
  destruct (hexahedra_share_resolved_face v1 v2 t1 t2
              (face_vertices v1 t1) (face_vertices v2 t2)) as
    (st & ugf & f & c0 & c1 & Hrun & Hf & Hv & Ho & Hn & Huniq & Hcells & Hc0 & Hc1
     & Hquads); try done.
  { apply index_all_face_vertices. rewrite Hl1.
    eapply Forall_impl; [exact Hin1|]. simpl. lia. }
  { apply index_all_face_vertices. rewrite Hl2.
    eapply Forall_impl; [exact Hin2|]. simpl. lia. }
  exists st, ugf, f, c0, c1. split_and!; try done.
  - unfold face_vertex_set. apply set_eq. intros x.
    rewrite !elem_of_list_to_set. by rewrite Hv.
  - intros ugf' f' Hf' Hset'. apply (Huniq ugf' f' Hf').
    apply (same_set_Permutation 4); [|done|done|].
    + rewrite Forall_forall in Hquads. apply Hquads.
      by eapply list_elem_of_lookup_2.
    + rewrite Hset'. exact Hsize.
Qed.

(** Two hexahedra stacked on one another, on the vertices 10..17 and
    14..21 of the mesh: the top face of the first, its template
    [7,4,5,6], and the bottom face of the second, its template
    [0,3,2,1], are both over the vertices 14, 15, 16 and 17. *)
Lemma two_hexahedra_share_one_face_witness :
  ∃ st ugf f c0 c1,
    vtu_datalists_to_ugdata
      ([10; 11; 12; 13; 14; 15; 16; 17] ++ [14; 15; 16; 17; 18; 19; 20; 21])
      [8; 16] [12; 12] [] [] ug_empty
    = (st, Py.Ok tt) ∧
    ugfaces st !! ugf = Some f ∧
    list_to_set (UGFace.ugverts f)
    = face_vertex_set [10; 11; 12; 13; 14; 15; 16; 17] [7; 4; 5; 6] ∧
    UGFace.owner f = Some 0%nat ∧
    UGFace.neighbour f = Some 1%nat ∧
    (∀ ugf' f', ugfaces st !! ugf' = Some f' →
                list_to_set (UGFace.ugverts f')
                = face_vertex_set [10; 11; 12; 13; 14; 15; 16; 17] [7; 4; 5; 6] →
                ugf' = ugf) ∧
    ugcells st = [c0; c1] ∧
    ugf ∈ UGCell.ugfaces c0 ∧ ugf ∈ UGCell.ugfaces c1.
Proof.
  apply (two_hexahedra_share_one_face [10; 11; 12; 13; 14; 15; 16; 17]
           [14; 15; 16; 17; 18; 19; 20; 21] [7; 4; 5; 6] [0; 3; 2; 1]).
  - reflexivity.
  - reflexivity.
  - unfold fis_hexahedron. set_solver.
  - unfold fis_hexahedron. set_solver.
  - vm_compute. reflexivity.
  - vm_compute. reflexivity.
Defined.

End shared_faces.


(** ** Failures during the import *)

Section import_failures.
Import io_vtu dedup vtu_import.

Context (connectivities offsets celltypes cellfaces cellfaceoffsets : list Z).

Local Abbreviation cell_inputs :=
  (cell_inputs connectivities offsets celltypes cellfaces cellfaceoffsets).
Local Abbreviation cell_loop :=
  (cell_loop connectivities offsets celltypes cellfaces cellfaceoffsets).
Local Abbreviation vtu_datalists_to_ugdata :=
  (vtu_datalists_to_ugdata connectivities offsets celltypes cellfaces cellfaceoffsets).

(** An exception raised by [vtu_add_cell] for the cell [ci] leaves
    the import: the cells after it are not processed. *)
Lemma import_raises_at (ci : nat) st0 st l t conn_end vilist pfl o st' e :
  (ci < length celltypes)%nat →
  cell_loop (Py.range (Z.of_nat ci)) locals_init st0 = (st, Py.Ok l) →
  cell_inputs (Z.of_nat ci) l = Py.Ok (t, conn_end, vilist, pfl, o) →
  vtu_add_cell t vilist (facemap l) pfl st = (st', Py.Raise e) →
  vtu_datalists_to_ugdata st0 = (st', Py.Raise e).
Proof.
  intros Hlt Hpre Hin Hadd. apply vtu_datalists_to_ugdata_raise.
  rewrite (range_split _ _ Hlt), cell_loop_app, Hpre.
  apply cell_loop_raise. by eapply cell_step_raise.
Qed.

(** What the iteration for a cell that is not a polyhedron reads. *)
Lemma cell_inputs_plain (ci : nat) l t conn_end :
  celltypes !! ci = Some t → offsets !! ci = Some conn_end → t ≠ 42 →
  cell_inputs (Z.of_nat ci) l
  = Py.Ok (t, conn_end, Py.slice connectivities (conn_index l) conn_end, [],
           offset_index l).
Proof.
  intros Ht Ho Hne. unfold io_vtu.cell_inputs.
  rewrite (getitem_lookup _ _ _ Ht), (getitem_lookup _ _ _ Ho).
  by rewrite decide_False.
Qed.

(** What the iteration for a polyhedron reads. *)
Lemma cell_inputs_polyhedron (ci : nat) l conn_end o :
  celltypes !! ci = Some 42 → offsets !! ci = Some conn_end →
  cellfaceoffsets !! ci = Some o →
  cell_inputs (Z.of_nat ci) l
  = Py.Ok (42, conn_end, Py.slice connectivities (conn_index l) conn_end,
           Py.slice cellfaces (offset_index l) (o + 1), o).
Proof.
  intros Ht Ho Hf. unfold io_vtu.cell_inputs.
  rewrite (getitem_lookup _ _ _ Ht), (getitem_lookup _ _ _ Ho).
  rewrite decide_True by done. by rewrite (getitem_lookup _ _ _ Hf).
Qed.

(** C8 (as the code has it).  A cell whose type code is none of 10,
    12, 13, 14, 15, 16 and 42 makes [vtu_add_cell] raise a
    [ValueError] whose message carries the type code, after the
    record of the cell was created; nothing catches the error, so it
    leaves [vtu_datalists_to_ugdata] and the cells after it are not
    processed. *)
Theorem unsupported_cell_type_aborts_import
    (ci : nat) (t conn_end : Z) (st0 st : ug) (l : locals) :
  unsupported t →
  celltypes !! ci = Some t →
  offsets !! ci = Some conn_end →
  cell_loop (Py.range (Z.of_nat ci)) locals_init st0 = (st, Py.Ok l) →
  (∀ vilist fm pfl,
     vtu_add_cell t vilist fm pfl st
     = (mk_ug (ugfaces st) (ugcells st ++ [UGCell.mk [] [] false]),
        Py.Raise (Py.ValueError ("Unsupported VTK cell type " +:+ Py.str t)))) ∧
  vtu_datalists_to_ugdata st0
  = (mk_ug (ugfaces st) (ugcells st ++ [UGCell.mk [] [] false]),
     Py.Raise (Py.ValueError ("Unsupported VTK cell type " +:+ Py.str t))).
Proof.
  intros Hun Ht Ho Hpre. split.
  - intros vilist fm pfl. by apply vtu_add_cell_unsupported.
  - eapply (import_raises_at ci).
    + by eapply lookup_lt_Some.
    + exact Hpre.
    + apply cell_inputs_plain; [done|done|].
      intros ->. apply Hun. set_solver.
    + by apply vtu_add_cell_unsupported.
Qed.

(** C6 (as the code has it).  A polyhedron whose face list declares
    a face count other than the number of face records decoded from
    it makes [vtu_add_cell] raise the [ValueError] of
    [get_polyhedron_fis], and the error leaves the import.  No face
    record is created or changed for the cell, but the cell record
    created before the faces are decoded remains in [ug.ugcells]. *)
Theorem malformed_polyhedron_raises
    (ci : nat) (conn_end o nFaces : Z) (rest : list Z) (st0 st : ug) (l : locals) :
  nFaces ≠ Z.of_nat (length (decode_faces rest)) →
  (∀ vilist fm,
     vtu_add_cell 42 vilist fm (nFaces :: rest) st
     = (mk_ug (ugfaces st) (ugcells st ++ [UGCell.mk [] [] false]),
        Py.Raise (Py.ValueError
          ("Polyhedron faces list is broken: " +:+ Py.str_list (nFaces :: rest))))) ∧
  (celltypes !! ci = Some 42 →
   offsets !! ci = Some conn_end →
   cellfaceoffsets !! ci = Some o →
   cell_loop (Py.range (Z.of_nat ci)) locals_init st0 = (st, Py.Ok l) →
   Py.slice cellfaces (offset_index l) (o + 1) = nFaces :: rest →
   vtu_datalists_to_ugdata st0
   = (mk_ug (ugfaces st) (ugcells st ++ [UGCell.mk [] [] false]),
      Py.Raise (Py.ValueError
        ("Polyhedron faces list is broken: " +:+ Py.str_list (nFaces :: rest))))).
Proof.
  intros Hne.
  assert (∀ vilist fm,
     vtu_add_cell 42 vilist fm (nFaces :: rest) st
     = (mk_ug (ugfaces st) (ugcells st ++ [UGCell.mk [] [] false]),
        Py.Raise (Py.ValueError
          ("Polyhedron faces list is broken: " +:+ Py.str_list (nFaces :: rest)))))
    as Hadd.
  { intros vilist fm. rewrite vtu_add_cell_polyhedron.
    unfold get_polyhedron_fis. simpl. by rewrite decide_True. }
  split; [exact Hadd|].
  intros Ht Ho Hf Hpre Hslice.
  eapply (import_raises_at ci).
  - by eapply lookup_lt_Some.
  - exact Hpre.
  - by apply cell_inputs_polyhedron.
  - rewrite Hslice. apply Hadd.
Qed.

End import_failures.

Section import_failures_examples.
Import io_vtu dedup vtu_import.

(** A cell of type 99 with offset 0.  *)
Lemma unsupported_cell_type_aborts_import_witness :
  (∀ vilist fm pfl,
     vtu_add_cell 99 vilist fm pfl ug_empty
     = (mk_ug [] [UGCell.mk [] [] false],
        Py.Raise (Py.ValueError ("Unsupported VTK cell type " +:+ Py.str 99)))) ∧
  vtu_datalists_to_ugdata [0; 1; 2; 3] [0; 4] [99; 10] [] [] ug_empty
  = (mk_ug [] [UGCell.mk [] [] false],
     Py.Raise (Py.ValueError ("Unsupported VTK cell type " +:+ Py.str 99))).
Proof.
  apply (unsupported_cell_type_aborts_import [0; 1; 2; 3] [0; 4] [99; 10] [] []
           0 99 0 ug_empty ug_empty locals_init).
  - unfold unsupported. rewrite !not_elem_of_cons.
    split_and!; [done..|apply not_elem_of_nil].
  - reflexivity.
  - reflexivity.
  - reflexivity.
Defined.

(** An import of a cell of type 99 followed by a tetrahedron: the
    import as a whole ends with the error of the first cell, and the
    tetrahedron is never processed (no face exists afterwards). *)
Lemma unsupported_cell_type_import_aborted :
  vtu_datalists_to_ugdata [0; 1; 2; 3] [0; 4] [99; 10] [] [] ug_empty
  = (mk_ug [] [UGCell.mk [] [] false],
     Py.Raise (Py.ValueError "Unsupported VTK cell type 99")).
Proof. vm_compute. reflexivity. Qed.

(** A face list that declares two faces and holds one triangle. *)
Lemma malformed_polyhedron_raises_witness :
  (∀ vilist fm,
     vtu_add_cell 42 vilist fm [2; 3; 0; 2; 1] ug_empty
     = (mk_ug [] [UGCell.mk [] [] false],
        Py.Raise (Py.ValueError
          ("Polyhedron faces list is broken: " +:+ Py.str_list [2; 3; 0; 2; 1])))) ∧
  vtu_datalists_to_ugdata [0; 1; 2; 3] [4] [42] [2; 3; 0; 2; 1] [5] ug_empty
  = (mk_ug [] [UGCell.mk [] [] false],
     Py.Raise (Py.ValueError
       ("Polyhedron faces list is broken: " +:+ Py.str_list [2; 3; 0; 2; 1]))).
Proof.
  assert (2 ≠ Z.of_nat (length (decode_faces [3; 0; 2; 1]))) as Hne.
  { vm_compute. discriminate. }
  pose proof (malformed_polyhedron_raises [0; 1; 2; 3] [4] [42] [2; 3; 0; 2; 1] [5]
                0 4 5 2 [3; 0; 2; 1] ug_empty ug_empty locals_init Hne) as [Hadd Himp].
  split; [exact Hadd|].
  apply Himp; reflexivity.
Defined.

(** The import of that polyhedron into an empty store fails and
    leaves a cell record behind. *)
Lemma malformed_polyhedron_leaves_cell :
  vtu_datalists_to_ugdata [0; 1; 2; 3] [4] [42] [2; 3; 0; 2; 1] [5] ug_empty
  = (mk_ug [] [UGCell.mk [] [] false],
     Py.Raise (Py.ValueError "Polyhedron faces list is broken: [2, 3, 0, 2, 1]")).
Proof. vm_compute. reflexivity. Qed.

End import_failures_examples.


(** ** Where the face list of a polyhedron is read from *)

Section polyhedron_slice.
Import io_vtu dedup vtu_import.

Context (connectivities offsets celltypes cellfaces cellfaceoffsets : list Z).

Local Abbreviation cell_inputs :=
  (cell_inputs connectivities offsets celltypes cellfaces cellfaceoffsets).
Local Abbreviation cell_step :=
  (cell_step connectivities offsets celltypes cellfaces cellfaceoffsets).
Local Abbreviation cell_loop :=
  (cell_loop connectivities offsets celltypes cellfaces cellfaceoffsets).

(** The [faceoffsets] entry of the last polyhedron before the cell
    [ci], 0 when there is none. *)
Fixpoint last_polyhedron_offset (ci : nat) : Z :=
  match ci with
  | O => 0
  | S k =>
      if decide (celltypes !! k = Some 42)
      then default 0 (cellfaceoffsets !! k)
      else last_polyhedron_offset k
  end.

Lemma cell_inputs_Ok (k : nat) l t conn_end vilist pfl o :
  cell_inputs (Z.of_nat k) l = Py.Ok (t, conn_end, vilist, pfl, o) →
  celltypes !! k = Some t ∧
  ((t = 42 ∧ cellfaceoffsets !! k = Some o) ∨ (t ≠ 42 ∧ o = offset_index l)).
Proof.
  unfold io_vtu.cell_inputs.
  destruct (Py.getitem celltypes (Z.of_nat k)) as [t'|] eqn:Ht; [|done].
  apply getitem_Ok_lookup in Ht.
  destruct (Py.getitem offsets (Z.of_nat k)) as [ce|]; [|done].
  case_decide as H42.
  - destruct (Py.getitem cellfaceoffsets (Z.of_nat k)) as [o'|] eqn:Hf; [|done].
    apply getitem_Ok_lookup in Hf. intros [= <- <- <- <- <-]. auto.
  - intros [= <- <- <- <- <-]. auto.
Qed.

Lemma cell_step_offset_index (k : nat) l st st' l' :
  cell_step (Z.of_nat k) l st = (st', Py.Ok l') →
  offset_index l'
  = if decide (celltypes !! k = Some 42)
    then default 0 (cellfaceoffsets !! k) else offset_index l.
Proof.
  unfold io_vtu.cell_step, mbind, M_bind, Py.bind, Py.lift.
  destruct (cell_inputs (Z.of_nat k) l) as [[[[[t ce] vi] pfl] o]|] eqn:Hin; [|done].
  destruct (vtu_add_cell t vi (facemap l) pfl st) as [st1 [fm1|]]; [|done].
  intros [= <- <-]. simpl.
  apply cell_inputs_Ok in Hin as [Ht [[-> Hf]|[Hne ->]]].
  - rewrite decide_True by done. by rewrite Hf.
  - rewrite decide_False; [done|]. congruence.
Qed.

Lemma range_S (k : nat) :
  Py.range (Z.of_nat (S k)) = Py.range (Z.of_nat k) ++ [Z.of_nat k].
Proof. unfold Py.range. rewrite !Nat2Z.id, seq_S, fmap_app. done. Qed.

Lemma cell_loop_offset_index (ci : nat) st0 :
  ∀ st l,
    cell_loop (Py.range (Z.of_nat ci)) locals_init st0 = (st, Py.Ok l) →
    offset_index l = last_polyhedron_offset ci.
Proof.
  induction ci as [|k IH]; intros st l.
  - by intros [= <- <-].
  - rewrite range_S, cell_loop_app.
    destruct (cell_loop (Py.range (Z.of_nat k)) locals_init st0)
      as [st1 [l1|]] eqn:Hpre; [|done].
    simpl. unfold mbind, M_bind, Py.bind.
    destruct (cell_step (Z.of_nat k) l1 st1) as [st2 [l2|]] eqn:Hstep; [|done].
    intros [= <- <-]. rewrite (cell_step_offset_index _ _ _ _ _ Hstep).
    by rewrite (IH _ _ eq_refl).
Qed.

(** C7 (as the code has it).  When the import reaches a polyhedron
    cell [ci], the slice of the faces block handed to
    [get_polyhedron_fis] starts at 0 when no earlier cell is a
    polyhedron and otherwise at the [faceoffsets] entry of the last
    polyhedron before [ci]. *)
Theorem polyhedron_slice_start
    (ci : nat) (conn_end o : Z) (st0 st : ug) (l : locals) :
  celltypes !! ci = Some 42 →
  offsets !! ci = Some conn_end →
  cellfaceoffsets !! ci = Some o →
  cell_loop (Py.range (Z.of_nat ci)) locals_init st0 = (st, Py.Ok l) →
  offset_index l = last_polyhedron_offset ci ∧
  cell_inputs (Z.of_nat ci) l
  = Py.Ok (42, conn_end, Py.slice connectivities (conn_index l) conn_end,
           Py.slice cellfaces (last_polyhedron_offset ci) (o + 1), o).
Proof.
  intros Ht Ho Hf Hpre.
  pose proof (cell_loop_offset_index _ _ _ _ Hpre) as Hoff.
  split; [done|]. rewrite <- Hoff. by apply cell_inputs_polyhedron.
Qed.

End polyhedron_slice.

Section polyhedron_slice_examples.
Import io_vtu dedup vtu_import.

(** Two tetrahedra given as polyhedra, sharing the face of vertices
    0, 1, 2. *)
Definition two_polyhedra_faces : list Z :=
  [4; 3; 0; 2; 1; 3; 0; 1; 3; 3; 1; 2; 3; 3; 0; 3; 2;
   4; 3; 0; 1; 2; 3; 0; 4; 1; 3; 1; 4; 2; 3; 2; 4; 0].

(** The second of the two polyhedra: the first has been imported,
    its [faceoffsets] entry is 17. *)
Lemma polyhedron_slice_start_witness :
  ∃ st1 l1,
    cell_loop [0; 1; 2; 3; 0; 1; 2; 4] [4; 8] [42; 42] two_polyhedra_faces [17; 34]
      (Py.range (Z.of_nat 1)) locals_init ug_empty = (st1, Py.Ok l1) ∧
    offset_index l1 = last_polyhedron_offset [42; 42] [17; 34] 1 ∧
    cell_inputs [0; 1; 2; 3; 0; 1; 2; 4] [4; 8] [42; 42] two_polyhedra_faces [17; 34]
      (Z.of_nat 1) l1
    = Py.Ok (42, 8, Py.slice [0; 1; 2; 3; 0; 1; 2; 4] (conn_index l1) 8,
             Py.slice two_polyhedra_faces
               (last_polyhedron_offset [42; 42] [17; 34] 1) (34 + 1), 34).
Proof.
  destruct (cell_loop [0; 1; 2; 3; 0; 1; 2; 4] [4; 8] [42; 42] two_polyhedra_faces
              [17; 34] (Py.range (Z.of_nat 1)) locals_init ug_empty)
    as [st1 [l1|e]] eqn:Hpre.
  - exists st1, l1. split; [reflexivity|].
    apply (polyhedron_slice_start [0; 1; 2; 3; 0; 1; 2; 4] [4; 8] [42; 42]
             two_polyhedra_faces [17; 34] 1 8 34 ug_empty st1 l1).
    + reflexivity.
    + reflexivity.
    + reflexivity.
    + exact Hpre.
  - exfalso. vm_compute in Hpre. discriminate Hpre.
Defined.

(** The slice of the first polyhedron starts at 0 and not at its
    [faceoffsets] entry 17; that of the second starts at 17, the
    entry of the first, and not at its own entry 34. *)
Lemma polyhedron_slice_not_at_own_offset :
  cell_inputs [0; 1; 2; 3; 0; 1; 2; 4] [4; 8] [42; 42] two_polyhedra_faces [17; 34]
    0 locals_init
  = Py.Ok (42, 4, [0; 1; 2; 3], take 18 two_polyhedra_faces, 17) ∧
  Py.slice two_polyhedra_faces 17 (17 + 1) = [4] ∧
  ∃ st1 l1,
    cell_loop [0; 1; 2; 3; 0; 1; 2; 4] [4; 8] [42; 42] two_polyhedra_faces [17; 34]
      (Py.range 1) locals_init ug_empty = (st1, Py.Ok l1) ∧
    offset_index l1 = 17 ∧
    cell_inputs [0; 1; 2; 3; 0; 1; 2; 4] [4; 8] [42; 42] two_polyhedra_faces [17; 34]
      1 l1
    = Py.Ok (42, 8, [0; 1; 2; 4], drop 17 two_polyhedra_faces, 34) ∧
    Py.slice two_polyhedra_faces 34 (34 + 1) = [].
Proof.
  split; [reflexivity|]. split; [reflexivity|].
  eexists _, _. split; [vm_compute; reflexivity|].
  split; [reflexivity|]. split; reflexivity.
Qed.

End polyhedron_slice_examples.


(** ** VTU export without cells *)

Section vtu_export.
Import io_vtu.

(** The offsets list has one entry per cell that is not deleted. *)
Lemma types_offsets_step_length cells :
  ∀ acc,
    length (foldl types_offsets_step acc cells).1.1.2
    = (length acc.1.1.2
       + length (filter (λ c, UGCell.deleted c = false) cells))%nat.
Proof.
  induction cells as [|c cells IH]; intros [[[tl ol] nv] nc]; simpl.
  - lia.
  - rewrite IH. destruct (UGCell.deleted c) eqn:Hd; simpl.
    + rewrite filter_cons_False by congruence. done.
    + rewrite filter_cons_True by done. rewrite length_app. simpl. lia.
Qed.

Lemma offsetlist_length st :
  length (types_offsets_lists (ugcells st)).1.1.2
  = length (filter (λ c, UGCell.deleted c = false) (ugcells st)).
Proof. unfold types_offsets_lists. by rewrite types_offsets_step_length. Qed.

Lemma getitem_last_nil {A} : Py.getitem (@nil A) (-1) = Py.Raise Py.IndexError.
Proof. done. Qed.

Lemma getitem_last_Ok {A} (l : list A) :
  l ≠ [] → ∃ x, Py.getitem l (-1) = Py.Ok x.
Proof.
  intros Hne. unfold Py.getitem, Py.position.
  assert (0 < length l)%nat by (destruct l; [done | simpl; lia]).
  rewrite (decide_True (P := -1 < 0)) by lia.
  rewrite decide_True by lia.
  destruct (lookup_lt_is_Some_2 l (Z.to_nat (-1 + Z.of_nat (length l))))
    as [x ->]; [lia|]. by exists x.
Qed.

Lemma filter_nil_Forall (cells : list UGCell.t) :
  filter (λ c, UGCell.deleted c = false) cells = []
  ↔ Forall (λ c, UGCell.deleted c = true) cells.
Proof.
  induction cells as [|c cells IH]; [by split; [constructor|]|].
  destruct (UGCell.deleted c) eqn:Hd.
  - rewrite filter_cons_False by congruence. rewrite IH, Forall_cons. tauto.
  - rewrite filter_cons_True by done. split; [done|].
    intros [? _]%Forall_cons. congruence.
Qed.

Lemma generate_types_offsets_text_run st :
  generate_types_offsets_text st
  = (st,
     match Py.getitem (types_offsets_lists (ugcells st)).1.1.2 (-1) with
     | Py.Ok offsets_max =>
         Py.Ok (Py.join " " (Py.str <$> (types_offsets_lists (ugcells st)).1.1.1)
                  +:+ Py.nl,
                Py.join " " (Py.str <$> (types_offsets_lists (ugcells st)).1.1.2)
                  +:+ Py.nl,
                offsets_max,
                (types_offsets_lists (ugcells st)).2)
     | Py.Raise e => Py.Raise e
     end).
Proof.
  unfold generate_types_offsets_text, mbind, M_bind, Py.bind, Py.get, Py.lift.
  destruct (types_offsets_lists (ugcells st)) as [[[tl ol] nv] nc]. simpl.
  by destruct (Py.getitem ol (-1)).
Qed.

(** C10.  [generate_types_offsets_text] raises [IndexError] exactly
    when no cell of the store is left undeleted (in particular when
    there is no cell at all), and [write_vtu] then never returns. *)
Theorem vtu_export_needs_a_cell (st : ug) :
  (Forall (λ c, UGCell.deleted c = true) (ugcells st)
   ↔ generate_types_offsets_text st = (st, Py.Raise Py.IndexError)) ∧
  (Forall (λ c, UGCell.deleted c = true) (ugcells st) →
   ∀ generate_points_text generate_connectivities_text generate_cellfaces_text
     generate_vtu_text,
   ∃ e, write_vtu generate_points_text generate_connectivities_text
          generate_cellfaces_text generate_vtu_text st = (st, Py.Raise e)).
Proof.
  assert (Forall (λ c, UGCell.deleted c = true) (ugcells st)
          → generate_types_offsets_text st = (st, Py.Raise Py.IndexError)) as Hfail.
  { intros Hall. rewrite generate_types_offsets_text_run.
    apply filter_nil_Forall in Hall.
    pose proof (offsetlist_length st) as Hlen. rewrite Hall in Hlen.
    apply nil_length_inv in Hlen. by rewrite Hlen. }
  split; [split; [exact Hfail|]|].
  - rewrite generate_types_offsets_text_run. intros Hrun.
    apply filter_nil_Forall.
    destruct (filter _ (ugcells st)) as [|c cs] eqn:Hf; [done|].
    destruct (getitem_last_Ok (types_offsets_lists (ugcells st)).1.1.2) as [x Hx].
    { intros Hnil. pose proof (offsetlist_length st) as Hlen.
      by rewrite Hnil, Hf in Hlen. }
    by rewrite Hx in Hrun.
  - intros Hall gp gc gf gt.
    unfold write_vtu, mbind, M_bind, Py.bind, Py.lift.
    destruct gp as [[[[p pmin] pmax] np]|e]; [|by exists e].
    destruct gc as [conn|e]; [|by exists e].
    rewrite (Hfail Hall). by eexists.
Qed.

(** The store without any cell. *)
Lemma vtu_export_needs_a_cell_witness :
  generate_types_offsets_text ug_empty = (ug_empty, Py.Raise Py.IndexError) ∧
  ∀ generate_cellfaces_text generate_vtu_text,
  ∃ e, write_vtu (Py.Ok ("", "0.0", "0.0", 0)) (Py.Ok "")
         generate_cellfaces_text generate_vtu_text ug_empty
       = (ug_empty, Py.Raise e).
Proof.
  split.
  - apply (proj1 (vtu_export_needs_a_cell ug_empty)). constructor.
  - intros gf gt.
    apply (proj2 (vtu_export_needs_a_cell ug_empty)). constructor.
Defined.

End vtu_export.


(** ** PolyMesh import: cells, owners and neighbours *)

Module polymesh_import.
Import io_polymesh.

Lemma foldl_max_le (l : list Z) :
  ∀ x, x ≤ foldl Z.max x l ∧ ∀ y, y ∈ l → y ≤ foldl Z.max x l.
Proof.
  induction l as [|z l IH]; intros x; simpl.
  - split; [lia|]. intros y Hy. by apply elem_of_nil in Hy.
  - destruct (IH (Z.max x z)) as [Hx Hl]. split; [lia|].
    intros y [->|Hy]%elem_of_cons; [lia | by apply Hl].
Qed.

Lemma max_Ok (l : list Z) :
  l ≠ [] → ∃ m, Py.max l = Py.Ok m ∧ ∀ y, y ∈ l → y ≤ m.
Proof.
  destruct l as [|x l]; [done|]. intros _. eexists. split; [done|].
  destruct (foldl_max_le l x) as [Hx Hl].
  intros y [->|Hy]%elem_of_cons; auto.
Qed.

(** The cells a face list only grows. *)
Definition cells_grow (cells cells' : list UGCell.t) : Prop :=
  ∀ k c, cells !! k = Some c →
    ∃ c', cells' !! k = Some c' ∧ UGCell.faces c ⊆ UGCell.faces c'.

Lemma cells_grow_refl cells : cells_grow cells cells.
Proof. intros k c Hc. by exists c. Qed.

Lemma cells_grow_trans l1 l2 l3 :
  cells_grow l1 l2 → cells_grow l2 l3 → cells_grow l1 l3.
Proof.
  intros H12 H23 k c Hc.
  destruct (H12 _ _ Hc) as (c2 & Hc2 & Hs2).
  destruct (H23 _ _ Hc2) as (c3 & Hc3 & Hs3).
  exists c3. split; [done | by etrans].
Qed.

Lemma cells_grow_alter i k cells :
  cells_grow cells (alter (UGCell.append_face i) k cells).
Proof.
  intros j c Hc. destruct (decide (k = j)) as [->|Hne].
  - eexists. split; [by rewrite list_lookup_alter_eq, Hc|]. simpl. set_solver.
  - exists c. by rewrite list_lookup_alter_ne.
Qed.

Lemma alter_append_elem i k cells :
  (k < length cells)%nat →
  ∃ c, alter (UGCell.append_face i) k cells !! k = Some c ∧ i ∈ UGCell.faces c.
Proof.
  intros [c Hc]%lookup_lt_is_Some_2.
  eexists. split; [by rewrite list_lookup_alter_eq, Hc|]. simpl. set_solver.
Qed.

Lemma creates_cells (xs : list Z) (st : ug) :
  Py.for_ xs (λ i, Py.modify (with_cells (λ l, l ++ [UGCell.new i]))) st
  = (with_cells (λ l, l ++ (UGCell.new <$> xs)) st, Py.Ok tt).
Proof.
  revert st. induction xs as [|x xs IH]; intros [cells faces bs]; simpl.
  - unfold with_cells. simpl. by rewrite app_nil_r.
  - unfold Py.bind, Py.modify. rewrite IH. unfold with_cells. simpl.
    by rewrite <- app_assoc.
Qed.

Lemma face_edges_Ok (verts : list Z) (js : list Z) :
  Forall (λ j, 0 ≤ j < Z.of_nat (length verts)) js →
  ∃ es, face_edges verts js = Py.Ok es.
Proof.
  induction 1 as [|j js Hj _ [es IH]]; [by eexists|]. simpl.
  assert (∀ i, -1 ≤ i < Z.of_nat (length verts) → 0 < Z.of_nat (length verts) →
               ∃ x, Py.getitem verts i = Py.Ok x) as Hget.
  { intros i Hi Hpos. unfold Py.getitem, Py.position.
    destruct (decide (i < 0)).
    - rewrite decide_True by lia.
      destruct (lookup_lt_is_Some_2 verts (Z.to_nat (i + Z.of_nat (length verts))))
        as [x ->]; [lia | by eexists].
    - rewrite decide_True by lia.
      destruct (lookup_lt_is_Some_2 verts (Z.to_nat i)) as [x ->]; [lia | by eexists]. }
  destruct (Hget (j - 1)) as [a ->]; [lia..|].
  destruct (Hget j) as [b ->]; [lia..|].
  rewrite IH. by eexists.
Qed.

(** Computations that leave the number of cells as it is, whether
    they return or raise. *)
Definition keeps_cells {A} (m : Py.M ug A) : Prop :=
  ∀ st st' r, m st = (st', r) → length (ugcells st') = length (ugcells st).

Lemma keeps_cells_bind {A B} (m : Py.M ug A) (k : A → Py.M ug B) :
  keeps_cells m → (∀ a, keeps_cells (k a)) → keeps_cells (x ← m; k x).
Proof.
  intros Hm Hk st st' r. unfold mbind, M_bind, Py.bind.
  destruct (m st) as [st1 [a|e]] eqn:Hrun.
  - intros Hrun2. rewrite (Hk _ _ _ _ Hrun2). by eapply Hm.
  - intros [= <- <-]. by eapply Hm.
Qed.

Lemma keeps_cells_ret {A} (a : A) : keeps_cells (mret a : Py.M ug A).
Proof. by intros st st' r [= <- <-]. Qed.

Lemma keeps_cells_lift {A} (x : Py.result A) : keeps_cells (Py.lift x).
Proof. by intros st st' r [= <- <-]. Qed.

Lemma keeps_cells_get : keeps_cells Py.get.
Proof. by intros st st' r [= <- <-]. Qed.

Lemma keeps_cells_with_faces g : keeps_cells (Py.modify (with_faces g)).
Proof. by intros st st' r [= <- <-]. Qed.

Lemma keeps_cells_update_face k g : keeps_cells (update_face k g).
Proof. apply keeps_cells_with_faces. Qed.

Lemma keeps_cells_update_cell ci g : keeps_cells (update_cell ci g).
Proof.
  intros st st' r. unfold update_cell, Py.setitem_with.
  destruct (Py.position (length (ugcells st)) ci) as [k|e].
  - intros [= <- <-]. simpl. by rewrite length_alter.
  - by intros [= <- <-].
Qed.

Section get_faces.
Context (gen_edges : bool).
Context (owner neighbour : list Z) (face_verts : list (list Z)).

Local Abbreviation face_step := (face_step gen_edges owner neighbour face_verts).
Local Abbreviation face_loop := (face_loop gen_edges owner neighbour face_verts).

(** The record of the face [i] once it is imported. *)
Definition imported_face (i : nat) : UGFace.t :=
  UGFace.mk (Z.of_nat i) (default [] (face_verts !! i))
            (default (-1) (owner !! i)) (default (-1) (neighbour !! i))
            None false.

(** The face [i] is appended to the face lists of its owner and of
    its neighbour. *)
Definition attach_face (i : nat) (cells : list UGCell.t) : list UGCell.t :=
  let cells1 := alter (UGCell.append_face (Z.of_nat i))
                      (Z.to_nat (default (-1) (owner !! i))) cells in
  match neighbour !! i with
  | Some n => alter (UGCell.append_face (Z.of_nat i)) (Z.to_nat n) cells1
  | None => cells1
  end.

Lemma attach_face_length i cells : length (attach_face i cells) = length cells.
Proof.
  unfold attach_face. destruct (neighbour !! i); by rewrite ?length_alter.
Qed.

Lemma attach_face_grow i cells : cells_grow cells (attach_face i cells).
Proof.
  unfold attach_face. destruct (neighbour !! i).
  - eapply cells_grow_trans; apply cells_grow_alter.
  - apply cells_grow_alter.
Qed.

Lemma face_step_run (i : nat) fv o edges faces st :
  face_verts !! i = Some fv →
  owner !! i = Some o →
  0 ≤ o < Z.of_nat (length (ugcells st)) →
  (∀ n, neighbour !! i = Some n → 0 ≤ n < Z.of_nat (length (ugcells st))) →
  ∃ edges',
    face_step (Z.of_nat i) (edges, faces) st
    = (mk_ug (attach_face i (ugcells st)) (ugfaces st ++ [imported_face i])
             (ugboundaries st),
       Py.Ok (edges', if decide (i < length neighbour)%nat
                      then faces else faces ++ [fv])).
Proof.
  intros Hfv Ho Hor Hnr. destruct st as [cells fs bs]. simpl in *.
  unfold io_polymesh.face_step, imported_face, attach_face.
  unfold mbind, M_bind, Py.bind, Py.lift, Py.get, Py.modify, mret, M_ret, Py.ret.
  rewrite (getitem_lookup _ _ _ Hfv). simpl.
  rewrite (getitem_lookup _ _ _ Ho). simpl.
  unfold update_cell, with_faces, with_cells. simpl.
  rewrite dedup.alter_app_last.
  rewrite setitem_with_Ok by done. simpl.
  rewrite Hfv, Ho. simpl.
  destruct (neighbour !! i) as [n|] eqn:Hn.
  - pose proof (lookup_lt_Some _ _ _ Hn) as Hlt.
    rewrite decide_True by lia. rewrite (decide_True (P := (i < _)%nat)) by done.
    rewrite (getitem_lookup _ _ _ Hn). simpl.
    rewrite dedup.alter_app_last.
    rewrite setitem_with_Ok by (rewrite length_alter; by apply Hnr). simpl.
    destruct gen_edges.
    + destruct (face_edges_Ok fv (Py.range (Z.of_nat (length fv)))) as [es ->].
      { rewrite range_of_nat. apply Forall_fmap, Forall_forall.
        intros j Hj%elem_of_seq. simpl. lia. }
      by eexists.
    + by eexists.
  - pose proof (lookup_ge_None_1 _ _ Hn) as Hge.
    rewrite decide_False by lia. rewrite (decide_False (P := (i < _)%nat)) by lia.
    by eexists.
Qed.

Lemma face_loop_app is1 is2 acc st :
  face_loop (is1 ++ is2) acc st
  = match face_loop is1 acc st with
    | (st', Py.Ok acc') => face_loop is2 acc' st'
    | (st', Py.Raise e) => (st', Py.Raise e)
    end.
Proof.
  revert acc st. induction is1 as [|i is1 IH]; intros acc st; [done|].
  simpl. unfold mbind, M_bind, Py.bind.
  destruct (face_step i acc st) as [st1 [acc1|e]]; [apply IH | done].
Qed.

Lemma keeps_cells_face_step i acc : keeps_cells (face_step i acc).
Proof.
  unfold io_polymesh.face_step. destruct acc as [edges faces].
  repeat first
    [ apply keeps_cells_bind; [|intros ?]
    | apply keeps_cells_lift | apply keeps_cells_get | apply keeps_cells_ret
    | apply keeps_cells_with_faces | apply keeps_cells_update_face
    | apply keeps_cells_update_cell
    | case_decide | destruct gen_edges ].
Qed.

Lemma keeps_cells_face_loop indices : ∀ acc, keeps_cells (face_loop indices acc).
Proof.
  induction indices as [|i indices IH]; intros acc; simpl.
  - apply keeps_cells_ret.
  - apply keeps_cells_bind; [apply keeps_cells_face_step | apply IH].
Qed.

(** The cells [polymesh_get_faces] creates, whether or not the loop
    over the faces completes. *)
Lemma polymesh_get_faces_cells m st st' r :
  Py.max owner = Py.Ok m →
  polymesh_get_faces gen_edges owner neighbour face_verts st = (st', r) →
  length (ugcells st') = (length (ugcells st) + Z.to_nat (m + 1))%nat.
Proof.
  intros Hmax. unfold polymesh_get_faces, mbind, M_bind, Py.bind, Py.lift.
  rewrite Hmax, creates_cells. intros Hrun.
  apply keeps_cells_face_loop in Hrun. rewrite Hrun.
  unfold with_cells, Py.range. simpl.
  by rewrite length_app, !length_fmap, length_seq.
Qed.

Lemma face_loop_singleton i acc st : face_loop [i] acc st = face_step i acc st.
Proof.
  simpl. unfold mbind, M_bind, Py.bind.
  by destruct (face_step i acc st) as [st1 [acc1|e]].
Qed.

(** The store after the faces below [a] are imported. *)
Lemma face_loop_prefix (st : ug) (a : nat) :
  (a ≤ length face_verts)%nat →
  (length face_verts ≤ length owner)%nat →
  (∀ i o, (i < length face_verts)%nat → owner !! i = Some o →
          0 ≤ o < Z.of_nat (length (ugcells st))) →
  (∀ i n, (i < length face_verts)%nat → neighbour !! i = Some n →
          0 ≤ n < Z.of_nat (length (ugcells st))) →
  ∃ st' edges,
    face_loop (Py.range (Z.of_nat a)) ([], []) st
    = (st', Py.Ok (edges, drop (length neighbour) (take a face_verts))) ∧
    ugfaces st' = ugfaces st ++ (imported_face <$> seq 0 a) ∧
    ugboundaries st' = ugboundaries st ∧
    length (ugcells st') = length (ugcells st) ∧
    cells_grow (ugcells st) (ugcells st') ∧
    ∀ i, (i < a)%nat →
      (∀ o, owner !! i = Some o →
         ∃ c, ugcells st' !! Z.to_nat o = Some c ∧ Z.of_nat i ∈ UGCell.faces c) ∧
      (∀ n, neighbour !! i = Some n →
         ∃ c, ugcells st' !! Z.to_nat n = Some c ∧ Z.of_nat i ∈ UGCell.faces c).
Proof.
  intros Ha Hlen Hor Hnr. induction a as [|a IH].
  - exists st, []. split_and!; try done.
    + by rewrite take_0, drop_nil.
    + simpl. by rewrite app_nil_r.
    + apply cells_grow_refl.
    + lia.
  - destruct IH as (st1 & edges1 & Hrun & Hfaces & Hbs & Hcl & Hgrow & Hmem); [lia|].
    destruct (lookup_lt_is_Some_2 face_verts a) as [fv Hfv]; [lia|].
    destruct (lookup_lt_is_Some_2 owner a) as [o Ho]; [lia|].
    destruct (face_step_run a fv o edges1
                (drop (length neighbour) (take a face_verts)) st1 Hfv Ho)
      as [edges2 Hstep].
    { rewrite Hcl. apply (Hor a); [lia | done]. }
    { intros n Hn. rewrite Hcl. apply (Hnr a); [lia | done]. }
    eexists _, edges2. split_and!.
    + rewrite range_of_nat, seq_S, fmap_app, <- range_of_nat.
      rewrite face_loop_app, Hrun.
      cbv beta iota.
      change (Z.of_nat <$> [(0 + a)%nat]) with [Z.of_nat a].
      rewrite face_loop_singleton, Hstep. do 3 f_equal.
      rewrite (take_S_r _ _ _ Hfv).
      assert (length (take a face_verts) = a) as Hta by (rewrite length_take; lia).
      case_decide.
      * rewrite !drop_ge; [done | rewrite length_app; simpl; lia | lia].
      * rewrite drop_app_le by lia. done.
    + cbn [ugfaces]. rewrite Hfaces, seq_S, fmap_app, app_assoc. done.
    + cbn [ugboundaries]. done.
    + cbn [ugcells]. by rewrite attach_face_length.
    + cbn [ugcells]. eapply cells_grow_trans; [exact Hgrow | apply attach_face_grow].
    + cbn [ugcells]. intros i Hi. destruct (decide (i = a)) as [->|Hne].
      * split.
        -- intros o' Ho'. assert (o' = o) as -> by congruence.
           unfold attach_face. rewrite Ho. simpl.
           destruct (alter_append_elem (Z.of_nat a) (Z.to_nat o) (ugcells st1))
             as (c & Hc & Hin).
           { rewrite Hcl. pose proof (Hor a o Ha Ho). lia. }
           destruct (neighbour !! a) as [n|]; [|by exists c].
           destruct (cells_grow_alter (Z.of_nat a) (Z.to_nat n) _ _ _ Hc)
             as (c' & Hc' & Hsub).
           exists c'. split; [done | by apply Hsub].
        -- intros n Hn. unfold attach_face. rewrite Hn.
           apply alter_append_elem. rewrite length_alter, Hcl.
           pose proof (Hnr a n Ha Hn). lia.
      * destruct (Hmem i) as [Hmo Hmn]; [lia|]. split.
        -- intros o' Ho'. destruct (Hmo _ Ho') as (c & Hc & Hin).
           destruct (attach_face_grow a _ _ _ Hc) as (c' & Hc' & Hsub).
           exists c'. split; [done | by apply Hsub].
        -- intros n Hn. destruct (Hmn _ Hn) as (c & Hc & Hin).
           destruct (attach_face_grow a _ _ _ Hc) as (c' & Hc' & Hsub).
           exists c'. split; [done | by apply Hsub].
Qed.
End get_faces.

End polymesh_import.


Section polymesh_get_faces_facts.
Import io_polymesh polymesh_import.




End polymesh_get_faces_facts.


(** ** PolyMesh export: owner, neighbour and boundary blocks *)

Section polymesh_export.
Import io_polymesh.

(** The topology read from three triangles, the first between the
    cells 0 and 1 and the other two on the boundary. *)
Definition three_faces : ug :=
  (polymesh_get_faces false [0; 0; 1] [1] [[0; 1; 2]; [0; 1; 3]; [1; 2; 3]]
     ug_empty).1.

(** The count line of the owner block is the number of its entries
    plus the number of entries of the neighbour block. *)
Lemma owner_count_line (st : ug) :
  count_line (owner_block st)
  = Z.of_nat (length (entries (owner_block st)))
    + Z.of_nat (length (entries (neighbour_block st))).
Proof. unfold owner_block, neighbour_block. simpl. by rewrite !length_fmap. Qed.

Lemma neighbour_count_line (st : ug) :
  count_line (neighbour_block st) = Z.of_nat (length (entries (neighbour_block st))).
Proof. unfold neighbour_block. simpl. by rewrite length_fmap. Qed.

(** C5 (the code departs from it).  For the topology of three faces
    of which one is internal, the owner block announces 4 entries and
    lists 3; the neighbour block announces and lists the one internal
    face. *)
Theorem owner_count_line_mismatch :
  owner_block three_faces = mk_labelList 4 [0; 0; 1] ∧
  neighbour_block three_faces = mk_labelList 1 [1] ∧
  (update_text_owner_neighbour three_faces).1
  = of_file_header "labelList" "owner" +:+ Py.nl
    +:+ "4" +:+ Py.nl +:+ "(" +:+ Py.nl
    +:+ "0" +:+ Py.nl +:+ "0" +:+ Py.nl +:+ "1" +:+ Py.nl
    +:+ ")" +:+ Py.nl.
Proof. split_and!; vm_compute; reflexivity. Qed.

(** A boundary face of cell 1 stored before the internal face
    between the cells 0 and 1. *)
Definition boundary_face_first : ug :=
  mk_ug [UGCell.mk [1] (-1); UGCell.mk [0; 1] (-1)]
        [UGFace.mk 0 [0; 1; 3] 1 (-1) None false;
         UGFace.mk 1 [0; 1; 2] 0 1 None false]
        [].

(** The faces block lists the internal face first (the face pass
    gives it the export index 0 and the boundary face the index 1),
    the owner block lists the owners in storage order. *)
Lemma owner_list_in_storage_order :
  UGFace.facei <$> ugfaces (update_text_faces boundary_face_first).1 = [1; 0] ∧
  UGFace.owneri <$> ugfaces (update_text_faces boundary_face_first).1 = [1; 0] ∧
  entries (owner_block (update_text_faces boundary_face_first).1) = [1; 0].
Proof. split_and!; vm_compute; reflexivity. Qed.

(** The face indices a boundary entry stands for. *)
Definition patch_range (e : patch_entry) : list Z :=
  range2 (e_startFace e) (e_startFace e + e_nFaces e).

(** The export indices of the boundary faces that are not deleted. *)
Definition boundary_face_indices (st : ug) : list Z :=
  UGFace.facei <$>
    filter (λ f, UGFace.deleted f = false ∧ UGFace.neighbouri f = -1) (ugfaces st).

(** Three boundary faces of one cell; the second belongs to the patch
    1, the other two to the patch 0. *)
Definition interleaved_patches : ug :=
  mk_ug [UGCell.mk [0; 1; 2] (-1)]
        [UGFace.mk 0 [0; 1; 2] 0 (-1) (Some 0) false;
         UGFace.mk 1 [0; 1; 3] 0 (-1) (Some 1) false;
         UGFace.mk 2 [1; 2; 3] 0 (-1) (Some 0) false]
        [UGBoundary.mk "inlet" "patch" "" 2 0 false;
         UGBoundary.mk "outlet" "patch" "" 1 2 false].

(** The same faces as the import leaves them for a boundary block
    whose second patch lies inside the range of the first: the faces
    get these patch numbers, then the host mesh, with its one polygon
    per boundary face, has no polygon left for the second patch and
    [IndexError] is raised. *)
Lemma interleaved_patches_imported :
  ugfaces
    ((polymesh_get_faces false [0; 0; 0] [] [[0; 1; 2]; [0; 1; 3]; [1; 2; 3]];;
      apply_materials_to_boundaries [0; 0; 0])
       (mk_ug [] [] [UGBoundary.mk "inlet" "patch" "" 3 0 false;
                     UGBoundary.mk "outlet" "patch" "" 1 1 false])).1
  = ugfaces interleaved_patches ∧
  ((polymesh_get_faces false [0; 0; 0] [] [[0; 1; 2]; [0; 1; 3]; [1; 2; 3]];;
    apply_materials_to_boundaries [0; 0; 0])
     (mk_ug [] [] [UGBoundary.mk "inlet" "patch" "" 3 0 false;
                   UGBoundary.mk "outlet" "patch" "" 1 1 false])).2
  = Py.Raise Py.IndexError.
Proof. split; vm_compute; reflexivity. Qed.

(** C4 (the code departs from it).  After the face pass over three
    boundary faces whose patch indices are 0, 1, 0 the boundary block
    gives the patch 0 the range [0, 2) and the patch 1 the range
    [1, 2): the face 1 is in both ranges and the face 2 in none. *)
Theorem boundary_ranges_overlap :
  boundary_face_indices (update_text_faces interleaved_patches).1 = [0; 1; 2] ∧
  boundary_entries (ugfaces (update_text_faces interleaved_patches).1)
                   (ugboundaries (update_text_faces interleaved_patches).1) 0
  = Py.Ok [mk_patch_entry "inlet" "patch" "" 2 0;
           mk_patch_entry "outlet" "patch" "" 1 1] ∧
  patch_range (mk_patch_entry "inlet" "patch" "" 2 0) = [0; 1] ∧
  patch_range (mk_patch_entry "outlet" "patch" "" 1 1) = [1].
Proof. split_and!; vm_compute; reflexivity. Qed.

(** Two boundary faces of the patch 0, the first of them deleted. *)
Definition deleted_patch_face : ug :=
  mk_ug [UGCell.mk [0; 1] (-1)]
        [UGFace.mk 0 [0; 1; 2] 0 (-1) (Some 0) true;
         UGFace.mk 1 [0; 1; 3] 0 (-1) (Some 0) false]
        [UGBoundary.mk "walls" "wall" "" 2 0 false].

(** The face pass skips the deleted face, the boundary block counts
    it: one face is exported and the patch claims two. *)
Lemma deleted_face_counted :
  boundary_face_indices (update_text_faces deleted_patch_face).1 = [0] ∧
  boundary_entries (ugfaces (update_text_faces deleted_patch_face).1)
                   (ugboundaries (update_text_faces deleted_patch_face).1) 0
  = Py.Ok [mk_patch_entry "walls" "wall" "" 2 0].
Proof. split_and!; vm_compute; reflexivity. Qed.

(** A patch without faces makes the export of the boundary block
    raise [IndexError]. *)
Lemma empty_patch_raises :
  (export_pass
     (mk_ug (ugcells three_faces)
            (ugfaces (assign_mati [1; 2] 0 three_faces).1)
            [UGBoundary.mk "walls" "wall" "" 2 1 false;
             UGBoundary.mk "frontAndBack" "empty" "" 0 3 false])).2
  = Py.Raise Py.IndexError.
Proof. vm_compute. reflexivity. Qed.

End polymesh_export.


(** ** Polyhedron face lists: what is written is what is read *)

Module polyhedron_codec.
Import io_vtu io_vtu_export.

Lemma decoder_init_status : status decoder_init = true.
Proof. done. Qed.

(** The numbers of the faces [fs]: each face as its length and its
    vertices. *)
Definition encode_faces (fs : list (list Z)) : list Z :=
  concat ((λ f, Z.of_nat (length f) :: f) <$> fs).

(** Reading the vertices of a face that still lacks some. *)
Lemma decode_vertices (n : Z) (done : list (list Z)) :
  ∀ rest vs,
    Z.of_nat (length (vs ++ rest)) = n → rest ≠ [] →
    foldl decode_step (mk_decoder false n vs done) rest
    = mk_decoder true n (vs ++ rest) (done ++ [vs ++ rest]).
Proof.
  induction rest as [|x rest IH]; intros vs Hlen Hne; [done|].
  simpl. unfold decode_step at 2. simpl.
  destruct rest as [|y rest].
  - rewrite decide_True by done. done.
  - rewrite decide_False.
    2:{ rewrite <- Hlen, !length_app. simpl. lia. }
    rewrite (IH (vs ++ [x])); [|by rewrite <- app_assoc|done].
    by rewrite <- !app_assoc.
Qed.

Lemma decode_face (d : decoder) (f : list Z) :
  status d = true →
  foldl decode_step d (Z.of_nat (length f) :: f)
  = mk_decoder true (Z.of_nat (length f)) f (fis d ++ [f]).
Proof.
  intros Hs. simpl. unfold decode_step at 2. rewrite Hs. simpl.
  destruct f as [|x f].
  - by rewrite decide_True.
  - rewrite decide_False by (simpl; lia).
    by rewrite (decode_vertices _ _ (x :: f) []).
Qed.

Lemma encode_faces_cons (f : list Z) (fs : list (list Z)) :
  encode_faces (f :: fs) = (Z.of_nat (length f) :: f) ++ encode_faces fs.
Proof. done. Qed.

Lemma decode_encode_faces (fs : list (list Z)) :
  ∀ d, status d = true →
    status (foldl decode_step d (encode_faces fs)) = true ∧
    fis (foldl decode_step d (encode_faces fs)) = fis d ++ fs.
Proof.
  induction fs as [|f fs IH]; intros d Hs.
  - simpl. by rewrite app_nil_r.
  - rewrite encode_faces_cons, foldl_app, (decode_face _ _ Hs).
    destruct (IH (mk_decoder true (Z.of_nat (length f)) f (fis d ++ [f])) eq_refl)
      as [Hs' Hf'].
    split; [done|]. rewrite Hf'. simpl. by rewrite <- app_assoc.
Qed.

(** A face record that is cut short, or whose length is negative,
    never completes. *)
Lemma decode_incomplete (k : Z) (done : list (list Z)) :
  ∀ vs acc,
    (k < 0 ∨ Z.of_nat (length acc + length vs) < k) →
    fis (foldl decode_step (mk_decoder false k acc done) vs) = done.
Proof.
  induction vs as [|x vs IH]; intros acc Hk; [done|].
  simpl. unfold decode_step at 2. simpl.
  rewrite decide_False.
  2:{ rewrite length_app. simpl in *. lia. }
  apply IH. rewrite length_app. simpl in *.
  destruct Hk; [by left | right; lia].
Qed.

Lemma foldl_decode_encode (fs : list (list Z)) :
  ∃ n v, foldl decode_step decoder_init (encode_faces fs) = mk_decoder true n v fs.
Proof.
  pose proof (decode_encode_faces fs decoder_init decoder_init_status) as [Hs Hf].
  destruct (foldl decode_step decoder_init (encode_faces fs)) as [s n v fs'].
  simpl in Hs, Hf. subst s fs'. by exists n, v.
Qed.

Lemma decode_faces_encode (fs : list (list Z)) : decode_faces (encode_faces fs) = fs.
Proof.
  unfold decode_faces. destruct (foldl_decode_encode fs) as (n & v & ->). done.
Qed.

Lemma decode_faces_incomplete (fs : list (list Z)) (k : Z) (vs : list Z) :
  k ≠ 0 → k < 0 ∨ Z.of_nat (length vs) < k →
  decode_faces (encode_faces fs ++ k :: vs) = fs.
Proof.
  intros Hk0 Hk. unfold decode_faces. rewrite foldl_app.
  destruct (foldl_decode_encode fs) as (n & v & ->).
  simpl. unfold decode_step at 2. simpl.
  destruct (decide (Z.of_nat 0 = k)) as [Heq|_]; [simpl in Heq; lia|].
  apply (decode_incomplete k fs vs []). simpl. lia.
Qed.

Lemma decode_faces_stray_zero (fs : list (list Z)) :
  decode_faces (encode_faces fs ++ [0]) = fs ++ [[]].
Proof.
  unfold decode_faces. rewrite foldl_app.
  destruct (foldl_decode_encode fs) as (n & v & ->). done.
Qed.

(** X2.  Numbers after the last complete face that do not make up a
    face (a length that is negative, or followed by too few
    vertices) are dropped: [get_polyhedron_fis] returns the faces
    before them. *)
Theorem get_polyhedron_fis_drops_incomplete_face
    (fs : list (list Z)) (k : Z) (vs : list Z) :
  k ≠ 0 →
  k < 0 ∨ Z.of_nat (length vs) < k →
  get_polyhedron_fis (Z.of_nat (length fs) :: encode_faces fs ++ k :: vs)
  = Py.Ok fs.
Proof.
  intros Hk0 Hk. unfold get_polyhedron_fis. simpl.
  rewrite (decode_faces_incomplete fs k vs Hk0 Hk).
  by rewrite decide_False by lia.
Qed.

Lemma get_polyhedron_fis_drops_incomplete_face_witness :
  get_polyhedron_fis
    (Z.of_nat (length [[0; 2; 1]; [0; 1; 3]])
     :: encode_faces [[0; 2; 1]; [0; 1; 3]] ++ 3 :: [1; 2])
  = Py.Ok [[0; 2; 1]; [0; 1; 3]].
Proof.
  apply (get_polyhedron_fis_drops_incomplete_face [[0; 2; 1]; [0; 1; 3]] 3 [1; 2]).
  - lia.
  - right. simpl. lia.
Defined.

(** X3.  A 0 after the last face is read as one more face without
    vertices, so the count no longer matches and
    [get_polyhedron_fis] raises. *)
Theorem get_polyhedron_fis_stray_zero (fs : list (list Z)) :
  get_polyhedron_fis (Z.of_nat (length fs) :: encode_faces fs ++ [0])
  = Py.Raise (Py.ValueError
      ("Polyhedron faces list is broken: "
       +:+ Py.str_list (Z.of_nat (length fs) :: encode_faces fs ++ [0]))).
Proof.
  unfold get_polyhedron_fis. simpl. rewrite decode_faces_stray_zero.
  rewrite decide_True; [done|]. rewrite length_app. simpl. lia.
Qed.

Section cells.
Context (ei : Z → Z).

Lemma omap_lookup_length (st : ug) (l : list nat) :
  Forall (λ ugf, is_Some (ugfaces st !! ugf)) l →
  length (omap (λ ugf, ugfaces st !! ugf) l) = length l.
Proof.
  induction 1 as [|ugf l [f Hf] _ IH]; [done|].
  simpl. rewrite Hf. simpl. f_equal. exact IH.
Qed.

Lemma cell_faces_fmap (st : ug) (c : UGCell.t) :
  Forall (λ ugf, is_Some (ugfaces st !! ugf)) (UGCell.ugfaces c) →
  length (cell_faces st c) = length (UGCell.ugfaces c).
Proof. apply omap_lookup_length. Qed.

Lemma faceslist_encode (st : ug) (c : UGCell.t) :
  faceslist ei st c
  = Z.of_nat (length (UGCell.ugfaces c))
    :: encode_faces ((λ f, ei <$> UGFace.ugverts f) <$> cell_faces st c).
Proof.
  unfold faceslist, encode_faces, face_numbers. f_equal. f_equal.
  rewrite <- list_fmap_compose. apply list_fmap_ext. intros _ f _.
  simpl. by rewrite length_fmap.
Qed.

(** X1.  The numbers [generate_cellfaces_text] writes for a cell
    are read back by [get_polyhedron_fis] as the faces of the cell,
    each with the export indices of its vertices in order. *)
Theorem get_polyhedron_fis_faceslist (st : ug) (c : UGCell.t) :
  Forall (λ ugf, is_Some (ugfaces st !! ugf)) (UGCell.ugfaces c) →
  get_polyhedron_fis (faceslist ei st c)
  = Py.Ok ((λ f, ei <$> UGFace.ugverts f) <$> cell_faces st c).
Proof.
  intros Hwf. rewrite faceslist_encode.
  unfold get_polyhedron_fis. simpl. rewrite decode_faces_encode.
  rewrite decide_False; [done|].
  rewrite length_fmap, (cell_faces_fmap _ _ Hwf). lia.
Qed.
End cells.

(** A tetrahedron on the vertices 0..3, exported with the indices
    shifted by ten. *)
Lemma get_polyhedron_fis_faceslist_witness :
  get_polyhedron_fis
    (faceslist (λ v, v + 10)
       (mk_ug [UGFace.mk [0; 2; 1] (Some 0%nat) None;
               UGFace.mk [0; 1; 3] (Some 0%nat) None;
               UGFace.mk [1; 2; 3] (Some 0%nat) None;
               UGFace.mk [0; 3; 2] (Some 0%nat) None]
              [UGCell.mk [0; 1; 2; 3]%nat [0; 2; 1; 3] false])
       (UGCell.mk [0; 1; 2; 3]%nat [0; 2; 1; 3] false))
  = Py.Ok [[10; 12; 11]; [10; 11; 13]; [11; 12; 13]; [10; 13; 12]].
Proof.
  apply (get_polyhedron_fis_faceslist (λ v, v + 10)
           (mk_ug [UGFace.mk [0; 2; 1] (Some 0%nat) None;
                   UGFace.mk [0; 1; 3] (Some 0%nat) None;
                   UGFace.mk [1; 2; 3] (Some 0%nat) None;
                   UGFace.mk [0; 3; 2] (Some 0%nat) None]
                  [UGCell.mk [0; 1; 2; 3]%nat [0; 2; 1; 3] false])
           (UGCell.mk [0; 1; 2; 3]%nat [0; 2; 1; 3] false)).
  repeat constructor; by eexists.
Defined.

End polyhedron_codec.


(** ** Cumulative offsets: reading back what the export wrote *)

Module offsets_codec.
Import io_vtu io_vtu_export vtu_import polyhedron_codec.

(** The entry before [ci] of a list of cumulative offsets, 0 for the
    first cell. *)
Definition previous_offset (offsets : list Z) (ci : nat) : Z :=
  match ci with
  | O => 0
  | S k => default 0 (offsets !! k)
  end.

Section import.
Context (connectivities offsets celltypes cellfaces cellfaceoffsets : list Z).

Local Abbreviation cell_inputs :=
  (cell_inputs connectivities offsets celltypes cellfaces cellfaceoffsets).
Local Abbreviation cell_step :=
  (cell_step connectivities offsets celltypes cellfaces cellfaceoffsets).
Local Abbreviation cell_loop :=
  (cell_loop connectivities offsets celltypes cellfaces cellfaceoffsets).

Lemma cell_inputs_Ok_offsets (k : nat) l t conn_end vilist pfl o :
  cell_inputs (Z.of_nat k) l = Py.Ok (t, conn_end, vilist, pfl, o) →
  offsets !! k = Some conn_end.
Proof.
  unfold io_vtu.cell_inputs.
  destruct (Py.getitem celltypes (Z.of_nat k)) as [t'|]; [|done].
  destruct (Py.getitem offsets (Z.of_nat k)) as [ce|] eqn:Ho; [|done].
  apply getitem_Ok_lookup in Ho.
  case_decide.
  - destruct (Py.getitem cellfaceoffsets (Z.of_nat k)); [|done].
    by intros [= <- <- <- <- <-].
  - by intros [= <- <- <- <- <-].
Qed.

Lemma cell_step_conn_index (k : nat) l st st' l' :
  cell_step (Z.of_nat k) l st = (st', Py.Ok l') →
  offsets !! k = Some (conn_index l').
Proof.
  unfold io_vtu.cell_step, mbind, M_bind, Py.bind, Py.lift.
  destruct (cell_inputs (Z.of_nat k) l) as [[[[[t ce] vi] pfl] o]|] eqn:Hin; [|done].
  destruct (vtu_add_cell t vi (facemap l) pfl st) as [st1 [fm1|]]; [|done].
  intros [= <- <-]. simpl.
  rewrite (cell_inputs_Ok_offsets _ _ _ _ _ _ _ Hin). f_equal. lia.
Qed.

Lemma cell_loop_conn_index (ci : nat) st0 :
  ∀ st l,
    cell_loop (Py.range (Z.of_nat ci)) locals_init st0 = (st, Py.Ok l) →
    conn_index l = previous_offset offsets ci.
Proof.
  destruct ci as [|k]; intros st l.
  - by intros [= <- <-].
  - rewrite range_S, cell_loop_app.
    destruct (cell_loop (Py.range (Z.of_nat k)) locals_init st0)
      as [st1 [l1|]] eqn:Hpre; [|done].
    simpl. unfold mbind, M_bind, Py.bind.
    destruct (cell_step (Z.of_nat k) l1 st1) as [st2 [l2|]] eqn:Hstep; [|done].
    intros [= <- <-]. by rewrite (cell_step_conn_index _ _ _ _ _ Hstep).
Qed.

Lemma cell_inputs_vilist (k : nat) l t conn_end vilist pfl o :
  cell_inputs (Z.of_nat k) l = Py.Ok (t, conn_end, vilist, pfl, o) →
  vilist = Py.slice connectivities (conn_index l) conn_end.
Proof.
  intros Hin. pose proof (cell_inputs_Ok_offsets _ _ _ _ _ _ _ Hin) as Ho.
  revert Hin. unfold io_vtu.cell_inputs.
  destruct (Py.getitem celltypes (Z.of_nat k)) as [t'|]; [|done].
  rewrite (getitem_lookup _ _ _ Ho).
  case_decide.
  - destruct (Py.getitem cellfaceoffsets (Z.of_nat k)); [|done].
    by intros [= <- <- <- <-].
  - by intros [= <- <- <- <-].
Qed.

(** X4.  When the import reaches the cell [ci], the vertex list it
    hands to [vtu_add_cell] is the slice of the connectivity block
    from the offset of the cell before (0 for the first cell) to the
    offset of the cell itself. *)
Theorem vilist_between_offsets
    (ci : nat) (t conn_end : Z) (vilist polyfacelist : list Z) (o : Z)
    (st0 st : ug) (l : locals) :
  cell_loop (Py.range (Z.of_nat ci)) locals_init st0 = (st, Py.Ok l) →
  cell_inputs (Z.of_nat ci) l = Py.Ok (t, conn_end, vilist, polyfacelist, o) →
  offsets !! ci = Some conn_end ∧
  vilist = Py.slice connectivities (previous_offset offsets ci) conn_end.
Proof.
  intros Hpre Hin. split.
  - by eapply cell_inputs_Ok_offsets.
  - rewrite <- (cell_loop_conn_index _ _ _ _ Hpre).
    by eapply cell_inputs_vilist.
Qed.
End import.

(** The second of two tetrahedra. *)
Lemma vilist_between_offsets_witness :
  [4; 8] !! 1%nat = Some 8 ∧
  [0; 2; 1; 4] = Py.slice [0; 1; 2; 3; 0; 2; 1; 4] (previous_offset [4; 8] 1) 8.
Proof.
  destruct (cell_loop [0; 1; 2; 3; 0; 2; 1; 4] [4; 8] [10; 10] [] []
              (Py.range (Z.of_nat 1)) locals_init ug_empty)
    as [st1 [l1|e]] eqn:Hpre.
  - assert (conn_index l1 = 0 + (4 - 0) ∧ offset_index l1 = 0) as [Hc Ho].
    { vm_compute in Hpre. injection Hpre as _ <-. done. }
    apply (vilist_between_offsets [0; 1; 2; 3; 0; 2; 1; 4] [4; 8] [10; 10] [] []
             1 10 8 [0; 2; 1; 4] [] 0 ug_empty st1 l1 Hpre).
    unfold cell_inputs. simpl. rewrite Hc, Ho. reflexivity.
  - exfalso. vm_compute in Hpre. discriminate Hpre.
Defined.

(** *** Slices of a concatenation *)

Lemma slice_of_nat {A} (l : list A) (a b : nat) :
  Py.slice l (Z.of_nat a) (Z.of_nat b) = take (b - a) (drop a l).
Proof.
  unfold Py.slice, Py.clamp.
  rewrite !decide_False by lia.
  rewrite <- !Nat2Z.inj_min, !Nat2Z.id.
  destruct (decide (a ≤ length l)%nat) as [Ha|Ha].
  - rewrite (Nat.min_l a) by done.
    destruct (decide (b ≤ length l)%nat) as [Hb|Hb].
    + by rewrite (Nat.min_l b).
    + rewrite (Nat.min_r b) by lia.
      rewrite !take_ge; [done|rewrite length_drop; lia..].
  - rewrite (Nat.min_r a) by lia.
    rewrite !(drop_ge l) by lia. by rewrite !take_nil.
Qed.

Lemma drop_concat_take {A} (rows : list (list A)) (ci : nat) :
  drop (length (concat (take ci rows))) (concat rows) = concat (drop ci rows).
Proof.
  rewrite <- (take_drop ci rows) at 2.
  by rewrite concat_app, drop_app_length.
Qed.

(** The offsets the export writes after rows of these lengths, from
    the offset [acc] on. *)
Fixpoint cumulative_from {A} (acc : Z) (rows : list (list A)) : list Z :=
  match rows with
  | [] => []
  | row :: rows' =>
      (acc + Z.of_nat (length row))
      :: cumulative_from (acc + Z.of_nat (length row)) rows'
  end.

Lemma cumulative_from_lookup {A} (rows : list (list A)) :
  ∀ acc i row,
    rows !! i = Some row →
    cumulative_from acc rows !! i
    = Some (acc + Z.of_nat (length (concat (take (S i) rows)))).
Proof.
  induction rows as [|r rows IH]; intros acc i row Hi; [done|].
  destruct i as [|i].
  - simpl. rewrite ?take_0. simpl. by rewrite ?app_nil_r.
  - change (cumulative_from (acc + Z.of_nat (length r)) rows !! i
            = Some (acc + Z.of_nat (length (r ++ concat (take (S i) rows))))).
    rewrite (IH _ _ _ Hi). f_equal. rewrite length_app. lia.
Qed.

Lemma cumulative_from_app {A} (rows1 rows2 : list (list A)) :
  ∀ acc,
    cumulative_from acc (rows1 ++ rows2)
    = cumulative_from acc rows1
      ++ cumulative_from (acc + Z.of_nat (length (concat rows1))) rows2.
Proof.
  induction rows1 as [|r rows1 IH]; intros acc; simpl.
  - f_equal. lia.
  - rewrite IH. do 3 f_equal. rewrite length_app. lia.
Qed.

Lemma previous_offset_cumulative {A} (rows : list (list A)) (ci : nat) :
  (ci ≤ length rows)%nat →
  previous_offset (cumulative_from 0 rows) ci
  = Z.of_nat (length (concat (take ci rows))).
Proof.
  destruct ci as [|k]; intros Hle; [done|]. simpl.
  destruct (lookup_lt_is_Some_2 rows k) as [row Hrow]; [lia|].
  by rewrite (cumulative_from_lookup _ _ _ _ Hrow).
Qed.

(** What the import slices out of a concatenation of rows when the
    offsets are the cumulative lengths: the row itself up to its own
    offset, and one number more up to the offset plus one. *)
Lemma slice_row {A} (rows : list (list A)) (ci : nat) (row : list A) :
  rows !! ci = Some row →
  ∃ ce,
    cumulative_from 0 rows !! ci = Some ce ∧
    Py.slice (concat rows) (previous_offset (cumulative_from 0 rows) ci) ce = row ∧
    Py.slice (concat rows) (previous_offset (cumulative_from 0 rows) ci) (ce + 1)
    = row ++ take 1 (concat (drop (S ci) rows)).
Proof.
  intros Hrow. pose proof (lookup_lt_Some _ _ _ Hrow) as Hlt.
  eexists. split; [by apply (cumulative_from_lookup rows 0 ci row)|].
  rewrite previous_offset_cumulative by lia.
  rewrite Z.add_0_l.
  assert (concat (take (S ci) rows) = concat (take ci rows) ++ row) as Htake.
  { rewrite (take_S_r _ _ _ Hrow), concat_app. simpl. by rewrite app_nil_r. }
  assert (concat (drop ci rows) = row ++ concat (drop (S ci) rows)) as Hdrop.
  { by rewrite (drop_S _ _ _ Hrow). }
  split.
  - rewrite slice_of_nat, drop_concat_take, Hdrop, Htake, length_app.
    replace (length (concat (take ci rows)) + length row
             - length (concat (take ci rows)))%nat with (length row) by lia.
    by rewrite take_app_length.
  - replace (Z.of_nat (length (concat (take (S ci) rows))) + 1)
      with (Z.of_nat (S (length (concat (take (S ci) rows))))) by lia.
    rewrite slice_of_nat, drop_concat_take, Hdrop, Htake, length_app.
    replace (S (length (concat (take ci rows)) + length row)
             - length (concat (take ci rows)))%nat with (length row + 1)%nat by lia.
    by rewrite take_app_add.
Qed.

(** *** The lists the export writes *)

Section export_lists.
Context (ei : Z → Z).

Definition alive (c : UGCell.t) : Prop := UGCell.deleted c = false.

Lemma types_offsets_foldl (cells : list UGCell.t) :
  ∀ typeslist offsetlist nVert nCells,
    foldl types_offsets_step (typeslist, offsetlist, nVert, nCells) cells
    = (typeslist ++ replicate (length (filter alive cells)) 42,
       offsetlist ++ cumulative_from nVert (connectivity_row ei <$> filter alive cells),
       nVert + Z.of_nat (length (concat (connectivity_row ei <$> filter alive cells))),
       nCells + Z.of_nat (length (filter alive cells))).
Proof.
  induction cells as [|c cells IH]; intros tl ol nv nc.
  - simpl. rewrite !app_nil_r. repeat f_equal; lia.
  - simpl. destruct (UGCell.deleted c) eqn:Hd.
    + rewrite filter_cons_False by (unfold alive; congruence). apply IH.
    + rewrite filter_cons_True by done. rewrite IH, fmap_cons.
      assert (length (connectivity_row ei c) = length (UGCell.ugverts c)) as Hlen.
      { unfold connectivity_row. by rewrite length_fmap. }
      f_equal; [f_equal; [f_equal|]|].
      * by rewrite <- app_assoc.
      * rewrite <- app_assoc. simpl. by rewrite Hlen.
      * simpl. rewrite length_app, Hlen. lia.
      * simpl. lia.
Qed.

Lemma typeslist_replicate (st : ug) :
  (types_offsets_lists (ugcells st)).1.1.1
  = replicate (length (filter alive (ugcells st))) 42.
Proof. unfold types_offsets_lists. by rewrite types_offsets_foldl. Qed.

Lemma offsets_list_cumulative (st : ug) :
  offsets_list st = cumulative_from 0 (connectivity_rows ei st).
Proof.
  unfold offsets_list, types_offsets_lists. by rewrite types_offsets_foldl.
Qed.

Lemma cellfaces_foldl (st : ug) (cells : list UGCell.t) :
  ∀ cellfaces offset cellfaceoffsets offsets,
    (foldl (cellfaces_step ei st) (cellfaces, offset, cellfaceoffsets, offsets)
           cells).2
    = offsets ++ cumulative_from offset (faceslist ei st <$> filter alive cells)
    ∧
    (foldl (cellfaces_step ei st) (cellfaces, offset, cellfaceoffsets, offsets)
           cells).1.1.2
    = offset + Z.of_nat (length (concat (faceslist ei st <$> filter alive cells))).
Proof.
  induction cells as [|c cells IH]; intros cf off cfo offs.
  - simpl. rewrite app_nil_r. split; [done | lia].
  - simpl. destruct (UGCell.deleted c) eqn:Hd.
    + rewrite filter_cons_False by (unfold alive; congruence). apply IH.
    + rewrite filter_cons_True by done.
      destruct (IH (cf +:+ Py.join " " (Py.str <$> faceslist ei st c) +:+ Py.nl)
                   (off + Z.of_nat (length (faceslist ei st c)))
                   (cfo +:+ Py.str (off + Z.of_nat (length (faceslist ei st c))) +:+ " ")
                   (offs ++ [off + Z.of_nat (length (faceslist ei st c))]))
        as [IH1 IH2].
      split.
      * etrans; [exact IH1|]. by rewrite <- app_assoc.
      * etrans; [exact IH2|]. rewrite fmap_cons, concat_cons, length_app. lia.
Qed.

Lemma cellfaceoffsets_cumulative (st : ug) :
  cellfaceoffsets_list ei st = cumulative_from 0 (cellfaces_rows ei st).
Proof.
  unfold cellfaceoffsets_list, cellfaces_rows.
  by destruct (cellfaces_foldl st (ugcells st) "" 0 "" []) as [-> _].
Qed.
End export_lists.

(** *** Export, then import *)

Section export_import.
Context (ei : Z → Z).

(** X5.  Reading the connectivity and offsets blocks the export
    writes for a store: the vertex list the import hands to
    [vtu_add_cell] for the cell [ci] is the list of export indices
    of the vertices of the [ci]-th cell that is not deleted. *)
Theorem import_reads_exported_connectivity
    (st : ug) (ci : nat) (c : UGCell.t)
    (celltypes cellfaces cellfaceoffsets : list Z) (st0 st1 : ug) (l : locals)
    (t conn_end : Z) (vilist polyfacelist : list Z) (o : Z) :
  filter alive (ugcells st) !! ci = Some c →
  cell_loop (concat (connectivity_rows ei st)) (offsets_list st)
    celltypes cellfaces cellfaceoffsets
    (Py.range (Z.of_nat ci)) locals_init st0 = (st1, Py.Ok l) →
  cell_inputs (concat (connectivity_rows ei st)) (offsets_list st)
    celltypes cellfaces cellfaceoffsets (Z.of_nat ci) l
  = Py.Ok (t, conn_end, vilist, polyfacelist, o) →
  vilist = ei <$> UGCell.ugverts c.
Proof.
  intros Hc Hpre Hin.
  pose proof (cell_inputs_Ok_offsets _ _ _ _ _ _ _ _ _ _ _ _ Hin) as Ho.
  rewrite (cell_inputs_vilist _ _ _ _ _ _ _ _ _ _ _ _ Hin).
  rewrite (cell_loop_conn_index _ _ _ _ _ _ _ _ _ Hpre).
  assert (connectivity_rows ei st !! ci = Some (connectivity_row ei c)) as Hrow.
  { unfold connectivity_rows. rewrite list_lookup_fmap.
    unfold alive in Hc. by rewrite Hc. }
  destruct (slice_row _ _ _ Hrow) as (ce & Hce & Hslice & _).
  rewrite (offsets_list_cumulative ei) in Ho |- *.
  by assert (ce = conn_end) as <- by congruence.
Qed.

Lemma last_polyhedron_offset_all (celltypes cellfaceoffsets : list Z) (ci : nat) :
  (∀ k, (k < ci)%nat → celltypes !! k = Some 42) →
  last_polyhedron_offset celltypes cellfaceoffsets ci
  = previous_offset cellfaceoffsets ci.
Proof.
  destruct ci as [|k]; intros Hall; [done|]. simpl.
  by rewrite decide_True by (apply Hall; lia).
Qed.

Lemma get_polyhedron_fis_next_count (fs : list (list Z)) (k : nat) :
  k ≠ 0%nat →
  get_polyhedron_fis (Z.of_nat (length fs) :: encode_faces fs ++ [Z.of_nat k])
  = Py.Ok fs.
Proof.
  intros Hk. unfold get_polyhedron_fis. simpl.
  rewrite decode_faces_incomplete by (simpl; lia).
  by rewrite decide_False by lia.
Qed.

(** The slice the import takes for the [ci]-th cell out of the
    faces block, one number beyond the cell's own row, decodes to
    the faces of that cell. *)
Lemma exported_faces_slice (st : ug) (ci : nat) (c : UGCell.t) (o : Z) :
  filter alive (ugcells st) !! ci = Some c →
  Forall (λ ugf, is_Some (ugfaces st !! ugf)) (UGCell.ugfaces c) →
  (∀ c', filter alive (ugcells st) !! S ci = Some c' → UGCell.ugfaces c' ≠ []) →
  cellfaceoffsets_list ei st !! ci = Some o →
  get_polyhedron_fis
    (Py.slice (concat (cellfaces_rows ei st))
              (previous_offset (cellfaceoffsets_list ei st) ci) (o + 1))
  = Py.Ok ((λ f, ei <$> UGFace.ugverts f) <$> cell_faces st c).
Proof.
  intros Hc Hwf Hnext Ho.
  assert (cellfaces_rows ei st !! ci = Some (faceslist ei st c)) as Hrow.
  { unfold cellfaces_rows. rewrite list_lookup_fmap.
    unfold alive in Hc. by rewrite Hc. }
  destruct (slice_row _ _ _ Hrow) as (ce & Hce & _ & Hslice).
  rewrite (cellfaceoffsets_cumulative ei) in Ho |- *.
  assert (ce = o) as -> by congruence.
  rewrite Hslice, faceslist_encode.
  assert (Z.of_nat (length (UGCell.ugfaces c))
          = Z.of_nat (length ((λ f, ei <$> UGFace.ugverts f) <$> cell_faces st c)))
    as ->.
  { by rewrite length_fmap, (cell_faces_fmap _ _ Hwf). }
  destruct (cellfaces_rows ei st !! S ci) as [row'|] eqn:Hrow'.
  - rewrite (drop_S _ _ _ Hrow'), concat_cons.
    revert Hrow'. unfold cellfaces_rows. rewrite list_lookup_fmap.
    fold alive.
    destruct (filter alive (ugcells st) !! S ci) as [c'|] eqn:Hc'; [|done].
    simpl. intros [= <-]. unfold faceslist at 1. simpl.
    rewrite take_0.
    apply (get_polyhedron_fis_next_count _ (length (UGCell.ugfaces c'))).
    specialize (Hnext c' eq_refl). by destruct (UGCell.ugfaces c').
  - rewrite drop_ge by (by apply lookup_ge_None_1). simpl. rewrite app_nil_r.
    unfold get_polyhedron_fis. simpl. rewrite decode_faces_encode.
    by rewrite decide_False by lia.
Qed.

(** X6.  Reading the faces and faceoffsets blocks the export writes
    for a store (all cells are written as polyhedra): for the
    [ci]-th cell that is not deleted the import decodes the faces
    of that cell, each as the export indices of its vertices,
    provided the cell written after it, if any, has a face. *)
Theorem import_reads_exported_faces
    (st : ug) (ci : nat) (c : UGCell.t)
    (connectivities offsets : list Z) (st0 st1 : ug) (l : locals)
    (t conn_end : Z) (vilist polyfacelist : list Z) (o : Z) :
  filter alive (ugcells st) !! ci = Some c →
  Forall (λ ugf, is_Some (ugfaces st !! ugf)) (UGCell.ugfaces c) →
  (∀ c', filter alive (ugcells st) !! S ci = Some c' → UGCell.ugfaces c' ≠ []) →
  cell_loop connectivities offsets (types_offsets_lists (ugcells st)).1.1.1
    (concat (cellfaces_rows ei st)) (cellfaceoffsets_list ei st)
    (Py.range (Z.of_nat ci)) locals_init st0 = (st1, Py.Ok l) →
  cell_inputs connectivities offsets (types_offsets_lists (ugcells st)).1.1.1
    (concat (cellfaces_rows ei st)) (cellfaceoffsets_list ei st) (Z.of_nat ci) l
  = Py.Ok (t, conn_end, vilist, polyfacelist, o) →
  t = 42 ∧
  get_polyhedron_fis polyfacelist
  = Py.Ok ((λ f, ei <$> UGFace.ugverts f) <$> cell_faces st c).
Proof.
  intros Hc Hwf Hnext Hpre Hin.
  pose proof (lookup_lt_Some _ _ _ Hc) as Hci.
  assert (∀ k, (k < length (filter alive (ugcells st)))%nat →
               (types_offsets_lists (ugcells st)).1.1.1 !! k = Some 42) as Htypes.
  { intros k Hk. rewrite (typeslist_replicate ei). by apply lookup_replicate_2. }
  pose proof (cell_inputs_Ok _ _ _ _ _ _ _ _ _ _ _ _ Hin) as [Ht Hcase].
  rewrite (Htypes ci Hci) in Ht. injection Ht as <-.
  destruct Hcase as [[_ Ho]|[Hne _]]; [|done].
  pose proof (cell_inputs_Ok_offsets _ _ _ _ _ _ _ _ _ _ _ _ Hin) as Hoff.
  rewrite (cell_inputs_polyhedron _ _ _ _ _ _ _ _ _ (Htypes ci Hci) Hoff Ho) in Hin.
  injection Hin as _ <-.
  split; [done|].
  rewrite (cell_loop_offset_index _ _ _ _ _ _ _ _ _ Hpre).
  rewrite last_polyhedron_offset_all by (intros k Hk; apply Htypes; lia).
  by apply exported_faces_slice.
Qed.
End export_import.

(** Two tetrahedra sharing a face, as the import builds them. *)
Definition two_tetrahedra : ug :=
  (vtu_datalists_to_ugdata [0; 1; 2; 3; 0; 2; 1; 4] [4; 8] [10; 10] [] [] ug_empty).1.

(** The second tetrahedron, read back as a tetrahedron. *)
Lemma import_reads_exported_connectivity_witness :
  [0; 2; 1; 4]
  = (λ v, v) <$> UGCell.ugverts (UGCell.mk [0; 4; 5; 6]%nat [0; 2; 1; 4] false).
Proof.
  destruct (cell_loop (concat (connectivity_rows (λ v, v) two_tetrahedra))
              (offsets_list two_tetrahedra) [10; 10] [] []
              (Py.range (Z.of_nat 1)) locals_init ug_empty)
    as [st1 [l1|e]] eqn:Hpre.
  - assert (conn_index l1 = 4 ∧ offset_index l1 = 0) as [Hc Ho].
    { vm_compute in Hpre. injection Hpre as _ <-. done. }
    apply (import_reads_exported_connectivity (λ v, v) two_tetrahedra 1
             (UGCell.mk [0; 4; 5; 6]%nat [0; 2; 1; 4] false)
             [10; 10] [] [] ug_empty st1 l1 10 8 [0; 2; 1; 4] [] 0).
    + reflexivity.
    + exact Hpre.
    + unfold cell_inputs. simpl. rewrite Hc, Ho. reflexivity.
  - exfalso. vm_compute in Hpre. discriminate Hpre.
Defined.

(** The first tetrahedron, read back as a polyhedron; the second
    one written after it has four faces. *)
Lemma import_reads_exported_faces_witness :
  42 = 42 ∧
  get_polyhedron_fis [4; 3; 0; 2; 1; 3; 0; 1; 3; 3; 1; 2; 3; 3; 0; 3; 2; 4]
  = Py.Ok ((λ f, (λ v, v) <$> UGFace.ugverts f)
             <$> cell_faces two_tetrahedra
                   (UGCell.mk [0; 1; 2; 3]%nat [0; 2; 1; 3] false)).
Proof.
  apply (import_reads_exported_faces (λ v, v) two_tetrahedra 0
           (UGCell.mk [0; 1; 2; 3]%nat [0; 2; 1; 3] false)
           [0; 2; 1; 3; 0; 2; 1; 4] [4; 8] ug_empty ug_empty locals_init
           42 4 [0; 2; 1; 3]
           [4; 3; 0; 2; 1; 3; 0; 1; 3; 3; 1; 2; 3; 3; 0; 3; 2; 4] 17).
  - reflexivity.
  - repeat constructor; by eexists.
  - intros c'. vm_compute. by intros [= <-].
  - reflexivity.
  - reflexivity.
Defined.

End offsets_codec.


(** ** Cells of a fixed archetype *)

Module archetypes.
Import io_vtu dedup vtu_import.

(** The number of vertices the templates of an archetype refer to. *)
Definition archetype_size (vtk_cell_type : Z) : option nat :=
  match vtk_cell_type with
  | 10 => Some 4%nat
  | 12 => Some 8%nat
  | 13 => Some 6%nat
  | 14 => Some 5%nat
  | 15 => Some 10%nat
  | 16 => Some 12%nat
  | _ => None
  end.

Lemma getitem_cases {A} (l : list A) (i : Z) :
  (0 ≤ i < Z.of_nat (length l) ∧ ∃ x, Py.getitem l i = Py.Ok x) ∨
  (Z.of_nat (length l) ≤ i ∧ Py.getitem l i = Py.Raise Py.IndexError) ∨
  i < 0.
Proof.
  destruct (decide (i < 0)); [by right; right|].
  destruct (decide (i < Z.of_nat (length l))).
  - left. split; [lia|].
    destruct (lookup_lt_is_Some_2 l (Z.to_nat i)) as [x Hx]; [lia|].
    exists x. rewrite <- (Z2Nat.id i) by lia. by apply getitem_lookup.
  - right. left. split; [lia|]. unfold Py.getitem, Py.position.
    rewrite (decide_False (P := i < 0)) by done. by rewrite decide_False by lia.
Qed.

(** A template resolves when all its indices are within the vertex
    list, and raises [IndexError] when one is beyond it. *)
Lemma index_all_Ok (vilist t : list Z) :
  Forall (λ v, 0 ≤ v < Z.of_nat (length vilist)) t →
  ∃ real, index_all vilist t = Py.Ok real.
Proof.
  induction 1 as [|v t Hv _ [real IH]]; [by eexists|]. simpl.
  destruct (getitem_cases vilist v) as [[_ [x ->]]|[[? _]|?]]; [|lia..].
  rewrite IH. by eexists.
Qed.

Lemma index_all_Raise (vilist t : list Z) :
  Forall (λ v, 0 ≤ v) t →
  Exists (λ v, Z.of_nat (length vilist) ≤ v) t →
  index_all vilist t = Py.Raise Py.IndexError.
Proof.
  induction 1 as [|v t Hv Ht IH]; intros Hex; [by apply Exists_nil in Hex|].
  simpl.
  destruct (getitem_cases vilist v) as [[Hin [x ->]]|[[_ ->]|?]]; [|done|lia].
  apply Exists_cons in Hex as [?|Hex]; [lia|]. by rewrite IH.
Qed.

(** [add_cell_faces] raises [IndexError] when a template refers to a
    vertex the cell does not have. *)
Lemma add_cell_faces_Raise c fis vilist :
  Forall (Forall (λ v, 0 ≤ v)) fis →
  Exists (Exists (λ v, Z.of_nat (length vilist) ≤ v)) fis →
  ∀ fm st, ∃ st', add_cell_faces c fis vilist fm false st = (st', Py.Raise Py.IndexError).
Proof.
  induction 1 as [|t fis Ht _ IH]; intros Hex fm st; [by apply Exists_nil in Hex|].
  simpl. unfold mbind, M_bind, Py.bind.
  destruct (decide (Exists (λ v, Z.of_nat (length vilist) ≤ v) t)) as [Hbad|Hgood].
  - unfold add_cell_face, mbind, M_bind, Py.bind, Py.lift, real_vilist.
    rewrite (index_all_Raise _ _ Ht Hbad). by eexists.
  - apply Exists_cons in Hex as [?|Hex]; [done|].
    destruct (index_all_Ok vilist t) as [real Hreal].
    { apply Forall_forall. intros v Hv. rewrite Forall_forall in Ht.
      split; [by apply Ht|].
      destruct (decide (v < Z.of_nat (length vilist))); [done|].
      exfalso. apply Hgood, Exists_exists. exists v. split; [done | lia]. }
    rewrite (add_cell_face_run c t vilist fm false st real Hreal).
    apply (IH Hex).
Qed.

Lemma archetype_templates t fis n :
  archetype_fis t = Some fis → archetype_size t = Some n →
  Forall (Forall (λ v, 0 ≤ v < Z.of_nat n)) fis ∧
  Exists (Exists (λ v, v = Z.of_nat n - 1)) fis.
Proof.
  unfold archetype_fis, archetype_size. intros Hfis Hn.
  repeat case_match; simplify_eq; (split; [repeat constructor; lia|]).
  all: repeat first
         [ apply Exists_cons_hd;
           solve [ repeat first [ apply Exists_cons_hd; reflexivity
                                | apply Exists_cons_tl ] ]
         | apply Exists_cons_tl ].
Qed.

(** The faces the cell [c] lists grow by one for every template. *)
Lemma link_faces_face_count c reals :
  ∀ st fm x,
    ugcells st !! c = Some x →
    ∃ x', ugcells (link_faces c reals st fm).1 !! c = Some x' ∧
          length (UGCell.ugfaces x')
          = (length (UGCell.ugfaces x) + length reals)%nat.
Proof.
  induction reals as [|real reals IH]; intros st fm x Hx.
  - exists x. split; [done | simpl; lia].
  - simpl.
    assert (∃ x1, ugcells (link_face c real st fm).1 !! c = Some x1 ∧
                  length (UGCell.ugfaces x1) = S (length (UGCell.ugfaces x)))
      as (x1 & Hx1 & Hlen1).
    { assert (∀ ugf st0, ugcells st0 !! c = Some x →
                ∃ x1, ugcells (attach c ugf st0) !! c = Some x1 ∧
                      length (UGCell.ugfaces x1) = S (length (UGCell.ugfaces x)))
        as Hatt.
      { intros ugf st0 Hx0. rewrite attach_ugcells, list_lookup_alter_eq, Hx0.
        eexists. split; [done|]. simpl. rewrite length_app. simpl. lia. }
      unfold link_face. destruct (fm !! get_vert_string real); cbn [fst];
        apply Hatt; exact Hx. }
    destruct (IH _ (link_face c real st fm).2 _ Hx1) as (x' & Hx' & Hlen').
    exists x'. split; [done | lia].
Qed.

(** X7.  A cell of a fixed archetype is added exactly when the
    vertex list has at least as many entries as the archetype has
    vertices (further entries are ignored): the new cell then lists
    one face per template.  With fewer entries [vtu_add_cell] raises
    [IndexError]. *)
Theorem vtu_add_cell_archetype_bounds
    (t : Z) (fis : list (list Z)) (n : nat) (vilist : list Z)
    (fm : gmap string nat) (polyfacelist : list Z) (st : ug) :
  archetype_fis t = Some fis →
  archetype_size t = Some n →
  ((n ≤ length vilist)%nat →
   ∃ st' fm' c,
     vtu_add_cell t vilist fm polyfacelist st = (st', Py.Ok fm') ∧
     ugcells st' !! length (ugcells st) = Some c ∧
     length (UGCell.ugfaces c) = length fis) ∧
  ((length vilist < n)%nat →
   ∃ st', vtu_add_cell t vilist fm polyfacelist st = (st', Py.Raise Py.IndexError)).
Proof.
  intros Hfis Hn. destruct (archetype_templates _ _ _ Hfis Hn) as [Hall Hex].
  rewrite (vtu_add_cell_archetype _ _ _ _ _ _ Hfis). split.
  - intros Hlen.
    destruct (resolved_exists false vilist fis) as [reals Hres].
    { eapply Forall_impl; [exact Hall|]. intros t' Ht'. simpl.
      apply index_all_Ok. eapply Forall_impl; [exact Ht'|]. simpl. lia. }
    rewrite (add_cell_faces_run _ _ _ _ _ Hres).
    destruct (link_faces_face_count (length (ugcells st)) reals (with_new_cell st) fm
                (UGCell.mk [] [] false)) as (x' & Hx' & Hlen').
    { apply lookup_app_last. }
    eexists _, _, x'. split_and!; [done|done|].
    rewrite Hlen'. simpl. symmetry. by eapply Forall2_length.
  - intros Hlen. apply add_cell_faces_Raise.
    + eapply Forall_impl; [exact Hall|]. intros t' Ht'. simpl.
      eapply Forall_impl; [exact Ht'|]. simpl. lia.
    + eapply Exists_impl; [exact Hex|]. intros t' Ht'. simpl.
      eapply Exists_impl; [exact Ht'|]. simpl. lia.
Qed.

(** A tetrahedron with a fifth, unused entry, and one with three. *)
Lemma vtu_add_cell_archetype_bounds_witness :
  (∃ st' fm' c,
     vtu_add_cell 10 [0; 1; 2; 3; 9] ∅ [] ug_empty = (st', Py.Ok fm') ∧
     ugcells st' !! length (ugcells ug_empty) = Some c ∧
     length (UGCell.ugfaces c) = length fis_tetra) ∧
  (∃ st', vtu_add_cell 10 [0; 1; 2] ∅ [] ug_empty = (st', Py.Raise Py.IndexError)).
Proof.
  split.
  - apply (proj1 (vtu_add_cell_archetype_bounds 10 fis_tetra 4 [0; 1; 2; 3; 9] ∅ []
                    ug_empty eq_refl eq_refl)). simpl. lia.
  - apply (proj2 (vtu_add_cell_archetype_bounds 10 fis_tetra 4 [0; 1; 2] ∅ []
                    ug_empty eq_refl eq_refl)). simpl. lia.
Defined.

End archetypes.


(** ** What every import leaves behind *)

Module import_invariants.
Import io_vtu dedup vtu_import.

(** Every face has an owner cell that lists it, and a neighbour, if
    it has one, that lists it too. *)
Definition faces_linked (st : ug) : Prop :=
  ∀ ugf f, ugfaces st !! ugf = Some f →
    (∃ c x, UGFace.owner f = Some c ∧ ugcells st !! c = Some x ∧
            ugf ∈ UGCell.ugfaces x) ∧
    (∀ c', UGFace.neighbour f = Some c' →
           ∃ x', ugcells st !! c' = Some x' ∧ ugf ∈ UGCell.ugfaces x').

(** No two face records have vertex lists that are permutations of
    one another: the same vertices, each as many times. *)
Definition faces_distinct (st : ug) : Prop :=
  ∀ i j fi fj, ugfaces st !! i = Some fi → ugfaces st !! j = Some fj →
               UGFace.ugverts fi ≡ₚ UGFace.ugverts fj → i = j.

Lemma facemap_inv_distinct st fm :
  facemap_inv (ugfaces st) fm → faces_distinct st.
Proof.
  intros [_ Hst] i j fi fj Hi Hj Hp.
  apply Hst in Hi, Hj. rewrite (get_vert_string_perm _ _ Hp) in Hi. congruence.
Qed.

Lemma link_face_linked c real st fm :
  (c < length (ugcells st))%nat →
  faces_linked st → faces_linked (link_face c real st fm).1.
Proof.
  intros Hc Hlinked ugf f.
  destruct (lookup_lt_is_Some_2 _ _ Hc) as [xc Hxc].
  destruct (link_face_ugcells c real st fm) as (ugf0 & Hk0 & Hkept & Hatt).
  destruct (Hatt _ Hxc) as (xc' & Hxc' & Hin0).
  assert (∀ g, ugfaces st !! ugf = Some g →
            (∃ c1 x, UGFace.owner g = Some c1 ∧
                     ugcells (link_face c real st fm).1 !! c1 = Some x ∧
                     ugf ∈ UGCell.ugfaces x) ∧
            (∀ c', UGFace.neighbour g = Some c' →
                   ∃ x', ugcells (link_face c real st fm).1 !! c' = Some x' ∧
                         ugf ∈ UGCell.ugfaces x')) as Hold.
  { intros g Hg. destruct (Hlinked _ _ Hg) as [(c1 & x & Ho & Hx & Hin) Hnb]. split.
    - destruct (Hkept _ _ Hx) as (x' & Hx' & Hsub).
      exists c1, x'. split_and!; [done|done|by apply Hsub].
    - intros c' Hn. destruct (Hnb _ Hn) as (y & Hy & Hin').
      destruct (Hkept _ _ Hy) as (y' & Hy' & Hsub).
      exists y'. split; [done | by apply Hsub]. }
  revert Hk0. rewrite link_face_ugfaces, link_face_facemap.
  destruct (fm !! get_vert_string real) as [ugf1|] eqn:Hk.
  - intros Hk0. assert (ugf1 = ugf0) as -> by congruence.
    destruct (decide (ugf0 = ugf)) as [->|Hne].
    + rewrite list_lookup_alter_eq.
      destruct (ugfaces st !! ugf) as [g|] eqn:Hg; [|done].
      simpl. intros [= <-]. destruct (Hold g eq_refl) as [Hown _].
      split; [exact Hown|]. simpl. intros c' [= <-]. by exists xc'.
    + rewrite list_lookup_alter_ne by done. apply Hold.
  - rewrite lookup_insert_eq. intros [= <-].
    rewrite lookup_app_Some. intros [Hg|[Hle Hg]]; [by apply Hold|].
    apply list_lookup_singleton_Some in Hg as [Hi <-]. simpl.
    assert (ugf = length (ugfaces st)) as -> by lia.
    split; [by exists c, xc' | done].
Qed.

Lemma link_face_cells_length c real st fm :
  length (ugcells (link_face c real st fm).1) = length (ugcells st).
Proof. apply (link_faces_ugcells_length c [real]). Qed.

Lemma link_faces_linked c reals :
  ∀ st fm, (c < length (ugcells st))%nat →
    faces_linked st → faces_linked (link_faces c reals st fm).1.
Proof.
  induction reals as [|real reals IH]; intros st fm Hc Hl; [done|].
  simpl. apply IH; [by rewrite link_face_cells_length | by apply link_face_linked].
Qed.

Lemma with_new_cell_linked st : faces_linked st → faces_linked (with_new_cell st).
Proof.
  intros Hl ugf f Hf. destruct (Hl _ _ Hf) as [(c & x & Ho & Hx & Hin) Hnb]. split.
  - exists c, x. split_and!; [done| |done]. simpl. by apply lookup_app_l_Some.
  - intros c' Hn. destruct (Hnb _ Hn) as (x' & Hx' & Hin').
    exists x'. split; [|done]. simpl. by apply lookup_app_l_Some.
Qed.

(** The store [add_cell_faces] leaves, whether it returns or raises:
    some of the templates, from the first on, have been linked. *)
Lemma add_cell_faces_store c fis vilist b :
  ∀ fm st st' r,
    add_cell_faces c fis vilist fm b st = (st', r) →
    ∃ reals, st' = (link_faces c reals st fm).1 ∧
             ∀ fm', r = Py.Ok fm' → fm' = (link_faces c reals st fm).2.
Proof.
  induction fis as [|t fis IH]; intros fm st st' r.
  - intros [= <- <-]. exists []. split; [done|]. by intros fm' [= <-].
  - simpl. unfold mbind, M_bind, Py.bind.
    destruct (real_vilist b vilist t) as [real|e] eqn:Hr.
    + rewrite (add_cell_face_run _ _ _ _ _ _ _ Hr). intros Hrun.
      destruct (IH _ _ _ _ Hrun) as (reals & -> & Hfm).
      by exists (real :: reals).
    + unfold add_cell_face, mbind, M_bind, Py.bind, Py.lift. rewrite Hr.
      intros [= <- <-]. exists []. by split.
Qed.

Lemma vtu_add_cell_store t vilist fm pfl st st' r :
  vtu_add_cell t vilist fm pfl st = (st', r) →
  ∃ reals,
    st' = (link_faces (length (ugcells st)) reals (with_new_cell st) fm).1 ∧
    ∀ fm', r = Py.Ok fm' →
           fm' = (link_faces (length (ugcells st)) reals (with_new_cell st) fm).2.
Proof.
  unfold vtu_add_cell, mbind, M_bind, Py.bind, UGCell_new.
  fold (with_new_cell st).
  destruct (archetype_fis t) as [fis|].
  - apply add_cell_faces_store.
  - case_decide.
    + unfold Py.lift. destruct (get_polyhedron_fis pfl) as [fis|e].
      * apply add_cell_faces_store.
      * intros [= <- <-]. exists []. by split.
    + intros [= <- <-]. exists []. by split.
Qed.

(** The invariant of the loop over the cells. *)
Definition import_inv (st : ug) (fm : gmap string nat) : Prop :=
  facemap_inv (ugfaces st) fm ∧ faces_linked st.

Lemma vtu_add_cell_inv t vilist fm pfl st st' r :
  vtu_add_cell t vilist fm pfl st = (st', r) →
  import_inv st fm →
  (∃ fm', import_inv st' fm') ∧ (∀ fm', r = Py.Ok fm' → import_inv st' fm').
Proof.
  intros Hrun [Hinv Hl].
  destruct (vtu_add_cell_store _ _ _ _ _ _ _ Hrun) as (reals & -> & Hfm).
  assert (import_inv (link_faces (length (ugcells st)) reals (with_new_cell st) fm).1
            (link_faces (length (ugcells st)) reals (with_new_cell st) fm).2) as Hinv'.
  { split.
    - by apply link_faces_inv.
    - apply link_faces_linked; [|by apply with_new_cell_linked].
      simpl. rewrite length_app. simpl. lia. }
  split; [by eexists|]. intros fm' Hr. by rewrite (Hfm _ Hr).
Qed.

Section loop.
Context (connectivities offsets celltypes cellfaces cellfaceoffsets : list Z).

Local Abbreviation cell_step :=
  (cell_step connectivities offsets celltypes cellfaces cellfaceoffsets).
Local Abbreviation cell_loop :=
  (cell_loop connectivities offsets celltypes cellfaces cellfaceoffsets).

Lemma cell_step_inv ci l st st' r :
  cell_step ci l st = (st', r) →
  import_inv st (facemap l) →
  (∃ fm', import_inv st' fm') ∧ (∀ l', r = Py.Ok l' → import_inv st' (facemap l')).
Proof.
  unfold io_vtu.cell_step, mbind, M_bind, Py.bind, Py.lift.
  destruct (io_vtu.cell_inputs _ _ _ _ _ ci l)
    as [[[[[t ce] vi] pfl] o]|e]; intros Hrun Hinv.
  - destruct (vtu_add_cell t vi (facemap l) pfl st) as [st1 [fm1|e]] eqn:Hadd;
      destruct (vtu_add_cell_inv _ _ _ _ _ _ _ Hadd Hinv) as [Hex Hok];
      injection Hrun as <- <-.
    + split; [done|]. intros l' [= <-]. by apply Hok.
    + by split.
  - injection Hrun as <- <-. split; [by eexists | done].
Qed.

Lemma cell_loop_inv cis :
  ∀ l st st' r,
    cell_loop cis l st = (st', r) →
    import_inv st (facemap l) →
    (∃ fm', import_inv st' fm') ∧ (∀ l', r = Py.Ok l' → import_inv st' (facemap l')).
Proof.
  induction cis as [|ci cis IH]; intros l st st' r.
  - intros [= <- <-] Hinv. split; [by eexists|]. by intros l' [= <-].
  - simpl. unfold mbind, M_bind, Py.bind.
    destruct (cell_step ci l st) as [st1 [l1|e]] eqn:Hstep; intros Hrun Hinv;
      destruct (cell_step_inv _ _ _ _ _ Hstep Hinv) as [Hex Hok].
    + eapply IH; [exact Hrun | by apply Hok].
    + injection Hrun as <- <-. by split.
Qed.

(** X8.  Whatever the data lists are and whether the import
    returns or raises, an import into a store without faces leaves
    a store in which no two face records have vertex lists that are
    permutations of one another (the same vertices, each as many
    times), every face has an owner cell that lists it, and the
    neighbour of a face, if set, lists it too. *)
Theorem import_keeps_faces_linked (st0 : ug) :
  ugfaces st0 = [] →
  faces_distinct
    (vtu_datalists_to_ugdata connectivities offsets celltypes cellfaces
       cellfaceoffsets st0).1 ∧
  faces_linked
    (vtu_datalists_to_ugdata connectivities offsets celltypes cellfaces
       cellfaceoffsets st0).1.
Proof.
  intros Hnil.
  assert (import_inv st0 (facemap locals_init)) as Hinv0.
  { split.
    - rewrite Hnil. apply facemap_inv_empty.
    - intros ugf f Hf. by rewrite Hnil in Hf. }
  unfold vtu_datalists_to_ugdata, mbind, M_bind, Py.bind.
  destruct (cell_loop (Py.range (Z.of_nat (length celltypes))) locals_init st0)
    as [st1 [l1|e]] eqn:Hrun;
    destruct (cell_loop_inv _ _ _ _ _ Hrun Hinv0) as [[fm' [Hfm Hl]] _]; simpl.
  - split; [by eapply facemap_inv_distinct | done].
  - split; [by eapply facemap_inv_distinct | done].
Qed.
End loop.

(** The import of three tetrahedra on one triangle. *)
Lemma import_keeps_faces_linked_witness :
  faces_distinct
    (vtu_datalists_to_ugdata [0; 1; 2; 3; 0; 2; 1; 4; 0; 1; 2; 5] [4; 8; 12]
       [10; 10; 10] [] [] ug_empty).1 ∧
  faces_linked
    (vtu_datalists_to_ugdata [0; 1; 2; 3; 0; 2; 1; 4; 0; 1; 2; 5] [4; 8; 12]
       [10; 10; 10] [] [] ug_empty).1.
Proof.
  apply (import_keeps_faces_linked [0; 1; 2; 3; 0; 2; 1; 4; 0; 1; 2; 5] [4; 8; 12]
           [10; 10; 10] [] [] ug_empty).
  reflexivity.
Defined.

End import_invariants.


(** ** The counts and offsets of the VTU export *)

Module export_counts.
Import io_vtu io_vtu_export offsets_codec.

Lemma cumulative_from_length {A} (rows : list (list A)) :
  ∀ acc, length (cumulative_from acc rows) = length rows.
Proof. induction rows as [|r rows IH]; intros acc; simpl; [done | by rewrite IH]. Qed.

Lemma getitem_last_cumulative {A} (rows : list (list A)) (acc : Z) :
  rows ≠ [] →
  Py.getitem (cumulative_from acc rows) (-1)
  = Py.Ok (acc + Z.of_nat (length (concat rows))).
Proof.
  intros Hne.
  assert (0 < length rows)%nat as Hlen by (destruct rows; [done | simpl; lia]).
  destruct (lookup_lt_is_Some_2 rows (length rows - 1)) as [row Hrow]; [lia|].
  pose proof (cumulative_from_lookup rows acc _ _ Hrow) as Hlast.
  replace (S (length rows - 1)) with (length rows) in Hlast by lia.
  rewrite firstn_all in Hlast.
  unfold Py.getitem, Py.position. rewrite cumulative_from_length.
  rewrite (decide_True (P := -1 < 0)) by lia.
  rewrite decide_True by lia.
  replace (Z.to_nat (-1 + Z.of_nat (length rows))) with (length rows - 1)%nat by lia.
  by rewrite Hlast.
Qed.

Lemma filter_alive_nonempty (cells : list UGCell.t) :
  Exists (λ c, UGCell.deleted c = false) cells → filter alive cells ≠ [].
Proof.
  intros (c & Hin & Hc)%Exists_exists Hnil.
  assert (c ∈ filter alive cells) as Hc' by (by apply list_elem_of_filter).
  rewrite Hnil in Hc'. by apply elem_of_nil in Hc'.
Qed.

(** X9.  When some cell is not deleted, [generate_types_offsets_text]
    returns, leaves the store as it is, and: the types text is one
    [42] per cell that is not deleted, the offsets are the running
    totals of the lengths of the connectivity lines, the maximum it
    returns is the number of entries of the whole connectivity block
    and the cell count is the number of its lines. *)
Theorem types_offsets_match_connectivity (ei : Z → Z) (st : ug) :
  Exists (λ c, UGCell.deleted c = false) (ugcells st) →
  generate_types_offsets_text st
  = (st, Py.Ok
      (Py.join " " (replicate (length (connectivity_rows ei st)) "42") +:+ Py.nl,
       Py.join " " (Py.str <$> cumulative_from 0 (connectivity_rows ei st)) +:+ Py.nl,
       Z.of_nat (length (concat (connectivity_rows ei st))),
       Z.of_nat (length (connectivity_rows ei st)))).
Proof.
  intros Hex%filter_alive_nonempty.
  unfold generate_types_offsets_text, types_offsets_lists, connectivity_rows.
  unfold mbind, M_bind, Py.bind, Py.get, Py.lift.
  rewrite (types_offsets_foldl ei). fold alive. cbv beta iota.
  rewrite !app_nil_l, !Z.add_0_l, length_fmap.
  rewrite getitem_last_cumulative by (by destruct (filter alive (ugcells st))).
  rewrite fmap_replicate. done.
Qed.

(** Two cells, the first deleted. *)
Lemma types_offsets_match_connectivity_witness :
  generate_types_offsets_text
    (mk_ug [] [UGCell.mk [] [0; 1; 2; 3] true; UGCell.mk [] [4; 5; 6; 7; 8] false])
  = (mk_ug [] [UGCell.mk [] [0; 1; 2; 3] true; UGCell.mk [] [4; 5; 6; 7; 8] false],
     Py.Ok ("42" +:+ Py.nl, "5" +:+ Py.nl, 5, 1)).
Proof.
  apply (types_offsets_match_connectivity (λ i, i)
           (mk_ug [] [UGCell.mk [] [0; 1; 2; 3] true;
                      UGCell.mk [] [4; 5; 6; 7; 8] false])).
  apply Exists_cons_tl, Exists_cons_hd. reflexivity.
Defined.

Section cellfaces.
Context (ei : Z → Z).

(** The text of a block of lines of numbers, and of a line of
    offsets. *)
Definition rows_text (acc : string) (rows : list (list Z)) : string :=
  foldl (λ t row, t +:+ Py.join " " (Py.str <$> row) +:+ Py.nl) acc rows.
Definition offsets_text (acc : string) (offsets : list Z) : string :=
  foldl (λ t o, t +:+ Py.str o +:+ " ") acc offsets.

Lemma cellfaces_foldl_text (st : ug) (cells : list UGCell.t) :
  ∀ cellfaces offset cellfaceoffsets offsets,
    foldl (cellfaces_step ei st) (cellfaces, offset, cellfaceoffsets, offsets) cells
    = (rows_text cellfaces (faceslist ei st <$> filter alive cells),
       offset + Z.of_nat (length (concat (faceslist ei st <$> filter alive cells))),
       offsets_text cellfaceoffsets
         (cumulative_from offset (faceslist ei st <$> filter alive cells)),
       offsets ++ cumulative_from offset (faceslist ei st <$> filter alive cells)).
Proof.
  induction cells as [|c cells IH]; intros cf off cfo offs.
  - simpl. rewrite app_nil_r. do 3 f_equal. lia.
  - cbn [foldl]. destruct (UGCell.deleted c) eqn:Hd.
    + assert (cellfaces_step ei st (cf, off, cfo, offs) c = (cf, off, cfo, offs))
        as -> by (unfold cellfaces_step; by rewrite Hd).
      rewrite filter_cons_False by (unfold alive; congruence). apply IH.
    + assert (cellfaces_step ei st (cf, off, cfo, offs) c
              = (cf +:+ Py.join " " (Py.str <$> faceslist ei st c) +:+ Py.nl,
                 off + Z.of_nat (length (faceslist ei st c)),
                 cfo +:+ Py.str (off + Z.of_nat (length (faceslist ei st c))) +:+ " ",
                 offs ++ [off + Z.of_nat (length (faceslist ei st c))]))
        as -> by (unfold cellfaces_step; by rewrite Hd).
      rewrite filter_cons_True by done. rewrite IH, fmap_cons.
      cbn [cumulative_from]. unfold rows_text, offsets_text. cbn [foldl].
      rewrite concat_cons, length_app, <- app_assoc.
      do 3 f_equal. lia.
Qed.

(** X10.  [generate_cellfaces_text] writes one line per cell that is
    not deleted; the offsets it writes are the running totals of
    the numbers on these lines, and the maximum it returns is the
    number of entries of the whole faces block. *)
Theorem generate_cellfaces_text_offsets (st : ug) :
  generate_cellfaces_text ei st
  = (rows_text "" (cellfaces_rows ei st),
     Z.of_nat (length (concat (cellfaces_rows ei st))),
     offsets_text "" (cumulative_from 0 (cellfaces_rows ei st)) +:+ Py.nl).
Proof.
  unfold generate_cellfaces_text, cellfaces_rows. fold alive.
  rewrite cellfaces_foldl_text. cbv beta iota. by rewrite Z.add_0_l.
Qed.
End cellfaces.

End export_counts.


(** ** The numbering of the faces in the PolyMesh export *)

Module face_numbering.
Import io_polymesh.

(** The faces a pass of [face_pass] processes. *)
Definition selected (internal : bool) (f : UGFace.t) : bool :=
  negb (UGFace.deleted f)
  && (if internal then bool_decide (UGFace.neighbouri f ≠ -1)
      else bool_decide (UGFace.neighbouri f = -1)).

Definition chosen (internal : bool) (l : list UGFace.t) : list UGFace.t :=
  filter (λ f, selected internal f = true) l.

(** The number of faces of a pass stored before position [k]. *)
Definition rank (internal : bool) (l : list UGFace.t) (k : nat) : nat :=
  length (chosen internal (take k l)).

(** The numbers a pass that starts at [i] gives to the faces. *)
Fixpoint renumber (internal : bool) (i : Z) (l : list UGFace.t) : list UGFace.t :=
  match l with
  | [] => []
  | f :: l' =>
      if selected internal f then UGFace.set_facei i f :: renumber internal (i + 1) l'
      else f :: renumber internal i l'
  end.

(** The line of a face that has a vertex. *)
Definition face_line (f : UGFace.t) : string :=
  match gen_line (UGFace.verts f) with
  | Py.Ok s => s
  | Py.Raise _ => ""
  end.

Definition lines (internal : bool) (acc : string) (l : list UGFace.t) : string :=
  foldl (λ t f, t +:+ face_line f) acc (chosen internal l).

(** An index Python accepts for a sequence of length [n]. *)
Definition valid_index (n : nat) (i : Z) : Prop := - Z.of_nat n ≤ i < Z.of_nat n.

(** What a pass needs of a face it processes: a vertex, and for an
    internal face cells at its owner and neighbour index. *)
Definition exportable (ncells : nat) (internal : bool) (f : UGFace.t) : Prop :=
  selected internal f = true →
  UGFace.verts f ≠ [] ∧
  (internal = true →
   valid_index ncells (UGFace.owneri f) ∧ valid_index ncells (UGFace.neighbouri f)).

Lemma chosen_cons internal f l :
  chosen internal (f :: l)
  = if selected internal f then f :: chosen internal l else chosen internal l.
Proof.
  unfold chosen. destruct (selected internal f) eqn:Hs.
  - by rewrite filter_cons_True.
  - rewrite filter_cons_False; [done | congruence].
Qed.

Lemma position_valid n i :
  valid_index n i → ∃ k, Py.position n i = Py.Ok k ∧ (k < n)%nat.
Proof.
  unfold valid_index, Py.position. intros Hi. cbv zeta.
  destruct (decide (i < 0)).
  - rewrite decide_True by lia. eexists. split; [done | lia].
  - rewrite decide_True by lia. eexists. split; [done | lia].
Qed.

Lemma number_cell_run ci p st :
  valid_index (length (ugcells st)) ci →
  ∃ cells' p',
    number_cell ci p st = (with_cells (λ _, cells') st, Py.Ok p') ∧
    length cells' = length (ugcells st) ∧
    text p' = text p ∧ next_facei p' = next_facei p.
Proof.
  intros (k & Hk & Hlt)%position_valid.
  destruct (lookup_lt_is_Some_2 _ _ Hlt) as [c Hc].
  unfold number_cell, mbind, M_bind, Py.bind, Py.get, Py.lift, Py.getitem.
  rewrite Hk, Hc. case_decide.
  - unfold update_cell, Py.setitem_with. rewrite Hk.
    eexists _, _. split; [done|]. by rewrite length_alter.
  - exists (ugcells st), p. split; [by destruct st | done].
Qed.

Lemma gen_line_Ok verts : verts ≠ [] → ∃ s, gen_line verts = Py.Ok s.
Proof.
  intros Hne. unfold gen_line.
  destruct (getitem_last_Ok verts Hne) as [v ->]. by eexists.
Qed.

Lemma face_pass_step_run internal k p st f :
  ugfaces st !! k = Some f →
  exportable (length (ugcells st)) internal f →
  ∃ st' p',
    face_pass_step internal k p st = (st', Py.Ok p') ∧
    length (ugcells st') = length (ugcells st) ∧
    ugboundaries st' = ugboundaries st ∧
    ugfaces st'
    = (if selected internal f
       then alter (UGFace.set_facei (next_facei p)) k (ugfaces st)
       else ugfaces st) ∧
    next_facei p' = next_facei p + (if selected internal f then 1 else 0) ∧
    text p' = (if selected internal f then text p +:+ face_line f else text p).
Proof.
  intros Hf Hex.
  unfold face_pass_step, mbind, M_bind, Py.bind, Py.get. rewrite Hf.
  unfold exportable, selected in *.
  destruct (UGFace.deleted f) eqn:Hd.
  { exists st, p. simpl. split_and!; try done. lia. }
  destruct internal; simpl in *.
  - destruct (bool_decide (UGFace.neighbouri f = -1)) eqn:Hn.
    + apply bool_decide_eq_true in Hn.
      rewrite bool_decide_eq_false_2 by (by intros ?).
      exists st, p. split_and!; try done. lia.
    + apply bool_decide_eq_false in Hn.
      rewrite bool_decide_eq_true_2 in * by done.
      destruct Hex as [Hv [Ho Hnb]]; [done | done |].
      destruct (gen_line_Ok _ Hv) as [s Hs].
      unfold update_face, Py.modify, Py.lift, face_line. rewrite Hs.
      set (st1 := with_faces (alter (UGFace.set_facei (next_facei p)) k) st).
      destruct (number_cell_run (UGFace.owneri f)
                  (mk_pass (text p +:+ s) (next_facei p) (next_celli p)) st1 Ho)
        as (cells1 & p1 & -> & Hl1 & Ht1 & Hn1).
      destruct (number_cell_run (UGFace.neighbouri f) p1
                  (with_cells (λ _, cells1) st1))
        as (cells2 & p2 & -> & Hl2 & Ht2 & Hn2).
      { simpl. by rewrite Hl1. }
      eexists _, _. split; [done|]. simpl in *.
      split_and!; try done; congruence.
  - destruct (bool_decide (UGFace.neighbouri f ≠ -1)) eqn:Hn.
    + apply bool_decide_eq_true in Hn.
      rewrite bool_decide_eq_false_2 by done.
      exists st, p. split_and!; try done. lia.
    + apply bool_decide_eq_false in Hn.
      assert (UGFace.neighbouri f = -1) as Hn' by lia.
      rewrite bool_decide_eq_true_2 in * by done.
      destruct Hex as [Hv _]; [done|].
      destruct (gen_line_Ok _ Hv) as [s Hs].
      unfold update_face, Py.modify, Py.lift, face_line. rewrite Hs.
      eexists _, _. split; [done|]. simpl. done.
Qed.

(** The loop of [face_pass] from the position [a] on. *)
Lemma face_pass_loop_run internal (n : nat) :
  ∀ a p st,
    (a + n)%nat = length (ugfaces st) →
    Forall (exportable (length (ugcells st)) internal) (drop a (ugfaces st)) →
    ∃ st' p',
      face_pass_loop internal (seq a n) p st = (st', Py.Ok p') ∧
      length (ugcells st') = length (ugcells st) ∧
      ugboundaries st' = ugboundaries st ∧
      ugfaces st'
      = take a (ugfaces st) ++ renumber internal (next_facei p) (drop a (ugfaces st)) ∧
      next_facei p'
      = next_facei p + Z.of_nat (length (chosen internal (drop a (ugfaces st)))) ∧
      text p' = lines internal (text p) (drop a (ugfaces st)).
Proof.
  induction n as [|n IH]; intros a p st Hlen Hall.
  - exists st, p. rewrite drop_ge by lia. simpl.
    rewrite app_nil_r, firstn_all2 by lia. split_and!; try done. lia.
  - destruct (lookup_lt_is_Some_2 (ugfaces st) a) as [f Hf]; [lia|].
    rewrite (drop_S _ _ _ Hf) in Hall |- *.
    apply Forall_cons in Hall as [Hex Hall].
    destruct (face_pass_step_run internal a p st f Hf Hex)
      as (st1 & p1 & Hstep & Hc1 & Hb1 & Hf1 & Hn1 & Ht1).
    assert (drop (S a) (ugfaces st1) = drop (S a) (ugfaces st)) as Hdrop.
    { rewrite Hf1. destruct (selected internal f); [|done].
      apply drop_alter_lt. lia. }
    assert (length (ugfaces st1) = length (ugfaces st)) as Hlen1.
    { rewrite Hf1. destruct (selected internal f); [|done]. apply length_alter. }
    destruct (IH (S a) p1 st1) as (st' & p' & Hrun & Hc & Hb & Hfs & Hn & Ht).
    { lia. }
    { by rewrite Hdrop, Hc1. }
    exists st', p'. split_and!.
    + simpl. unfold mbind, M_bind, Py.bind. by rewrite Hstep.
    + congruence.
    + congruence.
    + rewrite Hfs, Hdrop. simpl renumber. rewrite Hn1, Hf1.
      destruct (selected internal f).
      * rewrite (take_S_r _ _ (UGFace.set_facei (next_facei p) f)).
        -- rewrite take_alter_ge by lia. by rewrite <- app_assoc.
        -- by rewrite list_lookup_alter_eq, Hf.
      * rewrite (take_S_r _ _ _ Hf), <- app_assoc, Z.add_0_r. done.
    + rewrite Hn, Hdrop, Hn1, chosen_cons.
      destruct (selected internal f); simpl; lia.
    + rewrite Ht, Hdrop, Ht1. unfold lines. rewrite chosen_cons.
      by destruct (selected internal f).
Qed.

Lemma face_pass_unfold internal i st :
  face_pass internal i st
  = match face_pass_loop internal
            (seq 0 (length (ugfaces
               (if internal then with_cells (fmap (UGCell.set_celli (-1))) st else st))))
            (mk_pass "" i 0)
            (if internal then with_cells (fmap (UGCell.set_celli (-1))) st else st)
    with
    | (st', Py.Ok p) => (st', Py.Ok (text p, next_facei p))
    | (st', Py.Raise e) => (st', Py.Raise e)
    end.
Proof. by destruct internal. Qed.

Lemma face_pass_run internal i st :
  Forall (exportable (length (ugcells st)) internal) (ugfaces st) →
  ∃ st',
    face_pass internal i st
    = (st', Py.Ok (lines internal "" (ugfaces st),
                   i + Z.of_nat (length (chosen internal (ugfaces st))))) ∧
    length (ugcells st') = length (ugcells st) ∧
    ugboundaries st' = ugboundaries st ∧
    ugfaces st' = renumber internal i (ugfaces st).
Proof.
  intros Hall.
  set (st0 := if internal then with_cells (fmap (UGCell.set_celli (-1))) st else st).
  assert (ugfaces st0 = ugfaces st) as Hf0 by (unfold st0; by destruct internal).
  assert (length (ugcells st0) = length (ugcells st)) as Hc0.
  { unfold st0. destruct internal; [|done]. simpl. by rewrite length_fmap. }
  assert (ugboundaries st0 = ugboundaries st) as Hb0 by (unfold st0; by destruct internal).
  destruct (face_pass_loop_run internal (length (ugfaces st0)) 0 (mk_pass "" i 0) st0)
    as (st' & p' & Hrun & Hc & Hb & Hfs & Hn & Ht).
  { done. }
  { by rewrite drop_0, Hf0, Hc0. }
  rewrite drop_0, Hf0 in *. simpl in *.
  exists st'. split_and!; [|congruence|congruence|done].
  rewrite face_pass_unfold. fold st0. rewrite Hf0, Hrun. by rewrite Hn, Ht.
Qed.

(** A pass changes nothing but the numbers of the faces. *)
Lemma selected_set_facei b i f : selected b (UGFace.set_facei i f) = selected b f.
Proof. done. Qed.

Lemma face_line_set_facei i f : face_line (UGFace.set_facei i f) = face_line f.
Proof. done. Qed.

Lemma chosen_renumber_length b b' l :
  ∀ i, length (chosen b' (renumber b i l)) = length (chosen b' l).
Proof.
  induction l as [|f l IH]; intros i; [done|]. simpl.
  destruct (selected b f); rewrite !chosen_cons, ?selected_set_facei;
    destruct (selected b' f); simpl; by rewrite IH.
Qed.

Lemma lines_renumber b b' l :
  ∀ i acc, lines b' acc (renumber b i l) = lines b' acc l.
Proof.
  unfold lines. induction l as [|f l IH]; intros i acc; [done|]. simpl.
  destruct (selected b f); rewrite !chosen_cons, ?selected_set_facei;
    destruct (selected b' f); simpl; by rewrite ?face_line_set_facei, IH.
Qed.

Lemma renumber_Forall (P : UGFace.t → Prop) b l :
  (∀ f i, P f → P (UGFace.set_facei i f)) →
  ∀ i, Forall P l → Forall P (renumber b i l).
Proof.
  intros HP. induction l as [|f l IH]; intros i Hall; [done|].
  apply Forall_cons in Hall as [Hf Hl]. simpl.
  destruct (selected b f); constructor; auto.
Qed.

Lemma take_renumber b l : ∀ i k, take k (renumber b i l) = renumber b i (take k l).
Proof.
  induction l as [|f l IH]; intros i [|k]; try done. simpl.
  destruct (selected b f); simpl; by rewrite IH.
Qed.

Lemma rank_renumber b b' l i k : rank b' (renumber b i l) k = rank b' l k.
Proof. unfold rank. by rewrite take_renumber, chosen_renumber_length. Qed.

Lemma renumber_length b l : ∀ i, length (renumber b i l) = length l.
Proof.
  induction l as [|f l IH]; intros i; [done|]. simpl.
  destruct (selected b f); simpl; by rewrite IH.
Qed.

Lemma renumber_lookup b l :
  ∀ i k f, l !! k = Some f →
    renumber b i l !! k
    = Some (if selected b f then UGFace.set_facei (i + Z.of_nat (rank b l k)) f else f).
Proof.
  unfold rank. induction l as [|g l IH]; intros i [|k] f Hf; [done|done| |].
  - injection Hf as ->. simpl. destruct (selected b f); [|done].
    simpl. by rewrite Z.add_0_r.
  - simpl in Hf. simpl renumber. simpl take. rewrite chosen_cons.
    destruct (selected b g); simpl; rewrite (IH _ _ _ Hf); [|done].
    destruct (selected b f); [|done]. do 2 f_equal. lia.
Qed.

Lemma chosen_split l :
  (length (chosen true l) + length (chosen false l))%nat
  = length (filter (λ f, UGFace.deleted f = false) l).
Proof.
  induction l as [|f l IH]; [done|]. rewrite !chosen_cons. unfold selected.
  destruct (UGFace.deleted f) eqn:Hd; simpl.
  - rewrite filter_cons_False by congruence. done.
  - rewrite filter_cons_True by done.
    destruct (decide (UGFace.neighbouri f = -1)) as [Hn|Hn].
    + rewrite bool_decide_eq_false_2 by (by intros ?).
      rewrite bool_decide_eq_true_2 by done. simpl. lia.
    + rewrite bool_decide_eq_true_2 by done.
      rewrite bool_decide_eq_false_2 by done. simpl. lia.
Qed.

(** What the export of the faces needs of the store: every face
    that is not deleted has a vertex, and every internal one cells at
    its owner and neighbour index. *)
Definition well_formed (st : ug) : Prop :=
  ∀ f, f ∈ ugfaces st → UGFace.deleted f = false →
    UGFace.verts f ≠ [] ∧
    (UGFace.neighbouri f ≠ -1 →
     valid_index (length (ugcells st)) (UGFace.owneri f) ∧
     valid_index (length (ugcells st)) (UGFace.neighbouri f)).

Lemma well_formed_exportable (st : ug) :
  well_formed st → ∀ b, Forall (exportable (length (ugcells st)) b) (ugfaces st).
Proof.
  intros Hok b. apply Forall_forall. intros f Hin Hsel. unfold selected in Hsel.
  apply andb_true_iff in Hsel as [Hd Hn]. apply negb_true_iff in Hd.
  destruct (Hok f Hin Hd) as [Hv Hc]. split; [done|]. intros ->.
  apply bool_decide_eq_true in Hn. by apply Hc.
Qed.

(** The two passes of [update_text_faces]. *)
Lemma update_text_faces_run (st : ug) :
  (∀ b, Forall (exportable (length (ugcells st)) b) (ugfaces st)) →
  ∃ st',
    update_text_faces st
    = (st', Py.Ok (of_file_header "faceList" "faces" +:+ Py.nl
                   +:+ Py.str (Z.of_nat (length (internal_faces st))) +:+ Py.nl
                   +:+ "(" +:+ Py.nl
                   +:+ lines true "" (ugfaces st) +:+ lines false "" (ugfaces st)
                   +:+ ")" +:+ Py.nl)) ∧
    ugboundaries st' = ugboundaries st ∧
    ugfaces st'
    = renumber false (Z.of_nat (length (chosen true (ugfaces st))))
        (renumber true 0 (ugfaces st)).
Proof.
  intros Hall.
  assert (∀ b n, Forall (exportable n b) (ugfaces st) →
                 ∀ b' i, Forall (exportable n b) (renumber b' i (ugfaces st))) as Hre.
  { intros b n Hb b' i. apply renumber_Forall; [|done]. by intros f j Hf. }
  destruct (face_pass_run true 0 st (Hall true)) as (st1 & Hrun1 & Hc1 & Hb1 & Hf1).
  destruct (face_pass_run false
              (0 + Z.of_nat (length (chosen true (ugfaces st)))) st1)
    as (st2 & Hrun2 & Hc2 & Hb2 & Hf2).
  { rewrite Hc1, Hf1. apply Hre, Hall. }
  exists st2. split_and!.
  - unfold update_text_faces, mbind, M_bind, Py.bind.
    rewrite Hrun1. cbv beta iota. rewrite Hrun2. cbv beta iota.
    unfold mret, M_ret, Py.ret. rewrite Hf1, lines_renumber, chosen_renumber_length.
    unfold internal_faces. rewrite <- chosen_split.
    replace (0 + Z.of_nat (length (chosen true (ugfaces st)))
             + Z.of_nat (length (chosen false (ugfaces st))))
      with (Z.of_nat (length (chosen true (ugfaces st))
                      + length (chosen false (ugfaces st)))) by lia.
    done.
  - congruence.
  - by rewrite Hf2, Hf1, Z.add_0_l.
Qed.

(** X11.  When every face that is not deleted has a vertex and every
    internal one cells at its owner and neighbour index,
    [update_text_faces] returns: the count line is the number of
    faces that are not deleted; the lines of the internal faces come
    first, then those of the boundary faces, each group in storage
    order; an internal face gets the number of internal faces stored
    before it, a boundary face the number of all internal faces plus
    the number of boundary faces stored before it, and a deleted face
    keeps its number. *)
Theorem update_text_faces_numbering (st : ug) :
  well_formed st →
  ∃ st',
    update_text_faces st
    = (st', Py.Ok (of_file_header "faceList" "faces" +:+ Py.nl
                   +:+ Py.str (Z.of_nat (length (internal_faces st))) +:+ Py.nl
                   +:+ "(" +:+ Py.nl
                   +:+ lines true "" (ugfaces st) +:+ lines false "" (ugfaces st)
                   +:+ ")" +:+ Py.nl)) ∧
    ugboundaries st' = ugboundaries st ∧
    length (ugfaces st') = length (ugfaces st) ∧
    ∀ k f, ugfaces st !! k = Some f →
      ugfaces st' !! k
      = Some (if UGFace.deleted f then f
              else if decide (UGFace.neighbouri f = -1)
                   then UGFace.set_facei
                          (Z.of_nat (length (chosen true (ugfaces st))
                                     + rank false (ugfaces st) k)) f
                   else UGFace.set_facei (Z.of_nat (rank true (ugfaces st) k)) f).
Proof.
  intros Hok.
  destruct (update_text_faces_run st (well_formed_exportable st Hok))
    as (st' & Hrun & Hb & Hfs).
  exists st'. split_and!; [done|done| |].
  - by rewrite Hfs, !renumber_length.
  - intros k f Hf. rewrite Hfs.
    pose proof (renumber_lookup true (ugfaces st) 0 k f Hf) as H1.
    rewrite (renumber_lookup false _ _ _ _ H1).
    rewrite rank_renumber.
    unfold selected. destruct (UGFace.deleted f) eqn:Hd; simpl.
    { by rewrite Hd. }
    destruct (decide (UGFace.neighbouri f = -1)) as [Hn|Hn].
    + rewrite (bool_decide_eq_false_2 (UGFace.neighbouri f ≠ -1)) by (by intros ?).
      rewrite Hd. simpl. rewrite bool_decide_eq_true_2 by done.
      do 2 f_equal. lia.
    + rewrite (bool_decide_eq_true_2 (UGFace.neighbouri f ≠ -1)) by done.
      simpl. rewrite Hd. simpl. rewrite bool_decide_eq_false_2 by done.
      do 2 f_equal.
Qed.

(** A boundary face, a deleted face and an internal face, stored in
    this order, between two cells. *)
Definition mixed_faces : ug :=
  mk_ug [UGCell.mk [1; 2] (-1); UGCell.mk [0; 2] (-1)]
        [UGFace.mk 0 [0; 1; 3] 1 (-1) None false;
         UGFace.mk 1 [] 7 7 None true;
         UGFace.mk 2 [0; 1; 2] 0 1 None false]
        [].

Lemma update_text_faces_numbering_witness :
  ∃ st',
    update_text_faces mixed_faces
    = (st', Py.Ok (of_file_header "faceList" "faces" +:+ Py.nl
                   +:+ "2" +:+ Py.nl +:+ "(" +:+ Py.nl
                   +:+ ("3(0 1 2)" +:+ Py.nl) +:+ ("3(0 1 3)" +:+ Py.nl)
                   +:+ ")" +:+ Py.nl)) ∧
    ugboundaries st' = [] ∧
    length (ugfaces st') = 3%nat ∧
    ∀ k f, ugfaces mixed_faces !! k = Some f →
      ugfaces st' !! k
      = Some (if UGFace.deleted f then f
              else if decide (UGFace.neighbouri f = -1)
                   then UGFace.set_facei
                          (Z.of_nat (length (chosen true (ugfaces mixed_faces))
                                     + rank false (ugfaces mixed_faces) k)) f
                   else UGFace.set_facei
                          (Z.of_nat (rank true (ugfaces mixed_faces) k)) f).
Proof.
  apply (update_text_faces_numbering mixed_faces).
  intros f Hin Hd. simpl in Hin.
  rewrite !elem_of_cons, elem_of_nil in Hin.
  destruct Hin as [->|[->|[->|[]]]]; simpl in *; done.
Defined.

End face_numbering.


(** ** The boundary block of the PolyMesh export *)

Module boundary_block.
Import io_polymesh.

(** What [boundary_entries] does for the patches [bs], the first of
    which has the number [i]: it returns one entry per patch that is
    not deleted when each of them has a face with its number, and
    raises at the first one that has none. *)
Lemma boundary_entries_outcome (faces : list UGFace.t) (bs : list UGBoundary.t) :
  ∀ i,
    (∃ es, boundary_entries faces bs i = Py.Ok es ∧
           length es = length (filter (λ b, UGBoundary.deleted b = false) bs) ∧
           ∀ j b, bs !! j = Some b → UGBoundary.deleted b = false →
                  ∃ f, f ∈ faces ∧ UGFace.mati f = Some (i + Z.of_nat j))
    ∨ (boundary_entries faces bs i = Py.Raise Py.IndexError ∧
       ∃ j b, bs !! j = Some b ∧ UGBoundary.deleted b = false ∧
              ∀ f, f ∈ faces → UGFace.mati f ≠ Some (i + Z.of_nat j)).
Proof.
  induction bs as [|b bs IH]; intros i.
  { left. exists []. split_and!; done. }
  simpl. destruct (UGBoundary.deleted b) eqn:Hd.
  - rewrite filter_cons_False by congruence.
    destruct (IH (i + 1)) as [(es & -> & Hlen & Hall)|(-> & j & b' & Hj & Hb' & Hno)].
    + left. exists es. split_and!; [done|done|].
      intros [|j] b' Hj Hb'; simpl in Hj; [congruence|].
      destruct (Hall j b' Hj Hb') as (f & Hin & Hm). exists f. split; [done|].
      rewrite Hm. f_equal. lia.
    + right. split; [done|]. exists (S j), b'. split_and!; [done|done|].
      intros f Hin. replace (i + Z.of_nat (S j)) with (i + 1 + Z.of_nat j) by lia.
      by apply Hno.
  - rewrite filter_cons_True by done.
    destruct (filter (λ x, UGFace.mati x = Some i) faces) as [|first bfaces] eqn:Hf.
    + right. split; [done|]. exists 0%nat, b. split_and!; [done|done|].
      intros f Hin Hm. rewrite Z.add_0_r in Hm.
      assert (f ∈ filter (λ x, UGFace.mati x = Some i) faces) as Hin'
        by (by apply list_elem_of_filter).
      rewrite Hf in Hin'. by apply elem_of_nil in Hin'.
    + assert (first ∈ faces ∧ UGFace.mati first = Some i) as [Hin Hm].
      { assert (first ∈ filter (λ x, UGFace.mati x = Some i) faces) as Hin'
          by (rewrite Hf; by left).
        apply list_elem_of_filter in Hin'. tauto. }
      change (Py.getitem (first :: bfaces) 0) with (Py.Ok first).
      destruct (IH (i + 1)) as [(es & -> & Hlen & Hall)|(-> & j & b' & Hj & Hb' & Hno)].
      * left. eexists. split_and!; [done|simpl; by rewrite Hlen|].
        intros [|j] b' Hj Hb'; simpl in Hj.
        -- exists first. by rewrite Z.add_0_r.
        -- destruct (Hall j b' Hj Hb') as (f & Hin' & Hm'). exists f. split; [done|].
           rewrite Hm'. f_equal. lia.
      * right. split; [done|]. exists (S j), b'. split_and!; [done|done|].
        intros f Hin'. replace (i + Z.of_nat (S j)) with (i + 1 + Z.of_nat j) by lia.
        by apply Hno.
Qed.

(** X12.  [update_text_boundary] raises [IndexError] exactly when
    some patch that is not deleted has no face (deleted or not) that
    carries its number.  When every such patch has one it returns,
    with one entry per patch that is not deleted and their number on
    the count line. *)
Theorem update_text_boundary_outcome (st : ug) :
  (update_text_boundary st = Py.Raise Py.IndexError
   ↔ ∃ i b, ugboundaries st !! i = Some b ∧ UGBoundary.deleted b = false ∧
            ∀ f, f ∈ ugfaces st → UGFace.mati f ≠ Some (Z.of_nat i)) ∧
  ((∀ i b, ugboundaries st !! i = Some b → UGBoundary.deleted b = false →
           ∃ f, f ∈ ugfaces st ∧ UGFace.mati f = Some (Z.of_nat i)) →
   ∃ es,
     boundary_entries (ugfaces st) (ugboundaries st) 0 = Py.Ok es ∧
     length es
     = length (filter (λ b, UGBoundary.deleted b = false) (ugboundaries st)) ∧
     update_text_boundary st
     = Py.Ok (of_file_header "polyBoundaryMesh" "boundary" +:+ Py.nl
              +:+ Py.str (Z.of_nat (length es)) +:+ Py.nl +:+ "(" +:+ Py.nl
              +:+ foldl (λ t e, t +:+ patch_entry_text e) "" es
              +:+ ")" +:+ Py.nl)).
Proof.
  unfold update_text_boundary.
  destruct (boundary_entries_outcome (ugfaces st) (ugboundaries st) 0)
    as [(es & Hrun & Hlen & Hall)|(Hrun & j & b & Hj & Hb & Hno)]; rewrite Hrun.
  - split.
    + split; [done|]. intros (i & b & Hi & Hb & Hno).
      destruct (Hall i b Hi Hb) as (f & Hin & Hm). by destruct (Hno f Hin).
    + intros _. by exists es.
  - split.
    + split; [|done]. intros _. by exists j, b.
    + intros Hall. destruct (Hall j b Hj Hb) as (f & Hin & Hm).
      by destruct (Hno f Hin).
Qed.

End boundary_block.


(** ** PolyMesh: import, then export of owner and neighbour *)

Module polymesh_roundtrip.
Import io_polymesh polymesh_import.

Lemma default_lookup_seq {A} (d : A) (l : list A) (n : nat) :
  (n ≤ length l)%nat → (λ i, default d (l !! i)) <$> seq 0 n = take n l.
Proof.
  induction n as [|n IH]; intros Hn; [done|].
  destruct (lookup_lt_is_Some_2 l n) as [x Hx]; [lia|].
  rewrite seq_S, fmap_app, IH by lia. simpl.
  by rewrite Hx, (take_S_r _ _ _ Hx).
Qed.

Lemma filter_all {A} (P : A → Prop) `{!∀ x, Decision (P x)} (l : list A) :
  Forall P l → filter P l = l.
Proof.
  induction 1 as [|x l Hx Hl IH]; [done|]. by rewrite filter_cons_True, IH.
Qed.

Lemma filter_none {A} (P : A → Prop) `{!∀ x, Decision (P x)} (l : list A) :
  Forall (λ x, ¬ P x) l → filter P l = [].
Proof.
  induction 1 as [|x l Hx Hl IH]; [done|]. by rewrite filter_cons_False, IH.
Qed.

Section import.
Context (gen_edges : bool).
Context (owner neighbour : list Z) (face_verts : list (list Z)).

Local Abbreviation imported := (imported_face owner neighbour face_verts).

(** The import when every face has an owner and the cells of the
    neighbour entries exist. *)
Lemma polymesh_get_faces_run (m : Z) (st0 : ug) :
  Py.max owner = Py.Ok m →
  Forall (λ o, 0 ≤ o) owner →
  Forall (λ n, 0 ≤ n) neighbour →
  (length face_verts ≤ length owner)%nat →
  (∀ i n, (i < length face_verts)%nat → neighbour !! i = Some n →
          n < Z.of_nat (length (ugcells st0)) + (m + 1)) →
  ∃ st' edges,
    polymesh_get_faces gen_edges owner neighbour face_verts st0
    = (st', Py.Ok (edges, drop (length neighbour) face_verts)) ∧
    ugfaces st' = ugfaces st0 ++ (imported <$> seq 0 (length face_verts)) ∧
    ugboundaries st' = ugboundaries st0.
Proof.
  intros Hmax Hopos Hnpos Hlen Hnr.
  assert (∀ y, y ∈ owner → y ≤ m) as Hle.
  { destruct owner as [|x l]; [done|]. injection Hmax as <-.
    destruct (foldl_max_le l x) as [Hx Hl].
    intros y [->|Hy]%elem_of_cons; auto. }
  set (st1 := with_cells (λ l, l ++ (UGCell.new <$> Py.range (m + 1))) st0).
  assert (0 ≤ m) as Hm.
  { destruct owner as [|x l]; [done|].
    apply Forall_cons in Hopos as [Hx _].
    assert (x ≤ m) by (apply Hle; by left). lia. }
  assert (length (ugcells st1) = (length (ugcells st0) + Z.to_nat (m + 1))%nat) as Hcl1.
  { unfold st1, with_cells, Py.range. simpl.
    by rewrite length_app, !length_fmap, length_seq. }
  destruct (face_loop_prefix gen_edges owner neighbour face_verts st1
              (length face_verts)) as (st' & edges & Hrun & Hfaces & Hbs & _).
  { done. }
  { done. }
  { intros i o Hi Ho. rewrite Hcl1.
    assert (o ∈ owner) as Hin by (by eapply list_elem_of_lookup_2).
    pose proof (Hle _ Hin). rewrite Forall_forall in Hopos.
    pose proof (Hopos _ Hin). lia. }
  { intros i n Hi Hn. rewrite Hcl1.
    assert (n ∈ neighbour) as Hin by (by eapply list_elem_of_lookup_2).
    rewrite Forall_forall in Hnpos. pose proof (Hnpos _ Hin).
    pose proof (Hnr _ _ Hi Hn). lia. }
  exists st', edges. split_and!; [|done|done].
  unfold polymesh_get_faces, mbind, M_bind, Py.bind, Py.lift.
  rewrite Hmax, creates_cells. fold st1.
  rewrite Hrun. by rewrite firstn_all.
Qed.

Lemma imported_owners (n : nat) :
  (n ≤ length owner)%nat →
  UGFace.owneri <$> (imported <$> seq 0 n) = take n owner.
Proof.
  intros Hn. rewrite <- list_fmap_compose.
  by rewrite <- (default_lookup_seq (-1) owner n Hn).
Qed.

Lemma imported_alive (a n : nat) :
  filter (λ f, UGFace.deleted f = false) (imported <$> seq a n)
  = imported <$> seq a n.
Proof. apply filter_all, Forall_fmap, Forall_forall. by intros i _. Qed.

Lemma imported_neighbours (n : nat) :
  Forall (λ x, 0 ≤ x) neighbour →
  UGFace.neighbouri
    <$> filter (λ f, UGFace.neighbouri f ≠ -1 ∧ UGFace.deleted f = false)
               (imported <$> seq 0 n)
  = take n neighbour.
Proof.
  intros Hpos.
  set (k := (n `min` length neighbour)%nat).
  replace n with (k + (n - k))%nat at 1 by lia.
  rewrite seq_app, fmap_app, filter_app, fmap_app.
  rewrite (filter_all _ (imported <$> seq 0 k)).
  - rewrite (filter_none _ (imported <$> seq (0 + k) (n - k))).
    + rewrite app_nil_r, <- list_fmap_compose.
      assert (take n neighbour = take k neighbour) as ->.
      { unfold k. destruct (decide (n ≤ length neighbour)%nat).
        - by rewrite Nat.min_l by lia.
        - rewrite Nat.min_r by lia. by rewrite firstn_all, take_ge by lia. }
      by rewrite <- (default_lookup_seq (-1) neighbour k) by lia.
    + apply Forall_fmap, Forall_forall. intros i [Hi1 Hi2]%elem_of_seq. simpl.
      destruct (decide (n ≤ length neighbour)%nat); [lia|].
      rewrite lookup_ge_None_2 by lia. simpl. tauto.
  - apply Forall_fmap, Forall_forall. intros i [_ Hi]%elem_of_seq. simpl.
    destruct (lookup_lt_is_Some_2 neighbour i) as [x Hx]; [lia|].
    rewrite Hx. simpl. split; [|done].
    assert (0 ≤ x); [|lia].
    rewrite Forall_forall in Hpos. apply Hpos. by eapply list_elem_of_lookup_2.
Qed.

(** X13.  Import, then export: when [polymesh_get_faces] is given
    an owner for every face and neighbour entries whose cells
    exist, it returns, and the owner block of the export then lists
    the owners as they were read, one per face, and the neighbour
    block the neighbours as they were read, after the entries of
    the faces the store held before. *)
Theorem polymesh_owner_neighbour_round_trip (m : Z) (st0 : ug) :
  Py.max owner = Py.Ok m →
  Forall (λ o, 0 ≤ o) owner →
  Forall (λ n, 0 ≤ n) neighbour →
  (length face_verts ≤ length owner)%nat →
  (∀ i n, (i < length face_verts)%nat → neighbour !! i = Some n →
          n < Z.of_nat (length (ugcells st0)) + (m + 1)) →
  ∃ st' r,
    polymesh_get_faces gen_edges owner neighbour face_verts st0 = (st', Py.Ok r) ∧
    entries (owner_block st')
    = entries (owner_block st0) ++ take (length face_verts) owner ∧
    entries (neighbour_block st')
    = entries (neighbour_block st0) ++ take (length face_verts) neighbour.
Proof.
  intros Hmax Hopos Hnpos Hlen Hnr.
  destruct (polymesh_get_faces_run m st0 Hmax Hopos Hnpos Hlen Hnr)
    as (st' & edges & Hrun & Hfaces & _).
  exists st', (edges, drop (length neighbour) face_verts). split; [done|].
  unfold owner_block, neighbour_block, internal_faces, neighbour_faces.
  cbn [entries]. rewrite Hfaces, !filter_app, !fmap_app. split.
  - by rewrite imported_alive, imported_owners.
  - by rewrite imported_neighbours.
Qed.
End import.

(** Three triangles, the first between the cells 0 and 1. *)
Lemma polymesh_owner_neighbour_round_trip_witness :
  ∃ st' r,
    polymesh_get_faces false [0; 0; 1] [1] [[0; 1; 2]; [0; 1; 3]; [1; 2; 3]] ug_empty
    = (st', Py.Ok r) ∧
    entries (owner_block st') = [0; 0; 1] ∧
    entries (neighbour_block st') = [1].
Proof.
  apply (polymesh_owner_neighbour_round_trip false [0; 0; 1] [1]
           [[0; 1; 2]; [0; 1; 3]; [1; 2; 3]] 1 ug_empty).
  - reflexivity.
  - repeat constructor; lia.
  - repeat constructor; lia.
  - simpl. lia.
  - intros [|i] n Hi; simpl; [intros [= <-]; lia | done].
Defined.

End polymesh_roundtrip.


(** ** PolyMesh export: boundary faces stored patch by patch *)

Module boundary_tiling.
Import io_polymesh face_numbering.

(** The number of faces that carry the patch number [i], and of
    those that carry a smaller one. *)
Definition patch_count (faces : list UGFace.t) (i : Z) : nat :=
  length (filter (λ x, UGFace.mati x = Some i) faces).

Definition below (i : Z) (f : UGFace.t) : bool :=
  match UGFace.mati f with
  | Some m => bool_decide (m < i)
  | None => false
  end.

Definition before_patch (faces : list UGFace.t) (i : Z) : nat :=
  length (filter (λ x, below i x = true) faces).

(** The entries of patches whose face ranges follow one another from
    [start] on: a patch that is deleted has no entry, its faces keep
    their place. *)
Fixpoint tiled (faces : list UGFace.t) (bs : list UGBoundary.t) (i start : Z)
  : list patch_entry :=
  match bs with
  | [] => []
  | b :: bs' =>
      let n := Z.of_nat (patch_count faces i) in
      if UGBoundary.deleted b then tiled faces bs' (i + 1) (start + n)
      else mk_patch_entry (UGBoundary.patchname b) (UGBoundary.typename b)
             (UGBoundary.inGroups b) n start
           :: tiled faces bs' (i + 1) (start + n)
  end.

(** A face stored before another has no greater patch number. *)
Definition patch_le (f g : UGFace.t) : Prop :=
  ∀ m m', UGFace.mati f = Some m → UGFace.mati g = Some m' → m ≤ m'.

(** The boundary faces that are not deleted are the faces with a
    patch number, and they are stored patch by patch. *)
Definition grouped (faces : list UGFace.t) : Prop :=
  (∀ f, f ∈ faces → selected false f = true ↔ is_Some (UGFace.mati f)) ∧
  (∀ f m, f ∈ faces → UGFace.mati f = Some m → 0 ≤ m) ∧
  StronglySorted patch_le faces.

Lemma renumber_app b l1 l2 :
  ∀ i, renumber b i (l1 ++ l2)
       = renumber b i l1 ++ renumber b (i + Z.of_nat (length (chosen b l1))) l2.
Proof.
  induction l1 as [|f l1 IH]; intros i.
  - simpl. by rewrite Z.add_0_r.
  - simpl. rewrite chosen_cons. destruct (selected b f); simpl; rewrite IH.
    + do 3 f_equal. lia.
    + done.
Qed.

Lemma filter_mati_renumber b m l :
  ∀ i, Forall (λ x, UGFace.mati x ≠ Some m) l →
       filter (λ x, UGFace.mati x = Some m) (renumber b i l) = [].
Proof.
  induction l as [|f l IH]; intros i Hall; [done|].
  apply Forall_cons in Hall as [Hf Hl]. simpl.
  destruct (selected b f); rewrite filter_cons_False by done; by apply IH.
Qed.

Lemma filter_mati_renumber_length b m l :
  ∀ i, length (filter (λ x, UGFace.mati x = Some m) (renumber b i l))
       = length (filter (λ x, UGFace.mati x = Some m) l).
Proof.
  induction l as [|f l IH]; intros i; [done|]. simpl.
  destruct (selected b f);
    (destruct (decide (UGFace.mati f = Some m));
     [rewrite !filter_cons_True by done; simpl; by rewrite IH
     |rewrite !filter_cons_False by done; by rewrite IH]).
Qed.

Lemma first_with_patch (m : Z) (l : list UGFace.t) :
  (∃ f, f ∈ l ∧ UGFace.mati f = Some m) →
  ∃ l1 f l2, l = l1 ++ f :: l2 ∧ UGFace.mati f = Some m ∧
             Forall (λ x, UGFace.mati x ≠ Some m) l1.
Proof.
  induction l as [|g l IH]; intros (f & Hin & Hm).
  { by apply elem_of_nil in Hin. }
  destruct (decide (UGFace.mati g = Some m)) as [Hg|Hg].
  - by exists [], g, l.
  - apply elem_of_cons in Hin as [->|Hin]; [done|].
    destruct IH as (l1 & f' & l2 & -> & Hf' & Hall); [by exists f|].
    exists (g :: l1), f', l2. split_and!; [done|done|by constructor].
Qed.

Lemma filter_agree {A} (P Q : A → Prop)
    `{!∀ x, Decision (P x)} `{!∀ x, Decision (Q x)} (l : list A) :
  Forall (λ x, P x ↔ Q x) l → filter P l = filter Q l.
Proof.
  induction 1 as [|x l Hx Hl IH]; [done|].
  destruct (decide (P x)) as [HP|HP].
  - rewrite !filter_cons_True by tauto. by rewrite IH.
  - rewrite !filter_cons_False by tauto. done.
Qed.

Lemma before_patch_next l i :
  before_patch l (i + 1) = (before_patch l i + patch_count l i)%nat.
Proof.
  unfold before_patch, patch_count, below.
  induction l as [|f l IH]; [done|].
  destruct (UGFace.mati f) as [m|] eqn:Hm.
  - destruct (decide (m < i)).
    + rewrite (filter_cons_True (λ x, _ = true)) by (rewrite Hm; by apply bool_decide_eq_true_2; lia).
      rewrite (filter_cons_True (λ x, _ = true)) by (rewrite Hm; by apply bool_decide_eq_true_2).
      rewrite filter_cons_False by (rewrite Hm; intros [= ->]; lia).
      simpl. rewrite IH. lia.
    + destruct (decide (m = i)) as [->|Hne].
      * rewrite (filter_cons_True (λ x, _ = true)) by (rewrite Hm; by apply bool_decide_eq_true_2; lia).
        rewrite (filter_cons_False (λ x, _ = true))
          by (rewrite Hm; rewrite bool_decide_eq_false_2; done).
        rewrite filter_cons_True by done.
        simpl. rewrite IH. lia.
      * rewrite (filter_cons_False (λ x, _ = true))
          by (rewrite Hm; rewrite bool_decide_eq_false_2; [done|lia]).
        rewrite (filter_cons_False (λ x, _ = true))
          by (rewrite Hm; rewrite bool_decide_eq_false_2; done).
        rewrite filter_cons_False by (rewrite Hm; intros [= ->]; lia).
        exact IH.
  - rewrite !(filter_cons_False (λ x, _ = true)) by (by rewrite Hm).
    rewrite filter_cons_False by (by rewrite Hm). exact IH.
Qed.

Lemma before_patch_0 l :
  (∀ f m, f ∈ l → UGFace.mati f = Some m → 0 ≤ m) → before_patch l 0 = 0%nat.
Proof.
  intros Hpos. unfold before_patch.
  rewrite polymesh_roundtrip.filter_none; [done|].
  apply Forall_forall. intros f Hin. unfold below.
  destruct (UGFace.mati f) as [m|] eqn:Hm; [|done].
  pose proof (Hpos f m Hin Hm). rewrite bool_decide_eq_false_2; [done | lia].
Qed.

(** The faces stored before the first face of the patch [m] that a
    boundary pass numbers are those of the patches before [m]. *)
Lemma chosen_before_first l1 f l2 m :
  grouped (l1 ++ f :: l2) →
  UGFace.mati f = Some m →
  Forall (λ x, UGFace.mati x ≠ Some m) l1 →
  length (chosen false l1) = before_patch (l1 ++ f :: l2) m.
Proof.
  intros (Hsel & _ & Hsorted) Hm Hfirst.
  unfold before_patch. rewrite filter_app.
  rewrite (polymesh_roundtrip.filter_none _ (f :: l2)).
  - rewrite app_nil_r. unfold chosen. f_equal.
    apply filter_agree, Forall_forall. intros g Hg.
    assert (g ∈ l1 ++ f :: l2) as Hin by (apply elem_of_app; by left).
    rewrite (Hsel g Hin). unfold below.
    destruct (UGFace.mati g) as [m'|] eqn:Hm'.
    + assert (m' ≤ m) as Hle.
      { apply (StronglySorted_app_1_elem_of _ _ _ g f Hsorted Hg); [by left|done|done]. }
      assert (m' ≠ m) as Hne.
      { rewrite Forall_forall in Hfirst. specialize (Hfirst g Hg).
        rewrite Hm' in Hfirst. congruence. }
      rewrite bool_decide_eq_true_2 by lia. split; [done | by eexists].
    + split; [by intros [? ?] | done].
  - apply StronglySorted_app_1_r, StronglySorted_cons in Hsorted as [Hall _].
    constructor.
    + unfold below. rewrite Hm. rewrite bool_decide_eq_false_2; [done | lia].
    + eapply Forall_impl; [exact Hall|]. intros g Hg. unfold below.
      destruct (UGFace.mati g) as [m'|] eqn:Hm'; [|done].
      pose proof (Hg m m' Hm Hm'). rewrite bool_decide_eq_false_2; [done | lia].
Qed.

(** The first face with the patch number [m] after the two passes. *)
Lemma first_patch_face (n : Z) l (m : Z) :
  grouped l →
  (∃ f, f ∈ l ∧ UGFace.mati f = Some m) →
  ∃ first rest,
    filter (λ x, UGFace.mati x = Some m) (renumber false n (renumber true 0 l))
    = first :: rest ∧
    UGFace.facei first = n + Z.of_nat (before_patch l m).
Proof.
  intros Hg (l1 & f & l2 & -> & Hm & Hfirst)%first_with_patch.
  pose proof (chosen_before_first l1 f l2 m Hg Hm Hfirst) as Hbefore.
  destruct Hg as (Hsel & _ & _).
  assert (selected false f = true) as Hsf.
  { apply Hsel; [apply elem_of_app; right; by left | by eexists]. }
  assert (selected true f = false) as Hst.
  { unfold selected in *. apply andb_true_iff in Hsf as [Hd Hn].
    rewrite Hd. simpl. apply bool_decide_eq_true in Hn.
    by rewrite bool_decide_eq_false_2 by (by intros ?). }
  rewrite (renumber_app true). cbn [renumber]. rewrite Hst.
  rewrite (renumber_app false). cbn [renumber]. rewrite Hsf.
  rewrite filter_app, filter_mati_renumber.
  - rewrite filter_cons_True by done.
    eexists _, _. split; [done|]. simpl.
    by rewrite chosen_renumber_length, Hbefore.
  - apply renumber_Forall; done.
Qed.

Lemma boundary_entries_tiled (n : Z) l (bs : list UGBoundary.t) :
  grouped l →
  ∀ i,
    (∀ j b, bs !! j = Some b → UGBoundary.deleted b = false →
            ∃ f, f ∈ l ∧ UGFace.mati f = Some (i + Z.of_nat j)) →
    boundary_entries (renumber false n (renumber true 0 l)) bs i
    = Py.Ok (tiled l bs i (n + Z.of_nat (before_patch l i))).
Proof.
  intros Hg. induction bs as [|b bs IH]; intros i Hall; [done|].
  assert (boundary_entries (renumber false n (renumber true 0 l)) bs (i + 1)
          = Py.Ok (tiled l bs (i + 1)
                     (n + Z.of_nat (before_patch l i)
                      + Z.of_nat (patch_count l i)))) as Hrest.
  { rewrite IH.
    - rewrite before_patch_next. do 2 f_equal. lia.
    - intros j b' Hj Hb'. destruct (Hall (S j) b' Hj Hb') as (f & Hin & Hm).
      exists f. split; [done|]. rewrite Hm. f_equal. lia. }
  simpl. destruct (UGBoundary.deleted b) eqn:Hd; [exact Hrest|].
  destruct (first_patch_face n l i Hg) as (first & rest & Hf & Hfacei).
  { destruct (Hall 0%nat b eq_refl Hd) as (f & Hin & Hm).
    exists f. by rewrite Z.add_0_r in Hm. }
  pose proof (f_equal length Hf) as Hlen.
  rewrite !filter_mati_renumber_length in Hlen. fold (patch_count l i) in Hlen.
  rewrite Hf. change (Py.getitem (first :: rest) 0) with (Py.Ok first).
  rewrite Hrest, Hfacei.
  change (length (first :: rest)) with (length (first :: rest)) in Hlen.
  by rewrite <- Hlen.
Qed.

(** X14.  When the boundary faces are stored patch by patch (the
    faces with a patch number are the boundary faces that are not
    deleted, in the order of their patch numbers) and every patch
    that is not deleted has a face, the export of the faces and then
    of the boundary returns entries whose ranges follow one another:
    the first patch starts at the number of internal faces, each
    next one where the one before ends, and [nFaces] is the number of
    faces of the patch.  (The store is [well_formed]: the faces that
    are exported have a vertex and the cells they name.) *)
Theorem export_boundary_ranges_tile (st : ug) :
  well_formed st →
  grouped (ugfaces st) →
  (∀ j b, ugboundaries st !! j = Some b → UGBoundary.deleted b = false →
          ∃ f, f ∈ ugfaces st ∧ UGFace.mati f = Some (Z.of_nat j)) →
  ∃ st' text,
    update_text_faces st = (st', Py.Ok text) ∧
    boundary_entries (ugfaces st') (ugboundaries st') 0
    = Py.Ok (tiled (ugfaces st) (ugboundaries st) 0
               (Z.of_nat (length (chosen true (ugfaces st))))).
Proof.
  intros Hex Hg Hall.
  destruct (update_text_faces_run st (well_formed_exportable st Hex))
    as (st' & Hrun & Hb & Hfs).
  exists st'. eexists. split; [exact Hrun|].
  rewrite Hfs, Hb, (boundary_entries_tiled _ _ _ Hg) by exact Hall.
  destruct Hg as (_ & Hpos & _). rewrite (before_patch_0 _ Hpos).
  do 2 f_equal. lia.
Qed.

(** An internal face and three boundary faces of two patches. *)
Definition two_patches : ug :=
  mk_ug [UGCell.mk [0; 1; 2] (-1); UGCell.mk [0; 3] (-1)]
        [UGFace.mk 0 [0; 1; 2] 0 1 None false;
         UGFace.mk 1 [0; 1; 3] 0 (-1) (Some 0) false;
         UGFace.mk 2 [1; 2; 3] 0 (-1) (Some 0) false;
         UGFace.mk 3 [0; 2; 3] 1 (-1) (Some 1) false]
        [UGBoundary.mk "inlet" "patch" "" 2 1 false;
         UGBoundary.mk "outlet" "patch" "" 1 3 false].

Lemma export_boundary_ranges_tile_witness :
  ∃ st' text,
    update_text_faces two_patches = (st', Py.Ok text) ∧
    boundary_entries (ugfaces st') (ugboundaries st') 0
    = Py.Ok [mk_patch_entry "inlet" "patch" "" 2 1;
             mk_patch_entry "outlet" "patch" "" 1 3].
Proof.
  apply (export_boundary_ranges_tile two_patches).
  - intros f Hin Hd. simpl in Hin.
    rewrite !elem_of_cons, elem_of_nil in Hin.
    destruct Hin as [->|[->|[->|[->|[]]]]]; simpl in *; done.
  - split_and!.
    + intros f Hin. simpl in Hin. rewrite !elem_of_cons, elem_of_nil in Hin.
      destruct Hin as [->|[->|[->|[->|[]]]]]; simpl;
        (split; [try done; by eexists | try done; by intros [? ?]]).
    + intros f m Hin. simpl in Hin. rewrite !elem_of_cons, elem_of_nil in Hin.
      destruct Hin as [->|[->|[->|[->|[]]]]]; simpl; intros [= <-] || done; lia.
    + simpl. repeat (apply StronglySorted_cons; split);
        repeat constructor; unfold patch_le; simpl; intros m m' ? ?; simplify_eq; lia.
  - intros [|[|j]] b Hj Hb; simpl in Hj; simplify_eq.
    + eexists. split; [by apply (list_elem_of_lookup_2 _ 1%nat) | done].
    + eexists. split; [by apply (list_elem_of_lookup_2 _ 3%nat) | done].
Defined.

End boundary_tiling.


(** ** PolyMesh: reading back the exported integer blocks *)

Module text_round_trip.
Import io_polymesh io_polymesh_text.

(** *** Lines *)

Fixpoint no_break (s : string) : bool :=
  match s with
  | EmptyString => true
  | String c s' => negb (is_linebreak c) && no_break s'
  end.

Lemma splitlines_go_app cur s t :
  no_break s = true → splitlines_go cur (s +:+ t) = splitlines_go (cur +:+ s) t.
Proof.
  revert cur. induction s as [|c s IH]; intros cur Hs.
  - by rewrite append_nil, append_nil_r.
  - simpl in Hs. apply andb_true_iff in Hs as [Hc Hs]. apply negb_true_iff in Hc.
    rewrite append_cons. cbn [splitlines_go]. rewrite Hc, (IH _ Hs).
    by rewrite string_app_assoc, append_cons, append_nil.
Qed.

Lemma splitlines_go_nl cur t :
  splitlines_go cur (Py.nl +:+ t) = cur :: splitlines_go "" t.
Proof. done. Qed.

Lemma no_break_app s t : no_break s = true → no_break t = true → no_break (s +:+ t) = true.
Proof.
  intros Hs Ht. induction s as [|c s IH]; [done|].
  simpl in Hs. apply andb_true_iff in Hs as [Hc Hs].
  rewrite append_cons. simpl. by rewrite Hc, IH.
Qed.

(** *** Decimal numerals *)

Fixpoint digits_only (s : string) : bool :=
  match s with
  | EmptyString => true
  | String c s' => is_digit c && digits_only s'
  end.

Lemma pretty_N_char_digit d : is_digit (pretty_N_char d) = true.
Proof. unfold pretty_N_char. by repeat case_match. Qed.

Lemma pretty_N_char_value d :
  (d < 10)%N → Z.of_nat (nat_of_ascii (pretty_N_char d)) - 48 = Z.of_N d.
Proof.
  intros Hd.
  assert (d = 0 ∨ d = 1 ∨ d = 2 ∨ d = 3 ∨ d = 4 ∨ d = 5 ∨ d = 6 ∨ d = 7
          ∨ d = 8 ∨ d = 9)%N as Hcases by lia.
  destruct Hcases as [->|[->|[->|[->|[->|[->|[->|[->|[->| ->]]]]]]]]]; done.
Qed.

Lemma pretty_N_go_digits x s : digits_only s = true → digits_only (pretty_N_go x s) = true.
Proof.
  revert s. induction (N.lt_wf_0 x) as [x _ IH]; intros s Hs.
  assert (x = 0 ∨ 0 < x)%N as [->|Hpos] by lia.
  - by rewrite pretty_N_go_0.
  - rewrite pretty_N_go_step by done. apply IH.
    + by apply N.div_lt.
    + simpl. by rewrite pretty_N_char_digit.
Qed.

Lemma pretty_N_go_nonempty x s : s ≠ "" → pretty_N_go x s ≠ "".
Proof.
  revert s. induction (N.lt_wf_0 x) as [x _ IH]; intros s Hs.
  assert (x = 0 ∨ 0 < x)%N as [->|Hpos] by lia.
  - by rewrite pretty_N_go_0.
  - rewrite pretty_N_go_step by done. apply IH; [by apply N.div_lt | done].
Qed.

Lemma int_from_shift s :
  ∀ acc, int_from acc s = acc * 10 ^ Z.of_nat (String.length s) + int_from 0 s.
Proof.
  induction s as [|c s IH]; intros acc.
  - simpl. lia.
  - cbn [int_from String.length]. rewrite (IH (10 * acc + _)), (IH (10 * 0 + _)).
    rewrite Nat2Z.inj_succ, Z.pow_succ_r by lia. lia.
Qed.

Lemma pretty_N_go_value x s :
  int_from 0 (pretty_N_go x s)
  = Z.of_N x * 10 ^ Z.of_nat (String.length s) + int_from 0 s.
Proof.
  revert s. induction (N.lt_wf_0 x) as [x _ IH]; intros s.
  assert (x = 0 ∨ 0 < x)%N as [->|Hpos] by lia.
  - rewrite pretty_N_go_0. simpl. lia.
  - rewrite pretty_N_go_step by done. rewrite IH by (by apply N.div_lt).
    cbn [int_from String.length].
    rewrite (int_from_shift s (10 * 0 + _)).
    rewrite pretty_N_char_value by (by apply N.mod_lt).
    rewrite Nat2Z.inj_succ, Z.pow_succ_r by lia.
    rewrite (N.div_mod x 10) at 3 by done.
    rewrite N2Z.inj_add, N2Z.inj_mul. simpl Z.of_N at 3. lia.
Qed.

(** [str] of an integer that is not negative: decimal digits that
    [int] reads back; of a negative one: a minus sign first. *)
Lemma str_digits (x : Z) : 0 ≤ x → digits_only (Py.str x) = true ∧ Py.str x ≠ "".
Proof.
  intros Hx. unfold Py.str, pretty, pretty_Z. destruct x as [|p|p]; [done| |lia].
  unfold pretty, pretty_positive, pretty, pretty_N. simpl. split.
  - by apply pretty_N_go_digits.
  - intros Hnil.
    assert (0 < N.pos p)%N as Hpos by lia.
    rewrite pretty_N_go_step in Hnil by done.
    by apply pretty_N_go_nonempty in Hnil.
Qed.

Lemma int_str (x : Z) : 0 ≤ x → int (Py.str x) = x.
Proof.
  intros Hx. unfold int, Py.str, pretty, pretty_Z. destruct x as [|p|p]; [done| |lia].
  unfold pretty, pretty_positive, pretty, pretty_N. simpl.
  rewrite pretty_N_go_value. simpl. lia.
Qed.

Lemma str_negative (x : Z) : x < 0 → ∃ s, Py.str x = String "-" s.
Proof.
  intros Hx. unfold Py.str, pretty, pretty_Z. destruct x as [|p|p]; [lia|lia|].
  by eexists.
Qed.

Lemma digits_no_break s : digits_only s = true → no_break s = true.
Proof.
  induction s as [|c s IH]; [done|]. simpl.
  intros [Hc Hs]%andb_true_iff. rewrite (IH Hs), andb_true_r.
  revert Hc. unfold is_digit, is_linebreak, one_of. simpl.
  destruct (nat_of_ascii c) as [|n]; [done|].
  do 57 (destruct n as [|n]; [done|]). done.
Qed.

Lemma str_no_break (x : Z) : no_break (Py.str x) = true.
Proof.
  destruct (decide (0 ≤ x)) as [Hx|Hx].
  - apply digits_no_break, str_digits, Hx.
  - unfold Py.str, pretty, pretty_Z. destruct x as [|p|p]; [lia|lia|].
    rewrite append_cons, append_nil. simpl.
    apply (digits_no_break (pretty (N.pos p))).
    apply (str_digits (Z.pos p)). lia.
Qed.


Lemma digit_not_paren c :
  is_digit c = true → Ascii.eqb c "(" = false ∧ Ascii.eqb c ")" = false.
Proof.
  intros Hc. split.
  - destruct (Ascii.eqb_spec c "(") as [->|]; done.
  - destruct (Ascii.eqb_spec c ")") as [->|]; done.
Qed.

Lemma str_not_paren (x : Z) :
  starts_with "(" (Py.str x) = false ∧ starts_with ")" (Py.str x) = false.
Proof.
  destruct (decide (0 ≤ x)) as [Hx|Hx].
  - destruct (str_digits x Hx) as [Hd Hne].
    destruct (Py.str x) as [|c s]; [done|]. simpl in Hd |- *.
    apply andb_true_iff in Hd as [Hc _]. by apply digit_not_paren.
  - destruct (str_negative x) as [s ->]; [lia | done].
Qed.

Lemma span_digits_only s : digits_only s = true → span is_digit s = (s, "").
Proof.
  induction s as [|c s IH]; [done|]. simpl.
  intros [Hc Hs]%andb_true_iff. by rewrite Hc, (IH Hs).
Qed.

(** *** The reader of an integer list *)

Lemma intlist_step_outside iList line :
  starts_with "(" line = false → intlist_step (false, iList) line = (false, iList).
Proof.
  intros Hline. unfold intlist_step, inside_after. rewrite Hline.
  by destruct (starts_with ")" line).
Qed.

Lemma intlist_step_open iList : intlist_step (false, iList) "(" = (true, iList).
Proof. done. Qed.

Lemma intlist_step_close iList : intlist_step (true, iList) ")" = (false, iList).
Proof. done. Qed.

Lemma intlist_step_entry iList (x : Z) :
  intlist_step (true, iList) (Py.str x)
  = (true, if decide (0 ≤ x) then iList ++ [x] else iList).
Proof.
  unfold intlist_step, inside_after.
  destruct (str_not_paren x) as [-> ->]. simpl.
  destruct (decide (0 ≤ x)) as [Hx|Hx].
  - destruct (str_digits x Hx) as [Hd Hne].
    rewrite (span_digits_only _ Hd). simpl.
    destruct (String.eqb_spec (Py.str x) "") as [Heq|_]; [done|].
    simpl. by rewrite int_str.
  - destruct (str_negative x) as [s ->]; [lia | done].
Qed.

Lemma intlist_entries (l : list Z) :
  ∀ iList,
    foldl intlist_step (true, iList) (Py.str <$> l)
    = (true, iList ++ filter (λ x, 0 ≤ x) l).
Proof.
  induction l as [|x l IH]; intros iList.
  - simpl. by rewrite app_nil_r.
  - rewrite fmap_cons. cbn [foldl]. rewrite intlist_step_entry, IH.
    destruct (decide (0 ≤ x)).
    + rewrite filter_cons_True by done. by rewrite <- app_assoc.
    + by rewrite filter_cons_False by done.
Qed.

(** *** The lines of an exported block *)

Definition header_lines (class_name object_name : string) : list string :=
  ["FoamFile"; "{"; "    version     2.0;"; "    format      ascii;";
   "    class       " +:+ class_name +:+ ";";
   "    object      " +:+ object_name +:+ ";"; "}"].

Lemma splitlines_header class_name object_name t :
  no_break class_name = true → no_break object_name = true →
  splitlines_go "" (of_file_header class_name object_name +:+ t)
  = header_lines class_name object_name ++ splitlines_go "" t.
Proof.
  intros Hc Ho. unfold of_file_header, header_lines.
  rewrite !string_app_assoc.
  repeat first
    [ rewrite splitlines_go_nl
    | rewrite splitlines_go_app by (exact Hc || exact Ho || reflexivity) ].
  by rewrite ?append_nil, ?string_app_assoc.
Qed.

Lemma header_lines_skipped class_name object_name :
  foldl intlist_step (false, []) (header_lines class_name object_name) = (false, []).
Proof.
  unfold header_lines. cbn [foldl].
  by rewrite !intlist_step_outside by reflexivity.
Qed.

Definition entries_text (l : list Z) : string :=
  foldr (λ x t, Py.str x +:+ Py.nl +:+ t) "" l.

Lemma foldl_entries_text (l : list Z) :
  ∀ acc, foldl (λ t x, t +:+ Py.str x +:+ Py.nl) acc l = acc +:+ entries_text l.
Proof.
  induction l as [|x l IH]; intros acc; simpl.
  - by rewrite append_nil_r.
  - by rewrite IH, !string_app_assoc.
Qed.

Lemma splitlines_entries (l : list Z) t :
  splitlines_go "" (entries_text l +:+ t) = (Py.str <$> l) ++ splitlines_go "" t.
Proof.
  induction l as [|x l IH]; [done|]. simpl.
  rewrite !string_app_assoc, splitlines_go_app by apply str_no_break.
  by rewrite splitlines_go_nl, append_nil, IH.
Qed.

Lemma labelList_lines object_name (b : labelList) :
  no_break object_name = true →
  splitlines (labelList_text object_name b)
  = header_lines "labelList" object_name
    ++ [""; Py.str (count_line b); "("] ++ (Py.str <$> entries b) ++ [")"].
Proof.
  intros Ho. unfold splitlines, labelList_text.
  rewrite splitlines_header by done.
  rewrite splitlines_go_nl.
  rewrite splitlines_go_app by apply str_no_break.
  rewrite splitlines_go_nl, append_nil.
  rewrite (splitlines_go_app _ "(") by reflexivity.
  rewrite splitlines_go_nl, append_nil.
  rewrite foldl_entries_text, append_nil, splitlines_entries.
  rewrite (splitlines_go_app _ ")") by reflexivity.
  done.
Qed.

Lemma labelList_read_back object_name (b : labelList) :
  no_break object_name = true →
  polymesh_get_intlist (labelList_text object_name b)
  = filter (λ x, 0 ≤ x) (entries b).
Proof.
  intros Ho. unfold polymesh_get_intlist. rewrite labelList_lines by done.
  rewrite foldl_app, header_lines_skipped. cbn [foldl app].
  rewrite (intlist_step_outside _ "") by done.
  rewrite intlist_step_outside by apply str_not_paren.
  rewrite intlist_step_open, foldl_app, intlist_entries. done.
Qed.

(** X15.  Export, then import of the text: [polymesh_get_intlist]
    reads from the owner block that [update_text_owner_neighbour]
    writes the owner of every face that is not deleted, in storage
    order, and from the neighbour block the neighbours of the internal
    faces, except that an entry that is negative (a face whose owner
    was never set has [-1]) is skipped. *)
Theorem owner_neighbour_text_read_back (st : ug) :
  polymesh_get_intlist (update_text_owner_neighbour st).1
  = filter (λ x, 0 ≤ x) (UGFace.owneri <$> internal_faces st) ∧
  polymesh_get_intlist (update_text_owner_neighbour st).2
  = filter (λ x, 0 ≤ x) (UGFace.neighbouri <$> neighbour_faces st).
Proof.
  unfold update_text_owner_neighbour. cbn [fst snd].
  by rewrite !labelList_read_back.
Qed.

End text_round_trip.


(** ** PolyMesh: reading back the exported faces block *)

Module faces_text.
Import io_polymesh io_polymesh_text text_round_trip face_numbering.

(** *** The line of a face *)

(** The text between the parentheses and the whole line, for the
    vertices [init ++ [x]]. *)
Definition row_body (init : list Z) (x : Z) : string :=
  foldr (λ v t, Py.str v +:+ " " +:+ t) (Py.str x) init.

Definition face_row (init : list Z) (x : Z) : string :=
  Py.str (Z.of_nat (S (length init))) +:+ "(" +:+ row_body init x +:+ ")".

Lemma foldl_row (init : list Z) (t : string) :
  ∀ acc, foldl (λ line v, line +:+ Py.str v +:+ " ") acc init +:+ t
         = acc +:+ foldr (λ v t, Py.str v +:+ " " +:+ t) t init.
Proof.
  induction init as [|v init IH]; intros acc; [done|].
  simpl. by rewrite IH, !string_app_assoc.
Qed.

Lemma foldr_row_app (init : list Z) (s t : string) :
  foldr (λ v t, Py.str v +:+ " " +:+ t) (s +:+ t) init
  = foldr (λ v t, Py.str v +:+ " " +:+ t) s init +:+ t.
Proof.
  induction init as [|v init IH]; [done|]. simpl. by rewrite IH, !string_app_assoc.
Qed.

Lemma getitem_last_app {A} (l : list A) (x : A) : Py.getitem (l ++ [x]) (-1) = Py.Ok x.
Proof.
  unfold Py.getitem, Py.position. rewrite length_app. cbn [length]. cbv zeta.
  destruct (decide (-1 < 0)) as [_|]; [|lia]. rewrite decide_True by lia.
  replace (Z.to_nat (-1 + Z.of_nat (length l + 1))) with (length l) by lia.
  by rewrite lookup_app_r, Nat.sub_diag by lia.
Qed.

Lemma gen_line_row (init : list Z) (x : Z) :
  gen_line (init ++ [x]) = Py.Ok (face_row init x +:+ Py.nl).
Proof.
  unfold gen_line, face_row, row_body. rewrite getitem_last_app.
  rewrite length_app. simpl length.
  replace (length init + 1 - 1)%nat with (length init) by lia.
  rewrite take_app_length, Nat.add_1_r. f_equal.
  rewrite foldl_row, !string_app_assoc. do 2 f_equal.
  by rewrite <- !foldr_row_app.
Qed.

Lemma nonempty_last {A} (l : list A) : l ≠ [] → ∃ init x, l = init ++ [x].
Proof.
  induction l as [|y l IH] using rev_ind; [done|]. intros _. by exists l, y.
Qed.

(** *** Reading a line *)

Fixpoint all_chars (p : ascii → bool) (s : string) : bool :=
  match s with
  | EmptyString => true
  | String c s' => p c && all_chars p s'
  end.

Lemma all_chars_app p s t :
  all_chars p (s +:+ t) = all_chars p s && all_chars p t.
Proof.
  induction s as [|c s IH]; [done|].
  rewrite append_cons. simpl. by rewrite IH, andb_assoc.
Qed.

Lemma digits_all_chars s : digits_only s = all_chars is_digit s.
Proof. induction s as [|c s IH]; [done|]. simpl. by rewrite IH. Qed.

Lemma all_chars_weaken (p q : ascii → bool) s :
  (∀ c, p c = true → q c = true) → all_chars p s = true → all_chars q s = true.
Proof.
  intros Hpq. induction s as [|c s IH]; [done|]. simpl.
  intros [Hc Hs]%andb_true_iff. by rewrite (Hpq _ Hc), IH.
Qed.

Lemma span_all p s c t :
  all_chars p s = true → p c = false → span p (s +:+ String c t) = (s, String c t).
Proof.
  intros Hs Hc. induction s as [|c' s IH].
  - rewrite append_nil. simpl. by rewrite Hc.
  - simpl in Hs. apply andb_true_iff in Hs as [Hc' Hs].
    rewrite append_cons. simpl. by rewrite Hc', (IH Hs).
Qed.

Definition group_char (c : ascii) : bool := is_digit c || is_space c.

Lemma str_group_chars (x : Z) : 0 ≤ x → all_chars group_char (Py.str x) = true.
Proof.
  intros Hx. apply (all_chars_weaken is_digit).
  - intros c Hc. unfold group_char. by rewrite Hc.
  - rewrite <- digits_all_chars. by apply str_digits.
Qed.

Lemma row_body_chars (init : list Z) (x : Z) :
  Forall (λ v, 0 ≤ v) init → 0 ≤ x → all_chars group_char (row_body init x) = true.
Proof.
  intros Hinit Hx. unfold row_body.
  induction Hinit as [|v init Hv _ IH]; simpl.
  - by apply str_group_chars.
  - rewrite !all_chars_app, IH, str_group_chars by done. done.
Qed.

Lemma append_nonempty s t : s ≠ "" → s +:+ t ≠ "".
Proof. destruct s; [done|]. by rewrite append_cons. Qed.

Lemma row_body_nonempty (init : list Z) (x : Z) :
  Forall (λ v, 0 ≤ v) init → 0 ≤ x → row_body init x ≠ "".
Proof.
  intros Hinit Hx. unfold row_body. destruct Hinit as [|v init Hv _]; simpl.
  - by apply str_digits.
  - by apply append_nonempty, str_digits.
Qed.

Lemma eqb_nonempty s : s ≠ "" → String.eqb s "" = false.
Proof. intros Hs. by destruct (String.eqb_spec s "") as [->|]. Qed.

Lemma list_group_row (init : list Z) (x : Z) :
  Forall (λ v, 0 ≤ v) init → 0 ≤ x →
  list_group (face_row init x) = Some (row_body init x).
Proof.
  intros Hinit Hx. unfold list_group, face_row.
  destruct (str_digits (Z.of_nat (S (length init)))) as [Hd Hne]; [lia|].
  rewrite digits_all_chars in Hd.
  change ("(" +:+ row_body init x +:+ ")")
    with (String "(" (row_body init x +:+ String ")" "")).
  rewrite (span_all _ _ _ _ Hd) by done.
  rewrite (eqb_nonempty _ Hne). cbv beta iota.
  change (Ascii.eqb "(" "(") with true. cbv beta iota.
  fold group_char.
  rewrite (span_all group_char) by (by apply row_body_chars || done).
  by rewrite (eqb_nonempty _ (row_body_nonempty _ _ Hinit Hx)).
Qed.

(** *** Splitting the numbers *)

Lemma split_go_app cur s t :
  all_chars (λ c, negb (is_space c)) s = true →
  split_go cur (s +:+ t) = split_go (cur +:+ s) t.
Proof.
  revert cur. induction s as [|c s IH]; intros cur Hs.
  - by rewrite append_nil, append_nil_r.
  - simpl in Hs. apply andb_true_iff in Hs as [Hc Hs]. apply negb_true_iff in Hc.
    rewrite append_cons. cbn [split_go]. rewrite Hc, (IH _ Hs).
    by rewrite string_app_assoc, append_cons, append_nil.
Qed.

Lemma digit_not_space c : is_digit c = true → negb (is_space c) = true.
Proof.
  unfold is_digit, is_space, one_of. simpl.
  destruct (nat_of_ascii c) as [|n]; [done|].
  do 57 (destruct n as [|n]; [done|]). done.
Qed.

Lemma str_no_space (x : Z) :
  0 ≤ x → all_chars (λ c, negb (is_space c)) (Py.str x) = true.
Proof.
  intros Hx. apply (all_chars_weaken is_digit); [apply digit_not_space|].
  rewrite <- digits_all_chars. by apply str_digits.
Qed.

Lemma split_row_body (init : list Z) (x : Z) :
  Forall (λ v, 0 ≤ v) init → 0 ≤ x →
  split (row_body init x) = Py.str <$> (init ++ [x]).
Proof.
  intros Hinit Hx. unfold split, row_body.
  induction Hinit as [|v init Hv _ IH]; simpl.
  - rewrite <- (append_nil_r (Py.str x)) at 1.
    rewrite split_go_app by (by apply str_no_space).
    rewrite append_nil. simpl.
    by rewrite (eqb_nonempty _ (proj2 (str_digits x Hx))).
  - rewrite split_go_app by (by apply str_no_space).
    rewrite append_nil.
    change (" " +:+ ?t) with (String " " t). cbn [split_go].
    change (is_space " ") with true. cbv beta iota.
    by rewrite (eqb_nonempty _ (proj2 (str_digits v Hv))), IH.
Qed.

Lemma int_str_list (l : list Z) :
  Forall (λ v, 0 ≤ v) l → int <$> (Py.str <$> l) = l.
Proof.
  induction 1 as [|v l Hv _ IH]; [done|]. by rewrite !fmap_cons, int_str, IH.
Qed.

(** *** The reader of a list of integer lists *)

Lemma list_intlist_step_outside iList line :
  starts_with "(" line = false →
  list_intlist_step (false, iList) line = (false, iList).
Proof.
  intros Hline. unfold list_intlist_step, inside_after. rewrite Hline.
  destruct (starts_with ")" line); by destruct (list_group line).
Qed.

Lemma face_row_no_break (init : list Z) (x : Z) : no_break (face_row init x) = true.
Proof.
  unfold face_row, row_body.
  apply no_break_app; [apply str_no_break|].
  apply (no_break_app "("); [done|].
  apply no_break_app; [|done].
  induction init as [|v init IH]; simpl; [apply str_no_break|].
  apply no_break_app; [apply str_no_break|]. by apply (no_break_app " ").
Qed.

Lemma list_intlist_step_row iList (init : list Z) (x : Z) :
  Forall (λ v, 0 ≤ v) init → 0 ≤ x →
  list_intlist_step (true, iList) (face_row init x) = (true, iList ++ [init ++ [x]]).
Proof.
  intros Hinit Hx. unfold list_intlist_step.
  rewrite list_group_row, split_row_body by done.
  rewrite int_str_list by (apply Forall_app; split; [done | by constructor]).
  assert (inside_after true (face_row init x) = true) as ->; [|done].
  unfold inside_after, face_row.
  destruct (str_digits (Z.of_nat (S (length init)))) as [Hd Hne]; [lia|].
  destruct (Py.str (Z.of_nat (S (length init)))) as [|c s]; [done|].
  simpl in Hd. apply andb_true_iff in Hd as [Hc _].
  rewrite append_cons. simpl.
  destruct (digit_not_paren c Hc) as [-> ->]. done.
Qed.

(** A face whose line can be read back. *)
Definition readable (f : UGFace.t) : Prop :=
  UGFace.verts f ≠ [] ∧ Forall (λ v, 0 ≤ v) (UGFace.verts f).

Definition lines_text (fs : list UGFace.t) (rest : string) : string :=
  foldr (λ f t, face_line f +:+ t) rest fs.

Lemma foldl_face_lines (fs : list UGFace.t) :
  ∀ acc, foldl (λ t f, t +:+ face_line f) acc fs = acc +:+ lines_text fs "".
Proof.
  induction fs as [|f fs IH]; intros acc; simpl.
  - by rewrite append_nil_r.
  - by rewrite IH, string_app_assoc.
Qed.

Lemma lines_text_app (fs : list UGFace.t) (s t : string) :
  lines_text fs s +:+ t = lines_text fs (s +:+ t).
Proof.
  induction fs as [|f fs IH]; [done|]. simpl. by rewrite string_app_assoc, IH.
Qed.

Lemma read_face_lines (fs : list UGFace.t) (rest : string) :
  Forall readable fs →
  ∀ iList,
    foldl list_intlist_step (true, iList) (splitlines_go "" (lines_text fs rest))
    = foldl list_intlist_step (true, iList ++ (UGFace.verts <$> fs))
            (splitlines_go "" rest).
Proof.
  induction 1 as [|f fs [Hne Hpos] _ IH]; intros iList.
  - simpl. by rewrite app_nil_r.
  - destruct (nonempty_last _ Hne) as (init & x & Hverts).
    rewrite Hverts in Hpos. apply Forall_app in Hpos as [Hinit Hx].
    apply Forall_cons in Hx as [Hx _].
    simpl. unfold face_line at 1. rewrite Hverts, gen_line_row.
    rewrite string_app_assoc.
    rewrite splitlines_go_app by apply face_row_no_break.
    rewrite splitlines_go_nl, append_nil. cbn [foldl].
    rewrite list_intlist_step_row by done.
    rewrite IH, <- app_assoc. done.
Qed.

Lemma list_header_lines_skipped class_name object_name :
  foldl list_intlist_step (false, []) (header_lines class_name object_name)
  = (false, []).
Proof.
  unfold header_lines. cbn [foldl].
  by rewrite !list_intlist_step_outside by reflexivity.
Qed.

Lemma chosen_readable (st : ug) b :
  well_formed st →
  (∀ f, f ∈ ugfaces st → UGFace.deleted f = false →
        Forall (λ v, 0 ≤ v) (UGFace.verts f)) →
  Forall readable (chosen b (ugfaces st)).
Proof.
  intros Hwf Hpos. apply Forall_forall. intros f [Hsel Hin]%list_elem_of_filter.
  unfold selected in Hsel. apply andb_true_iff in Hsel as [Hd _].
  apply negb_true_iff in Hd. split; [by apply Hwf | by apply Hpos].
Qed.

(** Reading the text of a faces block. *)
Lemma faces_block_read (l : list UGFace.t) (n : Z) :
  Forall readable (chosen true l) → Forall readable (chosen false l) →
  polymesh_get_list_intlist
    (of_file_header "faceList" "faces" +:+ Py.nl
     +:+ Py.str n +:+ Py.nl +:+ "(" +:+ Py.nl
     +:+ lines true "" l +:+ lines false "" l +:+ ")" +:+ Py.nl)
  = (UGFace.verts <$> chosen true l) ++ (UGFace.verts <$> chosen false l).
Proof.
  intros Htrue Hfalse.
  unfold polymesh_get_list_intlist, splitlines, lines.
  rewrite splitlines_header by done.
  rewrite splitlines_go_nl.
  rewrite splitlines_go_app by apply str_no_break.
  rewrite splitlines_go_nl, append_nil.
  rewrite (splitlines_go_app _ "(") by reflexivity.
  rewrite splitlines_go_nl, append_nil.
  rewrite !foldl_face_lines, !append_nil, !lines_text_app, !append_nil.
  rewrite foldl_app, list_header_lines_skipped. cbn [foldl].
  rewrite (list_intlist_step_outside _ "") by done.
  rewrite list_intlist_step_outside by apply str_not_paren.
  change (list_intlist_step (false, []) "(") with (true, @nil (list Z)).
  rewrite read_face_lines by done.
  rewrite read_face_lines by done.
  done.
Qed.

(** X16.  Export, then import of the text: for a store that is well
    formed for the export of the faces and whose faces name no
    negative vertex, [polymesh_get_list_intlist] reads from the text
    [update_text_faces] writes the vertex lists of the internal faces
    and then those of the boundary faces, each group in storage
    order, the faces that are deleted left out. *)
Theorem faces_text_read_back (st : ug) :
  well_formed st →
  (∀ f, f ∈ ugfaces st → UGFace.deleted f = false →
        Forall (λ v, 0 ≤ v) (UGFace.verts f)) →
  ∃ st' text,
    update_text_faces st = (st', Py.Ok text) ∧
    polymesh_get_list_intlist text
    = (UGFace.verts <$> chosen true (ugfaces st))
      ++ (UGFace.verts <$> chosen false (ugfaces st)).
Proof.
  intros Hwf Hpos.
  destruct (update_text_faces_run st (well_formed_exportable st Hwf))
    as (st' & Hrun & _ & _).
  exists st'. eexists. split; [exact Hrun|].
  apply faces_block_read; by apply chosen_readable.
Qed.

Lemma faces_text_read_back_witness :
  ∃ st' text,
    update_text_faces mixed_faces = (st', Py.Ok text) ∧
    polymesh_get_list_intlist text = [[0; 1; 2]; [0; 1; 3]].
Proof.
  apply (faces_text_read_back mixed_faces).
  - intros f Hin Hd. simpl in Hin.
    rewrite !elem_of_cons, elem_of_nil in Hin.
    destruct Hin as [->|[->|[->|[]]]]; simpl in *; done.
  - intros f Hin Hd. simpl in Hin.
    rewrite !elem_of_cons, elem_of_nil in Hin.
    destruct Hin as [->|[->|[->|[]]]]; simpl in *;
      try done; repeat constructor; lia.
Defined.

End faces_text.


(** ** PolyMesh: export of the topology, then import of the texts *)

Module polymesh_files.
Import io_polymesh io_polymesh_text polymesh_import polymesh_roundtrip.
Import face_numbering text_round_trip faces_text.

Lemma fmap_filter_renumber {B} (g : UGFace.t → B) (P : UGFace.t → Prop)
    `{!∀ f, Decision (P f)} b l :
  (∀ f i, P (UGFace.set_facei i f) ↔ P f) →
  (∀ f i, g (UGFace.set_facei i f) = g f) →
  ∀ i, g <$> filter P (renumber b i l) = g <$> filter P l.
Proof.
  intros HP Hg. induction l as [|f l IH]; intros i; [done|]. simpl.
  destruct (selected b f).
  - destruct (decide (P f)) as [Hf|Hf].
    + rewrite !filter_cons_True by (by try apply HP).
      by rewrite !fmap_cons, Hg, IH.
    + rewrite !filter_cons_False by (by try rewrite HP). apply IH.
  - destruct (decide (P f)) as [Hf|Hf].
    + rewrite !filter_cons_True by done. by rewrite !fmap_cons, IH.
    + rewrite !filter_cons_False by done. apply IH.
Qed.

(** What the round trip needs of the faces: the internal faces are
    stored before the boundary faces and none is deleted; owners,
    neighbours and vertices are not negative, and no cell index is
    above [m]. *)
Definition internal_first (l : list UGFace.t) : Prop :=
  chosen true l ++ chosen false l = l.

Definition indices_in_range (m : Z) (f : UGFace.t) : Prop :=
  0 ≤ UGFace.owneri f ∧
  Forall (λ v, 0 ≤ v) (UGFace.verts f) ∧
  (UGFace.neighbouri f = -1 ∨ 0 ≤ UGFace.neighbouri f ≤ m).

Lemma internal_first_alive l f : internal_first l → f ∈ l → UGFace.deleted f = false.
Proof.
  intros Hl Hin. rewrite <- Hl in Hin.
  apply elem_of_app in Hin as [Hin|Hin];
    apply list_elem_of_filter in Hin as [Hsel _];
    unfold selected in Hsel; apply andb_true_iff in Hsel as [Hd _];
    by apply negb_true_iff in Hd.
Qed.

Lemma neighbour_faces_chosen l :
  filter (λ f, UGFace.neighbouri f ≠ -1 ∧ UGFace.deleted f = false) l = chosen true l.
Proof.
  unfold chosen. apply boundary_tiling.filter_agree, Forall_forall.
  intros f _. unfold selected. rewrite andb_true_iff, negb_true_iff.
  rewrite bool_decide_eq_true. tauto.
Qed.

Lemma filter_nonneg (l : list Z) :
  Forall (λ x, 0 ≤ x) l → filter (λ x, 0 ≤ x) l = l.
Proof. apply filter_all. Qed.

(** X17.  Export, then import through the texts: for a store that is
    well formed for the export, with the internal faces stored first,
    no face deleted and no negative index, the texts of the faces, the
    owners and the neighbours that the export writes are read by
    [polymesh_get_faces] into an empty store without error, and the
    faces it makes have, position by position, the vertices, the
    owner and the neighbour of the faces that were exported, and
    [max(owner) + 1] cells exist. *)
Theorem polymesh_topology_round_trip (gen_edges : bool) (st : ug) (m : Z) :
  well_formed st →
  internal_first (ugfaces st) →
  Forall (indices_in_range m) (ugfaces st) →
  Py.max (UGFace.owneri <$> ugfaces st) = Py.Ok m →
  ∃ st1 text_faces st2 r,
    update_text_faces st = (st1, Py.Ok text_faces) ∧
    polymesh_get_faces_from_text gen_edges
      (update_text_owner_neighbour st1).1 (update_text_owner_neighbour st1).2
      text_faces ug_empty
    = (st2, Py.Ok r) ∧
    length (ugcells st2) = Z.to_nat (m + 1) ∧
    length (ugfaces st2) = length (ugfaces st) ∧
    ∀ i f, ugfaces st !! i = Some f →
      ugfaces st2 !! i
      = Some (UGFace.mk (Z.of_nat i) (UGFace.verts f) (UGFace.owneri f)
                        (UGFace.neighbouri f) None false).
Proof.
  intros Hwf Hfirst Hrange Hmax.
  assert (∀ f, f ∈ ugfaces st → UGFace.deleted f = false) as Halive.
  { intros f. by apply internal_first_alive. }
  rewrite Forall_forall in Hrange.
  destruct (update_text_faces_run st (well_formed_exportable st Hwf))
    as (st1 & Hrun & _ & Hfs).
  assert (∀ f, f ∈ ugfaces st → UGFace.deleted f = false →
               Forall (λ v, 0 ≤ v) (UGFace.verts f)) as Hverts.
  { intros f Hin _. by apply Hrange. }
  pose proof (faces_block_read (ugfaces st)
                (Z.of_nat (length (internal_faces st)))
                (chosen_readable st true Hwf Hverts)
                (chosen_readable st false Hwf Hverts)) as Hread.
  rewrite <- !fmap_app, Hfirst in Hread.
  assert (∀ f, f ∈ chosen true (ugfaces st) → 0 ≤ UGFace.neighbouri f ≤ m) as Hnb.
  { intros f [Hsel Hin]%list_elem_of_filter.
    unfold selected in Hsel. apply andb_true_iff in Hsel as [_ Hn].
    apply bool_decide_eq_true in Hn.
    destruct (Hrange f Hin) as (_ & _ & [?|?]); [done | done]. }
  assert (polymesh_get_intlist (update_text_owner_neighbour st1).1
          = UGFace.owneri <$> ugfaces st) as Howner.
  { unfold update_text_owner_neighbour. cbn [fst].
    rewrite labelList_read_back by done.
    unfold owner_block. cbn [entries]. unfold internal_faces.
    rewrite Hfs, !(fmap_filter_renumber UGFace.owneri) by done.
    rewrite (filter_all (λ f, UGFace.deleted f = false))
      by (apply Forall_forall; exact Halive).
    apply filter_nonneg, Forall_fmap, Forall_forall.
    intros f Hin. by apply Hrange. }
  assert (polymesh_get_intlist (update_text_owner_neighbour st1).2
          = UGFace.neighbouri <$> chosen true (ugfaces st)) as Hneighbour.
  { unfold update_text_owner_neighbour. cbn [snd].
    rewrite labelList_read_back by done.
    unfold neighbour_block. cbn [entries]. unfold neighbour_faces.
    rewrite Hfs, !(fmap_filter_renumber UGFace.neighbouri) by done.
    rewrite neighbour_faces_chosen.
    apply filter_nonneg, Forall_fmap, Forall_forall.
    intros f Hin. by apply Hnb. }
  destruct (polymesh_get_faces_run gen_edges
              (UGFace.owneri <$> ugfaces st)
              (UGFace.neighbouri <$> chosen true (ugfaces st))
              (UGFace.verts <$> ugfaces st) m ug_empty)
    as (st2 & edges & Hrun2 & Hfaces2 & _).
  { done. }
  { apply Forall_fmap, Forall_forall. intros f Hin. by apply Hrange. }
  { apply Forall_fmap, Forall_forall. intros f Hin. by apply Hnb. }
  { by rewrite !length_fmap. }
  { intros i n _ Hn. simpl. rewrite list_lookup_fmap in Hn.
    destruct (chosen true (ugfaces st) !! i) as [f|] eqn:Hf; [|done].
    injection Hn as <-.
    assert (f ∈ chosen true (ugfaces st)) as Hin by (by eapply list_elem_of_lookup_2).
    pose proof (Hnb f Hin). lia. }
  exists st1. eexists. exists st2. eexists. split_and!.
  - exact Hrun.
  - unfold polymesh_get_faces_from_text.
    rewrite Howner, Hneighbour, Hread. exact Hrun2.
  - by rewrite (polymesh_get_faces_cells _ _ _ _ m _ _ _ Hmax Hrun2).
  - rewrite Hfaces2. simpl. by rewrite !length_fmap, length_seq.
  - intros i f Hf. pose proof (lookup_lt_Some _ _ _ Hf) as Hi.
    rewrite Hfaces2. simpl.
    rewrite list_lookup_fmap, lookup_seq_lt by (by rewrite length_fmap).
    simpl. unfold imported_face. rewrite !list_lookup_fmap, Hf. simpl.
    do 2 f_equal.
    assert ((chosen true (ugfaces st) ++ chosen false (ugfaces st)) !! i = Some f)
      as Hf' by (by rewrite Hfirst).
    apply lookup_app_Some in Hf' as [Hf'|[Hge Hf']].
    + by rewrite Hf'.
    + rewrite lookup_ge_None_2 by done. simpl.
      apply list_elem_of_lookup_2, list_elem_of_filter in Hf' as [Hsel _].
      unfold selected in Hsel. apply andb_true_iff in Hsel as [_ Hn].
      by apply bool_decide_eq_true in Hn.
Qed.

(** Two cells with one face between them and two boundary faces. *)
Definition two_cells : ug :=
  mk_ug [UGCell.mk [0; 1] (-1); UGCell.mk [0; 2] (-1)]
        [UGFace.mk 0 [0; 1; 2] 0 1 None false;
         UGFace.mk 1 [0; 1; 3] 0 (-1) None false;
         UGFace.mk 2 [1; 2; 4] 1 (-1) None false]
        [].

Lemma polymesh_topology_round_trip_witness :
  ∃ st1 text_faces st2 r,
    update_text_faces two_cells = (st1, Py.Ok text_faces) ∧
    polymesh_get_faces_from_text false
      (update_text_owner_neighbour st1).1 (update_text_owner_neighbour st1).2
      text_faces ug_empty
    = (st2, Py.Ok r) ∧
    length (ugcells st2) = 2%nat ∧
    length (ugfaces st2) = 3%nat ∧
    ∀ i f, ugfaces two_cells !! i = Some f →
      ugfaces st2 !! i
      = Some (UGFace.mk (Z.of_nat i) (UGFace.verts f) (UGFace.owneri f)
                        (UGFace.neighbouri f) None false).
Proof.
  apply (polymesh_topology_round_trip false two_cells 1).
  - intros f Hin Hd. simpl in Hin.
    rewrite !elem_of_cons, elem_of_nil in Hin.
    destruct Hin as [->|[->|[->|[]]]]; simpl in *; done.
  - reflexivity.
  - repeat constructor; simpl; lia.
  - reflexivity.
Defined.

End polymesh_files.


(** ** PolyMesh import: where it stops *)

Module polymesh_import_errors.
Import io_polymesh polymesh_import.

Section get_faces.
Context (gen_edges : bool).
Context (owner neighbour : list Z) (face_verts : list (list Z)).

Local Abbreviation face_step := (face_step gen_edges owner neighbour face_verts).
Local Abbreviation face_loop := (face_loop gen_edges owner neighbour face_verts).
Local Abbreviation imported := (imported_face owner neighbour face_verts).

(** The faces below [a] are imported when these have owners and
    neighbours that exist. *)
Lemma face_loop_upto (st : ug) (a : nat) :
  (a ≤ length face_verts)%nat → (a ≤ length owner)%nat →
  (∀ i o, (i < a)%nat → owner !! i = Some o →
          0 ≤ o < Z.of_nat (length (ugcells st))) →
  (∀ i n, (i < a)%nat → neighbour !! i = Some n →
          0 ≤ n < Z.of_nat (length (ugcells st))) →
  ∃ st' acc,
    face_loop (Py.range (Z.of_nat a)) ([], []) st = (st', Py.Ok acc) ∧
    ugfaces st' = ugfaces st ++ (imported <$> seq 0 a) ∧
    length (ugcells st') = length (ugcells st).
Proof.
  intros Ha Hao Hor Hnr. induction a as [|a IH].
  - exists st, ([], []). split_and!; [done| |done]. simpl. by rewrite app_nil_r.
  - destruct IH as (st1 & [edges1 faces1] & Hrun & Hfaces & Hcl);
      [lia | lia | intros; eapply Hor; [|done]; lia
      | intros; eapply Hnr; [|done]; lia |].
    destruct (lookup_lt_is_Some_2 face_verts a) as [fv Hfv]; [lia|].
    destruct (lookup_lt_is_Some_2 owner a) as [o Ho]; [lia|].
    destruct (face_step_run gen_edges owner neighbour face_verts a fv o
                edges1 faces1 st1 Hfv Ho) as [edges2 Hstep].
    { rewrite Hcl. apply (Hor a); [lia | done]. }
    { intros n Hn. rewrite Hcl. apply (Hnr a); [lia | done]. }
    eexists _, _. split_and!.
    + rewrite range_of_nat, seq_S, fmap_app, <- range_of_nat.
      rewrite face_loop_app, Hrun. cbv beta iota.
      change (Z.of_nat <$> [(0 + a)%nat]) with [Z.of_nat a].
      rewrite face_loop_singleton. exact Hstep.
    + cbn [ugfaces]. by rewrite Hfaces, seq_S, fmap_app, app_assoc.
    + cbn [ugcells]. by rewrite attach_face_length.
Qed.

(** The face [a] has no owner entry. *)
Lemma face_step_no_owner (a : nat) fv acc st :
  face_verts !! a = Some fv → owner !! a = None →
  face_step (Z.of_nat a) acc st
  = (with_faces (λ l, l ++ [UGFace.new (Z.of_nat a) fv]) st, Py.Raise Py.IndexError).
Proof.
  intros Hfv Ho. destruct acc as [edges faces].
  unfold io_polymesh.face_step, mbind, M_bind, Py.bind, Py.lift, Py.get, Py.modify.
  rewrite (getitem_lookup _ _ _ Hfv). cbv beta iota.
  apply lookup_ge_None_1 in Ho.
  unfold Py.getitem, Py.position. cbv zeta.
  destruct (decide (Z.of_nat a < 0)); [lia|].
  by rewrite decide_False by lia.
Qed.

(** The face [a] has a neighbour entry without a cell. *)
Lemma face_step_no_neighbour_cell (a : nat) fv o n acc st :
  face_verts !! a = Some fv → owner !! a = Some o → neighbour !! a = Some n →
  0 ≤ o < Z.of_nat (length (ugcells st)) →
  Z.of_nat (length (ugcells st)) ≤ n →
  face_step (Z.of_nat a) acc st
  = (mk_ug (alter (UGCell.append_face (Z.of_nat a)) (Z.to_nat o) (ugcells st))
           (ugfaces st ++ [UGFace.mk (Z.of_nat a) fv o n None false])
           (ugboundaries st),
     Py.Raise Py.IndexError).
Proof.
  intros Hfv Ho Hn Hor Hnr. destruct acc as [edges faces].
  destruct st as [cells fs bs]. simpl in *.
  unfold io_polymesh.face_step.
  unfold mbind, M_bind, Py.bind, Py.lift, Py.get, Py.modify, mret, M_ret, Py.ret.
  rewrite (getitem_lookup _ _ _ Hfv). simpl.
  rewrite (getitem_lookup _ _ _ Ho). simpl.
  unfold update_cell, with_faces, with_cells. simpl.
  rewrite dedup.alter_app_last.
  rewrite setitem_with_Ok by done. simpl.
  pose proof (lookup_lt_Some _ _ _ Hn) as Hlt.
  rewrite decide_True by lia.
  rewrite (getitem_lookup _ _ _ Hn). simpl.
  rewrite dedup.alter_app_last.
  unfold Py.setitem_with, Py.position. rewrite length_alter. cbv zeta.
  destruct (decide (n < 0)); [lia|].
  by rewrite decide_False by lia.
Qed.

(** X18.  The import stops at the first face that has no owner
    entry, or whose neighbour entry names a cell that does not
    exist (the cells are those of the store and [max(owner) + 1] new
    ones): [polymesh_get_faces] raises [IndexError] there, the faces
    before it are imported, and the record of the face itself stays
    in the store, without owner in the first case and with both
    indices set in the second. *)
Theorem polymesh_get_faces_stops_at_face
    (m : Z) (st0 : ug) (a : nat) (fv : list Z) :
  Py.max owner = Py.Ok m →
  Forall (λ o, 0 ≤ o) owner →
  Forall (λ n, 0 ≤ n) neighbour →
  face_verts !! a = Some fv →
  (a ≤ length owner)%nat →
  (∀ i n, (i < a)%nat → neighbour !! i = Some n →
          n < Z.of_nat (length (ugcells st0)) + (m + 1)) →
  owner !! a = None
  ∨ (∃ n, neighbour !! a = Some n ∧
          Z.of_nat (length (ugcells st0)) + (m + 1) ≤ n) →
  ∃ st',
    polymesh_get_faces gen_edges owner neighbour face_verts st0
    = (st', Py.Raise Py.IndexError) ∧
    ugfaces st'
    = ugfaces st0 ++ (imported <$> seq 0 a)
      ++ [UGFace.mk (Z.of_nat a) fv (default (-1) (owner !! a))
            (match owner !! a with
             | Some _ => default (-1) (neighbour !! a)
             | None => -1
             end) None false].
Proof.
  intros Hmax Hopos Hnpos Hfv Hao Hnr Hbad.
  pose proof (lookup_lt_Some _ _ _ Hfv) as Ha.
  assert (∀ y, y ∈ owner → y ≤ m) as Hle.
  { destruct owner as [|x l]; [done|]. injection Hmax as <-.
    destruct (foldl_max_le l x) as [Hx Hl].
    intros y [->|Hy]%elem_of_cons; auto. }
  assert (0 ≤ m) as Hm.
  { destruct owner as [|x l]; [done|].
    apply Forall_cons in Hopos as [Hx _].
    assert (x ≤ m) by (apply Hle; by left). lia. }
  set (st1 := with_cells (λ l, l ++ (UGCell.new <$> Py.range (m + 1))) st0).
  assert (Z.of_nat (length (ugcells st1))
          = Z.of_nat (length (ugcells st0)) + (m + 1)) as Hcl1.
  { unfold st1, with_cells, Py.range. simpl.
    rewrite length_app, !length_fmap, length_seq. lia. }
  assert (∀ i o, owner !! i = Some o → 0 ≤ o < Z.of_nat (length (ugcells st1)))
    as Hor.
  { intros i o Ho. rewrite Hcl1.
    assert (o ∈ owner) as Hin by (by eapply list_elem_of_lookup_2).
    pose proof (Hle _ Hin). rewrite Forall_forall in Hopos.
    pose proof (Hopos _ Hin). lia. }
  destruct (face_loop_upto st1 a) as (st2 & acc & Hrun & Hfaces & Hcl).
  { lia. }
  { done. }
  { intros i o _. apply Hor. }
  { intros i n Hi Hn. rewrite Hcl1.
    assert (n ∈ neighbour) as Hin by (by eapply list_elem_of_lookup_2).
    rewrite Forall_forall in Hnpos. pose proof (Hnpos _ Hin).
    pose proof (Hnr _ _ Hi Hn). lia. }
  assert (Py.range (Z.of_nat (length face_verts))
          = Py.range (Z.of_nat a)
            ++ Z.of_nat a :: (Z.of_nat <$> seq (S a) (length face_verts - S a)))
    as Hrange.
  { rewrite !range_of_nat.
    replace (length face_verts) with (a + S (length face_verts - S a))%nat at 1
      by lia.
    by rewrite seq_app, fmap_app. }
  unfold polymesh_get_faces, mbind, M_bind, Py.bind, Py.lift.
  rewrite Hmax, creates_cells. fold st1.
  rewrite Hrange, face_loop_app, Hrun. cbv beta iota.
  cbn [io_polymesh.face_loop]. unfold mbind, M_bind, Py.bind.
  destruct (owner !! a) as [o|] eqn:Ho.
  - destruct Hbad as [?|(n & Hn & Hbig)]; [done|].
    rewrite (face_step_no_neighbour_cell a fv o n acc st2 Hfv Ho Hn).
    + eexists. split; [done|]. cbn [ugfaces].
      by rewrite Hfaces, Hn, <- app_assoc.
    + rewrite Hcl. by eapply Hor.
    + rewrite Hcl. lia.
  - rewrite (face_step_no_owner a fv acc st2 Hfv Ho).
    eexists. split; [done|]. cbn [ugfaces with_faces].
    by rewrite Hfaces, <- app_assoc.
Qed.
End get_faces.

(** Two cells of which the second owns no face: the neighbour entry
    of the first face names a cell that was not created. *)
Lemma polymesh_get_faces_stops_at_face_witness :
  ∃ st',
    polymesh_get_faces false [0; 0] [1] [[0; 1; 2]; [0; 1; 3]] ug_empty
    = (st', Py.Raise Py.IndexError) ∧
    ugfaces st' = [UGFace.mk 0 [0; 1; 2] 0 1 None false].
Proof.
  apply (polymesh_get_faces_stops_at_face false [0; 0] [1]
           [[0; 1; 2]; [0; 1; 3]] 0 ug_empty 0 [0; 1; 2]).
  - reflexivity.
  - repeat constructor; lia.
  - repeat constructor; lia.
  - reflexivity.
  - simpl. lia.
  - intros i n Hi. lia.
  - right. exists 1. split; [reflexivity | simpl; lia].
Defined.

End polymesh_import_errors.


(** ** PolyMesh: the boundary read, then written *)

Module boundary_round_trip.
Import io_polymesh face_numbering boundary_tiling.

(** [ugfaces[i].mati = mati] *)
Definition set_mati (k : Z) (f : UGFace.t) : UGFace.t :=
  UGFace.mk (UGFace.facei f) (UGFace.verts f) (UGFace.owneri f)
            (UGFace.neighbouri f) (Some k) (UGFace.deleted f).

(** The entry that repeats what a boundary holds. *)
Definition entry_of (b : UGBoundary.t) : patch_entry :=
  mk_patch_entry (UGBoundary.patchname b) (UGBoundary.typename b)
                 (UGBoundary.inGroups b) (UGBoundary.nFaces b)
                 (UGBoundary.startFace b).

(** The ranges of the patches follow one another from [s] to [e], no
    patch is deleted and none is empty. *)
Fixpoint tiles (bs : list UGBoundary.t) (s e : Z) : Prop :=
  match bs with
  | [] => s = e
  | b :: bs' =>
      UGBoundary.deleted b = false ∧ UGBoundary.startFace b = s ∧
      0 < UGBoundary.nFaces b ∧ tiles bs' (s + UGBoundary.nFaces b) e
  end.

(** The boundary faces once the patches from [j] on are applied. *)
Fixpoint paint (bs : list UGBoundary.t) (j : Z) (rest : list UGFace.t)
  : list UGFace.t :=
  match bs with
  | [] => rest
  | b :: bs' =>
      (set_mati j <$> take (Z.to_nat (UGBoundary.nFaces b)) rest)
      ++ paint bs' (j + 1) (drop (Z.to_nat (UGBoundary.nFaces b)) rest)
  end.

Lemma tiles_le bs : ∀ s e, tiles bs s e → s ≤ e.
Proof.
  induction bs as [|b bs IH]; intros s e; simpl; [lia|].
  intros (_ & _ & Hn & Ht). apply IH in Ht. lia.
Qed.

(** *** [apply_materials_to_boundaries] *)

Lemma assign_mati_block (k : Z) (blk : list UGFace.t) :
  ∀ pre post cells bnd,
    assign_mati (Z.of_nat <$> seq (length pre) (length blk)) k
                (mk_ug cells (pre ++ blk ++ post) bnd)
    = (mk_ug cells (pre ++ (set_mati k <$> blk) ++ post) bnd, Py.Ok tt).
Proof.
  induction blk as [|f blk IH]; intros pre post cells bnd; [done|].
  cbn [length seq]. rewrite fmap_cons. cbn [assign_mati].
  unfold mbind, M_bind, Py.bind, Py.get, Py.lift, Py.modify. cbn [ugfaces].
  rewrite setitem_with_Ok by (rewrite !length_app; simpl; lia).
  rewrite Nat2Z.id.
  rewrite (alter_app_r_alt _ pre) by lia. rewrite Nat.sub_diag.
  cbn [alter list_alter app]. unfold with_faces. cbn [ugcells ugboundaries].
  specialize (IH (pre ++ [set_mati k f]) post cells bnd).
  rewrite length_app in IH. simpl in IH.
  replace (length pre + 1)%nat with (S (length pre)) in IH by lia.
  rewrite <- !app_assoc in IH. simpl in IH.
  rewrite fmap_cons. simpl. exact IH.
Qed.

Lemma range2_seq (s n : nat) :
  range2 (Z.of_nat s) (Z.of_nat s + Z.of_nat n) = Z.of_nat <$> seq s n.
Proof.
  unfold range2, Py.range.
  replace (Z.of_nat s + Z.of_nat n - Z.of_nat s) with (Z.of_nat n) by lia.
  rewrite Nat2Z.id.
  assert (seq s n = Nat.add s <$> seq 0 n) as ->
    by (rewrite fmap_add_seq; f_equal; lia).
  rewrite <- !list_fmap_compose. apply list_fmap_ext. intros _ i _. simpl. lia.
Qed.

(** The material indices of the polygons once the patches from [j]
    on are applied. *)
Fixpoint fill (bs : list UGBoundary.t) (j : Z) (polygons : list Z) : list Z :=
  match bs with
  | [] => polygons
  | b :: bs' =>
      replicate (Z.to_nat (UGBoundary.nFaces b)) j
      ++ fill bs' (j + 1) (drop (Z.to_nat (UGBoundary.nFaces b)) polygons)
  end.

Lemma assign_polygons_block (k : Z) (indices : list Z) :
  ∀ pre post,
    (length indices ≤ length post)%nat →
    assign_polygons indices (pre ++ post) (Z.of_nat (length pre)) k
    = Py.Ok (pre ++ replicate (length indices) k ++ drop (length indices) post,
             Z.of_nat (length pre + length indices)).
Proof.
  induction indices as [|i indices IH]; intros pre post Hlen.
  - simpl. by rewrite Nat.add_0_r.
  - destruct post as [|p post]; [simpl in Hlen; lia|].
    cbn [assign_polygons].
    rewrite setitem_with_Ok by (rewrite length_app; simpl; lia).
    rewrite Nat2Z.id.
    rewrite (alter_app_r_alt _ pre) by lia. rewrite Nat.sub_diag.
    cbn [alter list_alter].
    specialize (IH (pre ++ [k]) post). rewrite length_app in IH. simpl in IH.
    replace (Z.of_nat (length pre) + 1) with (Z.of_nat (length pre + 1)) by lia.
    replace (pre ++ k :: post) with ((pre ++ [k]) ++ post) by (by rewrite <- app_assoc).
    rewrite IH by (simpl in Hlen; lia).
    simpl. rewrite <- app_assoc. simpl. do 2 f_equal. lia.
Qed.

Lemma apply_materials_loop_paint (bs : list UGBoundary.t) :
  ∀ j pre rest cells bnd ppre prest,
    tiles bs (Z.of_nat (length pre)) (Z.of_nat (length pre + length rest)) →
    (length rest ≤ length prest)%nat →
    apply_materials_loop bs j (Z.of_nat (length ppre)) (ppre ++ prest)
      (mk_ug cells (pre ++ rest) bnd)
    = (mk_ug cells (pre ++ paint bs j rest) bnd, Py.Ok (ppre ++ fill bs j prest)).
Proof.
  induction bs as [|b bs IH]; intros j pre rest cells bnd ppre prest Ht Hpl; [done|].
  destruct Ht as (_ & Hs & Hn & Ht). pose proof (tiles_le _ _ _ Ht) as Hle.
  set (n := Z.to_nat (UGBoundary.nFaces b)).
  assert (UGBoundary.nFaces b = Z.of_nat n) as Hn' by (unfold n; lia).
  assert (length (take n rest) = n) as Hlen by (rewrite length_take; lia).
  cbn [apply_materials_loop paint fill]. fold n.
  unfold mbind, M_bind, Py.bind.
  rewrite Hs, Hn', range2_seq.
  rewrite <- (take_drop n rest) at 1. rewrite <- Hlen at 1.
  rewrite assign_mati_block. cbv beta iota.
  unfold Py.lift. rewrite range_of_nat.
  assert (length (Z.of_nat <$> seq 0 n) = n) as Hidx
    by (by rewrite length_fmap, length_seq).
  rewrite assign_polygons_block by (rewrite Hidx; lia).
  rewrite Hidx. cbn [fst snd].
  specialize (IH (j + 1) (pre ++ (set_mati j <$> take n rest)) (drop n rest) cells bnd
                (ppre ++ replicate n j) (drop n prest)).
  rewrite !length_app, length_fmap, length_replicate, Hlen in IH.
  rewrite <- !app_assoc in IH.
  rewrite IH; [done| |].
  - rewrite length_drop.
    replace (Z.of_nat (length pre + n)) with (Z.of_nat (length pre) + UGBoundary.nFaces b)
      by lia.
    replace (Z.of_nat (length pre + n + (length rest - n)))
      with (Z.of_nat (length pre + length rest)) by lia.
    exact Ht.
  - rewrite !length_drop. lia.
Qed.

(** Every boundary face and its polygon get the same patch number,
    and the polygons beyond the boundary faces are left alone. *)
Lemma fill_paint (bs : list UGBoundary.t) :
  ∀ j s rest polygons,
    tiles bs s (s + Z.of_nat (length rest)) →
    (length rest ≤ length polygons)%nat →
    Forall2 (λ f p, UGFace.mati f = Some p)
            (paint bs j rest) (take (length rest) (fill bs j polygons)) ∧
    drop (length rest) (fill bs j polygons) = drop (length rest) polygons.
Proof.
  induction bs as [|b bs IH]; intros j s rest polygons Ht Hlen.
  - simpl in Ht. assert (rest = []) as -> by (apply nil_length_inv; lia).
    simpl. split; [constructor | done].
  - destruct Ht as (_ & _ & Hn & Ht). pose proof (tiles_le _ _ _ Ht) as Hle.
    set (n := Z.to_nat (UGBoundary.nFaces b)).
    assert (n ≤ length rest)%nat as Hnr by (unfold n; lia).
    cbn [paint fill]. fold n.
    destruct (IH (j + 1) (s + UGBoundary.nFaces b) (drop n rest) (drop n polygons))
      as [IH1 IH2].
    { rewrite length_drop.
      replace (s + UGBoundary.nFaces b + Z.of_nat (length rest - n))
        with (s + Z.of_nat (length rest)) by (unfold n; lia).
      exact Ht. }
    { rewrite !length_drop. lia. }
    rewrite length_drop in IH1, IH2.
    split.
    + rewrite take_app_ge by (rewrite length_replicate; lia).
      rewrite length_replicate. apply Forall2_app; [|exact IH1].
      apply Forall2_same_length_lookup_2.
      * rewrite length_fmap, length_take, length_replicate. lia.
      * intros i f p Hf Hp. apply lookup_replicate in Hp as [-> _].
        rewrite list_lookup_fmap in Hf.
        destruct (take n rest !! i); simplify_eq/=. done.
    + rewrite drop_app_ge by (rewrite length_replicate; lia).
      rewrite length_replicate, IH2, drop_drop. f_equal. lia.
Qed.

(** *** The faces after the patches are applied *)

Lemma paint_Forall (P : UGFace.t → Prop) bs :
  (∀ f k, P f → P (set_mati k f)) →
  ∀ j rest, Forall P rest → Forall P (paint bs j rest).
Proof.
  intros HP. induction bs as [|b bs IH]; intros j rest Hrest; [done|]. simpl.
  apply Forall_app. split.
  - apply Forall_fmap. eapply Forall_impl; [by apply Forall_take|].
    intros f Hf. by apply HP.
  - apply IH. by apply Forall_drop.
Qed.

Lemma paint_matis_ge bs :
  ∀ j rest,
    Forall (λ f, UGFace.mati f = None) rest →
    Forall (λ f, ∀ m, UGFace.mati f = Some m → j ≤ m) (paint bs j rest).
Proof.
  induction bs as [|b bs IH]; intros j rest Hrest; simpl.
  - eapply Forall_impl; [exact Hrest|]. by intros f -> m.
  - apply Forall_app. split.
    + apply Forall_fmap, Forall_forall. intros f _ m [= <-]. lia.
    + eapply Forall_impl; [apply IH; by apply Forall_drop|].
      intros f Hf m Hm. specialize (Hf m Hm). lia.
Qed.

Lemma paint_all_some bs :
  ∀ j s rest,
    tiles bs s (s + Z.of_nat (length rest)) →
    Forall (λ f, is_Some (UGFace.mati f)) (paint bs j rest).
Proof.
  induction bs as [|b bs IH]; intros j s rest Ht; simpl in *.
  - assert (rest = []) as -> by (apply nil_length_inv; lia). done.
  - destruct Ht as (_ & _ & Hn & Ht). pose proof (tiles_le _ _ _ Ht) as Hle.
    apply Forall_app. split.
    + apply Forall_fmap, Forall_forall. intros f _. by eexists.
    + apply (IH _ (s + UGBoundary.nFaces b)).
      rewrite length_drop.
      replace (s + UGBoundary.nFaces b
               + Z.of_nat (length rest - Z.to_nat (UGBoundary.nFaces b)))
        with (s + Z.of_nat (length rest)) by lia.
      exact Ht.
Qed.

Lemma sorted_without_patch (l : list UGFace.t) :
  Forall (λ f, UGFace.mati f = None) l → StronglySorted patch_le l.
Proof.
  induction 1 as [|f l Hf Hl IH]; constructor; [done|].
  apply Forall_forall. intros g _ m m' Hm. congruence.
Qed.

Lemma block_sorted (k : Z) (l : list UGFace.t) :
  StronglySorted patch_le (set_mati k <$> l).
Proof.
  induction l as [|f l IH]; simpl; constructor; [exact IH|].
  apply Forall_fmap, Forall_forall. intros g _ m m' [= <-] [= <-]. done.
Qed.

Lemma paint_sorted bs :
  ∀ j rest,
    Forall (λ f, UGFace.mati f = None) rest →
    StronglySorted patch_le (paint bs j rest).
Proof.
  induction bs as [|b bs IH]; intros j rest Hrest; simpl.
  - by apply sorted_without_patch.
  - apply StronglySorted_app. split_and!.
    + intros f g [f0 [-> _]]%list_elem_of_fmap Hg m m' [= <-] Hm'.
      pose proof (paint_matis_ge bs (j + 1) _
                    (Forall_drop _ (Z.to_nat (UGBoundary.nFaces b)) _ Hrest)) as Hge.
      rewrite Forall_forall in Hge. specialize (Hge g Hg m' Hm'). lia.
    + apply block_sorted.
    + apply IH. by apply Forall_drop.
Qed.

Lemma patch_count_app l1 l2 k :
  patch_count (l1 ++ l2) k = (patch_count l1 k + patch_count l2 k)%nat.
Proof. unfold patch_count. by rewrite filter_app, length_app. Qed.

Lemma patch_count_none l k :
  Forall (λ f, UGFace.mati f ≠ Some k) l → patch_count l k = 0%nat.
Proof.
  intros Hl. unfold patch_count.
  by rewrite (polymesh_roundtrip.filter_none (λ x, UGFace.mati x = Some k)).
Qed.

Lemma patch_count_block l k :
  patch_count (set_mati k <$> l) k = length l.
Proof.
  unfold patch_count.
  rewrite (polymesh_roundtrip.filter_all (λ x, UGFace.mati x = Some k)).
  - by rewrite length_fmap.
  - apply Forall_fmap, Forall_forall. by intros f _.
Qed.

Lemma paint_count bs :
  ∀ j s rest p b,
    Forall (λ f, UGFace.mati f = None) rest →
    tiles bs s (s + Z.of_nat (length rest)) →
    bs !! p = Some b →
    Z.of_nat (patch_count (paint bs j rest) (j + Z.of_nat p)) = UGBoundary.nFaces b.
Proof.
  induction bs as [|b0 bs IH]; intros j s rest p b Hrest Ht Hp; [done|].
  destruct Ht as (_ & _ & Hn & Ht). pose proof (tiles_le _ _ _ Ht) as Hle.
  simpl paint. rewrite patch_count_app.
  assert (tiles bs (s + UGBoundary.nFaces b0)
            (s + UGBoundary.nFaces b0
             + Z.of_nat (length (drop (Z.to_nat (UGBoundary.nFaces b0)) rest))))
    as Ht'.
  { rewrite length_drop.
    replace (s + UGBoundary.nFaces b0
             + Z.of_nat (length rest - Z.to_nat (UGBoundary.nFaces b0)))
      with (s + Z.of_nat (length rest)) by lia.
    exact Ht. }
  destruct p as [|p]; simpl in Hp.
  - injection Hp as <-. rewrite Z.add_0_r, patch_count_block, length_take.
    rewrite patch_count_none; [lia|].
    pose proof (paint_matis_ge bs (j + 1) _
                  (Forall_drop _ (Z.to_nat (UGBoundary.nFaces b0)) _ Hrest)) as Hge.
    eapply Forall_impl; [exact Hge|]. intros f Hf Hm. specialize (Hf j Hm). lia.
  - rewrite (patch_count_none (set_mati j <$> _)).
    + replace (j + Z.of_nat (S p)) with (j + 1 + Z.of_nat p) by lia.
      rewrite Nat.add_0_l.
      apply (IH _ _ _ _ _
               (Forall_drop _ (Z.to_nat (UGBoundary.nFaces b0)) _ Hrest) Ht' Hp).
    + apply Forall_fmap, Forall_forall. intros f _ [= Hj]. lia.
Qed.

Lemma tiled_entries (l : list UGFace.t) bs :
  ∀ j s e,
    tiles bs s e →
    (∀ p b, bs !! p = Some b →
            Z.of_nat (patch_count l (j + Z.of_nat p)) = UGBoundary.nFaces b) →
    tiled l bs j s = entry_of <$> bs.
Proof.
  induction bs as [|b bs IH]; intros j s e Ht Hcount; [done|].
  destruct Ht as (Hd & Hs & Hn & Ht).
  pose proof (Hcount 0%nat b eq_refl) as Hc. rewrite Z.add_0_r in Hc.
  simpl. rewrite Hd, Hc. f_equal.
  - unfold entry_of. by rewrite Hs.
  - apply (IH _ _ e Ht). intros p b' Hp.
    replace (j + 1 + Z.of_nat p) with (j + Z.of_nat (S p)) by lia.
    by apply Hcount.
Qed.

Lemma selected_exclusive f : selected true f = true → selected false f = false.
Proof.
  unfold selected. intros [Hd Hn]%andb_true_iff. rewrite Hd. simpl.
  apply bool_decide_eq_true in Hn. by rewrite bool_decide_eq_false_2.
Qed.

(** X19.  Import, then export of the boundary: for a store as the
    import leaves it (the internal faces stored first, then the
    boundary faces, none deleted and none with a patch number yet),
    boundaries whose face ranges follow one another from the first
    boundary face to the last face, none empty, and a host mesh with
    a polygon for every boundary face, [apply_materials_to_boundaries]
    returns, every boundary face and its polygon have got the same
    patch number, further polygons are left as they were, and the
    export of the faces and of the boundary then writes, for every
    boundary, the [nFaces] and [startFace] it was read with. *)
Theorem boundary_read_then_written
    (st : ug) (ints bnds : list UGFace.t) (polygons : list Z) :
  well_formed st →
  ugfaces st = ints ++ bnds →
  Forall (λ f, selected true f = true ∧ UGFace.mati f = None) ints →
  Forall (λ f, selected false f = true ∧ UGFace.mati f = None) bnds →
  tiles (ugboundaries st) (Z.of_nat (length ints)) (Z.of_nat (length (ugfaces st))) →
  (length bnds ≤ length polygons)%nat →
  ∃ st1 st2 text polygons',
    apply_materials_to_boundaries polygons st = (st1, Py.Ok polygons') ∧
    Forall2 (λ f p, UGFace.mati f = Some p)
            (drop (length ints) (ugfaces st1)) (take (length bnds) polygons') ∧
    drop (length bnds) polygons' = drop (length bnds) polygons ∧
    update_text_faces st1 = (st2, Py.Ok text) ∧
    boundary_entries (ugfaces st2) (ugboundaries st2) 0
    = Py.Ok (entry_of <$> ugboundaries st).
Proof.
  intros Hwf Hfaces Hints Hbnds Ht Hpoly.
  destruct st as [cells faces bs]. simpl in Hfaces, Ht. subst faces.
  rewrite length_app in Ht.
  apply Forall_and in Hints as [Hisel Hinone].
  apply Forall_and in Hbnds as [Hbsel Hbnone].
  set (L := ints ++ paint bs 0 bnds).
  set (st1 := mk_ug cells L bs).
  assert (apply_materials_to_boundaries polygons (mk_ug cells (ints ++ bnds) bs)
          = (st1, Py.Ok (fill bs 0 polygons))) as Hrun1.
  { unfold apply_materials_to_boundaries, mbind, M_bind, Py.bind, Py.get.
    simpl. by apply (apply_materials_loop_paint bs 0 ints bnds cells bs [] polygons). }
  assert (tiles bs (Z.of_nat (length ints))
            (Z.of_nat (length ints) + Z.of_nat (length bnds))) as Ht'.
  { by rewrite <- Nat2Z.inj_add. }
  destruct (fill_paint bs 0 _ bnds polygons Ht' Hpoly) as [Hsame Hleft].
  assert (well_formed st1) as Hwf1.
  { set (P := λ f : UGFace.t,
                UGFace.deleted f = false →
                UGFace.verts f ≠ [] ∧
                (UGFace.neighbouri f ≠ -1 →
                 valid_index (length cells) (UGFace.owneri f) ∧
                 valid_index (length cells) (UGFace.neighbouri f))).
    assert (Forall P (ints ++ bnds)) as HP by (apply Forall_forall; exact Hwf).
    apply Forall_app in HP as [Hwi Hwb].
    assert (Forall P L) as HL.
    { apply Forall_app. split; [exact Hwi|]. by apply paint_Forall. }
    rewrite Forall_forall in HL. exact HL. }
  assert (Forall (λ f, selected false f = true) (paint bs 0 bnds)) as Hpsel.
  { by apply paint_Forall. }
  assert (grouped L) as Hg.
  { split_and!.
    - intros f [Hin|Hin]%elem_of_app.
      + rewrite Forall_forall in Hisel, Hinone.
        rewrite (selected_exclusive f (Hisel f Hin)), (Hinone f Hin).
        split; [done | by intros [? ?]].
      + rewrite Forall_forall in Hpsel.
        pose proof (paint_all_some bs 0 _ bnds Ht') as Hsome.
        rewrite Forall_forall in Hsome. split; [intros _; by apply Hsome|].
        intros _. by apply Hpsel.
    - intros f m [Hin|Hin]%elem_of_app Hm.
      + rewrite Forall_forall in Hinone. rewrite (Hinone f Hin) in Hm. done.
      + pose proof (paint_matis_ge bs 0 bnds Hbnone) as Hge.
        rewrite Forall_forall in Hge. by apply (Hge f Hin).
    - apply StronglySorted_app. split_and!.
      + intros f g Hf _ m m' Hm. rewrite Forall_forall in Hinone.
        rewrite (Hinone f Hf) in Hm. done.
      + by apply sorted_without_patch.
      + by apply paint_sorted. }
  assert (∀ p b, bs !! p = Some b →
                 Z.of_nat (patch_count L (0 + Z.of_nat p)) = UGBoundary.nFaces b)
    as Hcount.
  { intros p b Hp. unfold L. rewrite patch_count_app, patch_count_none.
    - by apply (paint_count bs 0 _ bnds p b Hbnone Ht').
    - eapply Forall_impl; [exact Hinone|]. by intros f ->. }
  assert (∀ bs' s e, tiles bs' s e → ∀ p b, bs' !! p = Some b → 0 < UGBoundary.nFaces b)
    as Hpos.
  { induction bs' as [|b0 bs' IH]; intros s e Hts p b Hp; [done|].
    destruct Hts as (_ & _ & Hn & Hts). destruct p as [|p]; simpl in Hp.
    - by injection Hp as <-.
    - by eapply IH. }
  destruct (update_text_faces_run st1 (well_formed_exportable st1 Hwf1))
    as (st2 & Hrun2 & Hb2 & Hfs2).
  exists st1, st2. eexists. exists (fill bs 0 polygons).
  split_and!; [exact Hrun1 | | exact Hleft | exact Hrun2 |].
  { unfold st1, L. cbn [ugfaces]. by rewrite drop_app_length. }
  rewrite Hfs2, Hb2. cbn [ugfaces ugboundaries st1].
  rewrite (boundary_entries_tiled _ _ _ Hg).
  - destruct Hg as (_ & Hnonneg & _). rewrite (before_patch_0 _ Hnonneg).
    f_equal. eapply tiled_entries; [|exact Hcount].
    assert (chosen true L = ints) as ->; [|rewrite Z.add_0_r; exact Ht'].
    unfold L, chosen. rewrite filter_app.
    rewrite (polymesh_roundtrip.filter_all _ ints) by done.
    rewrite (polymesh_roundtrip.filter_none _ (paint bs 0 bnds)).
    + by rewrite app_nil_r.
    + eapply Forall_impl; [exact Hpsel|]. intros f Hf Hf'. simpl in Hf, Hf'.
      pose proof (selected_exclusive f Hf'). congruence.
  - intros p b Hp _.
    pose proof (Hcount p b Hp) as Hc. pose proof (Hpos _ _ _ Ht' p b Hp) as Hn.
    unfold patch_count in Hc.
    destruct (filter (λ x, UGFace.mati x = Some (0 + Z.of_nat p)) L)
      as [|f fs] eqn:Hfilter; [simpl in Hc; lia|].
    assert (f ∈ filter (λ x, UGFace.mati x = Some (0 + Z.of_nat p)) L) as Hin
      by (rewrite Hfilter; by left).
    apply list_elem_of_filter in Hin as [Hm Hin]. by exists f.
Qed.

(** One internal face and three boundary faces, read with the
    patches [inlet] (two faces from face 1) and [outlet] (one face
    from face 3). *)
Definition as_imported : ug :=
  mk_ug [UGCell.mk [0; 1; 2] (-1); UGCell.mk [0; 3] (-1)]
        [UGFace.mk 0 [0; 1; 2] 0 1 None false;
         UGFace.mk 1 [0; 1; 3] 0 (-1) None false;
         UGFace.mk 2 [1; 2; 3] 0 (-1) None false;
         UGFace.mk 3 [0; 2; 3] 1 (-1) None false]
        [UGBoundary.mk "inlet" "patch" "" 2 1 false;
         UGBoundary.mk "outlet" "patch" "" 1 3 false].

Lemma boundary_read_then_written_witness :
  ∃ st1 st2 text polygons',
    apply_materials_to_boundaries [0; 0; 0] as_imported = (st1, Py.Ok polygons') ∧
    Forall2 (λ f p, UGFace.mati f = Some p)
            (drop (length [UGFace.mk 0 [0; 1; 2] 0 1 None false]) (ugfaces st1))
            (take (length [UGFace.mk 1 [0; 1; 3] 0 (-1) None false;
                           UGFace.mk 2 [1; 2; 3] 0 (-1) None false;
                           UGFace.mk 3 [0; 2; 3] 1 (-1) None false]) polygons') ∧
    drop (length [UGFace.mk 1 [0; 1; 3] 0 (-1) None false;
                  UGFace.mk 2 [1; 2; 3] 0 (-1) None false;
                  UGFace.mk 3 [0; 2; 3] 1 (-1) None false]) polygons'
    = drop (length [UGFace.mk 1 [0; 1; 3] 0 (-1) None false;
                    UGFace.mk 2 [1; 2; 3] 0 (-1) None false;
                    UGFace.mk 3 [0; 2; 3] 1 (-1) None false]) [0; 0; 0] ∧
    update_text_faces st1 = (st2, Py.Ok text) ∧
    boundary_entries (ugfaces st2) (ugboundaries st2) 0
    = Py.Ok [mk_patch_entry "inlet" "patch" "" 2 1;
             mk_patch_entry "outlet" "patch" "" 1 3].
Proof.
  apply (boundary_read_then_written as_imported
           [UGFace.mk 0 [0; 1; 2] 0 1 None false]
           [UGFace.mk 1 [0; 1; 3] 0 (-1) None false;
            UGFace.mk 2 [1; 2; 3] 0 (-1) None false;
            UGFace.mk 3 [0; 2; 3] 1 (-1) None false]
           [0; 0; 0]).
  - intros f Hin Hd. simpl in Hin.
    rewrite !elem_of_cons, elem_of_nil in Hin.
    destruct Hin as [->|[->|[->|[->|[]]]]]; simpl in *; done.
  - reflexivity.
  - repeat constructor.
  - repeat constructor.
  - simpl. repeat split; lia.
  - simpl. lia.
Defined.

End boundary_round_trip.


(** ** VTU import: the points *)

Module points.
Import io_vtu_points.

Section create_points.
Context {A : Type}.

(** The coordinate triples of a list. *)
Fixpoint triples (l : list A) : list (A * A * A) :=
  match l with
  | x :: y :: z :: l' => (x, y, z) :: triples l'
  | _ => []
  end.

Lemma triple_ind (P : list A → Prop) :
  P [] → (∀ x, P [x]) → (∀ x y, P [x; y]) →
  (∀ x y z l, P l → P (x :: y :: z :: l)) →
  ∀ l, P l.
Proof.
  intros H0 H1 H2 H3 l.
  assert (P l ∧ (∀ x, P (x :: l)) ∧ (∀ x y, P (x :: y :: l))) as [Hl _];
    [|exact Hl].
  induction l as [|a l (IH0 & IH1 & IH2)]; [by split_and!|].
  split_and!; [apply IH1 | intros x; apply IH2 | intros x y; by apply H3].
Qed.

Lemma getitem_app_at (pre suf : list A) (k : nat) (x : A) :
  suf !! k = Some x →
  Py.getitem (pre ++ suf) (Z.of_nat (length pre) + Z.of_nat k) = Py.Ok x.
Proof.
  intros Hk. rewrite <- Nat2Z.inj_add. apply getitem_lookup.
  by rewrite lookup_app_r, Nat.add_comm, Nat.add_sub by lia.
Qed.

Lemma getitem_app_beyond (pre suf : list A) (k : nat) :
  (length suf ≤ k)%nat →
  Py.getitem (pre ++ suf) (Z.of_nat (length pre) + Z.of_nat k)
  = Py.Raise Py.IndexError.
Proof.
  intros Hk. unfold Py.getitem, Py.position. rewrite length_app. cbv zeta.
  destruct (decide (Z.of_nat (length pre) + Z.of_nat k < 0)); [lia|].
  by rewrite decide_False by lia.
Qed.

Lemma loop_from (suf : list A) :
  ∀ (pre : list A) (k0 : nat) vs,
    length pre = (3 * k0)%nat →
    Py.for_ ((λ k, 3 * Z.of_nat k) <$> seq k0 ((length suf + 2) / 3)%nat)
            (point_step (pre ++ suf)) vs
    = (vs ++ triples suf,
       if decide (length suf mod 3 = 0)%nat then Py.Ok tt
       else Py.Raise Py.IndexError).
Proof.
  induction suf as [|x|x y|x y z suf IH] using triple_ind; intros pre k0 vs Hpre.
  - simpl. by rewrite app_nil_r.
  - change ((length [x] + 2) / 3)%nat with 1%nat. simpl.
    unfold Py.bind, point_step, mbind, M_bind, Py.bind, Py.lift.
    replace (3 * Z.of_nat k0) with (Z.of_nat (length pre) + Z.of_nat 0) by lia.
    rewrite (getitem_app_at pre [x] 0 x) by done.
    replace (Z.of_nat (length pre) + Z.of_nat 0 + 1)
      with (Z.of_nat (length pre) + Z.of_nat 1) by lia.
    rewrite (getitem_app_beyond pre [x] 1) by (simpl; lia).
    by rewrite app_nil_r.
  - change ((length [x; y] + 2) / 3)%nat with 1%nat. simpl.
    unfold Py.bind, point_step, mbind, M_bind, Py.bind, Py.lift.
    replace (3 * Z.of_nat k0) with (Z.of_nat (length pre) + Z.of_nat 0) by lia.
    rewrite (getitem_app_at pre [x; y] 0 x) by done.
    replace (Z.of_nat (length pre) + Z.of_nat 0 + 1)
      with (Z.of_nat (length pre) + Z.of_nat 1) by lia.
    rewrite (getitem_app_at pre [x; y] 1 y) by done.
    replace (Z.of_nat (length pre) + Z.of_nat 0 + 2)
      with (Z.of_nat (length pre) + Z.of_nat 2) by lia.
    rewrite (getitem_app_beyond pre [x; y] 2) by (simpl; lia).
    by rewrite app_nil_r.
  - assert ((length (x :: y :: z :: suf) + 2) / 3 = S ((length suf + 2) / 3))%nat
      as ->.
    { replace (length (x :: y :: z :: suf) + 2)%nat
        with (length suf + 2 + 1 * 3)%nat by (simpl; lia).
      rewrite Nat.div_add by lia. lia. }
    assert (length (x :: y :: z :: suf) mod 3 = length suf mod 3)%nat as ->.
    { replace (length (x :: y :: z :: suf)) with (length suf + 1 * 3)%nat
        by (simpl; lia).
      by rewrite Nat.Div0.mod_add. }
    cbn [seq fmap list_fmap Py.for_].
    unfold Py.bind at 1, point_step at 1, mbind, M_bind, Py.bind, Py.lift, Py.modify.
    replace (3 * Z.of_nat k0) with (Z.of_nat (length pre) + Z.of_nat 0) by lia.
    rewrite (getitem_app_at pre (x :: y :: z :: suf) 0 x) by done.
    replace (Z.of_nat (length pre) + Z.of_nat 0 + 1)
      with (Z.of_nat (length pre) + Z.of_nat 1) by lia.
    rewrite (getitem_app_at pre (x :: y :: z :: suf) 1 y) by done.
    replace (Z.of_nat (length pre) + Z.of_nat 0 + 2)
      with (Z.of_nat (length pre) + Z.of_nat 2) by lia.
    rewrite (getitem_app_at pre (x :: y :: z :: suf) 2 z) by done.
    specialize (IH (pre ++ [x; y; z]) (S k0) (vs ++ [(x, y, z)])).
    rewrite <- app_assoc in IH.
    change ([x; y; z] ++ suf) with (x :: y :: z :: suf) in IH.
    change (list_fmap nat Z (λ k, 3 * Z.of_nat k)) with (fmap (λ k, 3 * Z.of_nat k)).
    rewrite IH by (rewrite length_app; simpl; lia).
    by rewrite <- app_assoc.
Qed.

(** X20.  [create_points] makes one vertex per complete triple of
    coordinates, in order.  It returns when the list has a positive
    multiple of three entries; with one or two entries left over it
    raises [IndexError] after the vertices of the complete triples
    are made, and with no entry at all it raises
    [UnboundLocalError]. *)
Theorem create_points_outcome (points : list A) (vs : list (A * A * A)) :
  create_points points vs
  = (vs ++ triples points,
     match points with
     | [] => RaisedUnboundLocalError
     | _ :: _ =>
         if decide (length points mod 3 = 0)%nat then Returned
         else Raised Py.IndexError
     end).
Proof.
  unfold create_points, range3.
  pose proof (loop_from points [] 0 vs eq_refl) as Hloop.
  change ([] ++ points) with points in Hloop. rewrite Hloop.
  destruct points as [|x points]; [done|].
  by destruct (decide (length (x :: points) mod 3 = 0)%nat).
Qed.
End create_points.

End points.


(** ** PolyMesh import: the inGroups entries of the boundary text *)

Module ingroup_fix.
Import io_polymesh io_polymesh_text io_polymesh_fix text_round_trip.

(** *** Texts made of lines *)

(** The lines, each followed by a line feed. *)
Definition unlines (lines : list string) : string :=
  foldr (λ line t, line +:+ Py.nl +:+ t) "" lines.

Lemma unlines_app (l1 l2 : list string) :
  unlines (l1 ++ l2) = unlines l1 +:+ unlines l2.
Proof.
  induction l1 as [|line l1 IH]; [done|].
  simpl. by rewrite IH, !string_app_assoc.
Qed.

Lemma splitlines_unlines (lines : list string) :
  Forall (λ line, no_break line = true) lines →
  splitlines (unlines lines) = lines.
Proof.
  unfold splitlines. induction 1 as [|line lines Hline _ IH]; [done|].
  simpl. rewrite splitlines_go_app by done.
  by rewrite splitlines_go_nl, append_nil, IH.
Qed.

(** *** The loop *)

Lemma fix_step_outside (r R line : string) :
  is_ingroups_line line = false →
  fix_step (mk_fix false r R) line = mk_fix false r (R +:+ line +:+ Py.nl).
Proof. intros Hline. unfold fix_step. by rewrite Hline. Qed.

Lemma fix_lines_outside (lines : list string) :
  Forall (λ line, is_ingroups_line line = false) lines →
  ∀ r R, foldl fix_step (mk_fix false r R) lines
         = mk_fix false r (R +:+ unlines lines).
Proof.
  induction 1 as [|line lines Hline _ IH]; intros r R.
  - simpl. by rewrite append_nil_r.
  - cbn [foldl]. rewrite fix_step_outside by done.
    rewrite IH. simpl. by rewrite !string_app_assoc.
Qed.

(** The lines of one entry, put on one line. *)
Definition joined (lines : list string) : string :=
  foldr (λ line t, line +:+ " " +:+ t) "" lines.

Lemma joined_snoc (mid : list string) (last : string) :
  joined (mid ++ [last]) = joined mid +:+ last +:+ " ".
Proof.
  induction mid as [|m mid IH]; simpl.
  - by rewrite append_nil_r.
  - by rewrite IH, !string_app_assoc.
Qed.

Lemma fix_lines_inside (mid : list string) :
  Forall (λ line, is_ingroups_line line = false ∧ has_semicolon line = false) mid →
  ∀ r R, foldl fix_step (mk_fix true r R) mid = mk_fix true (r +:+ joined mid) R.
Proof.
  induction 1 as [|line mid [Hkw Hsemi] _ IH]; intros r R.
  - simpl. by rewrite append_nil_r.
  - cbn [foldl]. unfold fix_step at 2. rewrite Hkw, Hsemi. cbn [inside res result].
    rewrite IH. simpl. by rewrite !string_app_assoc.
Qed.

Lemma fix_lines_unterminated (rest : list string) :
  Forall (λ line, has_semicolon line = false) rest →
  ∀ r R, ∃ r', foldl fix_step (mk_fix true r R) rest = mk_fix true r' R.
Proof.
  induction 1 as [|line rest Hsemi _ IH]; intros r R; [by eexists|].
  cbn [foldl]. unfold fix_step at 2. rewrite Hsemi. cbn [inside res result].
  destruct (is_ingroups_line line); apply IH.
Qed.

(** *** The keyword line *)

Lemma has_semicolon_app (s t : string) :
  has_semicolon (s +:+ t) = has_semicolon s || has_semicolon t.
Proof.
  induction s as [|c s IH]; [done|].
  rewrite append_cons. simpl. by rewrite IH, orb_assoc.
Qed.

Lemma all_space_no_semicolon (s : string) : all_space s = true → has_semicolon s = false.
Proof.
  induction s as [|c s IH]; [done|]. simpl.
  intros [Hc Hs]%andb_true_iff. rewrite (IH Hs), orb_false_r.
  destruct (Ascii.eqb_spec c ";") as [->|]; done.
Qed.

Lemma span_parts (p : ascii → bool) (s : string) :
  s = (span p s).1 +:+ (span p s).2 ∧ faces_text.all_chars p (span p s).1 = true.
Proof.
  induction s as [|c s [IH1 IH2]]; [done|]. simpl.
  destruct (p c) eqn:Hc; [|done].
  destruct (span p s) as [a b]. simpl in *.
  rewrite append_cons, <- IH1. by rewrite Hc, IH2.
Qed.

Lemma all_space_chars (s : string) : all_space s = faces_text.all_chars is_space s.
Proof. induction s as [|c s IH]; [done|]. simpl. by rewrite IH. Qed.

Lemma strip_prefix_parts (p s r : string) : strip_prefix p s = Some r → s = p +:+ r.
Proof.
  revert s. induction p as [|c p IH]; intros s; simpl.
  - by intros [= ->].
  - destruct s as [|c' s]; [done|].
    destruct (Ascii.eqb_spec c c') as [->|]; [|done].
    intros Hr. by rewrite (IH _ Hr).
Qed.

Lemma keyword_no_semicolon (line : string) :
  is_ingroups_line line = true → has_semicolon line = false.
Proof.
  unfold is_ingroups_line. destruct (span_parts is_space line) as [Hline Hws].
  destruct (strip_prefix "inGroups" (span is_space line).2) as [rest|] eqn:Hp; [|done].
  intros Hrest. apply strip_prefix_parts in Hp.
  rewrite Hline, Hp, !has_semicolon_app.
  rewrite <- all_space_chars in Hws.
  by rewrite (all_space_no_semicolon _ Hws), (all_space_no_semicolon _ Hrest).
Qed.

Lemma semicolon_not_keyword (line : string) :
  has_semicolon line = true → is_ingroups_line line = false.
Proof.
  intros Hsemi. destruct (is_ingroups_line line) eqn:Hkw; [|done].
  apply keyword_no_semicolon in Hkw. congruence.
Qed.

(** X22.  A text of lines with one inGroups entry (the keyword alone
    on a line, further lines without a semicolon, and a line with the
    semicolon that ends it): [polymesh_boundary_ingroup_fix] keeps
    the lines before and after as they are and puts the entry on one
    line, the keyword first and a blank after each of its lines. *)
Theorem ingroups_entry_on_one_line (pre mid post : list string) (kw last : string) :
  Forall (λ line, no_break line = true) (pre ++ kw :: mid ++ last :: post) →
  Forall (λ line, is_ingroups_line line = false) (pre ++ post) →
  is_ingroups_line kw = true →
  Forall (λ line, is_ingroups_line line = false ∧ has_semicolon line = false) mid →
  has_semicolon last = true →
  polymesh_boundary_ingroup_fix (unlines (pre ++ kw :: mid ++ last :: post))
  = unlines pre
    +:+ ("        inGroups        " +:+ joined (mid ++ [last])) +:+ Py.nl
    +:+ unlines post.
Proof.
  intros Hbreak [Hpre Hpost]%Forall_app Hkw Hmid Hlast.
  unfold polymesh_boundary_ingroup_fix. rewrite splitlines_unlines by done.
  rewrite foldl_app, fix_lines_outside by done.
  cbn [foldl]. unfold fix_step at 2. rewrite Hkw. cbn [result].
  rewrite foldl_app, fix_lines_inside by done.
  cbn [foldl]. unfold fix_step at 2.
  rewrite (semicolon_not_keyword _ Hlast), Hlast. cbn [inside res result].
  rewrite fix_lines_outside by done. cbn [result].
  by rewrite joined_snoc, !append_nil, !string_app_assoc.
Qed.

Lemma ingroups_entry_on_one_line_witness :
  polymesh_boundary_ingroup_fix
    (unlines (["    inlet"; "    {"] ++ "        inGroups"
              :: ["List<word>"] ++ "1(wall);" :: ["    }"]))
  = unlines ["    inlet"; "    {"]
    +:+ ("        inGroups        " +:+ joined (["List<word>"] ++ ["1(wall);"]))
    +:+ Py.nl +:+ unlines ["    }"].
Proof.
  apply (ingroups_entry_on_one_line ["    inlet"; "    {"] ["List<word>"] ["    }"]
           "        inGroups" "1(wall);").
  - repeat constructor.
  - repeat constructor.
  - reflexivity.
  - repeat constructor.
  - reflexivity.
Defined.

(** X23.  An inGroups keyword line after which no line has a
    semicolon is never closed: the keyword line and every line after
    it are left out of the text. *)
Theorem unterminated_ingroups_drops_rest (pre rest : list string) (kw : string) :
  Forall (λ line, no_break line = true) (pre ++ kw :: rest) →
  Forall (λ line, is_ingroups_line line = false) pre →
  is_ingroups_line kw = true →
  Forall (λ line, has_semicolon line = false) rest →
  polymesh_boundary_ingroup_fix (unlines (pre ++ kw :: rest)) = unlines pre.
Proof.
  intros Hbreak Hpre Hkw Hrest.
  unfold polymesh_boundary_ingroup_fix. rewrite splitlines_unlines by done.
  rewrite foldl_app, fix_lines_outside by done.
  cbn [foldl]. unfold fix_step at 2. rewrite Hkw. cbn [result].
  destruct (fix_lines_unterminated rest Hrest "        inGroups        "
              ("" +:+ unlines pre)) as [r' ->].
  done.
Qed.

Lemma unterminated_ingroups_drops_rest_witness :
  polymesh_boundary_ingroup_fix
    (unlines (["    inlet"; "    {"] ++ "        inGroups"
              :: ["List<word> 1(wall)"; "    }"; ")"]))
  = unlines ["    inlet"; "    {"].
Proof.
  apply (unterminated_ingroups_drops_rest ["    inlet"; "    {"]
           ["List<word> 1(wall)"; "    }"; ")"] "        inGroups").
  - repeat constructor.
  - repeat constructor.
  - reflexivity.
  - repeat constructor.
Defined.

(** *** The exported boundary text *)

Definition entry_lines (e : patch_entry) : list string :=
  ["    " +:+ e_patchname e; "    {";
   "        type            " +:+ e_typename e +:+ ";"]
  ++ (if decide (e_inGroups e ≠ "")
      then ["        inGroups        " +:+ e_inGroups e +:+ ";"] else [])
  ++ ["        nFaces          " +:+ Py.str (e_nFaces e) +:+ ";";
      "        startFace       " +:+ Py.str (e_startFace e) +:+ ";";
      "    }"].

Definition boundary_lines (es : list patch_entry) : list string :=
  header_lines "polyBoundaryMesh" "boundary"
  ++ [""; Py.str (Z.of_nat (length es)); "("]
  ++ concat (entry_lines <$> es) ++ [")"].

Lemma patch_entry_text_unlines (e : patch_entry) :
  patch_entry_text e = unlines (entry_lines e).
Proof.
  unfold patch_entry_text, entry_lines.
  destruct (decide (e_inGroups e ≠ "")); simpl;
    by rewrite ?append_nil, ?append_nil_r, ?string_app_assoc.
Qed.

Lemma entries_text_unlines (es : list patch_entry) :
  ∀ acc, foldl (λ t e, t +:+ patch_entry_text e) acc es
         = acc +:+ unlines (concat (entry_lines <$> es)).
Proof.
  induction es as [|e es IH]; intros acc.
  - simpl. by rewrite append_nil_r.
  - cbn [foldl]. rewrite IH, fmap_cons, concat_cons, unlines_app.
    by rewrite patch_entry_text_unlines, string_app_assoc.
Qed.

Lemma header_unlines (class_name object_name : string) :
  of_file_header class_name object_name = unlines (header_lines class_name object_name).
Proof.
  unfold of_file_header, header_lines. simpl.
  by rewrite ?append_nil_r, ?string_app_assoc.
Qed.

Lemma boundary_text_unlines (es : list patch_entry) :
  of_file_header "polyBoundaryMesh" "boundary" +:+ Py.nl
  +:+ Py.str (Z.of_nat (length es)) +:+ Py.nl +:+ "(" +:+ Py.nl
  +:+ foldl (λ t e, t +:+ patch_entry_text e) "" es
  +:+ ")" +:+ Py.nl
  = unlines (boundary_lines es).
Proof.
  unfold boundary_lines.
  rewrite !unlines_app, entries_text_unlines, header_unlines. simpl.
  by rewrite ?append_nil, ?append_nil_r, ?string_app_assoc.
Qed.

(** What the fixer needs of the names of an entry. *)
Definition plain_names (e : patch_entry) : Prop :=
  is_ingroups_line (e_patchname e) = false ∧
  no_break (e_patchname e) = true ∧ no_break (e_typename e) = true ∧
  no_break (e_inGroups e) = true.

Lemma is_ingroups_line_indent (s : string) :
  is_ingroups_line ("    " +:+ s) = is_ingroups_line s.
Proof.
  unfold is_ingroups_line.
  change ("    " +:+ s) with (String " " (String " " (String " " (String " " s)))).
  cbn [span]. change (is_space " ") with true. cbv beta iota.
  by destruct (span is_space s).
Qed.

Lemma ends_with_semicolon (s : string) : is_ingroups_line (s +:+ ";") = false.
Proof.
  apply semicolon_not_keyword. rewrite has_semicolon_app. simpl. apply orb_true_r.
Qed.

Lemma str_not_keyword (x : Z) : is_ingroups_line (Py.str x) = false.
Proof.
  unfold is_ingroups_line.
  destruct (decide (0 ≤ x)) as [Hx|Hx].
  - destruct (str_digits x Hx) as [Hd Hne].
    destruct (Py.str x) as [|c s]; [done|]. simpl in Hd.
    apply andb_true_iff in Hd as [Hc _].
    pose proof (faces_text.digit_not_space c Hc) as Hsp.
    apply negb_true_iff in Hsp. cbn [span]. rewrite Hsp. cbn [snd strip_prefix].
    destruct (Ascii.eqb_spec "i" c) as [<-|]; done.
  - destruct (str_negative x) as [s ->]; [lia | done].
Qed.

Lemma entry_lines_plain (e : patch_entry) :
  plain_names e →
  Forall (λ line, no_break line = true ∧ is_ingroups_line line = false)
         (entry_lines e).
Proof.
  intros (Hkw & Hn & Ht & Hg). unfold entry_lines.
  assert (∀ k v, no_break k = true → no_break v = true →
                 no_break (k +:+ v +:+ ";") = true
                 ∧ is_ingroups_line (k +:+ v +:+ ";") = false) as Hfield.
  { intros k v Hk Hv. split.
    - apply no_break_app; [done|]. by apply no_break_app.
    - rewrite <- string_app_assoc. apply ends_with_semicolon. }
  repeat apply Forall_app_2; repeat apply Forall_cons_2; try apply Forall_nil_2.
  - split; [by apply no_break_app | by rewrite is_ingroups_line_indent].
  - done.
  - by apply Hfield.
  - destruct (decide (e_inGroups e ≠ "")); [|done].
    apply Forall_cons_2; [by apply Hfield | done].
  - apply Hfield; [done | apply str_no_break].
  - apply Hfield; [done | apply str_no_break].
  - done.
Qed.

Lemma boundary_lines_plain (es : list patch_entry) :
  Forall plain_names es →
  Forall (λ line, no_break line = true ∧ is_ingroups_line line = false)
         (boundary_lines es).
Proof.
  intros Hes. unfold boundary_lines, header_lines.
  repeat apply Forall_app_2; repeat apply Forall_cons_2; try apply Forall_nil_2;
    try done.
  - split; [apply str_no_break | apply str_not_keyword].
  - induction Hes as [|e es He _ IH]; [done|].
    rewrite fmap_cons, concat_cons. apply Forall_app_2; [by apply entry_lines_plain|done].
Qed.

Lemma boundary_entries_names (faces : list UGFace.t) (bs : list UGBoundary.t) :
  Forall (λ b, UGBoundary.deleted b = false →
               is_ingroups_line (UGBoundary.patchname b) = false ∧
               no_break (UGBoundary.patchname b) = true ∧
               no_break (UGBoundary.typename b) = true ∧
               no_break (UGBoundary.inGroups b) = true) bs →
  ∀ i es, boundary_entries faces bs i = Py.Ok es → Forall plain_names es.
Proof.
  induction 1 as [|b bs Hb _ IH]; intros i es; simpl.
  - by intros [= <-].
  - destruct (UGBoundary.deleted b); [apply IH|].
    destruct (Py.getitem _ 0) as [first|]; [|done].
    destruct (boundary_entries faces bs (i + 1)) as [es'|] eqn:Hes; [|done].
    intros [= <-]. constructor; [by apply Hb | by eapply IH].
Qed.

(** X21.  Export, then the first step of the import: when the patches
    that are written have names, types and groups without a line
    break and no patch is called [inGroups],
    [polymesh_boundary_ingroup_fix] leaves the boundary text that
    [update_text_boundary] writes as it is. *)
Theorem exported_boundary_unchanged (st : ug) (text : string) :
  Forall (λ b, UGBoundary.deleted b = false →
               is_ingroups_line (UGBoundary.patchname b) = false ∧
               no_break (UGBoundary.patchname b) = true ∧
               no_break (UGBoundary.typename b) = true ∧
               no_break (UGBoundary.inGroups b) = true) (ugboundaries st) →
  update_text_boundary st = Py.Ok text →
  polymesh_boundary_ingroup_fix text = text.
Proof.
  intros Hnames. unfold update_text_boundary.
  destruct (boundary_entries (ugfaces st) (ugboundaries st) 0) as [es|] eqn:Hes;
    [|done].
  intros [= <-]. rewrite boundary_text_unlines.
  pose proof (boundary_lines_plain es (boundary_entries_names _ _ Hnames _ _ Hes))
    as Hlines.
  apply Forall_and in Hlines as [Hbreak Hkw].
  unfold polymesh_boundary_ingroup_fix. rewrite splitlines_unlines by done.
  rewrite fix_lines_outside by done. done.
Qed.

Lemma exported_boundary_unchanged_witness :
  ∃ text,
    update_text_boundary boundary_tiling.two_patches = Py.Ok text ∧
    polymesh_boundary_ingroup_fix text = text.
Proof.
  destruct (update_text_boundary boundary_tiling.two_patches) as [text|e] eqn:Hrun.
  - exists text. split; [done|].
    apply (exported_boundary_unchanged boundary_tiling.two_patches text);
      [|exact Hrun].
    repeat constructor.
  - exfalso. vm_compute in Hrun. discriminate Hrun.
Defined.

End ingroup_fix.


(** ** A store written as polyhedra and read back *)

Module vtu_round_trip.
Import io_vtu io_vtu_export dedup vtu_import polyhedron_codec offsets_codec.

(** The face records [ugfs] have, one by one, the vertices [reals],
    in some order. *)
Definition same_vertices (faces : list UGFace.t) (ugfs : list nat)
    (reals : list (list Z)) : Prop :=
  Forall2 (λ ugf real, ∃ f, faces !! ugf = Some f ∧ UGFace.ugverts f ≡ₚ real)
          ugfs reals.

Lemma same_vertices_kept c faces faces' ugfs reals :
  faces_kept c faces faces' →
  same_vertices faces ugfs reals → same_vertices faces' ugfs reals.
Proof.
  intros Hk Hs. eapply Forall2_impl; [exact Hs|]. intros ugf real (f & Hf & Hp).
  destruct (Hk _ _ Hf) as (f' & Hf' & Hv & _).
  exists f'. split; [done|]. by rewrite Hv.
Qed.

(** One iteration: the cell [c] lists one more face, which has the
    vertices [real]; the other cells are as before. *)
Lemma link_face_cell c real st fm x :
  facemap_inv (ugfaces st) fm →
  ugcells st !! c = Some x →
  ∃ x' ugf f,
    ugcells (link_face c real st fm).1 !! c = Some x' ∧
    UGCell.ugfaces x' = UGCell.ugfaces x ++ [ugf] ∧
    ugfaces (link_face c real st fm).1 !! ugf = Some f ∧
    UGFace.ugverts f ≡ₚ real.
Proof.
  intros [Hfm Hst] Hx. unfold link_face.
  destruct (fm !! get_vert_string real) as [ugf|] eqn:Hk.
  - cbn [fst]. rewrite attach_ugcells, attach_ugfaces. cbn [ugcells ugfaces].
    rewrite list_lookup_alter_eq, Hx.
    destruct (Hfm _ _ Hk) as (f & Hf & Hkey).
    eexists _, ugf, (relink c f). split_and!; [done|done| |].
    + by rewrite list_lookup_alter_eq, Hf.
    + simpl. by apply get_vert_string_eq_iff.
  - cbn [fst]. rewrite attach_ugcells, attach_ugfaces. cbn [ugcells ugfaces].
    rewrite list_lookup_alter_eq, Hx.
    eexists _, (length (ugfaces st)), _.
    split_and!; [done|done|apply lookup_app_last|done].
Qed.

Lemma link_face_other_cell c real st fm k :
  k ≠ c → ugcells (link_face c real st fm).1 !! k = ugcells st !! k.
Proof.
  intros Hne. unfold link_face.
  destruct (fm !! _); cbn [fst]; rewrite attach_ugcells; cbn [ugcells];
    by rewrite list_lookup_alter_ne.
Qed.

Lemma link_faces_other_cell c reals k :
  k ≠ c → ∀ st fm, ugcells (link_faces c reals st fm).1 !! k = ugcells st !! k.
Proof.
  intros Hne. induction reals as [|real reals IH]; intros st fm; [done|].
  simpl. rewrite IH. by apply link_face_other_cell.
Qed.

(** All iterations for one cell: the cell lists one face more for
    every vertex list, in their order, each with those vertices. *)
Lemma link_faces_cell c reals :
  ∀ st fm x,
    facemap_inv (ugfaces st) fm →
    ugcells st !! c = Some x →
    ∃ x' ugfs,
      ugcells (link_faces c reals st fm).1 !! c = Some x' ∧
      UGCell.ugfaces x' = UGCell.ugfaces x ++ ugfs ∧
      same_vertices (ugfaces (link_faces c reals st fm).1) ugfs reals.
Proof.
  induction reals as [|real reals IH]; intros st fm x Hinv Hx.
  - exists x, []. split_and!; [done|by rewrite app_nil_r|constructor].
  - destruct (link_face_cell c real st fm x Hinv Hx)
      as (x1 & ugf & f & Hx1 & Hfs1 & Hf & Hp).
    destruct (IH _ _ x1 (link_face_inv c real st fm Hinv) Hx1)
      as (x' & ugfs & Hx' & Hfs' & Hsame).
    exists x', (ugf :: ugfs). simpl.
    split_and!; [done|by rewrite Hfs', Hfs1, <- app_assoc|].
    constructor; [|done].
    destruct (link_faces_kept c reals (link_face c real st fm).1
                (link_face c real st fm).2 _ _ Hf) as (f' & Hf' & Hv & _).
    exists f'. split; [done|]. by rewrite Hv.
Qed.

Lemma real_vilist_polyhedron vilist (fis : list (list Z)) :
  resolved true vilist fis fis.
Proof. induction fis; by constructor. Qed.

Section round_trip.
Context (ei : Z → Z) (st : ug).

(** The faces of a cell as the export writes them: the export
    indices of the vertices of each face. *)
Definition exported_faces (c : UGCell.t) : list (list Z) :=
  (λ f, ei <$> UGFace.ugverts f) <$> cell_faces st c.

(** Every cell that is written has a face, and its faces exist. *)
Definition writable : Prop :=
  Forall (λ c, UGCell.ugfaces c ≠ [] ∧
               Forall (λ ugf, is_Some (ugfaces st !! ugf)) (UGCell.ugfaces c))
         (filter alive (ugcells st)).

Local Abbreviation cell_inputs :=
  (cell_inputs (concat (connectivity_rows ei st)) (offsets_list st)
     (types_offsets_lists (ugcells st)).1.1.1
     (concat (cellfaces_rows ei st)) (cellfaceoffsets_list ei st)).
Local Abbreviation cell_loop :=
  (cell_loop (concat (connectivity_rows ei st)) (offsets_list st)
     (types_offsets_lists (ugcells st)).1.1.1
     (concat (cellfaces_rows ei st)) (cellfaceoffsets_list ei st)).

(** What the import reads for the [ci]-th written cell. *)
Lemma exported_cell_inputs (ci : nat) (c : UGCell.t) (st0 st1 : ug) (l : locals) :
  writable →
  filter alive (ugcells st) !! ci = Some c →
  cell_loop (Py.range (Z.of_nat ci)) locals_init st0 = (st1, Py.Ok l) →
  ∃ conn_end vilist polyfacelist o,
    cell_inputs (Z.of_nat ci) l = Py.Ok (42, conn_end, vilist, polyfacelist, o) ∧
    get_polyhedron_fis polyfacelist = Py.Ok (exported_faces c).
Proof.
  intros Hw Hc Hpre.
  pose proof (lookup_lt_Some _ _ _ Hc) as Hci.
  assert (∀ k, (k < length (filter alive (ugcells st)))%nat →
               (types_offsets_lists (ugcells st)).1.1.1 !! k = Some 42) as Htypes.
  { intros k Hk. rewrite (typeslist_replicate ei). by apply lookup_replicate_2. }
  assert (connectivity_rows ei st !! ci = Some (connectivity_row ei c)) as Hrow.
  { unfold connectivity_rows. rewrite list_lookup_fmap.
    unfold alive in Hc. by rewrite Hc. }
  assert (cellfaces_rows ei st !! ci = Some (faceslist ei st c)) as Hfrow.
  { unfold cellfaces_rows. rewrite list_lookup_fmap.
    unfold alive in Hc. by rewrite Hc. }
  destruct (slice_row _ _ _ Hrow) as (ce & Hce & _ & _).
  destruct (slice_row _ _ _ Hfrow) as (o & Ho & _ & _).
  rewrite <- (offsets_list_cumulative ei) in Hce.
  rewrite <- (cellfaceoffsets_cumulative ei) in Ho.
  eexists _, _, _, _. split.
  { by apply (cell_inputs_polyhedron _ _ _ _ _ ci l ce o (Htypes ci Hci)). }
  rewrite (cell_loop_offset_index _ _ _ _ _ _ _ _ _ Hpre).
  rewrite last_polyhedron_offset_all by (intros k Hk; apply Htypes; lia).
  unfold writable in Hw. rewrite Forall_forall in Hw.
  apply exported_faces_slice; [done| |  |done].
  - apply Hw. by eapply list_elem_of_lookup_2.
  - intros c' Hc'. apply Hw. by eapply list_elem_of_lookup_2.
Qed.

(** The first [k] written cells have been read back into [st2]. *)
Definition read_back (st2 : ug) (k : nat) : Prop :=
  length (ugcells st2) = k ∧
  ∀ ci c, (ci < k)%nat → filter alive (ugcells st) !! ci = Some c →
    ∃ c2, ugcells st2 !! ci = Some c2 ∧
          same_vertices (ugfaces st2) (UGCell.ugfaces c2) (exported_faces c).

Lemma import_prefix (k : nat) :
  writable → (k ≤ length (filter alive (ugcells st)))%nat →
  ∃ st2 l,
    cell_loop (Py.range (Z.of_nat k)) locals_init ug_empty = (st2, Py.Ok l) ∧
    facemap_inv (ugfaces st2) (facemap l) ∧
    read_back st2 k.
Proof.
  intros Hw. induction k as [|k IH]; intros Hk.
  - exists ug_empty, locals_init.
    split_and!; [done|apply facemap_inv_empty|]. split; [done|]. intros; lia.
  - destruct IH as (st2 & l & Hpre & Hinv & Hlen & Hcells); [lia|].
    destruct (lookup_lt_is_Some_2 (filter alive (ugcells st)) k) as [c Hc]; [lia|].
    destruct (exported_cell_inputs k c _ _ _ Hw Hc Hpre)
      as (ce & vi & pfl & o & Hin & Hfis).
    pose (reals := exported_faces c).
    pose (r := link_faces k reals (with_new_cell st2) (facemap l)).
    assert (vtu_add_cell 42 vi (facemap l) pfl st2 = (r.1, Py.Ok r.2)) as Hadd.
    { rewrite vtu_add_cell_polyhedron, Hfis, Hlen.
      apply add_cell_faces_run, real_vilist_polyhedron. }
    exists r.1, (mk_locals (conn_index l + (ce - conn_index l)) o r.2).
    split_and!.
    + rewrite range_S, cell_loop_app, Hpre.
      by rewrite (cell_loop_cons_ok _ _ _ _ _ _ _ _ _ _ _
                    (cell_step_ok _ _ _ _ _ _ _ _ _ _ _ _ _ _ _ Hin Hadd)).
    + apply (link_faces_inv k reals (with_new_cell st2)). exact Hinv.
    + split.
      { unfold r. rewrite link_faces_ugcells_length. simpl.
        rewrite length_app. simpl. lia. }
      intros ci c0 Hlt Hc0.
      destruct (decide (ci = k)) as [->|Hne].
      * assert (c0 = c) as -> by congruence.
        destruct (link_faces_cell k reals (with_new_cell st2) (facemap l)
                    (UGCell.mk [] [] false) Hinv) as (x' & ugfs & Hx' & Hfs & Hsame).
        { simpl. rewrite <- Hlen. apply lookup_app_last. }
        exists x'. split; [done|]. by rewrite Hfs.
      * destruct (Hcells ci c0) as (c2 & Hc2 & Hsame); [lia|done|].
        exists c2. split.
        -- unfold r. rewrite link_faces_other_cell by done. simpl.
           by apply lookup_app_l_Some.
        -- eapply same_vertices_kept; [|exact Hsame].
           apply (link_faces_kept k reals (with_new_cell st2)).
Qed.

(** X24.  A store in which every cell that is not deleted has at
    least one face, and only faces that exist, is written as
    polyhedra; reading the numbers of the connectivity, offsets,
    types, faces and faceoffsets blocks back into an empty store
    returns, creates one cell per written cell, and the cell lists,
    in the order of the original, one face for every face of the
    original, with the export indices of that face's vertices in
    some order. *)
Theorem export_then_import :
  writable →
  ∃ st2,
    vtu_datalists_to_ugdata
      (concat (connectivity_rows ei st)) (offsets_list st)
      (types_offsets_lists (ugcells st)).1.1.1
      (concat (cellfaces_rows ei st)) (cellfaceoffsets_list ei st) ug_empty
    = (st2, Py.Ok tt) ∧
    length (ugcells st2) = length (filter alive (ugcells st)) ∧
    ∀ ci c, filter alive (ugcells st) !! ci = Some c →
      ∃ c2, ugcells st2 !! ci = Some c2 ∧
            same_vertices (ugfaces st2) (UGCell.ugfaces c2) (exported_faces c).
Proof.
  intros Hw.
  destruct (import_prefix (length (filter alive (ugcells st))) Hw)
    as (st2 & l & Hloop & _ & Hlen & Hcells); [done|].
  exists st2. split_and!; [|done|].
  - apply (vtu_datalists_to_ugdata_ok _ _ _ _ _ _ _ l).
    replace (length (types_offsets_lists (ugcells st)).1.1.1)
      with (length (filter alive (ugcells st))); [done|].
    by rewrite (typeslist_replicate ei), length_replicate.
  - intros ci c Hc. apply Hcells; [|done]. by eapply lookup_lt_Some.
Qed.
End round_trip.

(** The two tetrahedra sharing a face. *)
Lemma export_then_import_witness :
  ∃ st2,
    vtu_datalists_to_ugdata
      (concat (connectivity_rows (λ v, v) two_tetrahedra)) (offsets_list two_tetrahedra)
      (types_offsets_lists (ugcells two_tetrahedra)).1.1.1
      (concat (cellfaces_rows (λ v, v) two_tetrahedra))
      (cellfaceoffsets_list (λ v, v) two_tetrahedra) ug_empty
    = (st2, Py.Ok tt) ∧
    length (ugcells st2) = length (filter alive (ugcells two_tetrahedra)) ∧
    ∀ ci c, filter alive (ugcells two_tetrahedra) !! ci = Some c →
      ∃ c2, ugcells st2 !! ci = Some c2 ∧
            same_vertices (ugfaces st2) (UGCell.ugfaces c2)
                          (exported_faces (λ v, v) two_tetrahedra c).
Proof.
  apply (export_then_import (λ v, v) two_tetrahedra).
  unfold writable. vm_compute.
  repeat constructor; try done; by eexists.
Defined.

End vtu_round_trip.


(** ** PolyMesh import: the reader of the boundary text *)

Module boundary_reader.
Import io_polymesh io_polymesh_text io_polymesh_fix text_round_trip faces_text
       ingroup_fix io_polymesh_boundary.

(** *** Characters *)

Lemma name_char_not_space c : is_name_char c = true → is_space c = false.
Proof. destruct c as [[] [] [] [] [] [] [] []]; vm_compute; done. Qed.

Lemma word_not_space c : is_word c = true → is_space c = false.
Proof. destruct c as [[] [] [] [] [] [] [] []]; vm_compute; done. Qed.

Lemma space_not_break c : is_space c = false → is_linebreak c = false.
Proof. destruct c as [[] [] [] [] [] [] [] []]; vm_compute; done. Qed.

Lemma all_of_chars p s : all_of p s = all_chars p s.
Proof. induction s as [|c s IH]; [done|]. cbn [all_of all_chars]. by rewrite IH. Qed.

Lemma all_of_app p s t : all_of p (s +:+ t) = all_of p s && all_of p t.
Proof. rewrite !all_of_chars. apply all_chars_app. Qed.

Lemma all_of_no_break p s :
  (∀ c, p c = true → is_space c = false) → all_of p s = true → no_break s = true.
Proof.
  intros Hp. induction s as [|c s IH]; [done|]. cbn [all_of no_break].
  intros [Hc Hs]%andb_true_iff.
  by rewrite (space_not_break c (Hp c Hc)), (IH Hs).
Qed.

(** *** Spans *)

(** The string starts with a character of the class. *)
Definition headed (p : ascii → bool) (s : string) : bool :=
  match s with
  | String c _ => p c
  | EmptyString => false
  end.

Lemma headed_app p a b : a ≠ "" → headed p (a +:+ b) = headed p a.
Proof. by destruct a. Qed.

Lemma headed_all p q s :
  s ≠ "" → all_of p s = true → (∀ c, p c = true → q c = false) → headed q s = false.
Proof.
  destruct s as [|c s]; [done|]. cbn [all_of headed].
  intros _ [Hc _]%andb_true_iff Hpq. by apply Hpq.
Qed.

Lemma span_stop p s : headed p s = false → span p s = ("", s).
Proof. destruct s as [|c s]; [done|]. cbn [headed span]. by intros ->. Qed.

Lemma span_app p a b :
  all_of p a = true → span p (a +:+ b) = (a +:+ (span p b).1, (span p b).2).
Proof.
  induction a as [|c a IH]; intros Ha.
  - rewrite append_nil. by destruct (span p b).
  - cbn [all_of] in Ha. apply andb_true_iff in Ha as [Hc Ha].
    rewrite append_cons. cbn [span]. by rewrite Hc, (IH Ha).
Qed.

Lemma span_prefix p a b :
  all_of p a = true → headed p b = false → span p (a +:+ b) = (a, b).
Proof.
  intros Ha Hb. rewrite span_app, span_stop by done. cbn [fst snd].
  by rewrite append_nil_r.
Qed.

Lemma strip_prefix_app k s : strip_prefix k (k +:+ s) = Some s.
Proof.
  induction k as [|c k IH]; [done|].
  rewrite append_cons. cbn [strip_prefix]. by rewrite Ascii.eqb_refl.
Qed.

(** *** What the patterns find in a line *)

Lemma name_group_line indent name :
  indent ≠ "" → all_of is_space indent = true →
  name ≠ "" → all_of is_name_char name = true →
  name_group (indent +:+ name) = Some name.
Proof.
  intros Hi Hia Hn Hna. unfold name_group.
  rewrite span_prefix; [|done|by apply (headed_all is_name_char), name_char_not_space].
  cbv beta iota. by rewrite !eqb_nonempty, Hna by done.
Qed.

Lemma semicolon_not_name s : has_semicolon s = true → all_of is_name_char s = false.
Proof.
  induction s as [|c s IH]; [done|]. cbn [has_semicolon all_of].
  destruct (Ascii.eqb_spec c ";") as [->|_]; [done|].
  cbn [orb]. intros Hs. by rewrite (IH Hs), andb_false_r.
Qed.

Lemma name_group_semicolon line : has_semicolon line = true → name_group line = None.
Proof.
  intros Hsemi. unfold name_group.
  destruct (span_parts is_space line) as [Heq Hall].
  destruct (span is_space line) as [a b]. cbn [fst snd] in Heq, Hall.
  rewrite Heq, has_semicolon_app in Hsemi.
  rewrite <- all_space_chars in Hall.
  rewrite (all_space_no_semicolon _ Hall) in Hsemi. cbn [orb] in Hsemi.
  rewrite (semicolon_not_name _ Hsemi). by repeat case_match.
Qed.

Lemma field_line_semicolon a b : has_semicolon (a +:+ b +:+ ";") = true.
Proof. rewrite !has_semicolon_app. cbn [has_semicolon]. by rewrite !orb_true_r. Qed.

Lemma field_group_line key p indent pad v :
  indent ≠ "" → all_of is_space indent = true →
  key ≠ "" → headed is_space key = false →
  pad ≠ "" → all_of is_space pad = true →
  v ≠ "" → all_of p v = true →
  (∀ c, p c = true → is_space c = false) → p ";"%char = false →
  field_group key p (indent +:+ key +:+ pad +:+ v +:+ ";") = Some v.
Proof.
  intros Hi Hia Hk Hkh Hp Hpa Hv Hva Hps Hsemi. unfold field_group.
  rewrite span_prefix; [|done|by rewrite headed_app].
  cbv beta iota. rewrite eqb_nonempty by done.
  rewrite strip_prefix_app.
  rewrite span_prefix;
    [|done|rewrite headed_app by done; by apply (headed_all p)].
  cbv beta iota. rewrite eqb_nonempty by done.
  rewrite span_prefix; [|done|exact Hsemi].
  cbv beta iota. by rewrite eqb_nonempty by done.
Qed.

Lemma field_group_other key p indent rest :
  all_of is_space indent = true → headed is_space rest = false →
  strip_prefix key rest = None →
  field_group key p (indent +:+ rest) = None.
Proof.
  intros Hia Hh Hs. unfold field_group. rewrite span_prefix by done.
  cbv beta iota. rewrite Hs. by case_match.
Qed.

Lemma ingroups_group_other indent rest :
  all_of is_space indent = true → headed is_space rest = false →
  strip_prefix "inGroups" rest = None →
  ingroups_group (indent +:+ rest) = None.
Proof.
  intros Hia Hh Hs. unfold ingroups_group. rewrite span_prefix by done.
  cbv beta iota. rewrite Hs. by case_match.
Qed.

Lemma space_group_char c : is_space c = true → is_group_char c = true.
Proof. intros Hc. unfold is_group_char. by rewrite Hc, orb_true_r. Qed.

Lemma ingroups_group_line indent pad g :
  indent ≠ "" → all_of is_space indent = true →
  pad ≠ "" → all_of is_space pad = true →
  g ≠ "" → headed is_space g = false → all_of is_group_char g = true →
  ingroups_group (indent +:+ "inGroups" +:+ pad +:+ g +:+ ";") = Some g.
Proof.
  intros Hi Hia Hp Hpa Hg Hgh Hga. unfold ingroups_group.
  rewrite span_prefix; [|done|done].
  cbv beta iota. rewrite eqb_nonempty by done.
  rewrite strip_prefix_app, <- string_app_assoc.
  rewrite span_prefix; [| |done].
  2: { rewrite all_of_app, Hga, andb_true_r. rewrite !all_of_chars in *.
       eapply all_chars_weaken; [apply space_group_char|done]. }
  cbv beta iota. change (Ascii.eqb ";" ";" && all_space "") with true.
  cbv beta iota. rewrite span_prefix by done.
  cbv beta iota. by rewrite !eqb_nonempty by done.
Qed.

(** A line in which one of the four fields is found starts with
    white space and holds a semicolon. *)
Lemma field_group_shape key p line v :
  field_group key p line = Some v →
  headed is_space line = true ∧ has_semicolon line = true.
Proof.
  unfold field_group.
  destruct (span_parts is_space line) as [Heq Hall].
  destruct (span is_space line) as [a b]. cbn [fst snd] in Heq, Hall.
  destruct (String.eqb_spec a "") as [|Ha]; [done|].
  destruct (strip_prefix key b) as [r|] eqn:Hs; [|done].
  apply strip_prefix_parts in Hs.
  destruct (span_parts is_space r) as [Heq2 _].
  destruct (span is_space r) as [a2 b2]. cbn [fst snd] in Heq2.
  case_match; [done|].
  destruct (span_parts p b2) as [Heq3 _].
  destruct (span p b2) as [g r3]. cbn [fst snd] in Heq3.
  case_match; [done|].
  destruct (String.eqb_spec r3 ";") as [->|]; [|done]. intros _.
  subst. split.
  - destruct a as [|c a]; [done|]. rewrite append_cons. cbn [headed].
    cbn [all_chars] in Hall. by apply andb_true_iff in Hall as [? _].
  - rewrite !has_semicolon_app. cbn [has_semicolon].
    change (Ascii.eqb ";" ";") with true. by rewrite !orb_true_r.
Qed.

Lemma ingroups_group_shape line v :
  ingroups_group line = Some v →
  headed is_space line = true ∧ has_semicolon line = true.
Proof.
  unfold ingroups_group.
  destruct (span_parts is_space line) as [Heq Hall].
  destruct (span is_space line) as [a b]. cbn [fst snd] in Heq, Hall.
  destruct (String.eqb_spec a "") as [|Ha]; [done|].
  destruct (strip_prefix "inGroups" b) as [r|] eqn:Hs; [|done].
  apply strip_prefix_parts in Hs.
  destruct (span_parts is_group_char r) as [Heq2 _].
  destruct (span is_group_char r) as [body r2]. cbn [fst snd] in Heq2.
  destruct r2 as [|c r2]; [done|].
  destruct (Ascii.eqb_spec c ";") as [->|]; [|done]. intros _.
  subst. split.
  - destruct a as [|c a]; [done|]. rewrite append_cons. cbn [headed].
    cbn [all_chars] in Hall. by apply andb_true_iff in Hall as [? _].
  - rewrite !has_semicolon_app. cbn [has_semicolon].
    change (Ascii.eqb ";" ";") with true. by rewrite !orb_true_r.
Qed.

(** One of the four fields is found in the line. *)
Definition found {A} (o : option A) : bool :=
  match o with
  | Some _ => true
  | None => false
  end.

Definition sets_field (line : string) : bool :=
  found (field_group "type" is_word line) || found (ingroups_group line)
  || found (field_group "nFaces" is_digit line)
  || found (field_group "startFace" is_digit line).

Lemma sets_field_shape line :
  sets_field line = true → headed is_space line = true ∧ has_semicolon line = true.
Proof.
  unfold sets_field.
  destruct (field_group "type" is_word line) eqn:H1;
    [intros _; by eapply field_group_shape|].
  destruct (ingroups_group line) eqn:H2;
    [intros _; by eapply ingroups_group_shape|].
  destruct (field_group "nFaces" is_digit line) eqn:H3;
    [intros _; by eapply field_group_shape|].
  destruct (field_group "startFace" is_digit line) eqn:H4;
    [intros _; by eapply field_group_shape|done].
Qed.

Lemma no_semicolon_no_field line : has_semicolon line = false → sets_field line = false.
Proof.
  intros Hs. destruct (sets_field line) eqn:Hf; [|done].
  apply sets_field_shape in Hf as [_ Hf]. congruence.
Qed.

(** *** The loop *)

Section steps.
Context (fresh : UGBoundary.t).

Lemma loop_cons line lines st st' :
  boundary_step fresh st line = Some st' →
  boundary_loop fresh (line :: lines) st = boundary_loop fresh lines st'.
Proof. intros Hs. cbn [boundary_loop]. by rewrite Hs. Qed.

Lemma step_outside line b bs :
  starts_with "(" line = false →
  boundary_step fresh (mk_reader false b bs) line = Some (mk_reader false b bs).
Proof.
  intros Hp. unfold boundary_step, inside_after. cbn [inside].
  rewrite Hp. by destruct (starts_with ")" line).
Qed.

Lemma loop_outside lines rest b bs :
  Forall (λ line, starts_with "(" line = false) lines →
  boundary_loop fresh (lines ++ rest) (mk_reader false b bs)
  = boundary_loop fresh rest (mk_reader false b bs).
Proof.
  induction 1 as [|line lines Hl _ IH]; [done|].
  rewrite <- app_comm_cons, (loop_cons _ _ _ _ (step_outside _ _ _ Hl)). exact IH.
Qed.

Lemma inside_after_indented i line :
  headed is_space line = true → inside_after i line = i.
Proof.
  destruct line as [|c s]; [by destruct i|]. cbn [headed]. intros Hc.
  unfold inside_after, starts_with.
  destruct (Ascii.eqb_spec c "(") as [->|_]; [by vm_compute in Hc|].
  destruct (Ascii.eqb_spec c ")") as [->|_]; [by vm_compute in Hc|].
  done.
Qed.

Lemma step_opener line i b bs :
  starts_with "(" line = true →
  boundary_step fresh (mk_reader i b bs) line = Some (mk_reader true b bs).
Proof.
  destruct line as [|c s]; [done|]. cbn [starts_with].
  intros ->%Ascii.eqb_eq. reflexivity.
Qed.

Lemma step_name line name b bs :
  headed is_space line = true → name_group line = Some name →
  boundary_step fresh (mk_reader true b bs) line
  = Some (mk_reader true true (bs ++ [UGBoundary_new fresh name])).
Proof.
  intros Hh Hn. unfold boundary_step. cbn [inside boundaries].
  rewrite inside_after_indented by done. cbn [negb]. by rewrite Hn.
Qed.

Lemma step_skip line b bs :
  inside_after true line = true → name_group line = None →
  sets_field line = false →
  boundary_step fresh (mk_reader true b bs) line = Some (mk_reader true b bs).
Proof.
  intros Hi Hn. unfold sets_field, boundary_step. cbn [inside boundaries].
  rewrite Hi, Hn. cbn [negb].
  destruct (field_group "type" is_word line); [done|].
  destruct (ingroups_group line); [done|].
  destruct (field_group "nFaces" is_digit line); [done|].
  by destruct (field_group "startFace" is_digit line).
Qed.

Lemma step_unbound line bs :
  sets_field line = true →
  boundary_step fresh (mk_reader true false bs) line = None.
Proof.
  intros Hf. destruct (sets_field_shape line Hf) as [Hh Hsemi].
  revert Hf. unfold sets_field, boundary_step. cbn [inside boundaries].
  rewrite inside_after_indented, (name_group_semicolon _ Hsemi) by done.
  cbn [negb].
  destruct (field_group "type" is_word line); [done|].
  destruct (ingroups_group line); [done|].
  destruct (field_group "nFaces" is_digit line); [done|].
  by destruct (field_group "startFace" is_digit line).
Qed.

Lemma set_patch_last f i bs x :
  set_patch f (mk_reader i true (bs ++ [x]))
  = Some (mk_reader true true (bs ++ [f x])).
Proof.
  unfold set_patch. cbn [patch_assigned boundaries].
  rewrite length_app. cbn [length].
  replace (length bs + 1 - 1)%nat with (length bs) by lia.
  by rewrite dedup.alter_app_last.
Qed.

Lemma step_type line v bs x :
  headed is_space line = true → has_semicolon line = true →
  field_group "type" is_word line = Some v →
  boundary_step fresh (mk_reader true true (bs ++ [x])) line
  = Some (mk_reader true true (bs ++ [set_typename v x])).
Proof.
  intros Hh Hsemi Hg. unfold boundary_step. cbn [inside boundaries].
  rewrite inside_after_indented, (name_group_semicolon _ Hsemi), Hg by done.
  apply set_patch_last.
Qed.

Lemma step_ingroups line v bs x :
  headed is_space line = true → has_semicolon line = true →
  field_group "type" is_word line = None →
  ingroups_group line = Some v →
  boundary_step fresh (mk_reader true true (bs ++ [x])) line
  = Some (mk_reader true true (bs ++ [set_inGroups v x])).
Proof.
  intros Hh Hsemi Ht Hg. unfold boundary_step. cbn [inside boundaries].
  rewrite inside_after_indented, (name_group_semicolon _ Hsemi), Ht, Hg by done.
  apply set_patch_last.
Qed.

Lemma step_nFaces line v bs x :
  headed is_space line = true → has_semicolon line = true →
  field_group "type" is_word line = None →
  ingroups_group line = None →
  field_group "nFaces" is_digit line = Some v →
  boundary_step fresh (mk_reader true true (bs ++ [x])) line
  = Some (mk_reader true true (bs ++ [set_nFaces (int v) x])).
Proof.
  intros Hh Hsemi Ht Hi Hg. unfold boundary_step. cbn [inside boundaries].
  rewrite inside_after_indented, (name_group_semicolon _ Hsemi), Ht, Hi, Hg by done.
  apply set_patch_last.
Qed.

Lemma step_startFace line v bs x :
  headed is_space line = true → has_semicolon line = true →
  field_group "type" is_word line = None →
  ingroups_group line = None →
  field_group "nFaces" is_digit line = None →
  field_group "startFace" is_digit line = Some v →
  boundary_step fresh (mk_reader true true (bs ++ [x])) line
  = Some (mk_reader true true (bs ++ [set_startFace (int v) x])).
Proof.
  intros Hh Hsemi Ht Hi Hn Hg. unfold boundary_step. cbn [inside boundaries].
  rewrite inside_after_indented, (name_group_semicolon _ Hsemi), Ht, Hi, Hn, Hg
    by done.
  apply set_patch_last.
Qed.

(** *** The entries the export writes *)

(** A patch with the fields of the entry. *)
Definition with_fields (e : patch_entry) (x : UGBoundary.t) : UGBoundary.t :=
  UGBoundary.mk (UGBoundary.patchname x) (e_typename e)
    (if decide (e_inGroups e ≠ "") then e_inGroups e else UGBoundary.inGroups x)
    (e_nFaces e) (e_startFace e) (UGBoundary.deleted x).

(** The patch the reader makes of an entry. *)
Definition as_read (e : patch_entry) : UGBoundary.t :=
  with_fields e (UGBoundary_new fresh (e_patchname e)).

(** A name the reader takes for the name of a patch, and which the
    step before it leaves alone. *)
Definition readable_name (n : string) : Prop :=
  n ≠ "" ∧ all_of is_name_char n = true ∧ n ≠ "inGroups".

Definition readable_group (g : string) : Prop :=
  g = "" ∨
  (headed is_space g = false ∧ all_of is_group_char g = true ∧ no_break g = true).

Definition readable_fields (e : patch_entry) : Prop :=
  e_typename e ≠ "" ∧ all_of is_word (e_typename e) = true ∧
  readable_group (e_inGroups e) ∧ 0 ≤ e_startFace e.

Definition readable_entry (e : patch_entry) : Prop :=
  readable_name (e_patchname e) ∧ readable_fields e.

Definition field_lines (e : patch_entry) : list string :=
  ["    {"; "        type            " +:+ e_typename e +:+ ";"]
  ++ (if decide (e_inGroups e ≠ "")
      then ["        inGroups        " +:+ e_inGroups e +:+ ";"] else [])
  ++ ["        nFaces          " +:+ Py.str (e_nFaces e) +:+ ";";
      "        startFace       " +:+ Py.str (e_startFace e) +:+ ";";
      "    }"].

Lemma entry_lines_fields e :
  entry_lines e = ("    " +:+ e_patchname e) :: field_lines e.
Proof. done. Qed.

Lemma digits_all_of s : digits_only s = all_of is_digit s.
Proof. induction s as [|c s IH]; [done|]. cbn [digits_only all_of]. by rewrite IH. Qed.

Lemma digit_no_space c : is_digit c = true → is_space c = false.
Proof. intros Hc%digit_not_space. by apply negb_true_iff. Qed.

Lemma number_line_group key n :
  key ≠ "" → headed is_space key = false → 0 ≤ n →
  field_group key is_digit ("        " +:+ key +:+ "  " +:+ Py.str n +:+ ";")
  = Some (Py.str n).
Proof.
  intros Hk Hkh Hn. destruct (str_digits n Hn) as [Hd Hne].
  apply field_group_line; try done.
  - by rewrite <- digits_all_of.
  - apply digit_no_space.
Qed.

Lemma read_fields e rest bs x :
  readable_fields e → 0 ≤ e_nFaces e →
  boundary_loop fresh (field_lines e ++ rest) (mk_reader true true (bs ++ [x]))
  = boundary_loop fresh rest (mk_reader true true (bs ++ [with_fields e x])).
Proof.
  intros (Htn & Hta & Hg & Hsf) Hnf. unfold field_lines.
  rewrite <- !app_assoc. cbn [app].
  rewrite (loop_cons "    {" _ _ (mk_reader true true (bs ++ [x]))) by done.
  (* type *)
  erewrite loop_cons; cycle 1.
  { apply step_type; [done|apply field_line_semicolon|].
    change ("        type            " +:+ e_typename e +:+ ";")
      with ("        " +:+ "type" +:+ "            " +:+ e_typename e +:+ ";").
    apply field_group_line; try done. apply word_not_space. }
  (* inGroups *)
  assert (boundary_loop fresh
            ((if decide (e_inGroups e ≠ "")
              then ["        inGroups        " +:+ e_inGroups e +:+ ";"] else [])
             ++ ("        nFaces          " +:+ Py.str (e_nFaces e) +:+ ";")
             :: ("        startFace       " +:+ Py.str (e_startFace e) +:+ ";")
             :: "    }" :: rest)
            (mk_reader true true (bs ++ [set_typename (e_typename e) x]))
          = boundary_loop fresh
              (("        nFaces          " +:+ Py.str (e_nFaces e) +:+ ";")
               :: ("        startFace       " +:+ Py.str (e_startFace e) +:+ ";")
               :: "    }" :: rest)
              (mk_reader true true
                 (bs ++ [(if decide (e_inGroups e ≠ "")
                          then set_inGroups (e_inGroups e) else id)
                           (set_typename (e_typename e) x)]))) as ->.
  { destruct (decide (e_inGroups e ≠ "")) as [Hne|]; [|done].
    destruct Hg as [|(Hgh & Hga & _)]; [done|].
    cbn [app]. apply loop_cons.
    apply step_ingroups; [done|apply field_line_semicolon| |].
    - by apply (field_group_other "type" is_word "        "
                  ("inGroups        " +:+ e_inGroups e +:+ ";")).
    - change ("        inGroups        " +:+ e_inGroups e +:+ ";")
        with ("        " +:+ "inGroups" +:+ "        " +:+ e_inGroups e +:+ ";").
      by apply ingroups_group_line. }
  (* nFaces *)
  erewrite loop_cons; cycle 1.
  { apply step_nFaces; [done|apply field_line_semicolon| | |].
    - by apply (field_group_other "type" is_word "        "
                  ("nFaces          " +:+ Py.str (e_nFaces e) +:+ ";")).
    - by apply (ingroups_group_other "        "
                  ("nFaces          " +:+ Py.str (e_nFaces e) +:+ ";")).
    - change ("        nFaces          " +:+ Py.str (e_nFaces e) +:+ ";")
        with ("        " +:+ "nFaces" +:+ "          " +:+ Py.str (e_nFaces e)
              +:+ ";").
      destruct (str_digits _ Hnf) as [Hd Hne].
      apply field_group_line; try done.
      + by rewrite <- digits_all_of.
      + apply digit_no_space. }
  (* startFace *)
  erewrite loop_cons; cycle 1.
  { apply step_startFace; [done|apply field_line_semicolon| | | |].
    - by apply (field_group_other "type" is_word "        "
                  ("startFace       " +:+ Py.str (e_startFace e) +:+ ";")).
    - by apply (ingroups_group_other "        "
                  ("startFace       " +:+ Py.str (e_startFace e) +:+ ";")).
    - by apply (field_group_other "nFaces" is_digit "        "
                  ("startFace       " +:+ Py.str (e_startFace e) +:+ ";")).
    - change ("        startFace       " +:+ Py.str (e_startFace e) +:+ ";")
        with ("        " +:+ "startFace" +:+ "       " +:+ Py.str (e_startFace e)
              +:+ ";").
      destruct (str_digits _ Hsf) as [Hd Hne].
      apply field_group_line; try done.
      + by rewrite <- digits_all_of.
      + apply digit_no_space. }
  rewrite !int_str by done.
  rewrite (loop_cons "    }" _ _ (mk_reader true true
             (bs ++ [set_startFace (e_startFace e)
                       (set_nFaces (e_nFaces e)
                          ((if decide (e_inGroups e ≠ "")
                            then set_inGroups (e_inGroups e) else id)
                             (set_typename (e_typename e) x)))]))) by done.
  do 4 f_equal. unfold with_fields.
  by destruct (decide (e_inGroups e ≠ "")).
Qed.

Lemma read_entry e rest b bs :
  readable_entry e → 0 ≤ e_nFaces e →
  boundary_loop fresh (entry_lines e ++ rest) (mk_reader true b bs)
  = boundary_loop fresh rest (mk_reader true true (bs ++ [as_read e])).
Proof.
  intros [(Hn & Hna & _) Hf] Hnf. rewrite entry_lines_fields, <- app_comm_cons.
  erewrite loop_cons; cycle 1.
  { apply step_name; [done|]. by apply name_group_line. }
  by apply read_fields.
Qed.

Lemma read_entries es :
  Forall readable_entry es → Forall (λ e, 0 ≤ e_nFaces e) es →
  ∀ b bs,
    boundary_loop fresh (concat (entry_lines <$> es) ++ [")"]) (mk_reader true b bs)
    = (bs ++ (as_read <$> es), Returned).
Proof.
  induction 1 as [|e es He _ IH]; intros Hnf b bs.
  - cbn. by rewrite app_nil_r.
  - apply Forall_cons in Hnf as [Hn Hnf].
    rewrite fmap_cons, concat_cons, <- app_assoc.
    rewrite read_entry by done. rewrite (IH Hnf), fmap_cons.
    by rewrite <- app_assoc.
Qed.

Lemma read_entries_cons es :
  ∀ e rest b bs,
    Forall readable_entry (e :: es) → Forall (λ e, 0 ≤ e_nFaces e) (e :: es) →
    boundary_loop fresh (concat (entry_lines <$> e :: es) ++ rest)
      (mk_reader true b bs)
    = boundary_loop fresh rest (mk_reader true true (bs ++ (as_read <$> e :: es))).
Proof.
  induction es as [|e' es IH]; intros e rest b bs Hr Hn;
    apply Forall_cons in Hr as [He Hr]; apply Forall_cons in Hn as [Hne Hn];
    rewrite fmap_cons, concat_cons, <- app_assoc, read_entry by done.
  - done.
  - rewrite (IH e' rest true _ Hr Hn). by rewrite <- app_assoc.
Qed.

(** A name the reader does not take for the name of a patch, in a
    line that is left alone. *)
Definition unreadable_name (n : string) : Prop :=
  name_group ("    " +:+ n) = None ∧ has_semicolon n = false ∧
  no_break n = true ∧ is_ingroups_line n = false.

Lemma read_nameless_entry e rest bs x :
  unreadable_name (e_patchname e) → readable_fields e → 0 ≤ e_nFaces e →
  boundary_loop fresh (entry_lines e ++ rest) (mk_reader true true (bs ++ [x]))
  = boundary_loop fresh rest (mk_reader true true (bs ++ [with_fields e x])).
Proof.
  intros (Hname & Hsemi & _) Hf Hnf. rewrite entry_lines_fields, <- app_comm_cons.
  erewrite loop_cons; cycle 1.
  { apply step_skip; [by apply inside_after_indented|done|].
    apply no_semicolon_no_field. by rewrite has_semicolon_app. }
  by apply read_fields.
Qed.

Lemma header_outside :
  Forall (λ line, starts_with "(" line = false)
         (header_lines "polyBoundaryMesh" "boundary").
Proof. unfold header_lines. by repeat constructor. Qed.

Lemma read_boundary_lines es bs0 :
  Forall readable_entry es → Forall (λ e, 0 ≤ e_nFaces e) es →
  boundary_loop fresh (boundary_lines es) (mk_reader false false bs0)
  = (bs0 ++ (as_read <$> es), Returned).
Proof.
  intros Hes Hnf. unfold boundary_lines.
  rewrite loop_outside by apply header_outside. cbn [app].
  rewrite (loop_cons "" _ _ _ (step_outside "" false bs0 eq_refl)).
  rewrite (loop_cons _ _ _ _
             (step_outside _ _ _ (proj1 (str_not_paren (Z.of_nat (length es)))))).
  rewrite (loop_cons "(" _ _ _ (step_opener "(" false false bs0 eq_refl)).
  by apply read_entries.
Qed.
End steps.

(** *** What the export writes, read by the import *)

Lemma name_not_keyword n : readable_name n → is_ingroups_line n = false.
Proof.
  intros (Hn & Ha & Hk). unfold is_ingroups_line.
  rewrite span_stop by (by apply (headed_all is_name_char), name_char_not_space).
  cbn [snd].
  destruct (strip_prefix "inGroups" n) as [rest|] eqn:Hs; [|done].
  apply strip_prefix_parts in Hs.
  destruct rest as [|c rest]; [by rewrite append_nil_r in Hs|].
  rewrite Hs, all_of_app in Ha. apply andb_true_iff in Ha as [_ Ha].
  cbn [all_of] in Ha. apply andb_true_iff in Ha as [Hc _].
  cbn [all_space]. by rewrite (name_char_not_space c Hc).
Qed.

Lemma readable_group_no_break g : readable_group g → no_break g = true.
Proof. by intros [->|(_ & _ & ?)]. Qed.

Lemma readable_plain e : readable_entry e → plain_names e.
Proof.
  intros [Hn (Htn & Hta & Hg & _)]. split_and!.
  - by apply name_not_keyword.
  - destruct Hn as (_ & Ha & _).
    apply (all_of_no_break is_name_char); [apply name_char_not_space|done].
  - apply (all_of_no_break is_word); [apply word_not_space|done].
  - by apply readable_group_no_break.
Qed.

Lemma boundary_entries_nFaces (faces : list UGFace.t) (bs : list UGBoundary.t) :
  ∀ i es, boundary_entries faces bs i = Py.Ok es → Forall (λ e, 0 ≤ e_nFaces e) es.
Proof.
  induction bs as [|b bs IH]; intros i es; simpl.
  - by intros [= <-].
  - destruct (UGBoundary.deleted b); [apply IH|].
    destruct (Py.getitem _ 0) as [first|]; [|done].
    destruct (boundary_entries faces bs (i + 1)) as [es'|] eqn:Hes; [|done].
    intros [= <-]. constructor; [simpl; lia | by eapply IH].
Qed.

Lemma fix_keeps_plain_lines (lines : list string) :
  Forall (λ line, no_break line = true ∧ is_ingroups_line line = false) lines →
  polymesh_boundary_ingroup_fix (unlines lines) = unlines lines.
Proof.
  intros [Hbreak Hkw]%Forall_and.
  unfold polymesh_boundary_ingroup_fix. rewrite splitlines_unlines by done.
  by rewrite fix_lines_outside by done.
Qed.

(** X25.  Export, then import of the boundary: when the entries
    [update_text_boundary] writes have a name made of word characters,
    [%], [:] and [-] other than [inGroups], a type made of word
    characters, groups that are empty or made of word characters,
    parentheses and white space other than line breaks and do not
    start with white space, and a start face that is not negative,
    then [polymesh_boundary_ingroup_fix] and [polymesh_get_boundary]
    return and append to [ugboundaries] one patch per entry, in
    order, with the name, type, [nFaces] and [startFace] of the
    entry, and its groups when they are not empty. *)
Theorem boundary_text_read_back
    (fresh : UGBoundary.t) (st : ug) (es : list patch_entry)
    (ugboundaries0 : list UGBoundary.t) :
  boundary_entries (ugfaces st) (ugboundaries st) 0 = Py.Ok es →
  Forall readable_entry es →
  ∃ text,
    update_text_boundary st = Py.Ok text ∧
    polymesh_get_boundary fresh (polymesh_boundary_ingroup_fix text) ugboundaries0
    = (ugboundaries0 ++ (as_read fresh <$> es), Returned).
Proof.
  intros Hes Hread. unfold update_text_boundary. rewrite Hes.
  eexists. split; [done|]. rewrite boundary_text_unlines.
  assert (Forall (λ line, no_break line = true ∧ is_ingroups_line line = false)
                 (boundary_lines es)) as Hlines.
  { apply boundary_lines_plain. eapply Forall_impl; [exact Hread|].
    apply readable_plain. }
  rewrite fix_keeps_plain_lines by done.
  unfold polymesh_get_boundary.
  rewrite splitlines_unlines by (by apply Forall_and in Hlines as [? _]).
  apply read_boundary_lines; [done|]. by eapply boundary_entries_nFaces.
Qed.

Lemma boundary_text_read_back_witness :
  ∃ text,
    update_text_boundary boundary_tiling.two_patches = Py.Ok text ∧
    polymesh_get_boundary (UGBoundary.mk "" "patch" "" 0 0 false)
      (polymesh_boundary_ingroup_fix text) []
    = ([] ++ (as_read (UGBoundary.mk "" "patch" "" 0 0 false)
                <$> [mk_patch_entry "inlet" "patch" "" 2 1;
                     mk_patch_entry "outlet" "patch" "" 1 3]),
       Returned).
Proof.
  apply (boundary_text_read_back (UGBoundary.mk "" "patch" "" 0 0 false)
           boundary_tiling.two_patches).
  - reflexivity.
  - repeat constructor; try done; by left.
Defined.

Lemma boundary_lines_read (fresh : UGBoundary.t) (st : ug) (es : list patch_entry)
    (bs0 : list UGBoundary.t) :
  boundary_entries (ugfaces st) (ugboundaries st) 0 = Py.Ok es →
  Forall plain_names es →
  ∃ text,
    update_text_boundary st = Py.Ok text ∧
    polymesh_get_boundary fresh (polymesh_boundary_ingroup_fix text) bs0
    = boundary_loop fresh
        ("(" :: concat (entry_lines <$> es) ++ [")"]) (mk_reader false false bs0).
Proof.
  intros Hes Hplain. unfold update_text_boundary. rewrite Hes.
  eexists. split; [done|]. rewrite boundary_text_unlines.
  pose proof (boundary_lines_plain es Hplain) as Hlines.
  rewrite fix_keeps_plain_lines by done.
  unfold polymesh_get_boundary.
  rewrite splitlines_unlines by (by apply Forall_and in Hlines as [? _]).
  unfold boundary_lines.
  rewrite loop_outside by apply header_outside. cbn [app].
  rewrite (loop_cons fresh "" _ _ _ (step_outside fresh "" false bs0 eq_refl)).
  by rewrite (loop_cons fresh _ _ _ _
                (step_outside fresh _ _ _
                   (proj1 (str_not_paren (Z.of_nat (length es)))))).
Qed.

(** X27.  Export, then import of the boundary, when one patch after
    the first has a name the reader does not take for a name (such
    as a name with a dot): [polymesh_get_boundary] returns, makes no
    patch for it, and gives its type, [nFaces], [startFace] and
    groups (when not empty) to the patch written before it. *)
Theorem unreadable_name_merges
    (fresh : UGBoundary.t) (st : ug) (es1 : list patch_entry) (e1 e2 : patch_entry)
    (es2 : list patch_entry) (ugboundaries0 : list UGBoundary.t) :
  boundary_entries (ugfaces st) (ugboundaries st) 0 = Py.Ok (es1 ++ e1 :: e2 :: es2) →
  Forall readable_entry (es1 ++ e1 :: es2) →
  unreadable_name (e_patchname e2) → readable_fields e2 →
  ∃ text,
    update_text_boundary st = Py.Ok text ∧
    polymesh_get_boundary fresh (polymesh_boundary_ingroup_fix text) ugboundaries0
    = (ugboundaries0 ++ (as_read fresh <$> es1)
       ++ with_fields e2 (as_read fresh e1) :: (as_read fresh <$> es2),
       Returned).
Proof.
  intros Hes Hread Hname Hfields.
  pose proof (boundary_entries_nFaces _ _ _ _ Hes) as Hnf.
  apply Forall_app in Hread as [Hr1 [He1 Hr2]%Forall_cons].
  apply Forall_app in Hnf as [Hn1 [Hne1 [Hne2 Hn2]%Forall_cons]%Forall_cons].
  destruct (boundary_lines_read fresh st _ ugboundaries0 Hes) as (text & Htext & Hrun).
  { apply Forall_app. split; [by eapply Forall_impl; [|apply readable_plain]|].
    repeat apply Forall_cons_2.
    - by apply readable_plain.
    - destruct Hname as (_ & _ & Hb & Hk). destruct Hfields as (_ & Hta & Hg & _).
      split_and!; [done|done| |by apply readable_group_no_break].
      apply (all_of_no_break is_word); [apply word_not_space|done].
    - by eapply Forall_impl; [|apply readable_plain]. }
  exists text. split; [done|]. rewrite Hrun.
  rewrite (loop_cons fresh "(" _ _ _ (step_opener fresh "(" false false _ eq_refl)).
  assert (es1 ++ e1 :: e2 :: es2 = (es1 ++ [e1]) ++ e2 :: es2) as ->
    by (by rewrite <- app_assoc).
  rewrite fmap_app, concat_app, fmap_cons, concat_cons, <- !app_assoc.
  assert (∃ e0 l, es1 ++ [e1] = e0 :: l) as (e0 & l & Heq).
  { destruct es1; simpl; eauto. }
  rewrite Heq, read_entries_cons; cycle 1.
  { rewrite <- Heq. apply Forall_app. split; [done|by constructor]. }
  { rewrite <- Heq. apply Forall_app. split; [done|by constructor]. }
  rewrite <- Heq, fmap_app, (app_assoc ugboundaries0). cbn [fmap list_fmap].
  rewrite read_nameless_entry by done.
  rewrite read_entries by done.
  by rewrite <- !app_assoc.
Qed.

(** Two patches, the second one called [out.let]. *)
Definition dotted_name : ug :=
  mk_ug [UGCell.mk [0; 1; 2] (-1); UGCell.mk [0; 3] (-1)]
        [UGFace.mk 0 [0; 1; 2] 0 1 None false;
         UGFace.mk 1 [0; 1; 3] 0 (-1) (Some 0) false;
         UGFace.mk 2 [1; 2; 3] 0 (-1) (Some 0) false;
         UGFace.mk 3 [0; 2; 3] 1 (-1) (Some 1) false]
        [UGBoundary.mk "inlet" "patch" "" 2 1 false;
         UGBoundary.mk "out.let" "wall" "" 1 3 false].

Lemma unreadable_name_merges_witness :
  ∃ text,
    update_text_boundary dotted_name = Py.Ok text ∧
    polymesh_get_boundary (UGBoundary.mk "" "patch" "" 0 0 false)
      (polymesh_boundary_ingroup_fix text) []
    = ([] ++ []
       ++ [UGBoundary.mk "inlet" "wall" "" 1 3 false],
       Returned).
Proof.
  apply (unreadable_name_merges (UGBoundary.mk "" "patch" "" 0 0 false)
           dotted_name [] (mk_patch_entry "inlet" "patch" "" 2 1)
           (mk_patch_entry "out.let" "wall" "" 1 3) []).
  - reflexivity.
  - repeat constructor; try done; by left.
  - by repeat constructor.
  - repeat constructor; try done; by left.
Defined.

(** X26.  A text in which, after the line that opens the list, a
    line with one of the fields [type], [inGroups], [nFaces] and
    [startFace] comes before any line the reader takes for a patch
    name: [polymesh_get_boundary] raises [UnboundLocalError] at that
    line, whatever follows, and [ugboundaries] is as it was. *)
Theorem field_before_patch_name
    (fresh : UGBoundary.t) (pre : list string) (opener : string)
    (mid : list string) (line : string) (rest : list string)
    (ugboundaries0 : list UGBoundary.t) :
  Forall (λ l, no_break l = true) (pre ++ opener :: mid ++ line :: rest) →
  Forall (λ l, starts_with "(" l = false) pre →
  starts_with "(" opener = true →
  Forall (λ l, starts_with ")" l = false ∧ name_group l = None
               ∧ sets_field l = false) mid →
  sets_field line = true →
  polymesh_get_boundary fresh (unlines (pre ++ opener :: mid ++ line :: rest))
    ugboundaries0
  = (ugboundaries0, RaisedUnboundLocalError).
Proof.
  intros Hbreak Hpre Hopen Hmid Hline. unfold polymesh_get_boundary.
  rewrite splitlines_unlines by done.
  rewrite loop_outside by done.
  rewrite (loop_cons _ _ _ _ _ (step_opener _ _ _ _ _ Hopen)).
  clear Hbreak.
  induction Hmid as [|l mid (Hl1 & Hl2 & Hl3) _ IH].
  - cbn [app boundary_loop]. by rewrite step_unbound.
  - rewrite <- app_comm_cons.
    rewrite (loop_cons fresh l _ _ (mk_reader true false ugboundaries0)); [apply IH|].
    apply step_skip; [|done|done].
    unfold inside_after. rewrite Hl1. by destruct (starts_with "(" l).
Qed.

(** A first patch called [in.let]. *)
Lemma field_before_patch_name_witness :
  polymesh_get_boundary (UGBoundary.mk "" "patch" "" 0 0 false)
    (unlines (["1"] ++ "(" :: ["    in.let"; "    {"]
              ++ "        type            patch;"
              :: ["        nFaces          2;"; "        startFace       1;";
                  "    }"; ")"])) []
  = ([], RaisedUnboundLocalError).
Proof.
  apply (field_before_patch_name (UGBoundary.mk "" "patch" "" 0 0 false)
           ["1"] "(" ["    in.let"; "    {"] "        type            patch;"
           ["        nFaces          2;"; "        startFace       1;"; "    }"; ")"]
           []).
  - by repeat constructor.
  - by repeat constructor.
  - reflexivity.
  - by repeat constructor.
  - reflexivity.
Defined.

End boundary_reader.


(** ** The VTU text: what the export writes and the import finds *)

Module vtu_text.
Import io_vtu io_vtu_export io_polymesh_text io_polymesh_fix text_round_trip
       faces_text ingroup_fix offsets_codec export_counts io_vtu_text.

(** *** Characters *)

(** The characters of [str()] of an integer, and the characters of a
    line of numbers. *)
Definition is_num_char (c : ascii) : bool := is_digit c || Ascii.eqb c "-".
Definition is_row_char (c : ascii) : bool := is_num_char c || Ascii.eqb c " ".

(** The characters the patterns of the import look for are not in a
    line of data. *)
Definition is_data_char (c : ascii) : bool :=
  negb (Ascii.eqb c "034") && negb (Ascii.eqb c "<") && negb (is_linebreak c).

Lemma row_data_char c : is_row_char c = true → is_data_char c = true.
Proof. destruct c as [[] [] [] [] [] [] [] []]; vm_compute; done. Qed.

Lemma num_row_char c : is_num_char c = true → is_row_char c = true.
Proof. intros Hc. unfold is_row_char. by rewrite Hc. Qed.

Lemma num_not_space c : is_num_char c = true → negb (is_space c) = true.
Proof. destruct c as [[] [] [] [] [] [] [] []]; vm_compute; done. Qed.

Lemma data_not_break c : is_data_char c = true → negb (is_linebreak c) = true.
Proof. unfold is_data_char. by intros [_ ?]%andb_true_iff. Qed.

Lemma str_num_chars (x : Z) : all_chars is_num_char (Py.str x) = true ∧ Py.str x ≠ "".
Proof.
  assert (∀ s, digits_only s = true → all_chars is_num_char s = true) as Hdigits.
  { intros s Hd. rewrite digits_all_chars in Hd.
    eapply all_chars_weaken; [|exact Hd].
    intros c Hc. unfold is_num_char. by rewrite Hc. }
  destruct (decide (0 ≤ x)) as [Hx|Hx].
  - destruct (str_digits x Hx) as [Hd Hne]. split; [by apply Hdigits | done].
  - unfold Py.str, pretty, pretty_Z. destruct x as [|p|p]; [lia|lia|].
    rewrite append_cons, append_nil. split; [|done]. cbn [all_chars].
    change (is_num_char "-") with true. cbn [andb].
    apply Hdigits. apply (str_digits (Z.pos p)). lia.
Qed.

Lemma all_chars_no_break p s :
  (∀ c, p c = true → negb (is_linebreak c) = true) →
  all_chars p s = true → no_break s = true.
Proof.
  intros Hp. induction s as [|c s IH]; [done|]. cbn [all_chars no_break].
  intros [Hc Hs]%andb_true_iff. by rewrite (Hp c Hc), (IH Hs).
Qed.

(** *** Searching *)

Fixpoint has_char (c : ascii) (s : string) : bool :=
  match s with
  | EmptyString => false
  | String c' s' => Ascii.eqb c' c || has_char c s'
  end.

Lemma all_chars_absent p c s : p c = false → all_chars p s = true → has_char c s = false.
Proof.
  intros Hc. induction s as [|c' s IH]; [done|]. cbn [all_chars has_char].
  intros [Hc' Hs]%andb_true_iff. rewrite (IH Hs), orb_false_r.
  destruct (Ascii.eqb_spec c' c) as [->|]; [congruence | done].
Qed.

Lemma strip_prefix_has_char c pat :
  ∀ s r, strip_prefix pat s = Some r → has_char c pat = true → has_char c s = true.
Proof.
  induction pat as [|c0 pat IH]; intros s r; [done|].
  destruct s as [|c' s]; [done|]. cbn [strip_prefix has_char].
  destruct (Ascii.eqb_spec c0 c') as [->|]; [|done].
  intros Hs. destruct (Ascii.eqb c' c); [done|]. cbn [orb]. by apply (IH s r).
Qed.

Lemma find_after_absent c pat s :
  has_char c pat = true → has_char c s = false → find_after pat s = None.
Proof.
  intros Hp. induction s as [|c' s IH]; intros Hs.
  - cbn [find_after]. destruct (strip_prefix pat "") eqn:Hstrip; [|done].
    by rewrite (strip_prefix_has_char c _ _ _ Hstrip Hp) in Hs.
  - cbn [find_after]. destruct (strip_prefix pat (String c' s)) eqn:Hstrip.
    + by rewrite (strip_prefix_has_char c _ _ _ Hstrip Hp) in Hs.
    + apply IH. cbn [has_char] in Hs. by apply orb_false_iff in Hs as [_ ?].
Qed.

(** No occurrence of a pattern starts inside a number. *)
Lemma strip_head (p : ascii → bool) c0 pat v s :
  p c0 = false → p v = true → strip_prefix (String c0 pat) (String v s) = None.
Proof.
  intros Hc Hv. cbn [strip_prefix].
  destruct (Ascii.eqb_spec c0 v) as [->|]; [congruence | done].
Qed.

Lemma find_after_skip (p : ascii → bool) c0 pat V E :
  p c0 = false → all_chars p V = true →
  find_after (String c0 pat) (V +:+ E) = find_after (String c0 pat) E.
Proof.
  intros Hc. induction V as [|v V IH]; [done|]. cbn [all_chars].
  intros [Hv HV]%andb_true_iff. rewrite append_cons.
  cbn [find_after]. rewrite (strip_head p) by done. by apply IH.
Qed.

Lemma last_quoted_skip (p : ascii → bool) c0 pat best V E :
  p c0 = false → all_chars p V = true →
  last_quoted_after (String c0 pat) best (V +:+ E)
  = last_quoted_after (String c0 pat) best E.
Proof.
  intros Hc. induction V as [|v V IH]; [done|]. cbn [all_chars].
  intros [Hv HV]%andb_true_iff. rewrite append_cons.
  cbn [last_quoted_after]. rewrite (strip_head p) by done. by apply IH.
Qed.

(** *** The lines of the text *)

Definition piece_line (nPoints nCells : Z) : string :=
  dq "    <Piece NumberOfPoints='" +:+ Py.str nPoints +:+ dq "' NumberOfCells='"
  +:+ Py.str nCells +:+ dq "'>".

Definition array_line (name range_max : string) : string :=
  dq "        <DataArray type='Int64' Name='" +:+ name
  +:+ dq "' format='ascii' RangeMin='0' RangeMax='" +:+ range_max +:+ dq "'>".

Definition points_line : string :=
  dq "        <DataArray type='Float32' Name='Points' NumberOfComponents='3' format='ascii' RangeMin='0.0' RangeMax='0.0'>".

Definition types_line : string :=
  dq "        <DataArray type='UInt8' Name='types' format='ascii' RangeMin='0' RangeMax='42'>".

Definition first_line : string :=
  dq "<VTKFile type='UnstructuredGrid' version='1.0' byte_order='LittleEndian' header_type='UInt64'>".

(** What the four patterns find in a line: the group of the array
    name, whether the array is closed, and that the line passes the
    validation. *)
Definition line_facts (line : string) (g : option string) (c : bool) : Prop :=
  no_break line = true ∧ name_group line = g ∧ closes line = c ∧
  quoted_after (dq "VTKFile type='") line = None ∧
  (quoted_after (dq " format='") line = None
   ∨ quoted_after (dq " format='") line = Some "ascii").

Lemma data_line_facts line :
  all_chars is_data_char line = true → line_facts line None false.
Proof.
  intros Hline.
  assert (has_char "034" line = false) as Hq
    by (by apply (all_chars_absent is_data_char)).
  assert (has_char "<" line = false) as Hl
    by (by apply (all_chars_absent is_data_char)).
  split_and!.
  - eapply all_chars_no_break; [apply data_not_break | done].
  - unfold name_group. by rewrite (find_after_absent "<").
  - unfold closes. by rewrite (find_after_absent "<").
  - unfold quoted_after. by rewrite (find_after_absent "034").
  - left. unfold quoted_after. by rewrite (find_after_absent "034").
Qed.

Lemma piece_line_facts nPoints nCells : line_facts (piece_line nPoints nCells) None false.
Proof.
  unfold piece_line.
  destruct (str_num_chars nPoints) as [H1 _]. destruct (str_num_chars nCells) as [H2 _].
  assert (no_break (Py.str nPoints) = true) as Hb1 by apply str_no_break.
  assert (no_break (Py.str nCells) = true) as Hb2 by apply str_no_break.
  revert H1 H2 Hb1 Hb2. generalize (Py.str nPoints) (Py.str nCells).
  intros V1 V2 H1 H2 Hb1 Hb2.
  assert (∀ c0 pat,
            is_num_char c0 = false →
            find_after (String c0 pat) (V1 +:+ dq "' NumberOfCells='" +:+ V2 +:+ dq "'>")
            = find_after (String c0 pat) (dq "' NumberOfCells='" +:+ V2 +:+ dq "'>"))
    as Hskip1 by (intros; by apply (find_after_skip is_num_char)).
  assert (∀ c0 pat,
            is_num_char c0 = false →
            find_after (String c0 pat) (V2 +:+ dq "'>")
            = find_after (String c0 pat) (dq "'>"))
    as Hskip2 by (intros; by apply (find_after_skip is_num_char)).
  split_and!.
  - repeat (apply no_break_app; [done|]). done.
  - unfold name_group.
    change (find_after "<DataArray " (dq "    <Piece NumberOfPoints='" +:+ V1
              +:+ dq "' NumberOfCells='" +:+ V2 +:+ dq "'>"))
      with (find_after "<DataArray " (V1 +:+ dq "' NumberOfCells='" +:+ V2 +:+ dq "'>")).
    rewrite Hskip1 by done.
    change (find_after "<DataArray " (dq "' NumberOfCells='" +:+ V2 +:+ dq "'>"))
      with (find_after "<DataArray " (V2 +:+ dq "'>")).
    by rewrite Hskip2.
  - unfold closes.
    change (find_after "</DataArray>" (dq "    <Piece NumberOfPoints='" +:+ V1
              +:+ dq "' NumberOfCells='" +:+ V2 +:+ dq "'>"))
      with (find_after "</DataArray>" (V1 +:+ dq "' NumberOfCells='" +:+ V2 +:+ dq "'>")).
    rewrite Hskip1 by done.
    change (find_after "</DataArray>" (dq "' NumberOfCells='" +:+ V2 +:+ dq "'>"))
      with (find_after "</DataArray>" (V2 +:+ dq "'>")).
    by rewrite Hskip2.
  - unfold quoted_after.
    change (find_after (dq "VTKFile type='") (dq "    <Piece NumberOfPoints='" +:+ V1
              +:+ dq "' NumberOfCells='" +:+ V2 +:+ dq "'>"))
      with (find_after (dq "VTKFile type='")
              (V1 +:+ dq "' NumberOfCells='" +:+ V2 +:+ dq "'>")).
    change (dq "VTKFile type='") with (String "V" (dq "TKFile type='")).
    rewrite Hskip1 by done.
    change (find_after (String "V" (dq "TKFile type='"))
              (dq "' NumberOfCells='" +:+ V2 +:+ dq "'>"))
      with (find_after (String "V" (dq "TKFile type='")) (V2 +:+ dq "'>")).
    by rewrite Hskip2.
  - left. unfold quoted_after.
    change (find_after (dq " format='") (dq "    <Piece NumberOfPoints='" +:+ V1
              +:+ dq "' NumberOfCells='" +:+ V2 +:+ dq "'>"))
      with (find_after (dq " format='")
              (V1 +:+ dq "' NumberOfCells='" +:+ V2 +:+ dq "'>")).
    change (dq " format='") with (String " " (dq "format='")).
    rewrite Hskip1 by done.
    change (find_after (String " " (dq "format='"))
              (dq "' NumberOfCells='" +:+ V2 +:+ dq "'>"))
      with (find_after (String " " (dq "format='")) (V2 +:+ dq "'>")).
    by rewrite Hskip2.
Qed.

Lemma array_line_facts name n :
  name ∈ ["connectivity"; "offsets"; "faces"; "faceoffsets"] →
  line_facts (array_line name (Py.str n)) (Some name) false.
Proof.
  intros Hin. unfold array_line.
  destruct (str_num_chars n) as [HV _].
  assert (no_break (Py.str n) = true) as Hb by apply str_no_break.
  revert HV Hb. generalize (Py.str n). intros V HV Hb.
  assert (∀ c0 pat,
            is_num_char c0 = false →
            find_after (String c0 pat) (V +:+ dq "'>")
            = find_after (String c0 pat) (dq "'>"))
    as Hskip by (intros; by apply (find_after_skip is_num_char)).
  assert (∀ best,
            last_quoted_after (dq "Name='") best (V +:+ dq "'>")
            = last_quoted_after (dq "Name='") best (dq "'>"))
    as Hskip' by (intros; by apply (last_quoted_skip is_num_char)).
  repeat (apply elem_of_cons in Hin as [->|Hin]); [..|by apply elem_of_nil in Hin].
  all: split_and!.
  all: try (repeat (apply no_break_app; [done|]); done).
  all: try (right; reflexivity).
  all: unfold name_group, closes, quoted_after.
  all: lazymatch goal with
       | |- find_after "<DataArray " (?A +:+ ?N +:+ ?B +:+ ?W +:+ ?E)
            ≫= last_quoted_after ?pat None = Some ?g =>
           change (find_after "<DataArray " (A +:+ N +:+ B +:+ W +:+ E)
                   ≫= last_quoted_after pat None)
             with (last_quoted_after pat (Some g) (W +:+ E));
           by rewrite Hskip'
       | |- match find_after ?pat (?A +:+ ?N +:+ ?B +:+ ?W +:+ ?E) with _ => _ end = _ =>
           change (find_after pat (A +:+ N +:+ B +:+ W +:+ E))
             with (find_after pat (W +:+ E));
           by rewrite Hskip
       | |- find_after ?pat (?A +:+ ?N +:+ ?B +:+ ?W +:+ ?E) ≫= _ = None =>
           change (find_after pat (A +:+ N +:+ B +:+ W +:+ E))
             with (find_after (String "V" (dq "TKFile type='")) (W +:+ E));
           by rewrite Hskip
       end.
Qed.

Ltac closed_line :=
  split_and!;
  [vm_compute; reflexivity..
  |(left; vm_compute; reflexivity) || (right; vm_compute; reflexivity)].

Lemma first_line_facts :
  no_break first_line = true ∧ name_group first_line = None ∧
  closes first_line = false ∧
  quoted_after (dq "VTKFile type='") first_line = Some "UnstructuredGrid" ∧
  quoted_after (dq " format='") first_line = None.
Proof. by split_and!. Qed.

(** The lines of the text, from the lines of the six blocks of data. *)
Definition vtu_lines (points : list string) (nPoints : Z)
    (connectivities : list string) (celltypes offsets : string)
    (offsets_max nCells : Z) (cellfaces : list string) (cellfaces_max : Z)
    (cellfaceoffsets : string) : list string :=
  [first_line; "  <UnstructuredGrid>"; piece_line nPoints nCells;
   "      <PointData>"; "      </PointData>"; "      <CellData>"; "      </CellData>";
   "      <Points>"; points_line]
  ++ points
  ++ ["       </DataArray>"; "      </Points>"; "      <Cells>";
      array_line "connectivity" (Py.str (nPoints - 1))]
  ++ connectivities
  ++ ["        </DataArray>"; array_line "offsets" (Py.str offsets_max); offsets;
      "        </DataArray>"; types_line; celltypes;
      "        </DataArray>"; array_line "faces" (Py.str nPoints)]
  ++ cellfaces
  ++ ["        </DataArray>"; array_line "faceoffsets" (Py.str cellfaces_max);
      cellfaceoffsets;
      "        </DataArray>"; "      </Cells>"; "    </Piece>";
      "  </UnstructuredGrid>"; "</VTKFile>"].

Lemma generate_vtu_text_unlines (points : list string) (nPoints : Z)
    (connectivities : list string) (celltypes offsets : string)
    (offsets_max nCells : Z) (cellfaces : list string) (cellfaces_max : Z)
    (cellfaceoffsets : string) :
  generate_vtu_text (unlines points) "0.0" "0.0" nPoints (unlines connectivities)
    (celltypes +:+ Py.nl) (offsets +:+ Py.nl) offsets_max nCells
    (unlines cellfaces) cellfaces_max (cellfaceoffsets +:+ Py.nl)
  = unlines (vtu_lines points nPoints connectivities celltypes offsets offsets_max
               nCells cellfaces cellfaces_max cellfaceoffsets).
Proof.
  unfold generate_vtu_text, vtu_lines, piece_line, array_line.
  rewrite !unlines_app. cbn [unlines foldr].
  cbv zeta. rewrite !string_app_assoc. reflexivity.
Qed.

(** *** The blocks of numbers *)

(** A line of numbers, each followed by a blank, and a line of
    numbers with blanks between them. *)
Definition spaced (l : list Z) : string :=
  foldr (λ v t, Py.str v +:+ " " +:+ t) "" l.
Definition joined_numbers (l : list Z) : string := Py.join " " (Py.str <$> l).

Lemma spaced_app l1 l2 : spaced (l1 ++ l2) = spaced l1 +:+ spaced l2.
Proof.
  induction l1 as [|v l1 IH]; [done|].
  cbn [app spaced foldr]. fold (spaced (l1 ++ l2)) (spaced l1).
  by rewrite IH, !string_app_assoc.
Qed.

Lemma offsets_text_spaced l : ∀ acc, offsets_text acc l = acc +:+ spaced l.
Proof.
  unfold offsets_text. induction l as [|v l IH]; intros acc; cbn [foldl].
  - by rewrite append_nil_r.
  - rewrite IH. cbn [spaced foldr]. by rewrite !string_app_assoc.
Qed.

Lemma joined_numbers_cons x y l :
  joined_numbers (x :: y :: l) = Py.str x +:+ " " +:+ joined_numbers (y :: l).
Proof. done. Qed.

Lemma rows_text_lines rows : ∀ acc,
  rows_text acc rows = acc +:+ unlines (joined_numbers <$> rows).
Proof.
  unfold rows_text. induction rows as [|row rows IH]; intros acc; cbn [foldl].
  - by rewrite append_nil_r.
  - rewrite IH, fmap_cons. cbn [unlines foldr]. by rewrite !string_app_assoc.
Qed.

Lemma connectivities_foldl (ei : Z → Z) (cells : list UGCell.t) : ∀ acc,
  foldl (λ connectivities c,
           if UGCell.deleted c then connectivities
           else connectivities +:+ offsets_text "" (connectivity_row ei c) +:+ Py.nl)
        acc cells
  = acc +:+ unlines (spaced <$> (connectivity_row ei <$> filter alive cells)).
Proof.
  induction cells as [|c cells IH]; intros acc; cbn [foldl].
  - by rewrite append_nil_r.
  - rewrite IH. destruct (UGCell.deleted c) eqn:Hd.
    + by rewrite filter_cons_False by (unfold alive; congruence).
    + rewrite filter_cons_True by done. rewrite !fmap_cons.
      cbn [unlines foldr]. rewrite offsets_text_spaced, append_nil.
      by rewrite !string_app_assoc.
Qed.

Lemma spaced_chars l : all_chars is_row_char (spaced l) = true.
Proof.
  induction l as [|v l IH]; [done|]. cbn [spaced foldr]. fold (spaced l).
  rewrite !all_chars_app, IH, andb_true_r.
  eapply all_chars_weaken; [apply num_row_char | apply str_num_chars].
Qed.

Lemma joined_chars l : all_chars is_row_char (joined_numbers l) = true.
Proof.
  assert (∀ v, all_chars is_row_char (Py.str v) = true) as Hstr.
  { intros v. eapply all_chars_weaken; [apply num_row_char | apply str_num_chars]. }
  induction l as [|x [|y l] IH]; [done|apply Hstr|].
  rewrite joined_numbers_cons, !all_chars_app, IH, Hstr. done.
Qed.

Lemma spaced_data l : all_chars is_data_char (spaced l) = true.
Proof. eapply all_chars_weaken; [apply row_data_char | apply spaced_chars]. Qed.

Lemma joined_data l : all_chars is_data_char (joined_numbers l) = true.
Proof. eapply all_chars_weaken; [apply row_data_char | apply joined_chars]. Qed.

(** *** Splitting a block into numbers *)

Definition no_space (s : string) : bool := all_chars (λ c, negb (is_space c)) s.

Lemma str_spaceless x : no_space (Py.str x) = true.
Proof.
  eapply all_chars_weaken; [apply num_not_space | apply str_num_chars].
Qed.

Lemma split_go_blank cur t :
  cur ≠ "" → split_go cur (" " +:+ t) = cur :: split_go "" t.
Proof.
  intros Hcur. change (" " +:+ t) with (String " " t). cbn [split_go].
  change (is_space " ") with true. cbv beta iota. by rewrite eqb_nonempty.
Qed.

Lemma split_spaced l : split (spaced l) = Py.str <$> l.
Proof.
  unfold split. induction l as [|v l IH]; [done|].
  cbn [spaced foldr]. fold (spaced l).
  rewrite split_go_app by apply str_spaceless.
  rewrite append_nil, split_go_blank by apply str_num_chars.
  by rewrite IH.
Qed.

Lemma split_go_end cur : cur ≠ "" → split_go cur "" = [cur].
Proof. intros Hcur. cbn [split_go]. by rewrite eqb_nonempty. Qed.

(** A line without a blank at its end leaves its last number open:
    what comes next is glued to it. *)
Lemma split_go_joined row :
  row ≠ [] →
  ∀ cur t, ∃ pre cur',
    (length pre + 1 = length row)%nat ∧ cur' ≠ "" ∧
    split_go cur (joined_numbers row +:+ t) = pre ++ split_go cur' t.
Proof.
  induction row as [|x [|y row] IH]; [done| |]; intros _ cur t.
  - exists [], (cur +:+ Py.str x). split_and!; [done| |].
    + destruct cur; [rewrite append_nil; apply str_num_chars | done].
    + change (joined_numbers [x]) with (Py.str x).
      by rewrite split_go_app by apply str_spaceless.
  - destruct (IH ltac:(done) "" t) as (pre & cur' & Hlen & Hne & Hsplit).
    exists ((cur +:+ Py.str x) :: pre), cur'. split_and!; [simpl in *; lia|done|].
    rewrite joined_numbers_cons, !string_app_assoc.
    rewrite split_go_app by apply str_spaceless.
    rewrite split_go_blank, Hsplit; [done|].
    destruct cur; [rewrite append_nil; apply str_num_chars | done].
Qed.

Lemma split_joined row : split (joined_numbers row) = Py.str <$> row.
Proof.
  unfold split. induction row as [|x [|y row] IH]; [done| |].
  - change (joined_numbers [x]) with (Py.str x).
    rewrite <- (append_nil_r (Py.str x)) at 1.
    rewrite split_go_app by apply str_spaceless.
    rewrite append_nil. by rewrite split_go_end by apply str_num_chars.
  - rewrite joined_numbers_cons.
    rewrite split_go_app by apply str_spaceless.
    rewrite append_nil, split_go_blank by apply str_num_chars.
    by rewrite IH.
Qed.

(** The lines of a block, put one after the other as the import
    does. *)
Definition glued (lines : list string) : string := foldr String.append "" lines.

Lemma foldl_glued lines : ∀ acc, foldl String.append acc lines = acc +:+ glued lines.
Proof.
  induction lines as [|line lines IH]; intros acc; cbn [foldl glued foldr].
  - by rewrite append_nil_r.
  - rewrite IH. by rewrite string_app_assoc.
Qed.

Lemma glued_spaced rows : glued (spaced <$> rows) = spaced (concat rows).
Proof.
  induction rows as [|row rows IH]; [done|].
  rewrite fmap_cons, concat_cons, spaced_app. cbn [glued foldr].
  fold (glued (spaced <$> rows)). by rewrite IH.
Qed.

Lemma split_go_glued rows :
  Forall (λ row, row ≠ []) rows → rows ≠ [] →
  ∀ cur, ∃ pre cur',
    (length pre + length rows = length (concat rows))%nat ∧ cur' ≠ "" ∧
    split_go cur (glued (joined_numbers <$> rows)) = pre ++ split_go cur' "".
Proof.
  induction 1 as [|row rows Hrow Hrows IH]; [done|]. intros _ cur.
  rewrite fmap_cons. cbn [glued foldr]. fold (glued (joined_numbers <$> rows)).
  destruct (split_go_joined row Hrow cur (glued (joined_numbers <$> rows)))
    as (pre & cur' & Hlen & Hne & Hsplit).
  destruct rows as [|row' rows].
  - exists pre, cur'. split_and!; [|done|done].
    simpl. rewrite app_nil_r. lia.
  - destruct (IH ltac:(done) cur') as (pre' & cur'' & Hlen' & Hne' & Hsplit').
    exists (pre ++ pre'), cur''. split_and!; [|done|].
    + rewrite concat_cons, !length_app. cbn [length] in *. lia.
    + by rewrite Hsplit, Hsplit', app_assoc.
Qed.

Lemma glued_token_count rows :
  Forall (λ row, row ≠ []) rows → rows ≠ [] →
  (length (split (glued (joined_numbers <$> rows))) + length rows
   = length (concat rows) + 1)%nat.
Proof.
  intros Hrows Hne.
  destruct (split_go_glued rows Hrows Hne "") as (pre & cur' & Hlen & Hcur & Hsplit).
  unfold split. rewrite Hsplit, split_go_end by done.
  rewrite length_app. simpl. lia.
Qed.

(** *** The loop over the lines *)

Lemma scan_inert name db lines :
  Forall (λ l, name_group l ≠ Some name) lines →
  foldl (block_step name) (false, db) lines = (false, db).
Proof.
  induction 1 as [|line lines Hline _ IH]; [done|].
  cbn [foldl]. unfold block_step at 2.
  destruct (name_group line) as [g|].
  - destruct (String.eqb_spec g name) as [->|]; [done|exact IH].
  - by destruct (closes line).
Qed.

Lemma scan_data name data : ∀ db,
  Forall (λ l, name_group l = None ∧ closes l = false) data →
  foldl (block_step name) (true, db) data = (true, foldl String.append db data).
Proof.
  induction data as [|line data IH]; intros db Hdata; [done|].
  apply Forall_cons in Hdata as [[Hg Hc] Hdata].
  cbn [foldl]. unfold block_step at 2. rewrite Hg, Hc. by apply IH.
Qed.

Lemma scan_block name L1 op data cl L2 :
  Forall (λ l, name_group l ≠ Some name) L1 →
  name_group op = Some name →
  Forall (λ l, name_group l = None ∧ closes l = false) data →
  name_group cl = None → closes cl = true →
  Forall (λ l, name_group l ≠ Some name) L2 →
  (foldl (block_step name) (false, "") (L1 ++ op :: data ++ cl :: L2)).2
  = glued data.
Proof.
  intros H1 Hop Hdata Hcl Hclose H2.
  rewrite foldl_app, scan_inert by done.
  cbn [foldl]. unfold block_step at 2. rewrite Hop, String.eqb_refl.
  rewrite foldl_app, scan_data by done.
  cbn [foldl]. unfold block_step at 2. rewrite Hcl, Hclose.
  rewrite scan_inert by done. cbn [snd]. by rewrite foldl_glued, append_nil.
Qed.

Lemma validate_loop_passes lines : ∀ match_,
  Forall (λ l, quoted_after (dq "VTKFile type='") l = None ∧
               (quoted_after (dq " format='") l = None
                ∨ quoted_after (dq " format='") l = Some "ascii")) lines →
  validate_loop lines match_
  = if match_ then None else Some "Error: File does not seem to be in VTU format".
Proof.
  induction lines as [|line lines IH]; intros m Hlines; [done|].
  apply Forall_cons in Hlines as [[H1 H2] Hlines].
  cbn [validate_loop]. rewrite H1. destruct H2 as [->| ->]; by apply IH.
Qed.

Section eval.
Context (eval : string → option Z).

Lemma eval_values_str (l : list Z) :
  (∀ x, eval ("int" +:+ "(" +:+ Py.str x +:+ ")") = Some x) →
  eval_values eval "int" (Py.str <$> l) = Some l.
Proof.
  intros Heval. induction l as [|x l IH]; [done|].
  rewrite fmap_cons. cbn [eval_values]. by rewrite Heval, IH.
Qed.

Lemma eval_values_length vartype (values : list string) :
  ∀ l, eval_values eval vartype values = Some l → length l = length values.
Proof.
  induction values as [|v values IH]; intros l; cbn [eval_values].
  - by intros [= <-].
  - destruct (eval _); [|done].
    destruct (eval_values eval vartype values) as [l'|]; [|done].
    intros [= <-]. simpl. by rewrite (IH l').
Qed.
End eval.

(** *** Blocks *)

(** A block of the text: the line that opens the array called
    [b_name], the lines of data, the line that closes the array and
    the lines up to the next block. *)
Record block : Type := mk_block {
  b_name : string;
  b_open : string;
  b_data : list string;
  b_close : string;
  b_post : list string;
}.

Definition block_lines (b : block) : list string :=
  b_open b :: b_data b ++ b_close b :: b_post b.

Definition plain (lines : list string) : Prop :=
  Forall (λ l, line_facts l None false) lines.

Definition block_ok (b : block) : Prop :=
  line_facts (b_open b) (Some (b_name b)) false ∧ plain (b_data b) ∧
  line_facts (b_close b) None true ∧ plain (b_post b).

(** The data of the blocks called [name], glued. *)
Fixpoint block_data (name : string) (blocks : list block) : string :=
  match blocks with
  | [] => ""
  | b :: blocks' =>
      (if String.eqb (b_name b) name then glued (b_data b) else "")
      +:+ block_data name blocks'
  end.

Lemma plain_inert name lines db :
  plain lines → foldl (block_step name) (false, db) lines = (false, db).
Proof.
  intros Hplain. apply scan_inert. eapply Forall_impl; [exact Hplain|].
  intros l (_ & Hg & _). by rewrite Hg.
Qed.

Lemma plain_data lines :
  plain lines → Forall (λ l, name_group l = None ∧ closes l = false) lines.
Proof. intros H. eapply Forall_impl; [exact H|]. by intros l (_ & ? & ? & _). Qed.

Lemma scan_one name b :
  block_ok b →
  ∀ i db,
    foldl (block_step name) (i, db) (block_lines b)
    = (false,
       db +:+ (if String.eqb (b_name b) name then glued (b_data b) else "")).
Proof.
  intros ((_ & Hop & _) & Hdata & (_ & Hcl & Hclose & _) & Hpost) i db.
  unfold block_lines. cbn [foldl].
  assert (block_step name (i, db) (b_open b)
          = (String.eqb (b_name b) name, db)) as ->.
  { unfold block_step. rewrite Hop. by destruct (String.eqb (b_name b) name). }
  rewrite foldl_app. cbn [foldl].
  destruct (String.eqb (b_name b) name).
  - rewrite scan_data by (by apply plain_data).
    unfold block_step at 2. rewrite Hcl, Hclose.
    rewrite plain_inert by done. by rewrite foldl_glued.
  - rewrite plain_inert by done.
    unfold block_step at 2. rewrite Hcl, Hclose.
    rewrite plain_inert by done. by rewrite append_nil_r.
Qed.

Lemma scan_blocks name blocks :
  Forall block_ok blocks →
  ∀ db, foldl (block_step name) (false, db) (concat (block_lines <$> blocks))
        = (false, db +:+ block_data name blocks).
Proof.
  induction 1 as [|b blocks Hb _ IH]; intros db.
  - cbn. by rewrite append_nil_r.
  - rewrite fmap_cons, concat_cons, foldl_app, scan_one, IH by done.
    cbn [block_data]. by rewrite string_app_assoc.
Qed.

Lemma plain_no_break lines : plain lines → Forall (λ l, no_break l = true) lines.
Proof. intros H. eapply Forall_impl; [exact H|]. by intros l (? & _). Qed.

Lemma block_no_break b : block_ok b → Forall (λ l, no_break l = true) (block_lines b).
Proof.
  intros ((Hop & _) & Hdata & (Hcl & _) & Hpost). unfold block_lines.
  apply Forall_cons_2; [done|]. apply Forall_app_2; [by apply plain_no_break|].
  apply Forall_cons_2; [done | by apply plain_no_break].
Qed.

Lemma blocks_no_break blocks :
  Forall block_ok blocks →
  Forall (λ l, no_break l = true) (concat (block_lines <$> blocks)).
Proof.
  induction 1 as [|b blocks Hb _ IH]; [done|].
  rewrite fmap_cons, concat_cons. apply Forall_app_2; [by apply block_no_break|done].
Qed.

(** The lines that pass the validation. *)
Definition passes (l : string) : Prop :=
  quoted_after (dq "VTKFile type='") l = None ∧
  (quoted_after (dq " format='") l = None
   ∨ quoted_after (dq " format='") l = Some "ascii").

Lemma facts_passes l g c : line_facts l g c → passes l.
Proof. by intros (_ & _ & _ & ? & ?). Qed.

Lemma plain_passes lines : plain lines → Forall passes lines.
Proof. intros H. eapply Forall_impl; [exact H|]. intros l. apply facts_passes. Qed.

Lemma blocks_pass blocks :
  Forall block_ok blocks → Forall passes (concat (block_lines <$> blocks)).
Proof.
  induction 1 as [|b blocks (Hop & Hdata & Hcl & Hpost) _ IH]; [done|].
  rewrite fmap_cons, concat_cons. apply Forall_app_2; [|done].
  unfold block_lines. apply Forall_cons_2; [by eapply facts_passes|].
  apply Forall_app_2; [by apply plain_passes|].
  apply Forall_cons_2; [by eapply facts_passes | by apply plain_passes].
Qed.

(** A text of a first line, plain lines and blocks. *)
Lemma datablock_blocks name head blocks :
  plain head → Forall block_ok blocks →
  datablock name (unlines (first_line :: head ++ concat (block_lines <$> blocks)))
  = block_data name blocks.
Proof.
  intros Hhead Hblocks. unfold datablock.
  rewrite splitlines_unlines.
  - cbn [foldl].
    assert (block_step name (false, "") first_line = (false, "")) as -> by done.
    rewrite foldl_app, plain_inert, scan_blocks by done. done.
  - apply Forall_cons_2; [done|].
    apply Forall_app_2; [by apply plain_no_break | by apply blocks_no_break].
Qed.

Lemma validate_blocks head blocks :
  plain head → Forall block_ok blocks →
  validate_vtu (unlines (first_line :: head ++ concat (block_lines <$> blocks)))
  = None.
Proof.
  intros Hhead Hblocks. unfold validate_vtu.
  assert (String.eqb (unlines (first_line :: head
                               ++ concat (block_lines <$> blocks))) "" = false)
    as -> by done.
  rewrite splitlines_unlines.
  - cbn [validate_loop].
    assert (quoted_after (dq "VTKFile type='") first_line = Some "UnstructuredGrid")
      as -> by done.
    assert (quoted_after (dq " format='") first_line = None) as -> by done.
    change (String.eqb "UnstructuredGrid" "UnstructuredGrid") with true.
    cbv beta iota. rewrite validate_loop_passes; [done|].
    apply Forall_app_2; [by apply plain_passes | by apply blocks_pass].
  - apply Forall_cons_2; [done|].
    apply Forall_app_2; [by apply plain_no_break | by apply blocks_no_break].
Qed.

(** *** Export, then import *)

Section export.
Context (ei : Z → Z) (points : list string) (nPoints : Z).

(** [write_vtu], for the lines [points] of the points block and
    the number of points that [generate_points_text] hands on; the
    two bounds it hands on are always 0.0. *)
Definition export (st : ug) : ug * Py.result string :=
  write_vtu (Py.Ok (unlines points, "0.0", "0.0", nPoints))
    (Py.Ok (generate_connectivities_text ei st))
    (Py.Ok (generate_cellfaces_text ei st)) generate_vtu_text st.

Definition head_lines (st : ug) : list string :=
  ["  <UnstructuredGrid>";
   piece_line nPoints (Z.of_nat (length (connectivity_rows ei st)));
   "      <PointData>"; "      </PointData>"; "      <CellData>";
   "      </CellData>"; "      <Points>"].

Definition blocks (st : ug) : list block :=
  [mk_block "Points" points_line points "       </DataArray>"
     ["      </Points>"; "      <Cells>"];
   mk_block "connectivity" (array_line "connectivity" (Py.str (nPoints - 1)))
     (spaced <$> connectivity_rows ei st) "        </DataArray>" [];
   mk_block "offsets"
     (array_line "offsets"
        (Py.str (Z.of_nat (length (concat (connectivity_rows ei st))))))
     [joined_numbers (offsets_list st)] "        </DataArray>" [];
   mk_block "types" types_line
     [joined_numbers (types_offsets_lists (ugcells st)).1.1.1]
     "        </DataArray>" [];
   mk_block "faces" (array_line "faces" (Py.str nPoints))
     (joined_numbers <$> cellfaces_rows ei st) "        </DataArray>" [];
   mk_block "faceoffsets"
     (array_line "faceoffsets"
        (Py.str (Z.of_nat (length (concat (cellfaces_rows ei st))))))
     [spaced (cellfaceoffsets_list ei st)] "        </DataArray>"
     ["      </Cells>"; "    </Piece>"; "  </UnstructuredGrid>"; "</VTKFile>"]].

Definition exported_text (st : ug) : string :=
  unlines (first_line :: head_lines st ++ concat (block_lines <$> blocks st)).

Lemma export_run (st : ug) :
  Exists (λ c, UGCell.deleted c = false) (ugcells st) →
  export st = (st, Py.Ok (exported_text st)).
Proof.
  intros Hex%filter_alive_nonempty.
  unfold export, write_vtu, mbind, M_bind, Py.bind, Py.lift, mret, M_ret, Py.ret.
  rewrite generate_types_offsets_text_run.
  fold (offsets_list st). rewrite (offsets_list_cumulative ei).
  rewrite getitem_last_cumulative
    by (unfold connectivity_rows; fold alive; by destruct (filter alive (ugcells st))).
  rewrite Z.add_0_l.
  assert ((types_offsets_lists (ugcells st)).2
          = Z.of_nat (length (connectivity_rows ei st))) as ->.
  { unfold types_offsets_lists, connectivity_rows. fold alive.
    rewrite (types_offsets_foldl ei). cbn [snd]. by rewrite length_fmap. }
  assert (generate_cellfaces_text ei st
          = (unlines (joined_numbers <$> cellfaces_rows ei st),
             Z.of_nat (length (concat (cellfaces_rows ei st))),
             spaced (cellfaceoffsets_list ei st) +:+ Py.nl)) as ->.
  { rewrite (cellfaceoffsets_cumulative ei).
    unfold generate_cellfaces_text, cellfaces_rows. fold alive.
    rewrite cellfaces_foldl_text. cbv beta iota.
    by rewrite Z.add_0_l, rows_text_lines, offsets_text_spaced, !append_nil. }
  assert (generate_connectivities_text ei st
          = unlines (spaced <$> connectivity_rows ei st)) as ->.
  { unfold generate_connectivities_text, connectivity_rows.
    etrans; [apply (connectivities_foldl ei (ugcells st) "")|].
    by rewrite append_nil. }
  cbv beta iota.
  rewrite <- (offsets_list_cumulative ei).
  rewrite (generate_vtu_text_unlines points nPoints
             (spaced <$> connectivity_rows ei st)
             (joined_numbers (types_offsets_lists (ugcells st)).1.1.1)
             (joined_numbers (offsets_list st))).
  do 2 f_equal. unfold exported_text, vtu_lines, head_lines, blocks, block_lines.
  cbn [fmap list_fmap concat b_open b_data b_close b_post app].
  rewrite <- ?app_assoc. reflexivity.
Qed.

Lemma blocks_ok (st : ug) :
  Forall (λ l, all_chars is_data_char l = true) points →
  Forall block_ok (blocks st).
Proof.
  intros Hpoints.
  assert (plain points) as Hp.
  { eapply Forall_impl; [exact Hpoints|]. apply data_line_facts. }
  assert (∀ rows, plain (spaced <$> rows)) as Hs.
  { intros rows. apply Forall_fmap, Forall_forall. intros row _.
    apply data_line_facts, spaced_data. }
  assert (∀ rows, plain (joined_numbers <$> rows)) as Hj.
  { intros rows. apply Forall_fmap, Forall_forall. intros row _.
    apply data_line_facts, joined_data. }
  assert (∀ l, all_chars is_data_char l = true → plain [l]) as Hone.
  { intros l Hl. apply Forall_cons_2; [by apply data_line_facts | apply Forall_nil_2]. }
  unfold blocks. repeat apply Forall_cons_2; [..|apply Forall_nil_2].
  all: unfold block_ok; cbn [b_name b_open b_data b_close b_post];
    refine (conj _ (conj _ (conj _ _))).
  - closed_line.
  - exact Hp.
  - closed_line.
  - repeat apply Forall_cons_2; [..|apply Forall_nil_2]; closed_line.
  - apply array_line_facts. repeat constructor.
  - apply Hs.
  - closed_line.
  - apply Forall_nil_2.
  - apply array_line_facts. repeat constructor.
  - apply Hone, joined_data.
  - closed_line.
  - apply Forall_nil_2.
  - closed_line.
  - apply Hone, joined_data.
  - closed_line.
  - apply Forall_nil_2.
  - apply array_line_facts. repeat constructor.
  - apply Hj.
  - closed_line.
  - apply Forall_nil_2.
  - apply array_line_facts. repeat constructor.
  - apply Hone, spaced_data.
  - closed_line.
  - repeat apply Forall_cons_2; [..|apply Forall_nil_2]; closed_line.
Qed.

Lemma head_plain (st : ug) : plain (head_lines st).
Proof.
  unfold head_lines.
  apply Forall_cons_2; [closed_line|].
  apply Forall_cons_2; [apply piece_line_facts|].
  repeat (apply Forall_cons_2; [closed_line|]). apply Forall_nil_2.
Qed.

Lemma faceslist_rows_nonempty (st : ug) :
  Forall (λ row : list Z, row ≠ []) (cellfaces_rows ei st).
Proof.
  unfold cellfaces_rows. apply Forall_fmap, Forall_forall. by intros c _.
Qed.

Lemma rows_nonempty (st : ug) :
  Exists (λ c, UGCell.deleted c = false) (ugcells st) → cellfaces_rows ei st ≠ [].
Proof.
  intros Hex%filter_alive_nonempty. unfold cellfaces_rows. fold alive.
  by destruct (filter alive (ugcells st)).
Qed.

(** X30.  The text [write_vtu] makes of a store with a cell that is
    not deleted passes [validate_vtu]: the function gives no error
    message.  (The lines of the points block hold no double quote,
    no [<] and no line break.) *)
Theorem exported_text_validates (st : ug) :
  Forall (λ l, all_chars is_data_char l = true) points →
  Exists (λ c, UGCell.deleted c = false) (ugcells st) →
  ∃ text, export st = (st, Py.Ok text) ∧ validate_vtu text = None.
Proof.
  intros Hpoints Hex. exists (exported_text st).
  split; [by apply export_run|].
  apply validate_blocks; [apply head_plain | by apply blocks_ok].
Qed.

Section import.
Context (eval : string → option Z).

Lemma block_read (name : string) (st : ug) :
  Forall (λ l, all_chars is_data_char l = true) points →
  get_data_array_block eval name "int" (exported_text st)
  = eval_values eval "int" (split (block_data name (blocks st))).
Proof.
  intros Hpoints. unfold get_data_array_block, get_list_from_text, exported_text.
  by rewrite datablock_blocks by (apply head_plain || by apply blocks_ok).
Qed.

(** X28.  What [get_data_array_block] finds in the text
    [write_vtu] makes of a store with a cell that is not deleted,
    when [eval] gives the value of a decimal literal: the
    connectivity, offsets, types and faceoffsets blocks are read
    as the lists of numbers that were written, and so is the
    faces block when one cell only was written. *)
Theorem exported_blocks_read_back (st : ug) :
  (∀ x, eval ("int" +:+ "(" +:+ Py.str x +:+ ")") = Some x) →
  Forall (λ l, all_chars is_data_char l = true) points →
  Exists (λ c, UGCell.deleted c = false) (ugcells st) →
  ∃ text,
    export st = (st, Py.Ok text) ∧
    get_data_array_block eval "connectivity" "int" text
    = Some (concat (connectivity_rows ei st)) ∧
    get_data_array_block eval "offsets" "int" text = Some (offsets_list st) ∧
    get_data_array_block eval "types" "int" text
    = Some (types_offsets_lists (ugcells st)).1.1.1 ∧
    get_data_array_block eval "faceoffsets" "int" text
    = Some (cellfaceoffsets_list ei st) ∧
    (length (cellfaces_rows ei st) = 1%nat →
     get_data_array_block eval "faces" "int" text
     = Some (concat (cellfaces_rows ei st))).
Proof.
  intros Heval Hpoints Hex. exists (exported_text st).
  split; [by apply export_run|].
  rewrite !block_read by done. split_and!.
  - change (block_data "connectivity" (blocks st))
      with (glued (spaced <$> connectivity_rows ei st) +:+ "").
    rewrite append_nil_r, glued_spaced, split_spaced.
    by apply eval_values_str.
  - change (block_data "offsets" (blocks st))
      with ((joined_numbers (offsets_list st) +:+ "") +:+ "").
    rewrite !append_nil_r, split_joined. by apply eval_values_str.
  - change (block_data "types" (blocks st))
      with ((joined_numbers (types_offsets_lists (ugcells st)).1.1.1 +:+ "") +:+ "").
    rewrite !append_nil_r, split_joined. by apply eval_values_str.
  - change (block_data "faceoffsets" (blocks st))
      with ((spaced (cellfaceoffsets_list ei st) +:+ "") +:+ "").
    rewrite !append_nil_r, split_spaced. by apply eval_values_str.
  - intros Hone.
    change (block_data "faces" (blocks st))
      with (glued (joined_numbers <$> cellfaces_rows ei st) +:+ "").
    destruct (cellfaces_rows ei st) as [|row [|row' rows]]; [done| |done].
    cbn [fmap list_fmap glued foldr concat].
    rewrite !append_nil_r, app_nil_r, split_joined. by apply eval_values_str.
Qed.

(** X29.  The faces block of the text [write_vtu] makes is not
    read as it was written when two cells or more were written:
    [get_data_array_block] puts the lines of a block one after
    the other with nothing between them, and a line of the faces
    block does not end with a blank, so that the last number of
    a line and the first number of the next become one.  Whatever
    [eval] does, a list that is read has one number less per
    line after the first than the list that was written. *)
Theorem exported_faces_glued (st : ug) :
  Forall (λ l, all_chars is_data_char l = true) points →
  Exists (λ c, UGCell.deleted c = false) (ugcells st) →
  ∃ text,
    export st = (st, Py.Ok text) ∧
    ∀ l, get_data_array_block eval "faces" "int" text = Some l →
         (length l + length (cellfaces_rows ei st)
          = length (concat (cellfaces_rows ei st)) + 1)%nat.
Proof.
  intros Hpoints Hex. exists (exported_text st).
  split; [by apply export_run|]. intros l.
  rewrite block_read by done.
  change (block_data "faces" (blocks st))
    with (glued (joined_numbers <$> cellfaces_rows ei st) +:+ "").
  rewrite append_nil_r. intros Hl%eval_values_length. rewrite Hl.
  apply glued_token_count; [apply faceslist_rows_nonempty | by apply rows_nonempty].
Qed.
End import.
End export.

(** An [eval] for the examples: the value of [int(<literal>)] for a
    decimal literal with or without a sign. *)
Definition decimal_eval (command : string) : option Z :=
  match strip_prefix "int(" command with
  | Some (String c rest) =>
      if Ascii.eqb c "-" then Some (- int (span is_digit rest).1)
      else Some (int (span is_digit (String c rest)).1)
  | _ => None
  end.

Lemma decimal_eval_str (x : Z) :
  decimal_eval ("int" +:+ "(" +:+ Py.str x +:+ ")") = Some x.
Proof.
  unfold decimal_eval.
  change ("int" +:+ "(" +:+ Py.str x +:+ ")") with ("int(" +:+ Py.str x +:+ ")").
  rewrite boundary_reader.strip_prefix_app.
  destruct (decide (0 ≤ x)) as [Hx|Hx].
  - destruct (str_digits x Hx) as [Hd Hne].
    pose proof (int_str x Hx) as Hint. revert Hd Hne Hint.
    generalize (Py.str x). intros s Hd Hne Hint.
    destruct s as [|c s]; [done|]. rewrite append_cons.
    assert (Ascii.eqb c "-" = false) as ->.
    { cbn [digits_only] in Hd. apply andb_true_iff in Hd as [Hc _].
      destruct (Ascii.eqb_spec c "-") as [->|]; [by vm_compute in Hc | done]. }
    rewrite <- append_cons, digits_all_chars in *.
    rewrite (span_all is_digit) by done. cbn [fst]. by rewrite Hint.
  - unfold Py.str, pretty, pretty_Z. destruct x as [|p|p]; [lia|lia|].
    rewrite append_cons, append_nil, append_cons.
    change (Ascii.eqb "-" "-") with true. cbv beta iota.
    destruct (str_digits (Z.pos p)) as [Hd _]; [lia|].
    rewrite digits_all_chars in Hd.
    change (pretty (N.pos p)) with (Py.str (Z.pos p)).
    rewrite (span_all is_digit) by done. cbn [fst]. f_equal.
    change (- int (Py.str (Z.pos p)) = Z.neg p).
    rewrite int_str by lia. done.
Qed.

(** The faces of the two tetrahedra, written and read: the last
    number of the first line, 2, and the first number of the second
    line, 4, are read as the one number 24. *)
Lemma two_tetrahedra_faces_read :
  cellfaces_rows (λ v, v) two_tetrahedra
  = [[4; 3; 0; 2; 1; 3; 0; 1; 3; 3; 1; 2; 3; 3; 0; 3; 2];
     [4; 3; 0; 2; 1; 3; 0; 2; 4; 3; 2; 1; 4; 3; 0; 4; 1]] ∧
  get_data_array_block decimal_eval "faces" "int"
    (exported_text (λ v, v) ["0 0 0"; "1 0 0"] 5 two_tetrahedra)
  = Some [4; 3; 0; 2; 1; 3; 0; 1; 3; 3; 1; 2; 3; 3; 0; 3; 24;
          3; 0; 2; 1; 3; 0; 2; 4; 3; 2; 1; 4; 3; 0; 4; 1].
Proof. split; vm_compute; reflexivity. Qed.

Lemma exported_text_validates_witness :
  ∃ text,
    export (λ v, v) ["0 0 0"; "1 0 0"] 5 two_tetrahedra
    = (two_tetrahedra, Py.Ok text) ∧
    validate_vtu text = None.
Proof.
  apply (exported_text_validates (λ v, v) ["0 0 0"; "1 0 0"] 5 two_tetrahedra).
  - repeat (apply Forall_cons_2; [vm_compute; reflexivity|]). apply Forall_nil_2.
  - vm_compute. apply Exists_cons_hd. reflexivity.
Defined.

Lemma exported_blocks_read_back_witness :
  ∃ text,
    export (λ v, v) ["0 0 0"; "1 0 0"] 5 two_tetrahedra
    = (two_tetrahedra, Py.Ok text) ∧
    get_data_array_block decimal_eval "connectivity" "int" text
    = Some (concat (connectivity_rows (λ v, v) two_tetrahedra)) ∧
    get_data_array_block decimal_eval "offsets" "int" text
    = Some (offsets_list two_tetrahedra) ∧
    get_data_array_block decimal_eval "types" "int" text
    = Some (types_offsets_lists (ugcells two_tetrahedra)).1.1.1 ∧
    get_data_array_block decimal_eval "faceoffsets" "int" text
    = Some (cellfaceoffsets_list (λ v, v) two_tetrahedra) ∧
    (length (cellfaces_rows (λ v, v) two_tetrahedra) = 1%nat →
     get_data_array_block decimal_eval "faces" "int" text
     = Some (concat (cellfaces_rows (λ v, v) two_tetrahedra))).
Proof.
  apply (exported_blocks_read_back (λ v, v) ["0 0 0"; "1 0 0"] 5 decimal_eval
           two_tetrahedra).
  - apply decimal_eval_str.
  - repeat (apply Forall_cons_2; [vm_compute; reflexivity|]). apply Forall_nil_2.
  - vm_compute. apply Exists_cons_hd. reflexivity.
Defined.

Lemma exported_faces_glued_witness :
  ∃ text,
    export (λ v, v) ["0 0 0"; "1 0 0"] 5 two_tetrahedra
    = (two_tetrahedra, Py.Ok text) ∧
    ∀ l, get_data_array_block decimal_eval "faces" "int" text = Some l →
         (length l + length (cellfaces_rows (λ v, v) two_tetrahedra)
          = length (concat (cellfaces_rows (λ v, v) two_tetrahedra)) + 1)%nat.
Proof.
  apply (exported_faces_glued (λ v, v) ["0 0 0"; "1 0 0"] 5 decimal_eval
           two_tetrahedra).
  - repeat (apply Forall_cons_2; [vm_compute; reflexivity|]). apply Forall_nil_2.
  - vm_compute. apply Exists_cons_hd. reflexivity.
Defined.

End vtu_text.
